(** * alexcesaro/mail: quoted-printable codec, RFC 2047 header words and
      line-bounded body writers

    A shallow embedding of the Go sources
    - [quotedprintable/quotedprintable.go] (RFC 2045 codec and stream encoder),
    - the RFC 2047 encoded-word file of the same package,
    - the [gomail] export file (message assembler and line writers),
    followed by the properties checked against the specification.

    Conventions.  A Go [byte] is a [Byte.byte]; a Go [int] is a [Z]; a
    [[]byte] read by index is a [list byte] indexed through [get], which
    yields [Panic] exactly where Go raises an index-out-of-range panic.
    Loops whose index does not advance by one are run on fuel, and every
    entry point is shown to terminate with the fuel it is given. *)

From Stdlib Require Import String List ZArith Lia Bool.
From Stdlib.Strings Require Import Byte.
Import ListNotations.
Local Open Scope Z_scope.

Set Implicit Arguments.

(* ================================================================== *)
(** ** Outcomes of Go computations *)

Inductive outcome (A : Type) : Type :=
| Done (a : A)      (* normal return *)
| Panic             (* run-time panic: index or slice bounds out of range *)
| OutOfFuel.        (* the model ran out of fuel (never happens, see below) *)

Arguments Done {A} a.
Arguments Panic {A}.
Arguments OutOfFuel {A}.

Definition bind {A B} (m : outcome A) (k : A -> outcome B) : outcome B :=
  match m with
  | Done a => k a
  | Panic => Panic
  | OutOfFuel => OutOfFuel
  end.

Notation "x <- m ;; k" := (bind m (fun x => k))
  (at level 61, m at next level, right associativity).
Notation "' p <- m ;; k" := (bind m (fun p => k))
  (at level 61, p pattern, m at next level, right associativity).

(* ================================================================== *)
(** ** Bytes and slices *)

Definition bval (c : byte) : Z := Z.of_N (Byte.to_N c).

(** Conversion of an integer to [byte] truncates to eight bits, as Go's
    arithmetic on [uint8] does. *)
Definition byte_of_Z (v : Z) : byte :=
  match Byte.of_N (Z.to_N (v mod 256)) with
  | Some b => b
  | None => x00
  end.

Definition beq (a b : byte) : bool := Byte.eqb a b.

Definition len {A} (l : list A) : Z := Z.of_nat (length l).

(** [s[i]] *)
Definition get {A} (s : list A) (i : Z) : outcome A :=
  if i <? 0 then Panic
  else match nth_error s (Z.to_nat i) with
       | Some c => Done c
       | None => Panic
       end.

(** [s[lo:hi]] on a slice whose capacity equals its length *)
Definition slice {A} (s : list A) (lo hi : Z) : outcome (list A) :=
  if (0 <=? lo) && (lo <=? hi) && (hi <=? len s)
  then Done (firstn (Z.to_nat (hi - lo)) (skipn (Z.to_nat lo) s))
  else Panic.

(** [s[lo:]] *)
Definition sliceFrom {A} (s : list A) (lo : Z) : outcome (list A) :=
  slice s lo (len s).

(** [bytes.IndexByte] *)
Fixpoint IndexByte (s : list byte) (c : byte) : Z :=
  match s with
  | [] => -1
  | b :: s' => if beq b c then 0
               else let r := IndexByte s' c in
                    if r <? 0 then -1 else r + 1
  end.

Definition bs (s : string) : list byte := list_byte_of_string s.

Definition LF : byte := x0a.
Definition CR : byte := x0d.
Definition SP : byte := x20.
Definition TAB : byte := x09.
Definition EQ : byte := x3d.

(* ================================================================== *)
(** ** Package quotedprintable, RFC 2045 part *)

Module quotedprintable.

(** [isVchar]: RFC 5322 VCHAR, '!' <= c <= '~' *)
Definition isVchar (c : byte) : bool :=
  (33 <=? bval c) && (bval c <=? 126).

(** [isWSP]: space or horizontal tab *)
Definition isWSP (c : byte) : bool := beq c SP || beq c TAB.

(** [isNewline] *)
Definition isNewline (c : byte) : bool := beq c LF || beq c CR.

Definition hextable : list byte := bs "0123456789ABCDEF".

(** [encodeByte]: the three bytes written to [dst[0..2]].  The two table
    indices are below 16, so the lookups cannot fail. *)
Definition encodeByte (b : byte) : list byte :=
  [ EQ;
    nth (Z.to_nat (Z.shiftr (bval b) 4)) hextable x00;
    nth (Z.to_nat (Z.land (bval b) 15)) hextable x00 ].

(** [isLastChar]: byte [i] is the last character of its line.  The index
    reads are guarded by the comparisons on [i], as in the source, so the
    default of [nth] is never used. *)
Definition isLastChar (i : Z) (src : list byte) : bool :=
  (i =? len src - 1)
  || ((i <? len src - 1) && beq (nth (Z.to_nat (i + 1)) src x00) LF)
  || ((i <? len src - 2) && beq (nth (Z.to_nat (i + 1)) src x00) CR
                         && beq (nth (Z.to_nat (i + 2)) src x00) LF).

(** One iteration of the loop of [Encode]: the bytes appended to [dst]
    for [src[i]]. *)
Definition encodeAt (src : list byte) (i : Z) : list byte :=
  let c := nth (Z.to_nat i) src x00 in
  if negb (beq c EQ) && (isVchar c || isNewline c) then [c]
  else if isWSP c then
    if isLastChar i src then encodeByte c else [c]
  else encodeByte c.

(** [Encode]: [dst[:n]] after the call, for a [dst] of at least
    [MaxEncodedLen (len src)] bytes. *)
Definition Encode (src : list byte) : list byte :=
  flat_map (fun k => encodeAt src (Z.of_nat k)) (seq 0 (length src)).

Definition MaxEncodedLen (n : Z) : Z := 3 * n.

Definition EncodeToString (src : list byte) : list byte := Encode src.

(** Errors of the package. [ErrUnexpectedEOF] is [io.ErrUnexpectedEOF];
    the others are the [fmt.Errorf] values of the source, with the data
    they print. *)
Inductive error : Type :=
| ErrUnexpectedEOF
| ErrInvalidHex (b : byte)            (* invalid quoted-printable hex byte *)
| ErrInvalidUnescaped (c : byte)      (* invalid unescaped byte in body *)
| ErrInvalidAfterEq (bytes : list byte) (* invalid bytes after = *)
| ErrInvalidQ (c : byte)              (* invalid unescaped byte in Q string *)
| ErrEncodingNotSupported (enc : list byte)
| ErrMultipleCharsets (c1 c2 : list byte)
| ErrBase64 (offset : Z).             (* base64.CorruptInputError *)

(** [fromHex]: only digits and upper-case A-F are accepted *)
Definition fromHex (b : byte) : Z * option error :=
  if (48 <=? bval b) && (bval b <=? 57) then (bval b - 48, None)
  else if (65 <=? bval b) && (bval b <=? 70) then (bval b - 65 + 10, None)
  else (0, Some (ErrInvalidHex b)).

(** [readHexByte] *)
Definition readHexByte (v : list byte) : outcome (byte * option error) :=
  v0 <- get v 0 ;;
  match fromHex v0 with
  | (_, Some e) => Done (x00, Some e)
  | (hb, None) =>
    v1 <- get v 1 ;;
    match fromHex v1 with
    | (_, Some e) => Done (x00, Some e)
    | (lb, None) => Done (byte_of_Z (Z.lor (Z.shiftl hb 4) lb), None)
    end
  end.

(** The variables [eol], [trimLen], [eolLen] and [err] of [Decode] *)
Record dstate : Type := mkD {
  d_eol : Z;
  d_trimLen : Z;
  d_eolLen : Z;
  d_err : option error
}.

Definition isTrimByte (c : byte) : bool :=
  beq c LF || beq c CR || beq c SP || beq c TAB.

(** The inner loop that counts the bytes to trim.  Returns the final
    [trimLen], [eolLen] and [err]. *)
Fixpoint trimLoop (fuel : nat) (src : list byte) (i eol eolLen trimLen : Z)
                  (err : option error) : outcome (Z * Z * option error) :=
  match fuel with
  | O => OutOfFuel
  | S fuel' =>
    if trimLen =? eol - eolLen - i then Done (trimLen, eolLen, err)
    else
      c <- get src (eol - eolLen - trimLen - 1) ;;
      if isTrimByte c then trimLoop fuel' src i eol eolLen (trimLen + 1) err
      else if beq c EQ then
        if 0 <? trimLen then
          let trimLen' := trimLen + eolLen + 1 in
          after <- slice src (eol - trimLen' + 1) eol ;;
          Done (trimLen', 0, Some (ErrInvalidAfterEq after))
        else Done (eolLen + 1, 0, err)
      else Done (trimLen, eolLen, err)
  end.

(** The block executed when [i == eol]: locate the end of the line that
    starts at [i] and count its trailing bytes. *)
Definition scanLine (src : list byte) (i : Z) (err : option error)
  : outcome dstate :=
  rest <- sliceFrom src i ;;
  let eol := IndexByte rest LF + i + 1 in
  '(eol, eolLen) <-
     (if eol =? i then Done (len src, 0)
      else if i <=? eol - 2 then
             c <- get src (eol - 2) ;;
             if beq c CR then Done (eol, 2) else Done (eol, 1)
           else Done (eol, 1)) ;;
  '(trimLen, eolLen, err) <-
     trimLoop (S (length src)) src i eol eolLen 0 err ;;
  Done (mkD eol trimLen eolLen err).

(** The outer loop of [Decode], from index [i], with [dst[:n]] = [dst]. *)
Fixpoint decodeLoop (fuel : nat) (src : list byte) (i : Z) (st : dstate)
                    (dst : list byte) : outcome (list byte * option error) :=
  match fuel with
  | O => OutOfFuel
  | S fuel' =>
    if len src <=? i then Done (dst, None)
    else
      st <- (if i =? d_eol st then scanLine src i (d_err st) else Done st) ;;
      if (0 <? d_trimLen st) && (i =? d_eol st - d_trimLen st - d_eolLen st)
      then
        match d_err st with
        | Some e => Done (dst, Some e)
        | None => decodeLoop fuel' src (i + (d_trimLen st - 1) + 1) st dst
        end
      else
        c <- get src i ;;
        if beq c EQ then
          if len src <=? i + 2 then Done (dst, Some ErrUnexpectedEOF)
          else
            v <- sliceFrom src (i + 1) ;;
            '(b, convErr) <- readHexByte v ;;
            match convErr with
            | Some e => Done (dst, Some e)
            | None => decodeLoop fuel' src (i + 2 + 1) st (dst ++ [b])
            end
        else if ((32 <=? bval c) && (bval c <=? 126))
                || beq c LF || beq c CR || beq c TAB
        then decodeLoop fuel' src (i + 1) st (dst ++ [c])
        else Done (dst, Some (ErrInvalidUnescaped c))
  end.

(** [Decode]: returns [dst[:n]] and [err].  [eol], [trimLen] and [eolLen]
    start at zero and [err] at nil. *)
Definition Decode (src : list byte) : outcome (list byte * option error) :=
  decodeLoop (S (length src)) src 0 (mkD 0 0 0 None) [].

Definition MaxDecodedLen (n : Z) : Z := n.

Definition DecodeString (s : list byte) : outcome (list byte * option error) :=
  Decode s.


(* ------------------------------------------------------------------ *)
(** *** Base64, as provided by Go's [encoding/base64] ([StdEncoding]) *)

Definition b64alphabet : list byte :=
  bs "ABCDEFGHIJKLMNOPQRSTUVWXYZabcdefghijklmnopqrstuvwxyz0123456789+/".

Definition b64char (v : Z) : byte := nth (Z.to_nat v) b64alphabet x00.

(** [EncodedLen] of the padded standard encoding *)
Definition EncodedLen (n : Z) : Z := (n + 2) / 3 * 4.

Fixpoint b64EncodeToString (s : list byte) : list byte :=
  match s with
  | [] => []
  | [a] =>
    [ b64char (Z.shiftr (bval a) 2);
      b64char (Z.shiftl (Z.land (bval a) 3) 4); EQ; EQ ]
  | [a; b] =>
    [ b64char (Z.shiftr (bval a) 2);
      b64char (Z.lor (Z.shiftl (Z.land (bval a) 3) 4) (Z.shiftr (bval b) 4));
      b64char (Z.shiftl (Z.land (bval b) 15) 2); EQ ]
  | a :: b :: c :: rest =>
    [ b64char (Z.shiftr (bval a) 2);
      b64char (Z.lor (Z.shiftl (Z.land (bval a) 3) 4) (Z.shiftr (bval b) 4));
      b64char (Z.lor (Z.shiftl (Z.land (bval b) 15) 2) (Z.shiftr (bval c) 6));
      b64char (Z.land (bval c) 63) ] ++ b64EncodeToString rest
  end.

(** The decode map: the value of an alphabet character. *)
Definition b64value (c : byte) : option Z :=
  let v := bval c in
  if (65 <=? v) && (v <=? 90) then Some (v - 65)
  else if (97 <=? v) && (v <=? 122) then Some (v - 97 + 26)
  else if (48 <=? v) && (v <=? 57) then Some (v - 48 + 52)
  else if v =? 43 then Some 62
  else if v =? 47 then Some 63
  else None.

(** Quanta of four characters; padding is accepted in the last quantum
    only and nothing may follow it. *)
Fixpoint b64quanta (s : list byte) : option (list byte) :=
  match s with
  | [] => Some []
  | c1 :: c2 :: c3 :: c4 :: rest =>
    match b64value c1, b64value c2 with
    | Some v1, Some v2 =>
      let b1 := byte_of_Z (Z.lor (Z.shiftl v1 2) (Z.shiftr v2 4)) in
      match b64value c3, b64value c4 with
      | Some v3, Some v4 =>
        let b2 := byte_of_Z (Z.lor (Z.shiftl v2 4) (Z.shiftr v3 2)) in
        let b3 := byte_of_Z (Z.lor (Z.shiftl v3 6) v4) in
        option_map (fun r => b1 :: b2 :: b3 :: r) (b64quanta rest)
      | Some v3, None =>
        if beq c4 EQ then
          match rest with
          | [] => Some [b1; byte_of_Z (Z.lor (Z.shiftl v2 4) (Z.shiftr v3 2))]
          | _ => None
          end
        else None
      | None, _ =>
        if beq c3 EQ && beq c4 EQ then
          match rest with [] => Some [b1] | _ => None end
        else None
      end
    | _, _ => None
    end
  | _ => None
  end.

(** [DecodeString]: carriage returns and line feeds are ignored; a corrupt
    input yields an error (the partial output Go returns with it is not
    modelled: its only caller, [decodeWord], is called from code that
    discards it). *)
Definition b64DecodeString (s : list byte) : list byte * option error :=
  match b64quanta (filter (fun c => negb (beq c LF || beq c CR)) s) with
  | Some d => (d, None)
  | None => ([], Some (ErrBase64 0))
  end.

(* ------------------------------------------------------------------ *)
(** *** RFC 2047 encoded words *)

Definition Q : list byte := bs "Q".
Definition B : list byte := bs "B".

Record HeaderEncoder : Type := mkHeaderEncoder {
  charset : list byte;
  encoding : list byte;
  splitWords : bool
}.

Definition maxEncodedWordLen : Z := 75.

Definition StdHeaderEncoder : HeaderEncoder :=
  mkHeaderEncoder (bs "UTF-8") Q true.

(** [strings.ToUpper], on ASCII letters.  The results are only compared
    with "Q", "B" and "UTF-8", which no non-ASCII letter upper-cases to. *)
Definition upperByte (c : byte) : byte :=
  if (97 <=? bval c) && (bval c <=? 122) then byte_of_Z (bval c - 32) else c.

Definition ToUpper (s : list byte) : list byte := map upperByte s.

Fixpoint bytes_eqb (a b : list byte) : bool :=
  match a, b with
  | [], [] => true
  | x :: a', y :: b' => beq x y && bytes_eqb a' b'
  | _, _ => false
  end.

(** [NewHeaderEncoder] *)
Definition NewHeaderEncoder (cs enc : list byte)
  : option HeaderEncoder * option error :=
  if negb (bytes_eqb (ToUpper enc) Q) && negb (bytes_eqb (ToUpper enc) B)
  then (None, Some (ErrEncodingNotSupported enc))
  else (Some (mkHeaderEncoder cs enc (bytes_eqb (ToUpper cs) (bs "UTF-8"))),
        None).

(** [needsEncoding] *)
Definition needsEncoding (s : list byte) : bool :=
  existsb (fun c => negb (isVchar c) && negb (isWSP c)) s.

(** [openWord], [closeWord], [splitWord]: the buffer after the call and
    the value returned. *)
Definition openWord (e : HeaderEncoder) (buf : list byte) : list byte * Z :=
  (buf ++ bs "=?" ++ charset e ++ bs "?" ++ encoding e ++ bs "?",
   4 + len (charset e) + len (encoding e)).

Definition closeWord (buf : list byte) : list byte := buf ++ bs "?=".

Definition splitWord (e : HeaderEncoder) (buf : list byte) : list byte * Z :=
  openWord e (closeWord buf ++ [CR; LF; SP]).

(** [utf8.RuneStart] *)
Definition RuneStart (b : byte) : bool :=
  negb (Z.land (bval b) 192 =? 128).

(** [getRuneSize] *)
Fixpoint runeSizeLoop (fuel : nat) (s : list byte) (i runeSize : Z)
  : outcome Z :=
  match fuel with
  | O => OutOfFuel
  | S fuel' =>
    if i + runeSize <? len s then
      c <- get s (i + runeSize) ;;
      if negb (RuneStart c) then runeSizeLoop fuel' s i (runeSize + 1)
      else Done runeSize
    else Done runeSize
  end.

Definition getRuneSize (s : list byte) (i : Z) : outcome Z :=
  runeSizeLoop (S (length s)) s i 1.

Definition isQSafe (b : byte) : bool :=
  isVchar b && negb (beq b EQ) && negb (beq b x3f) && negb (beq b x5f).

(** [writeQ] and [writeQString]: the bytes appended to the buffer *)
Definition writeQ (b : byte) : list byte :=
  if beq b SP then [x5f]
  else if isQSafe b then [b]
  else encodeByte b.

Definition writeQString (s : list byte) : list byte := flat_map writeQ s.

(** The splitting loop of the B branch of [encodeWord] *)
Fixpoint bLoop (fuel : nat) (e : HeaderEncoder) (s : list byte) (maxLen : Z)
               (i n last : Z) (buf : list byte) : outcome (list byte * Z) :=
  match fuel with
  | O => OutOfFuel
  | S fuel' =>
    if i <? len s then
      runeSize <- getRuneSize s i ;;
      if EncodedLen (n + runeSize) <=? maxLen
      then bLoop fuel' e s maxLen (i + runeSize) (n + runeSize) last buf
      else
        chunk <- slice s last i ;;
        let buf := fst (splitWord e (buf ++ b64EncodeToString chunk)) in
        bLoop fuel' e s maxLen (i + runeSize) runeSize i buf
    else Done (buf, last)
  end.

(** The splitting loop of the Q branch of [encodeWord] *)
Fixpoint qLoop (fuel : nat) (e : HeaderEncoder) (s : list byte)
               (i n : Z) (buf : list byte) : outcome (list byte) :=
  match fuel with
  | O => OutOfFuel
  | S fuel' =>
    if i <? len s then
      b <- get s i ;;
      '(encLen, runeSize) <-
         (if beq b SP || isQSafe b then Done (1, 1)
          else runeSize <- getRuneSize s i ;; Done (3 * runeSize, runeSize)) ;;
      let '(buf, n) :=
        if maxEncodedWordLen - 2 <? n + encLen then splitWord e buf
        else (buf, n) in
      rune <- slice s i (i + runeSize) ;;
      qLoop fuel' e s (i + runeSize) (n + encLen) (buf ++ writeQString rune)
    else Done buf
  end.

(** [encodeWord] *)
Definition encodeWord (e : HeaderEncoder) (s : list byte)
  : outcome (list byte) :=
  let buf := fst (openWord e []) in
  if bytes_eqb (ToUpper (encoding e)) B then
    let maxLen := maxEncodedWordLen - len buf - 2 in
    if negb (splitWords e) || (EncodedLen (len s) <=? maxLen)
    then Done (closeWord (buf ++ b64EncodeToString s))
    else
      '(buf, last) <- bLoop (S (length s)) e s maxLen 0 0 0 buf ;;
      tail <- sliceFrom s last ;;
      Done (closeWord (buf ++ b64EncodeToString tail))
  else
    if negb (splitWords e)
    then Done (closeWord (buf ++ writeQString s))
    else
      buf <- qLoop (S (length s)) e s 0 (len buf) buf ;;
      Done (closeWord buf).

(** [EncodeHeader] *)
Definition EncodeHeader (e : HeaderEncoder) (s : list byte)
  : outcome (list byte) :=
  if negb (needsEncoding s) then Done s else encodeWord e s.

(** [qDecode]: [dec[:n]] and the error *)
Fixpoint qDecodeLoop (fuel : nat) (s : list byte) (i : Z) (dec : list byte)
  : outcome (list byte * option error) :=
  match fuel with
  | O => OutOfFuel
  | S fuel' =>
    if i <? len s then
      c <- get s i ;;
      if beq c x5f then qDecodeLoop fuel' s (i + 1) (dec ++ [SP])
      else if beq c EQ then
        if len s <=? i + 2 then Done (dec, Some ErrUnexpectedEOF)
        else
          v <- sliceFrom s (i + 1) ;;
          '(b, err) <- readHexByte v ;;
          match err with
          | Some er => Done (dec, Some er)
          | None => qDecodeLoop fuel' s (i + 2 + 1) (dec ++ [b])
          end
      else if isVchar c || beq c SP || beq c LF || beq c CR || beq c TAB
      then qDecodeLoop fuel' s (i + 1) (dec ++ [c])
      else Done (dec, Some (ErrInvalidQ c))
    else Done (dec, None)
  end.

Definition qDecode (s : list byte) : outcome (list byte * option error) :=
  qDecodeLoop (S (length s)) s 0 [].

(** [strings.Split(s, sep)] for a one-byte separator *)
Fixpoint Split (s : list byte) (sep : byte) : list (list byte) :=
  match s with
  | [] => [[]]
  | c :: s' =>
    if beq c sep then [] :: Split s' sep
    else match Split s' sep with
         | f :: fs => (c :: f) :: fs
         | [] => [[c]]
         end
  end.

(** [decodeWord]: text, charset, error *)
Definition decodeWord (s : list byte)
  : outcome (list byte * list byte * option error) :=
  match Split s x3f with
  | [f0; cs; enc; src; f4] =>
    if negb (bytes_eqb f0 [EQ]) || negb (bytes_eqb f4 [EQ])
       || negb (len enc =? 1)
    then Done (s, [], None)
    else if bytes_eqb (ToUpper enc) B then
      let '(dec, err) := b64DecodeString src in Done (dec, cs, err)
    else if bytes_eqb (ToUpper enc) Q then
      '(dec, err) <- qDecode src ;; Done (dec, cs, err)
    else Done ([], cs, Some (ErrEncodingNotSupported enc))
  | _ => Done (s, [], None)
  end.

(** The regular expression [rfc2047],
    [^=\?[\w\-]+\?[bBqQ]\?[^?]+\?=], matched at the start of the text.
    Neither repeated class contains the question mark that must follow
    it, so the greedy match is the only one: the longest run of class
    characters, then the literal. *)
Definition isWordChar (c : byte) : bool :=
  ((48 <=? bval c) && (bval c <=? 57)) || ((65 <=? bval c) && (bval c <=? 90))
  || ((97 <=? bval c) && (bval c <=? 122)) || beq c x5f || beq c x2d.

Fixpoint span (p : byte -> bool) (s : list byte) : list byte * list byte :=
  match s with
  | [] => ([], [])
  | c :: s' => if p c then let '(a, b) := span p s' in (c :: a, b)
               else ([], s)
  end.

(** [rfc2047.FindString]: the matched encoded word, or the empty string *)
Definition FindString (header : list byte) : list byte :=
  match header with
  | e :: q :: r1 =>
    if beq e EQ && beq q x3f then
      let '(cs, r2) := span isWordChar r1 in
      match cs, r2 with
      | _ :: _, q2 :: enc :: q3 :: r3 =>
        if beq q2 x3f
           && (beq enc x62 || beq enc x42 || beq enc x71 || beq enc x51)
           && beq q3 x3f
        then
          let '(payload, r4) := span (fun c => negb (beq c x3f)) r3 in
          match payload, r4 with
          | _ :: _, q4 :: e2 :: _ =>
            if beq q4 x3f && beq e2 EQ
            then [e; q] ++ cs ++ [q2; enc; q3] ++ payload ++ [q4; e2]
            else []
          | _, _ => []
          end
        else []
      | _, _ => []
      end
    else []
  | _ => []
  end.

Definition isNil {A} (l : list A) : bool :=
  match l with [] => true | _ => false end.

(** The number of leading white-space and newline bytes *)
Fixpoint countLWS (s : list byte) : Z :=
  match s with
  | c :: s' => if isWSP c || isNewline c then 1 + countLWS s' else 0
  | [] => 0
  end.

(** The state of [DecodeHeader]: the rest of the header, the buffer and
    the charset seen so far. *)
Record hstate : Type := mkH {
  h_header : list byte;
  h_buf : list byte;
  h_charset : list byte
}.

(** The inner loop, over consecutive encoded words.  [inl] is the state at
    the [break]; [inr] is the error returned from inside the loop. *)
Fixpoint wordLoop (fuel : nat) (word : list byte) (st : hstate)
  : outcome (hstate + error) :=
  match fuel with
  | O => OutOfFuel
  | S fuel' =>
    '(dec, wordCharset, err) <- decodeWord word ;;
    match err with
    | Some _ =>
      rest <- sliceFrom (h_header st) (len word) ;;
      Done (inl (mkH rest (h_buf st ++ word) (h_charset st)))
    | None =>
      if negb (isNil (h_charset st))
         && negb (bytes_eqb (h_charset st) wordCharset)
      then Done (inr (ErrMultipleCharsets (h_charset st) wordCharset))
      else
        let cs := if isNil (h_charset st) then wordCharset
                  else h_charset st in
        rest <- sliceFrom (h_header st) (len word) ;;
        let st1 := mkH rest (h_buf st ++ dec) cs in
        let j := countLWS rest in
        if j =? 0 then Done (inl st1)
        else
          after <- sliceFrom rest j ;;
          let word := FindString after in
          if isNil word then Done (inl st1)
          else wordLoop fuel' word (mkH after (h_buf st1) cs)
    end
  end.

(** The outer loop of [DecodeHeader] *)
Fixpoint headerLoop (fuel : nat) (st : hstate)
  : outcome (list byte * list byte * option error) :=
  match fuel with
  | O => OutOfFuel
  | S fuel' =>
    let i := IndexByte (h_header st) EQ in
    if i =? -1 then Done (h_buf st ++ h_header st, h_charset st, None)
    else
      st <- (if 0 <? i then
               pre <- slice (h_header st) 0 i ;;
               rest <- sliceFrom (h_header st) i ;;
               Done (mkH rest (h_buf st ++ pre) (h_charset st))
             else Done st) ;;
      let word := FindString (h_header st) in
      if isNil word then
        rest <- sliceFrom (h_header st) 1 ;;
        headerLoop fuel' (mkH rest (h_buf st ++ [EQ]) (h_charset st))
      else
        r <- wordLoop (S (length (h_header st))) word st ;;
        match r with
        | inr e => Done ([], [], Some e)
        | inl st => headerLoop fuel' st
        end
  end.

(** [DecodeHeader]: text, charset, error *)
Definition DecodeHeader (header : list byte)
  : outcome (list byte * list byte * option error) :=
  headerLoop (S (length header)) (mkH header [] []).

End quotedprintable.

Import quotedprintable.

(* ------------------------------------------------------------------ *)
(** *** Byte slices with capacity and [io.Writer] *)

(** A Go [[]byte] as a writer sees it: the bytes below its length, and the
    bytes of the backing array between its length and its capacity, which
    a slice expression [p[:k]] may reach. *)
Record bslice : Type := mkSlice {
  sdata : list byte;
  sspare : list byte
}.

Definition slen (p : bslice) : Z := len (sdata p).
Definition scap (p : bslice) : Z := len (sdata p) + len (sspare p).

(** [p[lo:hi]], which panics unless [0 <= lo <= hi <= cap(p)] *)
Definition reslice (p : bslice) (lo hi : Z) : outcome bslice :=
  let all := sdata p ++ sspare p in
  if (0 <=? lo) && (lo <=? hi) && (hi <=? len all)
  then Done (mkSlice (firstn (Z.to_nat (hi - lo)) (skipn (Z.to_nat lo) all))
                     (skipn (Z.to_nat hi) all))
  else Panic.

(** [p[:hi]] *)
Definition resliceTo (p : bslice) (hi : Z) : outcome bslice := reslice p 0 hi.

(** [p[lo:]], whose upper bound is [len(p)] *)
Definition resliceFrom (p : bslice) (lo : Z) : outcome bslice :=
  reslice p lo (slen p).

(** [[]byte("...")] and [make([]byte, n)] *)
Definition literal (s : list byte) : bslice := mkSlice s [].
Definition make (n : Z) : list byte := repeat x00 (Z.to_nat n).

(** [io.Writer]: [Write] returns the writer's new state, the number of bytes
    written and the error. *)
Class Writer (W : Type) : Type :=
  Write : W -> bslice -> outcome (W * Z * option error).

(** [bytes.Buffer] *)
Record Buffer : Type := mkBuffer { contents : list byte }.

#[export] Instance Buffer_Writer : Writer Buffer :=
  fun b p => Done (mkBuffer (contents b ++ sdata p), slen p, None).

(** A writer that accepts [room] more bytes and then fails with [failure]:
    the downstream of the short-write scenarios. *)
Record LimitedWriter : Type := mkLimited {
  accepted : list byte;
  room : Z;
  failure : error
}.

#[export] Instance LimitedWriter_Writer : Writer LimitedWriter :=
  fun w p =>
    if slen p <=? room w
    then Done (mkLimited (accepted w ++ sdata p) (room w - slen p) (failure w),
               slen p, None)
    else Done (mkLimited (accepted w ++ firstn (Z.to_nat (room w)) (sdata p))
                         0 (failure w),
               Z.max 0 (room w), Some (failure w)).

Module encoder.

(** [type encoder struct { w io.Writer }] *)
Record encoder (W : Type) : Type := mkEncoder { w : W }.
Arguments mkEncoder {W} w.
Arguments w {W} e.

(** The loop that counts, after a failed write of [n] bytes, the input
    bytes whose encoding was written in full. *)
Fixpoint countLoop (fuel : nat) (dbuf : list byte) (n i nn : Z) : outcome Z :=
  match fuel with
  | O => OutOfFuel
  | S fuel' =>
    if i <? n then
      c <- get dbuf i ;;
      if beq c EQ then
        if n <=? i + 2 then Done nn
        else countLoop fuel' dbuf n (i + 2 + 1) (nn + 1)
      else countLoop fuel' dbuf n (i + 1) (nn + 1)
    else Done nn
  end.

(** [encoder.Write] *)
Definition encoder_Write {W} `{Writer W} (e : encoder W) (p : bslice)
  : outcome (encoder W * Z * option error) :=
  let enc := quotedprintable.Encode (sdata p) in
  let dbuf := enc ++ make (quotedprintable.MaxEncodedLen (slen p) - len enc) in
  q <- reslice (literal dbuf) 0 (len enc) ;;
  '(w', n, err) <- Write (w e) q ;;
  match err with
  | Some er =>
    nn <- countLoop (S (length dbuf)) dbuf n 0 0 ;;
    Done (mkEncoder w', nn, Some er)
  | None => Done (mkEncoder w', slen p, None)
  end.

#[export] Instance encoder_Writer {W} `{Writer W} : Writer (encoder W) :=
  encoder_Write.

(** [NewEncoder] *)
Definition NewEncoder {W} (w : W) : encoder W := mkEncoder w.

End encoder.

(* ================================================================== *)
(** ** Package gomail: the line-bounded writers *)

Module gomail.

Import encoder.

(** As defined in RFC 5322, 2.1.1. *)
Definition maxLineLen : Z := 78.

(** [type base64LineWriter struct { w io.Writer; lineLen int }] *)
Record base64LineWriter (W : Type) : Type := mkB64 {
  b_w : W;
  b_lineLen : Z
}.
Arguments mkB64 {W} b_w b_lineLen.
Arguments b_w {W} b.
Arguments b_lineLen {W} b.

Definition newBase64LineWriter {W} (w : W) : base64LineWriter W := mkB64 w 0.

(** The loop of [base64LineWriter.Write]; the results of the writes to
    [w.w] are ignored, as in the source. *)
Fixpoint b64Loop {W} `{Writer W} (fuel : nat) (w : W) (lineLen : Z)
                 (p : bslice) (n : Z) : outcome (W * Z * bslice * Z) :=
  match fuel with
  | O => OutOfFuel
  | S fuel' =>
    if maxLineLen <? slen p + lineLen then
      chunk <- resliceTo p (maxLineLen - lineLen) ;;
      '(w1, _, _) <- Write w chunk ;;
      '(w2, _, _) <- Write w1 (literal [CR; LF]) ;;
      p' <- resliceFrom p (maxLineLen - lineLen) ;;
      b64Loop fuel' w2 0 p' (n + (maxLineLen - lineLen))
    else Done (w, lineLen, p, n)
  end.

(** [base64LineWriter.Write] *)
Definition base64LineWriter_Write {W} `{Writer W}
    (lw : base64LineWriter W) (p : bslice)
  : outcome (base64LineWriter W * Z * option error) :=
  '(w, lineLen, p, n) <-
     b64Loop (S (S (length (sdata p)))) (b_w lw) (b_lineLen lw) p 0 ;;
  '(w', _, _) <- Write w p ;;
  Done (mkB64 w' (lineLen + slen p), n + slen p, None).

#[export] Instance base64LineWriter_Writer {W} `{Writer W}
  : Writer (base64LineWriter W) := base64LineWriter_Write.

(** [type qpLineWriter struct { w io.Writer; lineLen int }] *)
Record qpLineWriter (W : Type) : Type := mkQp {
  q_w : W;
  q_lineLen : Z
}.
Arguments mkQp {W} q_w q_lineLen.
Arguments q_w {W} q.
Arguments q_lineLen {W} q.

Definition newQpLineWriter {W} (w : W) : qpLineWriter W := mkQp w 0.

(** [bytes.IndexAny(s, chars)] for single-byte characters *)
Fixpoint IndexAny (s : list byte) (chars : list byte) : Z :=
  match s with
  | [] => -1
  | b :: s' => if existsb (beq b) chars then 0
               else let r := IndexAny s' chars in
                    if r <? 0 then -1 else r + 1
  end.

(** The loop of [qpLineWriter.Write] *)
Fixpoint qpLoop {W} `{Writer W} (fuel : nat) (w : W) (lineLen : Z)
                (p : bslice) (n : Z) : outcome (W * Z * Z) :=
  match fuel with
  | O => OutOfFuel
  | S fuel' =>
    if 0 <? slen p then
      (* If the text is not over the limit, write everything *)
      if slen p <? maxLineLen - lineLen then
        '(w1, _, _) <- Write w p ;;
        Done (w1, lineLen + slen p, n + slen p)
      else
        window <- resliceTo p (maxLineLen - lineLen + 2) ;;
        let i := IndexAny (sdata window) [LF] in
        (* If there is a newline before the limit, write the end of the line *)
        newline <-
          (if negb (i =? -1) then
             if negb (i =? maxLineLen - lineLen + 1) then Done true
             else c <- get (sdata p) (i - 1) ;; Done (beq c CR)
           else Done false) ;;
        if newline then
          line <- resliceTo p (i + 1) ;;
          '(w1, _, _) <- Write w line ;;
          p' <- resliceFrom p (i + 1) ;;
          qpLoop fuel' w1 0 p' (n + (i + 1))
        else
          (* Quoted-printable text must not be cut between an equal sign
             and the two following characters *)
          first <-
            (if 0 <=? maxLineLen - lineLen - 2 then
               c <- get (sdata p) (maxLineLen - lineLen - 2) ;;
               Done (beq c EQ)
             else Done false) ;;
          toWrite <-
            (if first then Done (maxLineLen - lineLen - 2)
             else
               c <- get (sdata p) (maxLineLen - lineLen - 1) ;;
               if beq c EQ then Done (maxLineLen - lineLen - 1)
               else Done (maxLineLen - lineLen)) ;;
          (* Insert the newline where it is needed *)
          chunk <- resliceTo p toWrite ;;
          '(w1, _, _) <- Write w chunk ;;
          '(w2, _, _) <- Write w1 (literal [EQ; CR; LF]) ;;
          p' <- resliceFrom p toWrite ;;
          qpLoop fuel' w2 0 p' (n + toWrite)
    else Done (w, lineLen, n)
  end.

(** [qpLineWriter.Write] *)
Definition qpLineWriter_Write {W} `{Writer W}
    (lw : qpLineWriter W) (p : bslice)
  : outcome (qpLineWriter W * Z * option error) :=
  '(w, lineLen, n) <-
     qpLoop (2 * length (sdata p) + 2) (q_w lw) (q_lineLen lw) p 0 ;;
  Done (mkQp w lineLen, n, None).

#[export] Instance qpLineWriter_Writer {W} `{Writer W}
  : Writer (qpLineWriter W) := qpLineWriter_Write.

(* ------------------------------------------------------------------ *)
(** *** The message and its export *)

(** [QuotedPrintable] and [Base64], the names of the two encodings *)
Definition QuotedPrintable : string := "quoted-printable".
Definition Base64 : string := "base64".

(** The quotation mark, as a string *)
Definition quote : string := String (Ascii.ascii_of_byte x22) EmptyString.

(** [header], [mail.Header] and [textproto.MIMEHeader] are maps from a field
    name to its values; they are association lists with distinct keys. *)
Definition Header : Type := list (string * list string).

(** [h[k]] *)
Fixpoint lookup (h : Header) (k : string) : option (list string) :=
  match h with
  | [] => None
  | (k', v) :: t => if String.eqb k' k then Some v else lookup t k
  end.

(** [h[k] = v] *)
Fixpoint assign (h : Header) (k : string) (v : list string) : Header :=
  match h with
  | [] => [(k, v)]
  | (k', v') :: t =>
    if String.eqb k' k then (k, v) :: t else (k', v') :: assign t k v
  end.

(** [h.Set(k, v)], for a key in canonical form *)
Definition MIMEHeader_Set (h : Header) (k v : string) : Header :=
  assign h k [v].

(** [type part struct { contentType string; body *bytes.Buffer }] *)
Record part : Type := mkPart {
  contentType : string;
  body : list byte
}.

(** [type attachment struct { name string; content []byte }] *)
Record attachment : Type := mkAttachment {
  name : string;
  content : list byte
}.

(** [type Message struct] *)
Record Message : Type := mkMessage {
  header : Header;
  parts : list part;
  attachments : list attachment;
  charset : string;
  encoding : string;
  hEncoder : option HeaderEncoder
}.

(** [NewCustomMessage]; [NewHeaderEncoder] does not fail on [Q] and [B]. *)
Definition NewCustomMessage (charset encoding : string) : Message :=
  let enc := if String.eqb encoding Base64 then B else Q in
  let encoder :=
    match NewHeaderEncoder (bs charset) enc with
    | (e, _) => e
    end in
  mkMessage [] [] [] charset encoding encoder.

(** [NewMessage] *)
Definition NewMessage : Message := NewCustomMessage "UTF-8" QuotedPrintable.

(** [SetBody], [AddAlternative] and [Attach]; the file is read by the
    caller, [Attach] gets its base name and its content. *)
Definition SetBody (msg : Message) (contentType body : string) : Message :=
  mkMessage (header msg) [mkPart contentType (bs body)] (attachments msg)
            (charset msg) (encoding msg) (hEncoder msg).

Definition AddAlternative (msg : Message) (contentType body : string)
  : Message :=
  mkMessage (header msg) (parts msg ++ [mkPart contentType (bs body)])
            (attachments msg) (charset msg) (encoding msg) (hEncoder msg).

Definition Attach (msg : Message) (base : string) (content : list byte)
  : Message :=
  mkMessage (header msg) (parts msg)
            (attachments msg ++ [mkAttachment base content])
            (charset msg) (encoding msg) (hEncoder msg).

(** [isMixed] and [isAlternative] *)
Definition isMixed (msg : Message) : bool :=
  ((0 <? len (parts msg)) && (0 <? len (attachments msg)))
  || (1 <? len (attachments msg)).

Definition isAlternative (msg : Message) : bool :=
  1 <? len (parts msg).

(** What the export takes from outside the package: the clock, the random
    boundary of the multipart writer made at a depth, the type of a file
    extension, the extension of a file name, and the bytes that
    [multipart.Writer] writes when a part is created (from the boundary,
    whether a part was created before and the header of the part) and when
    the writer is closed. *)
Record world : Type := mkWorld {
  date : string;
  boundaryOf : Z -> string;
  TypeByExtension : string -> string;
  Ext : string -> string;
  partHead : string -> bool -> Header -> list byte;
  closeDelim : string -> list byte
}.

(** [multipart.Writer]: its boundary and whether it has created a part.  It
    writes to the buffer of the message writer. *)
Record multipartWriter : Type := mkMultipart {
  Boundary : string;
  lastpart : bool
}.

(** The calls of the methods of the message writer, in order. *)
Inductive call : Type :=
| OpenMultipart (mimeType : string)
| CloseMultipart
| WriteHeader (h : Header)
| WriteBody (body : list byte) (encoding : string).

(** [type messageWriter struct].  [partWriter] tells whether a part writer
    is set: a part writer passes what it is given on to [buf].  [calls] is
    not a field of the source: it records the calls of the methods. *)
Record messageWriter : Type := mkMessageWriter {
  mw_header : Header;
  buf : Buffer;
  writers : list (option multipartWriter);
  partWriter : bool;
  depth : Z;
  calls : list call
}.

Definition record (c : call) (w : messageWriter) : messageWriter :=
  mkMessageWriter (mw_header w) (buf w) (writers w) (partWriter w) (depth w)
                  (calls w ++ [c]).

(** [newMessageWriter] *)
Definition newMessageWriter (E : world) (msg : Message) : messageWriter :=
  let h := fold_left (fun h kv => assign h (fst kv) (snd kv)) (header msg) [] in
  let h := match lookup h "Mime-Version" with
           | Some _ => h
           | None => assign h "Mime-Version" ["1.0"%string]
           end in
  let h := match lookup h "Date" with
           | Some _ => h
           | None => assign h "Date" [date E]
           end in
  mkMessageWriter h (mkBuffer []) [None; None] false 0 [].

(** [w.writers[i]] and [w.writers[i] = m], for [i] of type [uint8] *)
Definition writerAt (w : messageWriter) (i : Z)
  : outcome (option multipartWriter) :=
  get (writers w) (i mod 256).

Definition setWriterAt (w : messageWriter) (i : Z) (m : multipartWriter)
  : outcome messageWriter :=
  _ <- get (writers w) (i mod 256) ;;
  Done (mkMessageWriter (mw_header w) (buf w)
          (firstn (Z.to_nat (i mod 256)) (writers w) ++ [Some m]
           ++ skipn (S (Z.to_nat (i mod 256))) (writers w))
          (partWriter w) (depth w) (calls w)).

(** [createPart]: [CreatePart] on a nil writer fails. *)
Definition createPart (E : world) (w : messageWriter) (h : Header)
  : outcome messageWriter :=
  m <- writerAt w (depth w - 1) ;;
  match m with
  | None => Panic
  | Some m =>
    let b := mkBuffer (contents (buf w)
                       ++ partHead E (Boundary m) (lastpart m) h) in
    w1 <- setWriterAt w (depth w - 1) (mkMultipart (Boundary m) true) ;;
    Done (mkMessageWriter (mw_header w1) b (writers w1) true (depth w1)
                          (calls w1))
  end.

(** [openMultipart] *)
Definition openMultipart (E : world) (w : messageWriter) (mimeType : string)
  : outcome messageWriter :=
  let w := record (OpenMultipart mimeType) w in
  let m := mkMultipart (boundaryOf E (depth w)) false in
  w <- setWriterAt w (depth w) m ;;
  let contentType :=
    ("multipart/" ++ mimeType ++ "; boundary=" ++ Boundary m)%string in
  w <- (if depth w =? 0 then
          Done (mkMessageWriter (assign (mw_header w) "Content-Type"
                                        [contentType])
                                (buf w) (writers w) (partWriter w) (depth w)
                                (calls w))
        else createPart E w (MIMEHeader_Set [] "Content-Type" contentType)) ;;
  Done (mkMessageWriter (mw_header w) (buf w) (writers w) (partWriter w)
                        ((depth w + 1) mod 256) (calls w)).

(** [closeMultipart] *)
Definition closeMultipart (E : world) (w : messageWriter)
  : outcome messageWriter :=
  let w := record CloseMultipart w in
  if 0 <? depth w then
    m <- writerAt w (depth w - 1) ;;
    match m with
    | None => Panic
    | Some m =>
      w <- setWriterAt w (depth w - 1) (mkMultipart (Boundary m) false) ;;
      Done (mkMessageWriter (mw_header w)
              (mkBuffer (contents (buf w) ++ closeDelim E (Boundary m)))
              (writers w) (partWriter w) (depth w - 1) (calls w))
    end
  else Done w.

(** [writeHeader] *)
Definition writeHeader (E : world) (w : messageWriter) (h : Header)
  : outcome messageWriter :=
  let w := record (WriteHeader h) w in
  if depth w =? 0 then
    Done (mkMessageWriter
            (fold_left (fun hd kv => assign hd (fst kv) (snd kv)) h
                       (mw_header w))
            (buf w) (writers w) (partWriter w) (depth w) (calls w))
  else createPart E w h.

(** A nil [io.Writer]: a call of its [Write] fails. *)
Inductive nilWriter : Type := Nil.

#[export] Instance nilWriter_Writer : Writer nilWriter :=
  fun _ _ => Panic.

(** [base64.NewEncoder(base64.StdEncoding, w)] of the standard library, for
    the one [Write] on a new encoder and the [Close] that [writeBody] makes:
    [Write] hands [w] the encoding of the whole groups of three bytes, in
    slices of its array of 1024 bytes, and keeps the rest, which [Close]
    encodes with padding. *)
Fixpoint base64Encoder_loop {W} `{Writer W} (fuel : nat) (w : W)
    (p : list byte) : outcome (W * list byte * option error) :=
  match fuel with
  | O => OutOfFuel
  | S fuel' =>
    if 3 <=? len p then
      let nn := if len p <? 768 then len p - len p mod 3 else 768 in
      let out := b64EncodeToString (firstn (Z.to_nat nn) p) in
      '(w1, _, err) <- Write w (mkSlice out (make (1024 - len out))) ;;
      match err with
      | Some e => Done (w1, [], Some e)
      | None => base64Encoder_loop fuel' w1 (skipn (Z.to_nat nn) p)
      end
    else Done (w, p, None)
  end.

Definition base64Encoder_Write {W} `{Writer W} (w : W) (p : list byte)
  : outcome (W * list byte * option error) :=
  base64Encoder_loop (S (length p)) w p.

Definition base64Encoder_Close {W} `{Writer W} (w : W) (rest : list byte)
  : outcome (W * option error) :=
  if 0 <? len rest then
    let out := b64EncodeToString rest in
    '(w1, _, err) <- Write w (mkSlice out (make (1024 - len out))) ;;
    Done (w1, err)
  else Done (w, None).

(** The two encodings of [writeBody], over a writer [sub] *)
Definition encodeBody {W} `{Writer W} (sub : W) (body : list byte)
    (encoding : string) : outcome (W * option error) :=
  if String.eqb encoding Base64 then
    '(writer, rest, err) <-
       base64Encoder_Write (newBase64LineWriter sub) body ;;
    match err with
    | Some e => Done (b_w writer, Some e)
    | None =>
      '(writer, err) <- base64Encoder_Close writer rest ;;
      Done (b_w writer, err)
    end
  else
    '(writer, _, err) <-
       Write (NewEncoder (newQpLineWriter sub)) (literal body) ;;
    Done (q_w (encoder.w writer), err).

(** [writeBody]: the writer is the buffer, or the part writer, which writes
    to the buffer, or nil when no part has been created. *)
Definition writeBody (w : messageWriter) (body : list byte)
    (encoding : string) : outcome (messageWriter * option error) :=
  let w := record (WriteBody body encoding) w in
  if (depth w =? 0) || partWriter w then
    '(b, err) <- encodeBody (buf w) body encoding ;;
    Done (mkMessageWriter (mw_header w) b (writers w) (partWriter w)
                          (depth w) (calls w), err)
  else
    '(_, err) <- encodeBody Nil body encoding ;;
    Done (w, err).

(** [export]: the header and the body of the [mail.Message] *)
Definition export (w : messageWriter) : Header * list byte :=
  (mw_header w, contents (buf w)).

(** The header of a part and of an attachment, as [Export] builds them *)
Definition partHeader (msg : Message) (p : part) : Header :=
  let h := MIMEHeader_Set [] "Content-Type"
             (contentType p ++ "; charset=" ++ charset msg)%string in
  if String.eqb (encoding msg) Base64
  then MIMEHeader_Set h "Content-Transfer-Encoding" Base64
  else MIMEHeader_Set h "Content-Transfer-Encoding" QuotedPrintable.

Definition attachmentHeader (E : world) (a : attachment) : Header :=
  let mimeType := TypeByExtension E (Ext E (name a)) in
  let mimeType := if String.eqb mimeType EmptyString
                  then "application/octet-stream"%string else mimeType in
  let h := MIMEHeader_Set [] "Content-Type"
             (mimeType ++ "; name=" ++ quote ++ name a ++ quote)%string in
  let h := MIMEHeader_Set h "Content-Disposition"
             ("attachment; filename=" ++ quote ++ name a ++ quote)%string in
  MIMEHeader_Set h "Content-Transfer-Encoding" Base64.

(** The two loops of [Export]; an error of [writeBody] ends the export. *)
Fixpoint exportParts (E : world) (msg : Message) (w : messageWriter)
    (ps : list part) : outcome (messageWriter * option error) :=
  match ps with
  | [] => Done (w, None)
  | p :: ps' =>
    w <- writeHeader E w (partHeader msg p) ;;
    '(w, err) <- writeBody w (body p) (encoding msg) ;;
    match err with
    | Some e => Done (w, Some e)
    | None => exportParts E msg w ps'
    end
  end.

Fixpoint exportAttachments (E : world) (w : messageWriter)
    (ats : list attachment) : outcome (messageWriter * option error) :=
  match ats with
  | [] => Done (w, None)
  | a :: ats' =>
    w <- writeHeader E w (attachmentHeader E a) ;;
    '(w, err) <- writeBody w (content a) Base64 ;;
    match err with
    | Some e => Done (w, Some e)
    | None => exportAttachments E w ats'
    end
  end.

(** [Export], up to its last line: the message writer at the end, or the
    error of [writeBody] that ended it. *)
Definition exportWriter (E : world) (msg : Message)
  : outcome (messageWriter * option error) :=
  let w := newMessageWriter E msg in
  w <- (if isMixed msg then openMultipart E w "mixed" else Done w) ;;
  w <- (if isAlternative msg then openMultipart E w "alternative"
        else Done w) ;;
  '(w, err) <- exportParts E msg w (parts msg) ;;
  match err with
  | Some e => Done (w, Some e)
  | None =>
    w <- (if isAlternative msg then closeMultipart E w else Done w) ;;
    '(w, err) <- exportAttachments E w (attachments msg) ;;
    match err with
    | Some e => Done (w, Some e)
    | None =>
      w <- (if isMixed msg then closeMultipart E w else Done w) ;;
      Done (w, None)
    end
  end.

(** [Export] *)
Definition Export (E : world) (msg : Message)
  : outcome (option (Header * list byte) * option error) :=
  '(w, err) <- exportWriter E msg ;;
  match err with
  | Some e => Done (None, Some e)
  | None => Done (Some (export w), None)
  end.

End gomail.



(* ================================================================== *)
(** ** Auxiliary notions used in the statements *)

(** [s] starts with the byte [c]. *)
Definition headIs (c : byte) (s : list byte) : bool :=
  match s with e :: _ => beq e c | [] => false end.

(** The condition tested by [isLastChar], on the bytes that follow a
    position: the input ends, or a line feed follows, or CR LF follows. *)
Definition eolAhead (rest : list byte) : bool :=
  match rest with
  | [] => true
  | d :: r => beq d LF
              || (beq d CR && match r with e :: _ => beq e LF | [] => false end)
  end.

(** The bytes [Encode] emits for a byte [c] followed by [rest]. *)
Definition encUnit (c : byte) (rest : list byte) : list byte :=
  if negb (beq c EQ) && (isVchar c || isNewline c) then [c]
  else if isWSP c then
    if eolAhead rest then encodeByte c else [c]
  else encodeByte c.

(** A carriage return is dangling when it is the last byte of the input or
    is directly followed by CR LF: it then ends the text of a line without
    being part of the line terminator. *)
Definition danglingAhead (rest : list byte) : bool :=
  match rest with
  | [] => true
  | d :: r => beq d CR && match r with e :: _ => beq e LF | [] => false end
  end.

Fixpoint noDanglingCR (x : list byte) : bool :=
  match x with
  | [] => true
  | c :: rest =>
    (if beq c CR then negb (danglingAhead rest) else true) && noDanglingCR rest
  end.

(** Encoded text in which no line ends in a byte that [Decode] trims. *)
Definition follows (c : byte) (rest : list byte) : bool :=
  if isWSP c || beq c EQ then negb (eolAhead rest)
  else if beq c CR then negb (danglingAhead rest)
  else true.

Fixpoint clean (s : list byte) : bool :=
  match s with
  | [] => true
  | c :: rest => follows c rest && clean rest
  end.

(** The digits accepted by [fromHex]. *)
Definition isHexDigit (c : byte) : bool :=
  ((48 <=? bval c) && (bval c <=? 57)) || ((65 <=? bval c) && (bval c <=? 70)).

(** Where the bytes skipped by [Decode] start in the scanned line. *)
Definition trimStart (st : dstate) : Z :=
  d_eol st - d_trimLen st - d_eolLen st.

(** What every state produced by [scanLine] satisfies: when bytes are to
    be skipped, the first of them is a trimmed byte or an equals sign, and
    every later byte of the line, its terminator included, is a trimmed
    byte. *)
Definition scanned (src : list byte) (st : dstate) : Prop :=
  0 <= d_eolLen st /\ 0 <= d_trimLen st /\
  (0 < d_trimLen st ->
     0 <= trimStart st /\ d_eol st <= len src /\
     (exists c, get src (trimStart st) = Done c
                /\ (isTrimByte c = true \/ c = EQ)) /\
     (forall k, trimStart st < k < d_eol st ->
                exists c, get src k = Done c /\ isTrimByte c = true) /\
     (d_eol st = len src \/ get src (d_eol st - 1) = Done LF)).


(** The byte an escape [=XY] stands for. *)
Definition hexByte (X Y : byte) : byte :=
  byte_of_Z (Z.lor (Z.shiftl (fst (fromHex X)) 4) (fst (fromHex Y))).


(** The bytes [Decode] copies: visible ASCII, space, tab, CR and LF. *)
Definition isBodyByte (c : byte) : bool :=
  ((32 <=? bval c) && (bval c <=? 126)) || beq c LF || beq c CR || beq c TAB.



(** A Q-encoded payload without errors and the bytes it stands for:
    the underscore is a space, [=XY] is an escape, and visible characters,
    spaces, tabs and newlines stand for themselves. *)
Fixpoint qValue (e : list byte) : option (list byte) :=
  match e with
  | [] => Some []
  | c :: e' =>
    if beq c x5f then option_map (cons SP) (qValue e')
    else if beq c EQ then
      match e' with
      | X :: Y :: e'' =>
        if isHexDigit X && isHexDigit Y
        then option_map (cons (hexByte X Y)) (qValue e'')
        else None
      | _ => None
      end
    else if isVchar c || beq c SP || beq c LF || beq c CR || beq c TAB
    then option_map (cons c) (qValue e')
    else None
  end.

(** The number of leading bytes of [src] whose encoded units fit, whole and
    in order, in the first [m] bytes of the encoding. *)
Fixpoint complete (src : list byte) (m : Z) : Z :=
  match src with
  | [] => 0
  | c :: rest =>
    let u := len (encUnit c rest) in
    if u <=? m then 1 + complete rest (m - u) else 0
  end.

(** The length of the encoding of the first [k] bytes of [src]. *)
Fixpoint unitEnd (src : list byte) (k : nat) : Z :=
  match k, src with
  | S k', c :: rest => len (encUnit c rest) + unitEnd rest k'
  | _, _ => 0
  end.

(** *** Lines of a written body *)

(** The lines of [s], the current line being [rev cur].  With
    [crlfOnly = true] a line ends at each CR LF marker; otherwise it ends
    at each LF, and a CR directly before that LF is not part of the line.
    The last element is the line that is still open. *)
Definition dropCR (cur : list byte) : list byte :=
  match cur with
  | c :: t => if beq c CR then t else cur
  | [] => cur
  end.

Fixpoint splitLines (crlfOnly : bool) (cur s : list byte) : list (list byte) :=
  match s with
  | [] => [rev cur]
  | c :: s' =>
    if beq c LF && (negb crlfOnly || headIs CR cur)
    then rev (dropCR cur) :: splitLines crlfOnly [] s'
    else splitLines crlfOnly (c :: cur) s'
  end.

Definition crlfLines (s : list byte) : list (list byte) := splitLines true [] s.
Definition lfLines (s : list byte) : list (list byte) := splitLines false [] s.

(** The current line after [s] has been written, most recent byte first. *)
Fixpoint openLine (crlfOnly : bool) (cur s : list byte) : list byte :=
  match s with
  | [] => cur
  | c :: s' =>
    if beq c LF && (negb crlfOnly || headIs CR cur)
    then openLine crlfOnly [] s'
    else openLine crlfOnly (c :: cur) s'
  end.

(** A line of quoted-printable output: at most 78 bytes, or 79 bytes the
    last of which is the equals sign of a soft line break. *)
Definition qpLineOK (l : list byte) : bool :=
  (len l <=? 78) || ((len l =? 79) && headIs EQ (rev l)).

(** What [base64LineWriter.Write] does with [data] from column [col]:
    [out] is [data] with CR LF inserted each time the line is full and
    more is to be written; [col'] is the column after the last byte. *)
Inductive b64lined : Z -> list byte -> list byte -> Z -> Prop :=
| bl_last (col : Z) (d : list byte) :
    col + len d <= 78 -> b64lined col d d (col + len d)
| bl_break (col : Z) (d rest out : list byte) (col' : Z) :
    col + len d = 78 -> b64lined 0 rest out col' ->
    b64lined col (d ++ rest) (d ++ [CR; LF] ++ out) col'.

(** Where [qpLineWriter.Write] cuts a line that gets a soft break: two or
    one byte before column 78 when an equals sign stands there, so that
    the sign and the two bytes after it stay together, else at column 78. *)
Definition softCut (col : Z) (d rest : list byte) : Prop :=
  (col + len d = 76 /\ headIs EQ rest = true)
  \/ (col + len d = 77 /\ headIs EQ rest = true
      /\ headIs EQ (rev d) = false)
  \/ (col + len d = 78 /\ headIs EQ (rev d) = false
      /\ headIs EQ (tl (rev d)) = false).

(** What [qpLineWriter.Write] does with [data] from column [col]: [out] is
    [data] with a soft break inserted where a line would pass column 78;
    the column restarts at zero after each line feed of the data and
    after each soft break. *)
Inductive qplined : Z -> list byte -> list byte -> Z -> Prop :=
| ql_last (col : Z) (d : list byte) :
    col + len d < 78 -> qplined col d d (col + len d)
| ql_newline (col : Z) (d rest out : list byte) (col' : Z) :
    ~ In LF d ->
    col + len d <= 78 \/ (col + len d = 79 /\ headIs CR (rev d) = true) ->
    qplined 0 rest out col' ->
    qplined col (d ++ LF :: rest) (d ++ LF :: out) col'
| ql_soft (col : Z) (d rest out : list byte) (col' : Z) :
    ~ In LF d ->
    softCut col d rest ->
    qplined 0 rest out col' ->
    qplined col (d ++ rest) (d ++ [EQ; CR; LF] ++ out) col'.

(** A line of base64 output: at most 78 bytes. *)
Definition b64LineOK (l : list byte) : bool := len l <=? 78.

(** The state of a line writer over a buffer: the column counter is within
    its limit, every line of the buffer is a good one and the counter bounds
    the length of the line still open. *)
Definition bounded (crlfOnly : bool) (ok : list byte -> bool) (limit : Z)
    (B : list byte) (lineLen : Z) : Prop :=
  0 <= lineLen <= limit
  /\ Forall (fun l => ok l = true) (splitLines crlfOnly [] B)
  /\ len (openLine crlfOnly [] B) <= lineLen.

(** [n] times the byte [c] *)
Definition times (n : nat) (c : byte) : list byte := repeat c n.

(** ** Base64 *)

(** The integers from 0 below [n], for facts checked on all bytes *)
Definition zrange (n : nat) : list Z := map Z.of_nat (seq 0 n).

(** The three bytes that four sextets are decoded to, checked for all
    values: [y4] stands for the high four bits of the second byte, [x] for
    the low two bits of the first, [y] for the high two bits of the third
    and [x15] for the low four bits of the second. *)
Definition sextet (v : Z) : bool := (0 <=? v) && (v <? 64).

Definition firstOK (a y4 : Z) : bool :=
  let v1 := Z.shiftr a 2 in
  let v2 := Z.lor (Z.shiftl (Z.land a 3) 4) y4 in
  sextet v1 && sextet v2
  && (Z.lor (Z.shiftl v1 2) (Z.shiftr v2 4) mod 256 =? a).

Definition secondOK (x b y : Z) : bool :=
  let v2 := Z.lor (Z.shiftl x 4) (Z.shiftr b 4) in
  let v3 := Z.lor (Z.shiftl (Z.land b 15) 2) y in
  sextet v2 && sextet v3
  && (Z.lor (Z.shiftl v2 4) (Z.shiftr v3 2) mod 256 =? b).

Definition thirdOK (x15 c : Z) : bool :=
  let v3 := Z.lor (Z.shiftl x15 2) (Z.shiftr c 6) in
  let v4 := Z.land c 63 in
  sextet v3 && sextet v4
  && (Z.lor (Z.shiftl v3 6) v4 mod 256 =? c).

Definition bitsOK (a : Z) : bool :=
  (0 <=? Z.land a 3) && (Z.land a 3 <? 4)
  && (0 <=? Z.shiftr a 6) && (Z.shiftr a 6 <? 4)
  && (0 <=? Z.shiftr a 4) && (Z.shiftr a 4 <? 16)
  && (0 <=? Z.land a 15) && (Z.land a 15 <? 16).

(** A byte other than the question mark, the carriage return and the line
    feed *)
Definition plainChar (c : byte) : bool :=
  negb (beq c x3f) && negb (beq c LF || beq c CR).

(** ** Encoded words *)

(** The start of an encoded word, its payload for a text and the word *)
Definition opening (e : HeaderEncoder) : list byte :=
  bs "=?" ++ charset e ++ bs "?" ++ encoding e ++ bs "?".

Definition isB (e : HeaderEncoder) : bool :=
  bytes_eqb (ToUpper (encoding e)) B.

Definition payload (e : HeaderEncoder) (t : list byte) : list byte :=
  if isB e then b64EncodeToString t else writeQString t.

Definition encodedWord (e : HeaderEncoder) (t : list byte) : list byte :=
  opening e ++ payload e t ++ bs "?=".

(** Encoded words, folded: joined by CRLF and a space *)
Fixpoint joinWords (ws : list (list byte)) : list byte :=
  match ws with
  | [] => []
  | [w] => w
  | w :: ws' => w ++ [CR; LF; SP] ++ joinWords ws'
  end.

(** An encoded word whose encoding is named by one byte *)
Definition wordBytes (cs : list byte) (x : byte) (pl : list byte)
  : list byte :=
  [EQ; x3f] ++ cs ++ [x3f; x; x3f] ++ pl ++ [x3f; EQ].

(** A charset name that the expression [rfc2047] matches *)
Definition wordCharset (cs : list byte) : bool :=
  negb (isNil cs) && forallb isWordChar cs.

(** The bytes of a code point in the layout of UTF-8: one byte below 128, or
    a byte that starts a rune followed by at most three bytes that do not. *)
Definition continuation (b : byte) : bool := negb (RuneStart b).

Definition wellFormedRune (r : list byte) : bool :=
  match r with
  | [] => false
  | c :: t =>
    if bval c <? 128 then isNil t
    else RuneStart c && forallb continuation t && (len t <=? 3)
  end.

(** What follows a code point is the end of the text or the start of a
    code point. *)
Definition startsRune (post : list byte) : Prop :=
  match post with
  | [] => True
  | d :: _ => RuneStart d = true
  end.

(** The words of a text cut in groups of code points *)
Definition wordsOf (e : HeaderEncoder) (groups : list (list (list byte)))
  : list (list byte) :=
  map (fun g => encodedWord e (concat g)) groups.

(** ** The export of a message *)

Import encoder.
Import gomail.

(** A body that the quoted-printable writers take without reading past the
    encoded slice: its encoding is shorter than a line, or leaves two bytes
    of the encoder's buffer free. *)
Definition qpWritable (body : list byte) : bool :=
  (len (Encode body) <? 78)
  || (len (Encode body) + 2 <=? MaxEncodedLen (len body)).

Definition exportable (msg : Message) : Prop :=
  encoding msg = Base64
  \/ Forall (fun p => qpWritable (body p) = true) (parts msg).

(** The message writer holds a multipart writer at every depth below its
    own. *)
Definition ready (w : messageWriter) : Prop :=
  exists a b,
    writers w = [a; b]
    /\ (depth w = 0
        \/ (depth w = 1 /\ a <> None)
        \/ (depth w = 2 /\ a <> None /\ b <> None)).

(** The calls [cs] took the message writer from [w] to [w']: the depth is the
    same, the header too unless the depth is zero, and the buffer has grown. *)
Definition steps (w w' : messageWriter) (cs : list call) : Prop :=
  depth w' = depth w
  /\ calls w' = calls w ++ cs
  /\ ready w'
  /\ (0 < depth w -> mw_header w' = mw_header w)
  /\ (exists out, contents (buf w') = contents (buf w) ++ out).


(** The calls that emit a part and an attachment *)
Definition partCalls (msg : Message) (p : part) : list call :=
  [WriteHeader (partHeader msg p); WriteBody (body p) (encoding msg)].

Definition attachmentCalls (E : world) (a : attachment) : list call :=
  [WriteHeader (attachmentHeader E a); WriteBody (content a) Base64].

(** The calls of an export *)
Definition exportCalls (E : world) (msg : Message) : list call :=
  (if isMixed msg then [OpenMultipart "mixed"] else [])
  ++ (if isAlternative msg then [OpenMultipart "alternative"] else [])
  ++ flat_map (partCalls msg) (parts msg)
  ++ (if isAlternative msg then [CloseMultipart] else [])
  ++ flat_map (attachmentCalls E) (attachments msg)
  ++ (if isMixed msg then [CloseMultipart] else []).

(** A world for examples: the clock of the tests of the package, two fixed
    boundaries, the types of two extensions, and the delimiters that
    [multipart.Writer] writes, with the fields of a part in the order of the
    header. *)
Definition crlf : string :=
  String (Ascii.ascii_of_byte x0d) (String (Ascii.ascii_of_byte x0a) EmptyString).

Fixpoint lastDot (s : string) (acc : string) : string :=
  match s with
  | EmptyString => acc
  | String c t =>
    lastDot t (if Ascii.eqb c (Ascii.ascii_of_byte x2e) then String c t
               else acc)
  end.

Definition headerLines (h : Header) : string :=
  fold_right
    (fun kv acc =>
       fold_right (fun v acc => (fst kv ++ ": " ++ v ++ crlf ++ acc)%string)
                  acc (snd kv))
    EmptyString h.

Definition testWorld : world :=
  mkWorld "25 Jun 14 17:46 UTC"
    (fun d => if d =? 0 then "outer"%string else "inner"%string)
    (fun e => if String.eqb e ".pdf" then "application/pdf"%string
              else if String.eqb e ".zip" then "application/zip"%string
              else EmptyString)
    (fun f => lastDot f EmptyString)
    (fun b later h =>
       bs ((if later then crlf else EmptyString)
           ++ "--" ++ b ++ crlf ++ headerLines h ++ crlf)%string)
    (fun b => bs (crlf ++ "--" ++ b ++ "--" ++ crlf)%string).

(** The message of the test [TestMultipleAttachment]: a text and two files *)
Definition testMessage : Message :=
  Attach (Attach (SetBody NewMessage "text/plain" "Test")
                 "test.pdf" (bs "Content of test.pdf"))
         "test.zip" (bs "Content of test.zip").

(** What the loop is shown to do, for a given amount of fuel. *)
Definition qpLoopSpec (fuel : nat) : Prop :=
  forall (B : list byte) (lineLen : Z) (p : bslice) (n : Z),
    0 <= lineLen <= 77 ->
    2 <= len (sspare p) -> ~ In LF (firstn 2 (sspare p)) ->
    2 * slen p + (if 0 <? lineLen then 1 else 0) < Z.of_nat fuel ->
    exists out lineLen',
      qpLoop fuel (mkBuffer B) lineLen p n
      = Done (mkBuffer (B ++ out), lineLen', n + slen p)
      /\ qplined lineLen (sdata p) out lineLen'.

(** The bytes [Encode] emits for the bytes [y] of an input in which [z]
    follows them. *)
Fixpoint encUnits (y z : list byte) : list byte :=
  match y with
  | [] => []
  | c :: y' => encUnit c (y' ++ z) ++ encUnits y' z
  end.

(** A place of encoded text, between [d] and [rest], that is not inside an
    escape: an equals sign follows, or neither of the two bytes before is
    one, or a line feed stands before. *)
Definition unitCut (d rest : list byte) : Prop :=
  headIs EQ rest = true
  \/ (headIs EQ (rev d) = false /\ headIs EQ (tl (rev d)) = false)
  \/ headIs LF (rev d) = true.

(** The text [s] and what follows each of its bytes. *)
Fixpoint suffixes (s : list byte) : list (list byte) :=
  s :: match s with
       | [] => []
       | _ :: t => suffixes t
       end.

(** No encoded word starts anywhere in [s]. *)
Definition noEncodedWord (s : list byte) : bool :=
  forallb (fun t => isNil (FindString t)) (suffixes s).

(** The fields that [Export] writes in the header of the mail: those of
    the header of a part or an attachment, and the outer content type. *)
Definition mimeField (k : string) : bool :=
  String.eqb k "Content-Type" || String.eqb k "Content-Transfer-Encoding"
  || String.eqb k "Content-Disposition".

(** The header [h'] has the fields of [h], the MIME fields apart. *)
Definition sameFields (h h' : Header) : Prop :=
  forall k, mimeField k = false -> lookup h' k = lookup h k.

(** ** The header of a message *)

(** The methods of [gomail.Message] on its header.  The dates of
    [SetDateHeader] and [AddDateHeader] are formatted by the standard library
    and are left out. *)

(** [delete(h, k)] *)
Definition delete (h : Header) (k : string) : Header :=
  filter (fun kv => negb (String.eqb (fst kv) k)) h.

(** The message with another header *)
Definition withHeader (msg : Message) (h : Header) : Message :=
  mkMessage h (parts msg) (attachments msg) (charset msg) (encoding msg)
            (hEncoder msg).

(** [msg.encodeHeader].  The encoder is a pointer: [EncodeHeader] on a nil
    encoder returns a value that needs no encoding and fails on any other. *)
Definition encodeHeader (msg : Message) (value : string) : outcome string :=
  match hEncoder msg with
  | Some e =>
    out <- EncodeHeader e (bs value) ;; Done (string_of_list_byte out)
  | None => if needsEncoding (bs value) then Panic else Done value
  end.

(** [GetHeader]: the values of a field, nil when it is absent *)
Definition GetHeader (msg : Message) (field : string) : list string :=
  match lookup (header msg) field with
  | Some v => v
  | None => []
  end.

(** [SetHeader] and [AddHeader] *)
Definition SetHeader (msg : Message) (field value : string)
  : outcome Message :=
  v <- encodeHeader msg value ;;
  Done (withHeader msg (assign (header msg) field [v])).


(** [buildAddressHeader], [SetAddressHeader] and [AddAddressHeader] *)
Definition buildAddressHeader (msg : Message) (address name : string)
  : outcome string :=
  n <- encodeHeader msg name ;;
  Done (n ++ " <" ++ address ++ ">")%string.

Definition SetAddressHeader (msg : Message) (field address name : string)
  : outcome Message :=
  v <- buildAddressHeader msg address name ;;
  Done (withHeader msg (assign (header msg) field [v])).

Definition AddAddressHeader (msg : Message) (field address name : string)
  : outcome Message :=
  v <- buildAddressHeader msg address name ;;
  Done (withHeader msg
          (assign (header msg) field (GetHeader msg field ++ [v]))).


(* ================================================================== *)
(** ** Package mailer *)

Module mailer.

(** The errors of the package: the one of [getFrom], and those that come
    from the standard library (address parsing, reading the body, SMTP),
    with their text. *)
Inductive error : Type :=
| ErrFromAbsent      (* mailer: invalid message, "From" field is absent *)
| ErrLibrary (text : string).

(** [mail.Message]: the header and the body; the body is a reader, given
    here by what [ioutil.ReadAll] returns on it. *)
Record Message : Type := mkMessage {
  Header : gomail.Header;
  Body : list byte * option error
}.

(** [mail.Header.Get], for a key in canonical form: the first value of the
    field, or the empty string *)
Definition Get (h : gomail.Header) (key : string) : string :=
  match lookup h key with
  | Some (v :: _) => v
  | _ => EmptyString
  end.

(** [h[field]]: the values of a field, nil when it is absent *)
Definition values (h : gomail.Header) (field : string) : list string :=
  match lookup h field with
  | Some v => v
  | None => []
  end.

(** [strings.Join] and [strings.Contains] *)
Definition Join (a : list string) (sep : string) : string :=
  String.concat sep a.

Definition Contains (s substr : string) : bool :=
  match String.index 0 substr s with
  | Some _ => true
  | None => false
  end.

(** [isInList] *)
Fixpoint isInList (address : string) (list : list string) : bool :=
  match list with
  | [] => false
  | addr :: rest => if String.eqb address addr then true
                    else isInList address rest
  end.

Definition destinationFields : list string :=
  ["Bcc"; "To"; "Cc"]%string.

(** [flattenHeader]: the fields are written in the order of the list, one of
    the orders in which the map can be ranged over. *)
Definition flattenField (bcc : string) (kv : string * list string)
  : string :=
  let '(field, value) := kv in
  if negb (String.eqb field "Bcc")
  then (field ++ ": " ++ Join value ", " ++ crlf)%string
  else if negb (String.eqb bcc "")
       then String.concat ""
              (map (fun to => if Contains to bcc
                              then (field ++ ": " ++ to ++ crlf)%string
                              else EmptyString) value)
       else EmptyString.

Definition flattenHeader (msg : Message) (bcc : string) : list byte :=
  bs (String.concat "" (map (flattenField bcc) (Header msg)) ++ crlf).

Section Mailer.

(** [smtp.Auth], [mail.ParseAddress] (the address of the parsed field, or
    an error) and [smtp.SendMail] (its error) are those of the standard
    library. *)
Variable Auth : Type.
Variable ParseAddress : string -> string + error.

(** [type Mailer struct { auth smtp.Auth; addr string }] *)
Record Mailer : Type := mkMailer {
  auth : Auth;
  addr : string
}.

(** A call of [sendMail] *)
Record sent : Type := mkSent {
  s_addr : string;
  s_auth : Auth;
  s_from : string;
  s_to : list string;
  s_msg : list byte
}.

Variable sendMail : sent -> option error.

(** [NewCustomMailer] *)
Definition NewCustomMailer (a : Auth) (address : string) : Mailer :=
  mkMailer a address.

(** [parseAddress] *)
Definition parseAddress (field : string) : string * option error :=
  match ParseAddress field with
  | inl address => (address, None)
  | inr err => (EmptyString, Some err)
  end.

(** [getFrom] *)
Definition getFrom (msg : Message) : string * option error :=
  let field := Get (Header msg) "Sender" in
  if String.eqb field "" then
    let field := Get (Header msg) "From" in
    if String.eqb field "" then (EmptyString, Some ErrFromAbsent)
    else parseAddress field
  else parseAddress field.

(** [getRecipients]: the body of the inner loop, for a value of a field,
    and the two loops *)
Definition addValue (field : string) (acc : list string * list string)
    (value : string) : list string * list string :=
  let '(recipients, bcc) := acc in
  match parseAddress value with
  | (_, Some _) => acc
  | (address, None) =>
    if String.eqb field "Bcc" then
      if negb (isInList address bcc) then (recipients, bcc ++ [address])
      else acc
    else if negb (isInList address bcc)
            && negb (isInList address recipients)
         then (recipients ++ [address], bcc)
         else acc
  end.

Definition addField (msg : Message) (acc : list string * list string)
    (field : string) : list string * list string :=
  match lookup (Header msg) field with
  | Some values => fold_left (addValue field) values acc
  | None => acc
  end.

Definition getRecipients (msg : Message) : list string * list string :=
  fold_left (addField msg) destinationFields ([], []).

(** The loop of [Send] over the blind-copy recipients: the calls of
    [sendMail] made, after those of [log], and the error returned *)
Fixpoint sendBcc (m : Mailer) (msg : Message) (from : string)
    (body : list byte) (bcc : list string) (log : list sent)
  : list sent * option error :=
  match bcc with
  | [] => (log, None)
  | to :: rest =>
    let h := flattenHeader msg to in
    let c := mkSent (addr m) (auth m) from [to] (h ++ body) in
    match sendMail c with
    | Some err => (log ++ [c], Some err)
    | None => sendBcc m msg from body rest (log ++ [c])
    end
  end.

(** [Send]: the calls of [sendMail] made and the error returned *)
Definition Send (m : Mailer) (msg : Message) : list sent * option error :=
  match getFrom msg with
  | (_, Some err) => ([], Some err)
  | (from, None) =>
    let '(recipients, bcc) := getRecipients msg in
    let h := flattenHeader msg "" in
    match Body msg with
    | (_, Some err) => ([], Some err)
    | (body, None) =>
      let c := mkSent (addr m) (auth m) from recipients (h ++ body) in
      match sendMail c with
      | Some err => ([c], Some err)
      | None => sendBcc m msg from body bcc [c]
      end
    end
  end.

(** The calls that [Send] makes: the one for the recipients, then one for
    each blind-copy recipient *)
Definition firstCall (m : Mailer) (msg : Message) (from : string)
    (body : list byte) : sent :=
  mkSent (addr m) (auth m) from (fst (getRecipients msg))
         (flattenHeader msg "" ++ body).

Definition bccCall (m : Mailer) (msg : Message) (from : string)
    (body : list byte) (to : string) : sent :=
  mkSent (addr m) (auth m) from [to] (flattenHeader msg to ++ body).

End Mailer.

End mailer.

(** ** Sending a message ([gomail.Mailer]) *)

Section Send.

Variable Auth : Type.
Variable ParseAddress : string -> string + mailer.error.
Variable sendMail : mailer.sent Auth -> option mailer.error.

(** [gomail.Mailer.Send]: the mailer is the one of package mailer; the body
    of the exported mail is a buffer, which is read without error.  When
    [Export] returns an error, nil is returned and nothing is sent. *)
Definition Mailer_Send (E : world) (m : mailer.Mailer Auth)
    (message : Message)
  : outcome (list (mailer.sent Auth) * option mailer.error) :=
  '(msg, err) <- Export E message ;;
  match err with
  | Some _ => Done ([], None)
  | None =>
    match msg with
    | Some (h, body) =>
      Done (mailer.Send ParseAddress sendMail m
              (mailer.mkMessage h (body, None)))
    | None => Panic
    end
  end.

End Send.

(* ================================================================== *)
(** * Properties *)

(** ** Examples of the codec *)

Example Encode_cafe :
  Encode (bs "Caf" ++ [xc3; xa9]) = bs "Caf=C3=A9".
Proof. reflexivity. Qed.

Example Decode_cafe :
  Decode (bs "Caf=C3=A9") = Done (bs "Caf" ++ [xc3; xa9], None).
Proof. reflexivity. Qed.

Example Decode_ZZ :
  Decode (bs "=ZZ") = Done ([], Some (ErrInvalidHex "Z"%byte)).
Proof. reflexivity. Qed.


(** ** Stepping through [bind] *)

Lemma bind_Done {A B} (a : A) (k : A -> outcome B) : bind (Done a) k = k a.
Proof. reflexivity. Qed.

Ltac bstep := rewrite ?bind_Done; cbv beta iota.

(** ** Indexing lemmas *)

Lemma len_app {A} (a b : list A) : len (a ++ b) = len a + len b.
Proof. unfold len. rewrite length_app. lia. Qed.

Lemma len_cons {A} (a : A) (l : list A) : len (a :: l) = len l + 1.
Proof. unfold len. simpl length. lia. Qed.

Lemma len_nil {A} : len (@nil A) = 0.
Proof. reflexivity. Qed.

Lemma len_nonneg {A} (l : list A) : 0 <= len l.
Proof. unfold len. lia. Qed.

Ltac lens :=
  repeat (rewrite len_app || rewrite len_cons);
  change (len (@nil byte)) with 0.

(** Deciding the first comparison of the goal by [lia]. *)
Ltac leb_true :=
  match goal with
  | |- context [?a <=? ?b] => destruct (Z.leb_spec a b); [|lia]
  end.
Ltac leb_false :=
  match goal with
  | |- context [?a <=? ?b] => destruct (Z.leb_spec a b); [lia|]
  end.
Ltac ltb_true :=
  match goal with
  | |- context [?a <? ?b] => destruct (Z.ltb_spec a b); [|lia]
  end.
Ltac ltb_false :=
  match goal with
  | |- context [?a <? ?b] => destruct (Z.ltb_spec a b); [lia|]
  end.
Ltac eqb_false :=
  match goal with
  | |- context [?a =? ?b] => destruct (Z.eqb_spec a b); [lia|]
  end.

(** Deciding every comparison of the goal. *)
Ltac zcases :=
  repeat (match goal with
          | |- context [Z.ltb ?a ?b] => destruct (Z.ltb_spec a b)
          | |- context [Z.leb ?a ?b] => destruct (Z.leb_spec a b)
          | |- context [Z.eqb ?a ?b] => destruct (Z.eqb_spec a b)
          end; simpl andb; cbv iota);
  try reflexivity; try lia.

Lemma get_app_r {A} (P s : list A) (k : Z) :
  0 <= k -> get (P ++ s) (len P + k) = get s k.
Proof.
  intros Hk. unfold get, len.
  destruct (Z.ltb_spec (Z.of_nat (length P) + k) 0); [lia|].
  destruct (Z.ltb_spec k 0); [lia|].
  replace (Z.to_nat (Z.of_nat (length P) + k))
    with (length P + Z.to_nat k)%nat by lia.
  rewrite nth_error_app2 by lia.
  replace (length P + Z.to_nat k - length P)%nat with (Z.to_nat k) by lia.
  reflexivity.
Qed.

Lemma get_app_l {A} (P s : list A) (k : Z) :
  0 <= k < len P -> get (P ++ s) k = get P k.
Proof.
  intros Hk. unfold get, len in *.
  destruct (Z.ltb_spec k 0); [lia|].
  rewrite nth_error_app1 by lia. reflexivity.
Qed.

Lemma get_head {A} (c : A) (s : list A) : get (c :: s) 0 = Done c.
Proof. reflexivity. Qed.

Lemma get_tail {A} (c : A) (s : list A) (k : Z) :
  0 <= k -> get (c :: s) (k + 1) = get s k.
Proof.
  intros Hk. change (c :: s) with ([c] ++ s).
  replace (k + 1) with (len [c] + k) by (rewrite len_cons, len_nil; lia).
  now apply get_app_r.
Qed.

Lemma get_mid {A} (P : list A) (c : A) (s : list A) :
  get (P ++ c :: s) (len P) = Done c.
Proof.
  replace (len P) with (len P + 0) by lia.
  rewrite get_app_r by lia. reflexivity.
Qed.


Lemma get_Done_range {A} (s : list A) (k : Z) (c : A) :
  get s k = Done c -> 0 <= k < len s.
Proof.
  unfold get, len. destruct (Z.ltb_spec k 0); [discriminate|].
  destruct (nth_error s (Z.to_nat k)) eqn:E; [|discriminate].
  intros _. assert (Z.to_nat k < length s)%nat.
  { apply nth_error_Some. congruence. }
  lia.
Qed.

Lemma get_in_range {A} (s : list A) (k : Z) :
  0 <= k < len s -> exists c, get s k = Done c.
Proof.
  unfold get, len. intros Hk. destruct (Z.ltb_spec k 0); [lia|].
  destruct (nth_error s (Z.to_nat k)) eqn:E; [eauto|].
  apply nth_error_None in E. lia.
Qed.

Lemma get_split {A} (s : list A) (k : Z) (c : A) :
  get s k = Done c ->
  exists P R, s = P ++ c :: R /\ len P = k.
Proof.
  intros H. pose proof (get_Done_range _ _ H) as Hr.
  unfold get in H. destruct (Z.ltb_spec k 0); [lia|].
  destruct (nth_error s (Z.to_nat k)) eqn:E; [|discriminate].
  inversion H; subst a. apply nth_error_split in E.
  destruct E as (P & R & -> & HP). exists P, R. split; [reflexivity|].
  unfold len. lia.
Qed.

Lemma slice_app_suffix {A} (P s : list A) :
  sliceFrom (P ++ s) (len P) = Done s.
Proof.
  unfold sliceFrom, slice. rewrite len_app.
  pose proof (len_nonneg P). pose proof (len_nonneg s).
  destruct (Z.leb_spec 0 (len P)); [|lia].
  destruct (Z.leb_spec (len P) (len P + len s)); [|lia].
  destruct (Z.leb_spec (len P + len s) (len P + len s)); [|lia].
  simpl. f_equal. unfold len.
  rewrite Nat2Z.id, skipn_app, skipn_all, Nat.sub_diag. simpl.
  replace (Z.to_nat _) with (length s) by lia. apply firstn_all.
Qed.

(** ** Facts about single bytes, by enumeration *)

Ltac each_byte c :=
  destruct c; vm_compute; try reflexivity; try discriminate; auto.

Lemma beq_eq (a b : byte) : beq a b = true <-> a = b.
Proof.
  unfold beq. split; [apply Byte.byte_dec_bl | apply Byte.byte_dec_lb].
Qed.

Lemma beq_refl (a : byte) : beq a a = true.
Proof. now apply beq_eq. Qed.

Lemma beq_neq (a b : byte) : beq a b = false <-> a <> b.
Proof.
  split.
  - intros H E. apply beq_eq in E. congruence.
  - intros H. destruct (beq a b) eqn:E; [|reflexivity].
    apply beq_eq in E. contradiction.
Qed.

(** ** [Encode] byte by byte *)

Lemma isLastChar_head (c : byte) (rest : list byte) :
  isLastChar 0 (c :: rest) = eolAhead rest.
Proof.
  unfold isLastChar. destruct rest as [|d r].
  - reflexivity.
  - rewrite !len_cons. pose proof (len_nonneg r).
    destruct (Z.eqb_spec 0 (len r + 1 + 1 - 1)); [lia|].
    destruct (Z.ltb_spec 0 (len r + 1 + 1 - 1)); [|lia].
    simpl. destruct r as [|e r'].
    + simpl. now rewrite andb_false_r, orb_false_r.
    + rewrite len_cons in *. pose proof (len_nonneg r').
      destruct (Z.ltb_spec 0 (len r' + 1 + 1 + 1 - 2)); [|lia].
      reflexivity.
Qed.

Lemma isLastChar_shift (c : byte) (rest : list byte) (k : nat) :
  isLastChar (Z.of_nat (S k)) (c :: rest) = isLastChar (Z.of_nat k) rest.
Proof.
  unfold isLastChar. rewrite len_cons.
  replace (Z.to_nat (Z.of_nat (S k) + 1)) with (S (Z.to_nat (Z.of_nat k + 1)))
    by lia.
  replace (Z.to_nat (Z.of_nat (S k) + 2)) with (S (Z.to_nat (Z.of_nat k + 2)))
    by lia.
  simpl nth.
  replace (Z.of_nat (S k) =? len rest + 1 - 1) with (Z.of_nat k =? len rest - 1)
    by (destruct (Z.eqb_spec (Z.of_nat k) (len rest - 1));
        destruct (Z.eqb_spec (Z.of_nat (S k)) (len rest + 1 - 1)); lia).
  replace (Z.of_nat (S k) <? len rest + 1 - 1) with (Z.of_nat k <? len rest - 1)
    by (destruct (Z.ltb_spec (Z.of_nat k) (len rest - 1));
        destruct (Z.ltb_spec (Z.of_nat (S k)) (len rest + 1 - 1)); lia).
  replace (Z.of_nat (S k) <? len rest + 1 - 2) with (Z.of_nat k <? len rest - 2)
    by (destruct (Z.ltb_spec (Z.of_nat k) (len rest - 2));
        destruct (Z.ltb_spec (Z.of_nat (S k)) (len rest + 1 - 2)); lia).
  reflexivity.
Qed.

Lemma encodeAt_head (c : byte) (rest : list byte) :
  encodeAt (c :: rest) 0 = encUnit c rest.
Proof.
  unfold encodeAt, encUnit. rewrite isLastChar_head. reflexivity.
Qed.

Lemma encodeAt_shift (c : byte) (rest : list byte) (k : nat) :
  encodeAt (c :: rest) (Z.of_nat (S k)) = encodeAt rest (Z.of_nat k).
Proof.
  unfold encodeAt. rewrite isLastChar_shift, !Nat2Z.id. reflexivity.
Qed.

Lemma Encode_nil : Encode [] = [].
Proof. reflexivity. Qed.

Lemma Encode_cons (c : byte) (rest : list byte) :
  Encode (c :: rest) = encUnit c rest ++ Encode rest.
Proof.
  unfold Encode. simpl length. rewrite <- cons_seq. simpl flat_map.
  change (Z.of_nat 0) with 0. rewrite encodeAt_head. f_equal.
  rewrite <- seq_shift, flat_map_concat_map, map_map, <- flat_map_concat_map.
  apply flat_map_ext. intros k. apply encodeAt_shift.
Qed.

(** Every escape is an equals sign and two upper-case hex digits that
    [readHexByte] maps back to the byte. *)
Lemma encodeByte_shape (b : byte) :
  exists X Y, encodeByte b = [EQ; X; Y]
              /\ isHexDigit X = true /\ isHexDigit Y = true
              /\ forall t, readHexByte (X :: Y :: t) = Done (b, None).
Proof.
  destruct b; (eexists; eexists; split; [reflexivity|];
               split; [reflexivity|]; split; [reflexivity|];
               intros t; reflexivity).
Qed.

(** ** [bytes.IndexByte] *)

Lemma IndexByte_range (s : list byte) (c : byte) :
  -1 <= IndexByte s c < len s.
Proof.
  induction s as [|b s IH]; simpl.
  - rewrite len_nil. lia.
  - rewrite len_cons. destruct (beq b c); [lia|].
    destruct (Z.ltb_spec (IndexByte s c) 0); lia.
Qed.

Lemma IndexByte_none (s : list byte) (c : byte) :
  IndexByte s c < 0 -> IndexByte s c = -1 /\ ~ In c s.
Proof.
  induction s as [|b s IH]; simpl.
  - intros _. split; [reflexivity | tauto].
  - destruct (beq b c) eqn:E; [lia|].
    destruct (Z.ltb_spec (IndexByte s c) 0) as [Hlt|Hge].
    + intros _. split; [reflexivity|]. destruct (IH Hlt) as [_ Hn].
      intros [->|Hin]; [|tauto]. rewrite beq_refl in E. discriminate.
    + pose proof (IndexByte_range s c). lia.
Qed.

Lemma IndexByte_found (s : list byte) (c : byte) :
  0 <= IndexByte s c ->
  exists L R, s = L ++ c :: R /\ ~ In c L /\ IndexByte s c = len L.
Proof.
  induction s as [|b s IH]; simpl.
  - lia.
  - destruct (beq b c) eqn:E.
    + intros _. apply beq_eq in E. subst b. exists [], s. simpl. tauto.
    + destruct (Z.ltb_spec (IndexByte s c) 0) as [Hlt|Hge]; [lia|].
      intros _. destruct (IH Hge) as (L & R & -> & Hn & Hi).
      exists (b :: L), R. split; [reflexivity|]. split.
      * intros [->|Hin]; [|tauto]. rewrite beq_refl in E. discriminate.
      * rewrite len_cons. lia.
Qed.

(** ** The line scan of [Decode] on clean text *)

Lemma clean_app_inv (A : list byte) (c : byte) (B : list byte) :
  clean (A ++ c :: B) = true -> follows c B = true.
Proof.
  induction A as [|a A IH]; simpl; intros H; apply andb_prop in H; tauto.
Qed.

Lemma follows_eol (c : byte) (B : list byte) :
  follows c B = true -> eolAhead B = true ->
  isWSP c = false /\ beq c EQ = false.
Proof.
  unfold follows. intros H E. rewrite E in H.
  destruct (isWSP c); destruct (beq c EQ); simpl in H; auto; discriminate.
Qed.

Lemma dangling_eol (B : list byte) :
  danglingAhead B = true -> eolAhead B = true.
Proof.
  destruct B as [|d r]; simpl; [reflexivity|].
  intros H. rewrite H. apply orb_true_r.
Qed.

Lemma follows_dangling (c : byte) (B : list byte) :
  follows c B = true -> danglingAhead B = true ->
  isWSP c = false /\ beq c EQ = false /\ beq c CR = false.
Proof.
  intros H D. destruct (follows_eol _ _ H (dangling_eol _ D)) as [W Q].
  unfold follows in H. rewrite W, Q, D in H. simpl in H.
  destruct (beq c CR); [discriminate | auto].
Qed.

Lemma isTrimByte_false (c : byte) :
  isWSP c = false -> beq c CR = false -> beq c LF = false ->
  isTrimByte c = false.
Proof.
  unfold isTrimByte, isWSP. intros W C L. apply orb_false_elim in W.
  destruct W as [W1 W2]. now rewrite W1, W2, C, L.
Qed.

Lemma trimLoop_eq fuel src i eol eolLen trimLen err :
  trimLoop (S fuel) src i eol eolLen trimLen err =
  if trimLen =? eol - eolLen - i then Done (trimLen, eolLen, err)
  else
    c <- get src (eol - eolLen - trimLen - 1) ;;
    if isTrimByte c then trimLoop fuel src i eol eolLen (trimLen + 1) err
    else if beq c EQ then
      if 0 <? trimLen then
        let trimLen' := trimLen + eolLen + 1 in
        after <- slice src (eol - trimLen' + 1) eol ;;
        Done (trimLen', 0, Some (ErrInvalidAfterEq after))
      else Done (eolLen + 1, 0, err)
    else Done (trimLen, eolLen, err).
Proof. reflexivity. Qed.

Lemma trimLoop_empty fuel src i eol eolLen err :
  eol - eolLen - i = 0 ->
  trimLoop (S fuel) src i eol eolLen 0 err = Done (0, eolLen, err).
Proof.
  intros H. rewrite trimLoop_eq.
  destruct (Z.eqb_spec 0 (eol - eolLen - i)); [|lia].
  reflexivity.
Qed.

Lemma trimLoop_stop fuel src i eol eolLen err c :
  eol - eolLen - i <> 0 ->
  get src (eol - eolLen - 1) = Done c ->
  isTrimByte c = false -> beq c EQ = false ->
  trimLoop (S fuel) src i eol eolLen 0 err = Done (0, eolLen, err).
Proof.
  intros H G T Q. rewrite trimLoop_eq.
  destruct (Z.eqb_spec 0 (eol - eolLen - i)); [lia|].
  replace (eol - eolLen - 0 - 1) with (eol - eolLen - 1) by lia.
  rewrite G. unfold bind. now rewrite T, Q.
Qed.

Lemma not_in_beq (c : byte) (L : list byte) (d : byte) :
  ~ In c (L ++ [d]) -> beq d c = false.
Proof.
  intros H. apply beq_neq. intros ->. apply H. apply in_or_app. simpl. tauto.
Qed.

Lemma scanLine_clean (P s : list byte) (err : option error) :
  clean s = true -> s <> [] ->
  exists eol eolLen,
    scanLine (P ++ s) (len P) err = Done (mkD eol 0 eolLen err).
Proof.
  intros Hc Hne. unfold scanLine. rewrite slice_app_suffix. bstep.
  pose proof (IndexByte_range s LF) as Hr.
  destruct (Z.ltb_spec (IndexByte s LF) 0) as [Hlt|Hge].
  - (* no line feed: the line runs to the end of the input *)
    destruct (IndexByte_none _ _ Hlt) as [Hi Hn]. rewrite Hi.
    replace (-1 + len P + 1) with (len P) by lia. rewrite Z.eqb_refl.
    bstep. destruct (exists_last Hne) as (s' & c & ->).
    assert (G : get (P ++ s' ++ [c]) (len (P ++ s' ++ [c]) - 0 - 1) = Done c).
    { rewrite app_assoc. rewrite !len_app, len_cons, len_nil.
      replace (len P + len s' + (0 + 1) - 0 - 1) with (len (P ++ s'))
        by (rewrite len_app; lia).
      apply get_mid. }
    destruct (follows_dangling _ _ (clean_app_inv _ _ _ Hc) eq_refl)
      as (W & Q & C).
    erewrite trimLoop_stop; eauto.
    + bstep. eauto.
    + rewrite !len_app, len_cons, len_nil. pose proof (len_nonneg s'). lia.
    + apply isTrimByte_false; auto. now apply not_in_beq with (L := s').
  - (* the line ends at the first line feed *)
    destruct (IndexByte_found _ _ Hge) as (L & R & -> & Hn & Hi). rewrite Hi.
    pose proof (len_nonneg L) as HL.
    destruct (Z.eqb_spec (len L + len P + 1) (len P)); [lia|].
    destruct L as [|l0 L0] using rev_ind.
    + (* empty line *)
      rewrite len_nil. simpl (0 + len P + 1 - 2).
      destruct (Z.leb_spec (len P) (len P + 1 - 2)); [lia|].
      bstep. rewrite trimLoop_empty by lia. bstep. eauto.
    + clear IHL0. rename l0 into c. rewrite len_app, len_cons, len_nil in *.
      pose proof (len_nonneg L0) as HL0.
      destruct (Z.leb_spec (len P) (len L0 + (0 + 1) + len P + 1 - 2)); [|lia].
      assert (G : get (P ++ (L0 ++ [c]) ++ LF :: R)
                      (len L0 + (0 + 1) + len P + 1 - 2) = Done c).
      { replace (P ++ (L0 ++ [c]) ++ LF :: R)
          with ((P ++ L0) ++ c :: LF :: R)
          by (rewrite <- !app_assoc; reflexivity).
        replace (len L0 + (0 + 1) + len P + 1 - 2) with (len (P ++ L0))
          by (rewrite len_app; lia).
        apply get_mid. }
      rewrite G. bstep.
      assert (Hc' : clean (L0 ++ c :: LF :: R) = true).
      { rewrite <- app_assoc in Hc. exact Hc. }
      destruct (beq c CR) eqn:ECR.
      * (* the line ends in CR LF *)
        apply beq_eq in ECR. subst c. bstep.
        destruct L0 as [|d L1] using rev_ind.
        -- rewrite trimLoop_empty by (rewrite len_nil; lia). bstep. eauto.
        -- clear IHL1. rewrite <- app_assoc in Hc'. simpl in Hc'.
           destruct (follows_dangling _ _ (clean_app_inv _ _ _ Hc') eq_refl)
             as (W & Q & C).
           rewrite len_app, len_cons, len_nil in *.
           erewrite trimLoop_stop with (c := d); eauto.
           ++ bstep. eauto.
           ++ pose proof (len_nonneg L1). lia.
           ++ replace (P ++ ((L1 ++ [d]) ++ [CR]) ++ LF :: R)
                with ((P ++ L1) ++ d :: CR :: LF :: R)
                by (rewrite <- !app_assoc; reflexivity).
              replace (len L1 + (0 + 1) + (0 + 1) + len P + 1 - 2 - 1)
                with (len (P ++ L1)) by (rewrite len_app; lia).
              apply get_mid.
           ++ apply isTrimByte_false; auto.
              apply not_in_beq with (L := L1). intros Hin. apply Hn.
              apply in_or_app. now left.
      * (* the line ends in a bare line feed *)
        bstep.
        destruct (follows_eol _ _ (clean_app_inv _ _ _ Hc') eq_refl)
          as (W & Q).
        erewrite trimLoop_stop with (c := c); eauto.
        -- bstep. eauto.
        -- lia.
        -- replace (len L0 + (0 + 1) + len P + 1 - 1 - 1)
             with (len L0 + (0 + 1) + len P + 1 - 2) by lia.
           exact G.
        -- apply isTrimByte_false; auto. now apply not_in_beq with (L := L0).
Qed.

(** ** The output of [Encode] is clean *)

Lemma literal_byte (c : byte) :
  negb (beq c EQ) && (isVchar c || isNewline c) = true ->
  beq c EQ = false /\ isWSP c = false
  /\ ((32 <=? bval c) && (bval c <=? 126)) || beq c LF || beq c CR || beq c TAB
     = true.
Proof. each_byte c. Qed.

Lemma wsp_byte (c : byte) :
  isWSP c = true ->
  beq c EQ = false /\ beq c CR = false /\ beq c LF = false
  /\ ((32 <=? bval c) && (bval c <=? 126)) || beq c LF || beq c CR || beq c TAB
     = true.
Proof. each_byte c. Qed.

Lemma escaped_byte (c : byte) :
  negb (beq c EQ) && (isVchar c || isNewline c) = false ->
  beq c CR = false /\ beq c LF = false.
Proof. each_byte c. Qed.

Lemma hex_byte (c : byte) :
  isHexDigit c = true ->
  isWSP c = false /\ beq c EQ = false /\ beq c CR = false /\ beq c LF = false.
Proof. each_byte c. Qed.

(** The two shapes of an encoded unit. *)
Lemma encUnit_cases (c : byte) (rest : list byte) :
  (encUnit c rest = [c]
   /\ beq c EQ = false
   /\ (isWSP c = true -> eolAhead rest = false)
   /\ ((32 <=? bval c) && (bval c <=? 126))
      || beq c LF || beq c CR || beq c TAB = true)
  \/ (encUnit c rest = encodeByte c
      /\ beq c CR = false /\ beq c LF = false).
Proof.
  unfold encUnit.
  destruct (negb (beq c EQ) && (isVchar c || isNewline c)) eqn:E1.
  - left. destruct (literal_byte _ E1) as (Q & W & D).
    repeat split; auto. rewrite W. discriminate.
  - destruct (isWSP c) eqn:E2.
    + destruct (wsp_byte _ E2) as (Q & C & L & D).
      destruct (eolAhead rest) eqn:E3.
      * right. auto.
      * left. auto.
    + right. split; [reflexivity|]. now apply escaped_byte.
Qed.

Lemma headIs_Encode (c : byte) (rest : list byte) :
  beq c CR = true \/ beq c LF = true ->
  headIs c (Encode rest) = headIs c rest.
Proof.
  intros Hc. destruct rest as [|d r]; [reflexivity|].
  rewrite Encode_cons.
  destruct (encUnit_cases d r) as [(-> & _)|(-> & C & L)];
    [reflexivity|].
  destruct (encodeByte_shape d) as (X & Y & -> & _). simpl.
  destruct Hc as [Hc|Hc]; apply beq_eq in Hc; subst c;
    [now rewrite C | now rewrite L].
Qed.

Lemma eolAhead_alt (s : list byte) :
  eolAhead s =
  match s with
  | [] => true
  | d :: r => beq d LF || (beq d CR && headIs LF r)
  end.
Proof. destruct s; reflexivity. Qed.

Lemma danglingAhead_alt (s : list byte) :
  danglingAhead s =
  match s with
  | [] => true
  | d :: r => beq d CR && headIs LF r
  end.
Proof. destruct s; reflexivity. Qed.

Lemma ahead_Encode (rest : list byte) :
  eolAhead (Encode rest) = eolAhead rest
  /\ danglingAhead (Encode rest) = danglingAhead rest.
Proof.
  destruct rest as [|d r]; [split; reflexivity|].
  rewrite Encode_cons.
  destruct (encUnit_cases d r) as [(-> & _)|(-> & C & L)].
  - simpl app. rewrite !eolAhead_alt, !danglingAhead_alt.
    rewrite headIs_Encode by (right; reflexivity). split; reflexivity.
  - destruct (encodeByte_shape d) as (X & Y & -> & _). simpl.
    rewrite C, L. split; reflexivity.
Qed.

Lemma follows_hex (X : byte) (t : list byte) :
  isHexDigit X = true -> follows X t = true.
Proof.
  intros H. destruct (hex_byte _ H) as (W & Q & C & L).
  unfold follows. now rewrite W, Q, C.
Qed.

Lemma Encode_clean (x : list byte) :
  noDanglingCR x = true -> clean (Encode x) = true.
Proof.
  induction x as [|c rest IH]; [reflexivity|].
  simpl noDanglingCR. intros H. apply andb_prop in H. destruct H as [Hd Hr].
  specialize (IH Hr). rewrite Encode_cons.
  destruct (ahead_Encode rest) as [He Hda].
  destruct (encUnit_cases c rest) as [(-> & Q & W & _)|(-> & C & L)].
  - simpl. rewrite IH, andb_true_r. unfold follows. rewrite Q, He, Hda.
    destruct (isWSP c) eqn:EW.
    + simpl. now rewrite W.
    + simpl. exact Hd.
  - destruct (encodeByte_shape c) as (X & Y & -> & HX & HY & _). simpl.
    rewrite IH, (follows_hex X), (follows_hex Y) by assumption.
    destruct (hex_byte _ HX) as (_ & _ & CX & LX).
    unfold follows. simpl. now rewrite LX, CX.
Qed.

(** ** [Decode] after [Encode] *)

Lemma decodeLoop_eq fuel src i st dst :
  decodeLoop (S fuel) src i st dst =
  if len src <=? i then Done (dst, None)
  else
    st <- (if i =? d_eol st then scanLine src i (d_err st) else Done st) ;;
    if (0 <? d_trimLen st) && (i =? d_eol st - d_trimLen st - d_eolLen st)
    then
      match d_err st with
      | Some e => Done (dst, Some e)
      | None => decodeLoop fuel src (i + (d_trimLen st - 1) + 1) st dst
      end
    else
      c <- get src i ;;
      if beq c EQ then
        if len src <=? i + 2 then Done (dst, Some ErrUnexpectedEOF)
        else
          v <- sliceFrom src (i + 1) ;;
          '(b, convErr) <- readHexByte v ;;
          match convErr with
          | Some e => Done (dst, Some e)
          | None => decodeLoop fuel src (i + 2 + 1) st (dst ++ [b])
          end
      else if ((32 <=? bval c) && (bval c <=? 126))
              || beq c LF || beq c CR || beq c TAB
      then decodeLoop fuel src (i + 1) st (dst ++ [c])
      else Done (dst, Some (ErrInvalidUnescaped c)).
Proof. reflexivity. Qed.

Lemma rescan_clean (P s : list byte) (st : dstate) :
  clean s = true -> s <> [] -> d_trimLen st = 0 -> d_err st = None ->
  exists st',
    (if len P =? d_eol st then scanLine (P ++ s) (len P) (d_err st)
     else Done st) = Done st'
    /\ d_trimLen st' = 0 /\ d_err st' = None.
Proof.
  intros Hc Hne Ht He. destruct (len P =? d_eol st).
  - destruct (scanLine_clean P (d_err st) Hc Hne) as (eol & eolLen & ->).
    eexists. split; [reflexivity|]. simpl. auto.
  - eauto.
Qed.

Lemma sliceFrom_after {A} (P : list A) (a : A) (t : list A) :
  sliceFrom (P ++ a :: t) (len P + 1) = Done t.
Proof.
  replace (P ++ a :: t) with ((P ++ [a]) ++ t)
    by (rewrite <- app_assoc; reflexivity).
  replace (len P + 1) with (len (P ++ [a]))
    by (rewrite len_app, len_cons, len_nil; lia).
  apply slice_app_suffix.
Qed.

Lemma encUnit_nonempty (c : byte) (rest : list byte) : encUnit c rest <> [].
Proof.
  destruct (encUnit_cases c rest) as [(-> & _)|(-> & _)]; [discriminate|].
  destruct (encodeByte_shape c) as (X & Y & -> & _). discriminate.
Qed.

Lemma decodeLoop_Encode (xs : list byte) :
  noDanglingCR xs = true ->
  forall (P : list byte) (fuel : nat) (st : dstate) (dst : list byte),
    d_trimLen st = 0 -> d_err st = None ->
    (length (Encode xs) < fuel)%nat ->
    decodeLoop fuel (P ++ Encode xs) (len P) st dst = Done (dst ++ xs, None).
Proof.
  induction xs as [|c rest IH]; intros Hx P fuel st dst Ht He Hf.
  - destruct fuel as [|fuel]; [lia|]. rewrite decodeLoop_eq.
    rewrite Encode_nil, !app_nil_r.
    destruct (Z.leb_spec (len P) (len P)); [reflexivity | lia].
  - destruct fuel as [|fuel]; [lia|]. rewrite decodeLoop_eq.
    pose proof (Encode_clean _ Hx) as Hc.
    assert (Hr : noDanglingCR rest = true).
    { simpl in Hx. apply andb_prop in Hx. tauto. }
    rewrite Encode_cons in *.
    assert (Hne : encUnit c rest ++ Encode rest <> []).
    { pose proof (encUnit_nonempty c rest). destruct (encUnit c rest);
        [contradiction | discriminate]. }
    pose proof (len_nonneg P) as HP.
    pose proof (len_nonneg (Encode rest)) as HE.
    destruct (rescan_clean P st Hc Hne Ht He) as (st' & -> & Ht' & He').
    bstep. rewrite Ht'. simpl andb. cbv iota.
    destruct (encUnit_cases c rest) as [(EU & Q & _ & D)|(EU & _)];
      rewrite EU in *.
    + (* the byte was written as itself *)
      rewrite len_app, len_app, len_cons, len_nil.
      destruct (Z.leb_spec (len P + (0 + 1 + len (Encode rest))) (len P));
        [lia|].
      simpl app. rewrite get_mid. bstep. rewrite Q, D.
      replace (P ++ c :: Encode rest) with ((P ++ [c]) ++ Encode rest)
        by (rewrite <- app_assoc; reflexivity).
      replace (len P + 1) with (len (P ++ [c]))
        by (rewrite len_app, len_cons, len_nil; lia).
      rewrite IH; auto.
      * now rewrite <- app_assoc.
      * rewrite length_app in Hf. simpl in Hf. lia.
    + (* the byte was written as an escape *)
      destruct (encodeByte_shape c) as (X & Y & EB & _ & _ & RH).
      rewrite EB in *. simpl app.
      rewrite len_app, !len_cons.
      destruct (Z.leb_spec (len P + (len (Encode rest) + 1 + 1 + 1)) (len P));
        [lia|].
      rewrite get_mid. bstep. rewrite beq_refl.
      destruct (Z.leb_spec (len P + (len (Encode rest) + 1 + 1 + 1))
                           (len P + 2)); [lia|].
      rewrite sliceFrom_after. bstep. rewrite RH. bstep.
      replace (P ++ EQ :: X :: Y :: Encode rest)
        with ((P ++ [EQ; X; Y]) ++ Encode rest)
        by (rewrite <- app_assoc; reflexivity).
      replace (len P + 2 + 1) with (len (P ++ [EQ; X; Y]))
        by (rewrite len_app, !len_cons, len_nil; lia).
      rewrite IH; auto.
      * now rewrite <- app_assoc.
      * rewrite length_app in Hf. simpl in Hf. lia.
Qed.

(** C1, as amended: [Decode] inverts [Encode] on every byte sequence that
    has no dangling carriage return (a CR that is the last byte of the
    input or is directly followed by CR LF); decoding succeeds without
    error and returns the input. *)
Theorem Decode_Encode_roundtrip (x : list byte) :
  noDanglingCR x = true ->
  Decode (Encode x) = Done (x, None).
Proof.
  intros Hx. unfold Decode.
  apply (@decodeLoop_Encode x Hx [] _ (mkD 0 0 0 None) []); auto.
Qed.

Lemma Decode_Encode_roundtrip_witness :
  noDanglingCR (bs "a b " ++ [CR; LF] ++ [xc3; xa9; TAB; LF] ++ bs "=x") = true
  /\ Decode (Encode (bs "a b " ++ [CR; LF] ++ [xc3; xa9; TAB; LF] ++ bs "=x"))
     = Done (bs "a b " ++ [CR; LF] ++ [xc3; xa9; TAB; LF] ++ bs "=x", None).
Proof.
  split; [reflexivity|]. apply Decode_Encode_roundtrip. reflexivity.
Defined.

(** C1, as stated, fails: a lone carriage return is encoded as itself and
    then trimmed by the decoder as trailing white space. *)
Lemma Decode_Encode_lone_CR :
  Encode [CR] = [CR] /\ Decode (Encode [CR]) = Done ([], None)
  /\ Decode (Encode [CR]) <> Done ([CR], None).
Proof. split; [reflexivity | split; [reflexivity | discriminate]]. Qed.

(** ** What [scanLine] computes on any input *)

Lemma trimLoop_spec (fuel : nat) src i eol eolLen err :
  forall k,
  0 <= i -> 0 <= k -> 0 <= eolLen -> i <= eol - eolLen - k ->
  eol <= len src ->
  eol - eolLen - k - i < Z.of_nat fuel ->
  (forall j, eol - eolLen - k <= j < eol ->
             exists c, get src j = Done c /\ isTrimByte c = true) ->
  exists k' eolLen' err',
    trimLoop fuel src i eol eolLen k err = Done (k', eolLen', err')
    /\ 0 <= eolLen' /\ 0 <= k' /\ i <= eol - k' - eolLen'
    /\ (0 < k' ->
        (exists c, get src (eol - k' - eolLen') = Done c
                   /\ (isTrimByte c = true \/ c = EQ))
        /\ (forall j, eol - k' - eolLen' < j < eol ->
                      exists c, get src j = Done c /\ isTrimByte c = true)).
Proof.
  induction fuel as [|fuel IH]; intros k Hi Hk He Hik Hlen Hf Htr; [lia|].
  assert (Hstop : exists k' eolLen' err',
    Done (k, eolLen, err) = Done (k', eolLen', err')
    /\ 0 <= eolLen' /\ 0 <= k' /\ i <= eol - k' - eolLen'
    /\ (0 < k' ->
        (exists c, get src (eol - k' - eolLen') = Done c
                   /\ (isTrimByte c = true \/ c = EQ))
        /\ (forall j, eol - k' - eolLen' < j < eol ->
                      exists c, get src j = Done c /\ isTrimByte c = true))).
  { exists k, eolLen, err. split; [reflexivity|].
    split; [lia|]. split; [lia|]. split; [lia|]. intros Hpos. split.
    - destruct (Htr (eol - k - eolLen)) as (c & G & T); [lia|]. eauto.
    - intros j Hj. apply Htr. lia. }
  rewrite trimLoop_eq. destruct (Z.eqb_spec k (eol - eolLen - i)) as [E|E];
    [exact Hstop|].
  destruct (@get_in_range _ src (eol - eolLen - k - 1)) as (c & G); [lia|].
  rewrite G. bstep. destruct (isTrimByte c) eqn:T.
  - apply IH; try lia. intros j Hj.
    destruct (Z.eq_dec j (eol - eolLen - k - 1)) as [->|Hne]; [eauto|].
    apply Htr. lia.
  - destruct (beq c EQ) eqn:Q; [|exact Hstop].
    apply beq_eq in Q. subst c. destruct (Z.ltb_spec 0 k) as [Hpos|Hz].
    + cbv zeta. unfold slice.
      destruct (Z.leb_spec 0 (eol - (k + eolLen + 1) + 1)); [|lia].
      destruct (Z.leb_spec (eol - (k + eolLen + 1) + 1) eol); [|lia].
      destruct (Z.leb_spec eol (len src)); [|lia].
      simpl andb. cbv iota. bstep.
      eexists _, _, _. split; [reflexivity|].
      split; [lia|]. split; [lia|]. split; [lia|]. intros _. split.
      * exists EQ. split; [|now right]. rewrite <- G. f_equal. lia.
      * intros j Hj. apply Htr. lia.
    + assert (k = 0) by lia. subst k.
      eexists _, _, _. split; [reflexivity|].
      split; [lia|]. split; [lia|]. split; [lia|]. intros _. split.
      * exists EQ. split; [|now right]. rewrite <- G. f_equal. lia.
      * intros j Hj. apply Htr. lia.
Qed.

Lemma scanLine_spec (P s : list byte) (err : option error) :
  s <> [] ->
  exists st,
    scanLine (P ++ s) (len P) err = Done st
    /\ scanned (P ++ s) st
    /\ len P < d_eol st <= len (P ++ s)
    /\ (d_eol st = len (P ++ s) \/ get (P ++ s) (d_eol st - 1) = Done LF)
    /\ len P <= trimStart st.
Proof.
  intros Hne. unfold scanLine. rewrite slice_app_suffix. bstep.
  pose proof (len_nonneg P) as HP. pose proof (len_nonneg s) as Hs.
  assert (Hs1 : 0 < len s).
  { destruct s; [contradiction|]. rewrite len_cons. pose proof (len_nonneg s).
    lia. }
  pose proof (IndexByte_range s LF) as Hr.
  assert (Hscan : forall eol eolLen,
    len P < eol <= len (P ++ s) -> 0 <= eolLen -> len P <= eol - eolLen ->
    (forall j, eol - eolLen <= j < eol ->
               exists c, get (P ++ s) j = Done c /\ isTrimByte c = true) ->
    (eol = len (P ++ s) \/ get (P ++ s) (eol - 1) = Done LF) ->
    exists st,
      ('(trimLen, eolLen, err) <-
         trimLoop (S (length (P ++ s))) (P ++ s) (len P) eol eolLen 0 err ;;
       Done (mkD eol trimLen eolLen err)) = Done st
      /\ scanned (P ++ s) st
      /\ len P < d_eol st <= len (P ++ s)
      /\ (d_eol st = len (P ++ s) \/ get (P ++ s) (d_eol st - 1) = Done LF)
      /\ len P <= trimStart st).
  { intros eol eolLen Heol Hel Hcontent Htr Hend.
    destruct (@trimLoop_spec (S (length (P ++ s))) (P ++ s) (len P) eol eolLen
                err 0) as (k' & eolLen' & err' & -> & H1 & H2 & H3 & H4);
      try lia.
    - unfold len in *. lia.
    - intros j Hj. apply Htr. lia.
    - bstep. eexists. split; [reflexivity|].
      unfold scanned, trimStart. simpl.
      split; [|split; [lia|split; [assumption|lia]]].
      split; [lia|]. split; [lia|]. intros Hpos.
      destruct (H4 Hpos) as [Ha Hb].
      split; [lia|]. split; [lia|]. split; [exact Ha|].
      split; [exact Hb | exact Hend]. }
  rewrite len_app in *.
  destruct (Z.ltb_spec (IndexByte s LF) 0) as [Hlt|Hge].
  - destruct (IndexByte_none _ _ Hlt) as [Hi _]. rewrite Hi.
    replace (-1 + len P + 1) with (len P) by lia. rewrite Z.eqb_refl. bstep.
    apply Hscan; try lia; auto.
  - destruct (IndexByte_found _ _ Hge) as (L & R & Es & Hn & Hi). rewrite Hi.
    pose proof (len_nonneg L) as HL.
    assert (HLs : len L < len s).
    { rewrite Es, len_app, len_cons. pose proof (len_nonneg R). lia. }
    assert (GLF : get (P ++ s) (len L + len P + 1 - 1) = Done LF).
    { rewrite Es. replace (P ++ L ++ LF :: R) with ((P ++ L) ++ LF :: R)
        by (now rewrite <- app_assoc).
      replace (len L + len P + 1 - 1) with (len (P ++ L))
        by (rewrite len_app; lia).
      apply get_mid. }
    destruct (Z.eqb_spec (len L + len P + 1) (len P)); [lia|].
    destruct (Z.leb_spec (len P) (len L + len P + 1 - 2)) as [H2|H2].
    + destruct (@get_in_range _ (P ++ s) (len L + len P + 1 - 2)) as (c & G).
      { rewrite len_app. lia. }
      rewrite G. bstep. destruct (beq c CR) eqn:ECR.
      * apply beq_eq in ECR. subst c. bstep. apply Hscan; try lia; auto.
        intros j Hj.
        destruct (Z.eq_dec j (len L + len P + 1 - 2)) as [->|Hne'].
        -- exists CR. split; [assumption | reflexivity].
        -- replace j with (len L + len P + 1 - 1) by lia.
           exists LF. split; [assumption | reflexivity].
      * bstep. apply Hscan; try lia; auto.
        intros j Hj. replace j with (len L + len P + 1 - 1) by lia.
        exists LF. split; [assumption | reflexivity].
    + bstep. apply Hscan; try lia; auto.
      intros j Hj. replace j with (len L + len P + 1 - 1) by lia.
      exists LF. split; [assumption | reflexivity].
Qed.

(** ** [Decode] on text without line structure *)

Arguments decodeLoop : simpl never.
Arguments trimLoop : simpl never.
Arguments scanLine : simpl never.





Lemma trim_is_body (c : byte) : isTrimByte c = true -> isBodyByte c = true.
Proof. each_byte c. Qed.

Lemma fromHex_hex (c : byte) :
  isHexDigit c = true -> snd (fromHex c) = None.
Proof. each_byte c. Qed.


Lemma readHexByte_hex (X Y : byte) (t : list byte) :
  isHexDigit X = true -> isHexDigit Y = true ->
  readHexByte (X :: Y :: t) = Done (hexByte X Y, None).
Proof.
  intros HX HY. unfold readHexByte, hexByte.
  rewrite get_head. bstep.
  pose proof (fromHex_hex _ HX) as EX. pose proof (fromHex_hex _ HY) as EY.
  destruct (fromHex X) as [hb ex]. simpl in EX. subst ex.
  change (get (X :: Y :: t) 1) with (Done Y). bstep.
  destruct (fromHex Y) as [lb ey]. simpl in EY. subst ey. reflexivity.
Qed.



Lemma get_In {A} (s : list A) (k : Z) (c : A) : get s k = Done c -> In c s.
Proof.
  intros H. destruct (get_split _ _ H) as (P & R & -> & _).
  apply in_or_app. right. now left.
Qed.

Lemma Done_inj {A} (a b : A) : Done a = Done b -> a = b.
Proof. now inversion 1. Qed.







(** *** What follows the text: the cases of the loop body *)





(** *** An equals sign at the end of the input *)


Lemma IndexByte_first (L : list byte) (c : byte) (R : list byte) :
  ~ In c L -> IndexByte (L ++ c :: R) c = len L.
Proof.
  induction L as [|b L IH]; intros Hn; simpl.
  - now rewrite beq_refl.
  - destruct (beq b c) eqn:E.
    + apply beq_eq in E. subst b. exfalso. apply Hn. now left.
    + rewrite IH by (intros Hin; apply Hn; now right).
      pose proof (len_nonneg L). rewrite len_cons.
      destruct (Z.ltb_spec (len L) 0); lia.
Qed.


Lemma not_in_snoc (c : byte) (e : list byte) (t : list byte) :
  ~ In c e -> ~ In c t -> ~ In c (e ++ t).
Proof. intros H1 H2 Hin. apply in_app_or in Hin. tauto. Qed.












(** ** The Q decoder on payloads *)

Arguments qDecodeLoop : simpl never.

Lemma qDecodeLoop_step fuel s i dec :
  qDecodeLoop (S fuel) s i dec =
  if i <? len s then
    c <- get s i ;;
    if beq c x5f then qDecodeLoop fuel s (i + 1) (dec ++ [SP])
    else if beq c EQ then
      if len s <=? i + 2 then Done (dec, Some ErrUnexpectedEOF)
      else
        v <- sliceFrom s (i + 1) ;;
        '(b, err) <- readHexByte v ;;
        match err with
        | Some er => Done (dec, Some er)
        | None => qDecodeLoop fuel s (i + 2 + 1) (dec ++ [b])
        end
    else if isVchar c || beq c SP || beq c LF || beq c CR || beq c TAB
    then qDecodeLoop fuel s (i + 1) (dec ++ [c])
    else Done (dec, Some (ErrInvalidQ c))
  else Done (dec, None).
Proof. reflexivity. Qed.

Lemma qValue_cases (P : list byte -> list byte -> Prop) :
  P [] [] ->
  (forall e v, qValue e = Some v -> P e v -> P (x5f :: e) (SP :: v)) ->
  (forall c e v, beq c x5f = false -> beq c EQ = false ->
                 isVchar c || beq c SP || beq c LF || beq c CR || beq c TAB
                 = true ->
                 qValue e = Some v -> P e v -> P (c :: e) (c :: v)) ->
  (forall X Y e v, isHexDigit X = true -> isHexDigit Y = true ->
                   qValue e = Some v -> P e v ->
                   P (EQ :: X :: Y :: e) (hexByte X Y :: v)) ->
  forall e v, qValue e = Some v -> P e v.
Proof.
  intros Hnil Hus Hlit Hesc e.
  assert (H : forall n e, (length e <= n)%nat ->
                          forall v, qValue e = Some v -> P e v).
  { induction n as [|n IH]; intros e' Hn v Hv.
    - destruct e'; [|simpl in Hn; lia]. simpl in Hv. inversion Hv. exact Hnil.
    - destruct e' as [|c e']; [simpl in Hv; inversion Hv; exact Hnil|].
      simpl in Hv, Hn. destruct (beq c x5f) eqn:U.
      + apply beq_eq in U. subst c.
        destruct (qValue e') as [v'|] eqn:Hv'; [|discriminate].
        inversion Hv. apply Hus; auto. apply IH; [lia | assumption].
      + destruct (beq c EQ) eqn:Q.
        * apply beq_eq in Q. subst c.
          destruct e' as [|X [|Y e'']]; try discriminate.
          destruct (isHexDigit X) eqn:HX; [|discriminate].
          destruct (isHexDigit Y) eqn:HY; [|discriminate].
          simpl in Hv, Hn.
          destruct (qValue e'') as [v'|] eqn:Hv'; [|discriminate].
          inversion Hv. apply Hesc; auto. apply IH; [lia | assumption].
        * destruct (isVchar c || beq c SP || beq c LF || beq c CR || beq c TAB)
            eqn:V; [|discriminate].
          destruct (qValue e') as [v'|] eqn:Hv'; [|discriminate].
          inversion Hv. apply Hlit; auto. apply IH; [lia | assumption]. }
  intros v. apply (H (length e)). lia.
Qed.

Lemma qdecode_text (e v : list byte) :
  qValue e = Some v ->
  forall (P R dec : list byte) (fuel : nat),
    len (P ++ e ++ R) - len P < Z.of_nat fuel ->
    exists fuel',
      len (P ++ e ++ R) - (len P + len e) < Z.of_nat fuel'
      /\ qDecodeLoop fuel (P ++ e ++ R) (len P) dec
         = qDecodeLoop fuel' (P ++ e ++ R) (len P + len e) (dec ++ v).
Proof.
  intros Hv. pattern e, v. revert e v Hv. apply qValue_cases.
  - intros P R dec fuel Hf. exists fuel. lens.
    rewrite Z.add_0_r, app_nil_r. revert Hf. lens. auto.
  - intros e v _ IH P R dec fuel Hf. revert Hf. lens. intros Hf.
    pose proof (len_nonneg P). pose proof (len_nonneg e).
    pose proof (len_nonneg R).
    destruct fuel as [|fuel]; [lia|]. rewrite qDecodeLoop_step. lens.
    ltb_true. simpl app. rewrite get_mid. bstep.
    change (beq x5f x5f) with true. cbv iota.
    destruct (IH (P ++ [x5f]) R (dec ++ [SP]) fuel) as (fuel' & Hf' & Heq).
    + lens. lia.
    + revert Hf' Heq. rewrite <- app_assoc. simpl app. lens.
      replace (len P + (0 + 1) + len e) with (len P + (len e + 1)) by lia.
      replace (len P + (0 + 1)) with (len P + 1) by lia.
      intros Hf' Heq. exists fuel'. rewrite <- app_assoc in Heq.
      split; [lia | exact Heq].
  - intros c e v U Q V _ IH P R dec fuel Hf. revert Hf. lens. intros Hf.
    pose proof (len_nonneg P). pose proof (len_nonneg e).
    pose proof (len_nonneg R).
    destruct fuel as [|fuel]; [lia|]. rewrite qDecodeLoop_step. lens.
    ltb_true. simpl app. rewrite get_mid. bstep. rewrite U, Q, V.
    destruct (IH (P ++ [c]) R (dec ++ [c]) fuel) as (fuel' & Hf' & Heq).
    + lens. lia.
    + revert Hf' Heq. rewrite <- app_assoc. simpl app. lens.
      replace (len P + (0 + 1) + len e) with (len P + (len e + 1)) by lia.
      replace (len P + (0 + 1)) with (len P + 1) by lia.
      intros Hf' Heq. exists fuel'. rewrite <- app_assoc in Heq.
      split; [lia | exact Heq].
  - intros X Y e v HX HY _ IH P R dec fuel Hf. revert Hf. lens. intros Hf.
    pose proof (len_nonneg P). pose proof (len_nonneg e).
    pose proof (len_nonneg R).
    destruct fuel as [|fuel]; [lia|]. rewrite qDecodeLoop_step. lens.
    ltb_true. simpl app. rewrite get_mid. bstep.
    change (beq EQ x5f) with false. rewrite beq_refl. cbv iota. leb_false.
    rewrite sliceFrom_after. bstep.
    rewrite readHexByte_hex by assumption. bstep.
    destruct (IH (P ++ [EQ; X; Y]) R (dec ++ [hexByte X Y]) fuel)
      as (fuel' & Hf' & Heq).
    + lens. lia.
    + revert Hf' Heq. rewrite <- app_assoc. simpl app. lens.
      replace (len P + (0 + 1 + 1 + 1) + len e)
        with (len P + (len e + 1 + 1 + 1)) by lia.
      replace (len P + (0 + 1 + 1 + 1)) with (len P + 2 + 1) by lia.
      intros Hf' Heq. exists fuel'. rewrite <- app_assoc in Heq.
      split; [lia | exact Heq].
Qed.

Lemma qDecode_prefix (e v R : list byte) :
  qValue e = Some v ->
  exists fuel,
    len R < Z.of_nat fuel
    /\ qDecode (e ++ R) = qDecodeLoop fuel (e ++ R) (len e) v.
Proof.
  intros Hv.
  destruct (@qdecode_text e v Hv [] R [] (S (length (e ++ R))))
    as (fuel' & Hf' & Heq).
  - simpl app. change (len (@nil byte)) with 0. unfold len. lia.
  - simpl app in *. change (len (@nil byte)) with 0 in *.
    rewrite Z.add_0_l in *. exists fuel'. split; [|exact Heq].
    revert Hf'. lens. lia.
Qed.

Lemma qDecode_text (e v : list byte) :
  qValue e = Some v -> qDecode e = Done (v, None).
Proof.
  intros Hv. destruct (@qDecode_prefix e v [] Hv) as (fuel & Hf & Heq).
  rewrite app_nil_r in Heq. rewrite Heq.
  change (len (@nil byte)) with 0 in Hf.
  destruct fuel as [|fuel]; [lia|]. rewrite qDecodeLoop_step.
  ltb_false. reflexivity.
Qed.






(** ** The stream encoder after a short write *)

Import encoder.

Arguments countLoop : simpl never.

Lemma countLoop_step fuel dbuf n i nn :
  countLoop (S fuel) dbuf n i nn =
  if i <? n then
    c <- get dbuf i ;;
    if beq c EQ then
      if n <=? i + 2 then Done nn
      else countLoop fuel dbuf n (i + 2 + 1) (nn + 1)
    else countLoop fuel dbuf n (i + 1) (nn + 1)
  else Done nn.
Proof. reflexivity. Qed.

Lemma encUnit_len (c : byte) (rest : list byte) :
  (len (encUnit c rest) = 1 /\ encUnit c rest = [c] /\ beq c EQ = false)
  \/ (len (encUnit c rest) = 3 /\ exists X Y, encUnit c rest = [EQ; X; Y]).
Proof.
  destruct (encUnit_cases c rest) as [(E & Q & _)|(E & _)]; rewrite E.
  - left. auto.
  - right. destruct (encodeByte_shape c) as (X & Y & -> & _).
    split; [reflexivity | eauto].
Qed.

Lemma Encode_len_bound (src : list byte) :
  len (Encode src) <= MaxEncodedLen (len src).
Proof.
  unfold MaxEncodedLen. induction src as [|c rest IH].
  - rewrite Encode_nil. change (len (@nil byte)) with 0. lia.
  - rewrite Encode_cons. lens.
    destruct (encUnit_len c rest) as [(-> & _)|(-> & _)]; lia.
Qed.

Lemma complete_cons (c : byte) (rest : list byte) (m : Z) :
  complete (c :: rest) m =
  if len (encUnit c rest) <=? m
  then 1 + complete rest (m - len (encUnit c rest)) else 0.
Proof. reflexivity. Qed.

Lemma complete_nonpos (src : list byte) (m : Z) : m <= 0 -> complete src m = 0.
Proof.
  intros Hm. destruct src as [|c rest]; [reflexivity|]. rewrite complete_cons.
  destruct (encUnit_len c rest) as [(-> & _)|(-> & _)];
    leb_false; reflexivity.
Qed.

Lemma countLoop_complete (rest : list byte) :
  forall (D T : list byte) (fuel : nat) (n nn : Z),
    len D <= n <= len D + len (Encode rest) ->
    (length (Encode rest) < fuel)%nat ->
    countLoop fuel (D ++ Encode rest ++ T) n (len D) nn
    = Done (nn + complete rest (n - len D)).
Proof.
  induction rest as [|c rest IH]; intros D T fuel n nn Hn Hf.
  - rewrite Encode_nil in *. change (len (@nil byte)) with 0 in Hn.
    destruct fuel as [|fuel]; [lia|]. rewrite countLoop_step.
    ltb_false. simpl. now rewrite Z.add_0_r.
  - rewrite Encode_cons in *. revert Hn. lens. intros Hn.
    pose proof (len_nonneg D). pose proof (len_nonneg (Encode rest)).
    destruct fuel as [|fuel]; [lia|]. rewrite countLoop_step.
    rewrite complete_cons.
    destruct (Z.ltb_spec (len D) n) as [Hlt|Hge].
    + destruct (encUnit_len c rest) as [(L & E & Q)|(L & X & Y & E)];
        rewrite L, E in *.
      * simpl app. rewrite get_mid. bstep. rewrite Q. leb_true.
        replace (D ++ c :: Encode rest ++ T)
          with ((D ++ [c]) ++ Encode rest ++ T)
          by (now rewrite <- app_assoc).
        replace (len D + 1) with (len (D ++ [c])) by (lens; lia).
        rewrite IH.
        -- replace (n - len (D ++ [c])) with (n - len D - 1) by (lens; lia).
           f_equal. lia.
        -- lens. lia.
        -- rewrite length_app in Hf. simpl in Hf. lia.
      * simpl app. rewrite get_mid. bstep. rewrite beq_refl.
        destruct (Z.leb_spec n (len D + 2)) as [Hshort|Hlong].
        -- leb_false. now rewrite Z.add_0_r.
        -- leb_true.
           replace (D ++ EQ :: X :: Y :: Encode rest ++ T)
             with ((D ++ [EQ; X; Y]) ++ Encode rest ++ T)
             by (now rewrite <- app_assoc).
           replace (len D + 2 + 1) with (len (D ++ [EQ; X; Y])) by (lens; lia).
           rewrite IH.
           ++ replace (n - len (D ++ [EQ; X; Y])) with (n - len D - 3)
                by (lens; lia).
              f_equal. lia.
           ++ lens. lia.
           ++ rewrite length_app in Hf. simpl in Hf. lia.
    + destruct (encUnit_len c rest) as [(L & _)|(L & _)]; rewrite L;
        leb_false; now rewrite Z.add_0_r.
Qed.

Lemma unitEnd_all (src : list byte) :
  unitEnd src (length src) = len (Encode src).
Proof.
  induction src as [|c rest IH]; [reflexivity|].
  simpl unitEnd. rewrite Encode_cons, IH. lens. reflexivity.
Qed.

(** What [complete] counts: the encodings of the first [complete src n]
    bytes end within the first [n] bytes, and the next one does not. *)
Lemma complete_spec (src : list byte) :
  forall n, 0 <= n <= len (Encode src) ->
    0 <= complete src n <= len src
    /\ unitEnd src (Z.to_nat (complete src n)) <= n
    /\ (complete src n < len src ->
        n < unitEnd src (S (Z.to_nat (complete src n)))).
Proof.
  induction src as [|c rest IH]; intros n Hn.
  - rewrite Encode_nil in Hn. change (len (@nil byte)) with 0 in *.
    simpl. lia.
  - rewrite Encode_cons in Hn. revert Hn. lens. intros Hn.
    pose proof (len_nonneg rest). rewrite complete_cons.
    assert (Hu : 1 <= len (encUnit c rest)).
    { destruct (encUnit_len c rest) as [(-> & _)|(-> & _)]; lia. }
    destruct (Z.leb_spec (len (encUnit c rest)) n) as [Hle|Hgt].
    + destruct (IH (n - len (encUnit c rest))) as (Hr & Hle' & Hlt'); [lia|].
      replace (Z.to_nat (1 + complete rest (n - len (encUnit c rest))))
        with (S (Z.to_nat (complete rest (n - len (encUnit c rest)))))
        by lia.
      split; [lia|]. split.
      * simpl unitEnd. lia.
      * intros Hk. change (unitEnd (c :: rest) (S (S ?k)))
          with (len (encUnit c rest) + unitEnd rest (S k)).
        assert (complete rest (n - len (encUnit c rest)) < len rest) by lia.
        specialize (Hlt' H0). lia.
    + split; [lia|]. split; [simpl; lia|]. intros _. simpl.
      destruct rest; simpl; lia.
Qed.

(** C7: when the downstream writer accepts [n] bytes of the encoding and
    reports an error, [encoder.Write] reports [complete p n] input bytes
    with that error: the bytes whose literal or three-byte escape was
    written in full.  The encoding of the reported bytes ends at or before
    byte [n], and that of one more byte would end after it. *)
Theorem encoder_Write_short_write
    (W : Type) (HW : Writer W) (dw dw' : W) (p : bslice) (n : Z) (er : error) :
  Write dw (mkSlice (Encode (sdata p))
                    (make (MaxEncodedLen (slen p) - len (Encode (sdata p)))))
  = Done (dw', n, Some er) ->
  0 <= n <= len (Encode (sdata p)) ->
  encoder_Write (mkEncoder dw) p
  = Done (mkEncoder dw', complete (sdata p) n, Some er)
  /\ 0 <= complete (sdata p) n <= slen p
  /\ unitEnd (sdata p) (Z.to_nat (complete (sdata p) n)) <= n
  /\ (complete (sdata p) n < slen p ->
      n < unitEnd (sdata p) (S (Z.to_nat (complete (sdata p) n)))).
Proof.
  intros Hw Hn. split; [|now apply complete_spec].
  unfold encoder_Write. cbv zeta.
  set (enc := Encode (sdata p)) in *.
  set (pad := make (MaxEncodedLen (slen p) - len enc)) in *.
  assert (Hq : reslice (literal (enc ++ pad)) 0 (len enc)
               = Done (mkSlice enc pad)).
  { unfold reslice, literal. simpl sdata. simpl sspare. rewrite app_nil_r.
    pose proof (len_nonneg enc). pose proof (len_nonneg pad). lens.
    leb_true. leb_true. leb_true. simpl andb. cbv iota.
    rewrite Z.sub_0_r. unfold len. rewrite Nat2Z.id.
    change (Z.to_nat 0) with 0%nat. simpl skipn.
    rewrite firstn_app, firstn_all, Nat.sub_diag. simpl firstn.
    rewrite skipn_app, skipn_all, Nat.sub_diag. simpl skipn.
    now rewrite app_nil_r. }
  rewrite Hq. bstep. change (w (mkEncoder dw)) with dw. rewrite Hw. bstep.
  pose proof (@countLoop_complete (sdata p) [] pad
                (S (length (enc ++ pad))) n 0) as Hc.
  simpl app in Hc. change (len (@nil byte)) with 0 in Hc.
  fold enc in Hc. rewrite Hc.
  - bstep. rewrite Z.sub_0_r. reflexivity.
  - lia.
  - rewrite length_app. lia.
Qed.

Lemma encoder_Write_short_write_witness :
  encoder_Write (mkEncoder (mkLimited [] 4 (ErrInvalidQ x00)))
                (literal (bs "a=b=c"))
  = Done (mkEncoder (mkLimited (bs "a=3D") 0 (ErrInvalidQ x00)),
          2, Some (ErrInvalidQ x00)).
Proof.
  apply (@encoder_Write_short_write LimitedWriter _
           (mkLimited [] 4 (ErrInvalidQ x00))
           (mkLimited (bs "a=3D") 0 (ErrInvalidQ x00))
           (literal (bs "a=b=c")) 4 (ErrInvalidQ x00)).
  - reflexivity.
  - vm_compute. split; discriminate.
Defined.

(** ** Slices of a slice *)

Import gomail.

Lemma resliceTo_data (p : bslice) (k : Z) :
  0 <= k <= slen p ->
  resliceTo p k
  = Done (mkSlice (firstn (Z.to_nat k) (sdata p))
                  (skipn (Z.to_nat k) (sdata p) ++ sspare p)).
Proof.
  intros Hk. unfold resliceTo, reslice, slen in *. lens.
  pose proof (len_nonneg (sspare p)).
  leb_true. leb_true. leb_true. simpl andb. cbv iota.
  rewrite Z.sub_0_r. change (Z.to_nat 0) with 0%nat. simpl skipn.
  unfold len in *.
  rewrite firstn_app, skipn_app.
  replace (Z.to_nat k - length (sdata p))%nat with 0%nat by lia.
  simpl. now rewrite app_nil_r.
Qed.

Lemma resliceFrom_data (p : bslice) (k : Z) :
  0 <= k <= slen p ->
  resliceFrom p k = Done (mkSlice (skipn (Z.to_nat k) (sdata p)) (sspare p)).
Proof.
  intros Hk. unfold resliceFrom, reslice, slen in *. lens.
  pose proof (len_nonneg (sspare p)).
  leb_true. leb_true. leb_true. simpl andb. cbv iota. unfold len in *.
  rewrite !skipn_app, firstn_app, length_skipn.
  replace (Z.to_nat k - length (sdata p))%nat with 0%nat by lia.
  replace (Z.to_nat (Z.of_nat (length (sdata p)))
           - length (sdata p))%nat with 0%nat by lia.
  replace (Z.to_nat (Z.of_nat (length (sdata p)) - k)
           - (length (sdata p) - Z.to_nat k))%nat with 0%nat by lia.
  simpl skipn. simpl firstn. rewrite app_nil_r.
  rewrite ?firstn_all2 by (rewrite length_skipn; lia).
  rewrite ?Nat2Z.id, ?skipn_all. reflexivity.
Qed.

Lemma firstn_skipn_len {A} (l : list A) (k : Z) :
  0 <= k <= len l ->
  len (firstn (Z.to_nat k) l) = k /\ len (skipn (Z.to_nat k) l) = len l - k.
Proof.
  intros Hk. unfold len in *. rewrite length_firstn, length_skipn. lia.
Qed.

(** ** Lines of the output *)

Lemma splitLines_nonempty mode cur s : splitLines mode cur s <> [].
Proof.
  revert cur. induction s as [|c s IH]; intros cur; simpl; [discriminate|].
  destruct (beq c LF && (negb mode || headIs CR cur)); [discriminate | apply IH].
Qed.

Lemma removelast_cons {A} (x : A) (l : list A) :
  l <> [] -> removelast (x :: l) = x :: removelast l.
Proof. destruct l; [contradiction | reflexivity]. Qed.

Lemma splitLines_app mode (a b cur : list byte) :
  splitLines mode cur (a ++ b)
  = removelast (splitLines mode cur a)
    ++ splitLines mode (openLine mode cur a) b.
Proof.
  revert cur. induction a as [|c a IH]; intros cur; [reflexivity|].
  simpl app. simpl splitLines. simpl openLine.
  destruct (beq c LF && (negb mode || headIs CR cur)).
  - rewrite removelast_cons by apply splitLines_nonempty.
    rewrite IH. reflexivity.
  - apply IH.
Qed.

Lemma openLine_app mode (a b cur : list byte) :
  openLine mode cur (a ++ b) = openLine mode (openLine mode cur a) b.
Proof.
  revert cur. induction a as [|c a IH]; intros cur; [reflexivity|].
  simpl app. simpl openLine.
  destruct (beq c LF && (negb mode || headIs CR cur)); apply IH.
Qed.

Lemma Forall_removelast {A} (P : A -> Prop) (l : list A) :
  Forall P l -> Forall P (removelast l).
Proof.
  induction 1 as [|x l Hx Hl IH]; [constructor|].
  destruct l; [constructor|]. simpl. constructor; assumption.
Qed.

Lemma len_rev {A} (l : list A) : len (rev l) = len l.
Proof. unfold len. now rewrite length_rev. Qed.

Lemma len_dropCR (cur : list byte) : len (dropCR cur) <= len cur.
Proof.
  destruct cur as [|c t]; simpl; [lia|].
  destruct (beq c CR); lens; lia.
Qed.

(** Lines formed while [d] is written are no longer than the open line
    plus [d]. *)
Lemma data_lines mode (K : Z) (d : list byte) :
  forall cur, len cur + len d <= K ->
    Forall (fun l => len l <= K) (splitLines mode cur d)
    /\ len (openLine mode cur d) <= len cur + len d.
Proof.
  induction d as [|c d IH]; intros cur HK.
  - simpl. change (len (@nil byte)) with 0 in *. split; [|lia].
    constructor; [|constructor]. rewrite len_rev. lia.
  - revert HK. lens. intros HK. simpl.
    pose proof (len_nonneg cur). pose proof (len_nonneg d).
    destruct (beq c LF && (negb mode || headIs CR cur)).
    + destruct (IH []) as [H1 H2].
      { change (len (@nil byte)) with 0. lia. }
      change (len (@nil byte)) with 0 in H2. split; [|lia].
      constructor; [|assumption].
      rewrite len_rev. pose proof (len_dropCR cur). lia.
    + destruct (IH (c :: cur)) as [H1 H2]; [lens; lia|].
      revert H2. lens. intros H2. split; [assumption | lia].
Qed.

Lemma b64lined_lines col data out col' :
  b64lined col data out col' ->
  forall cur, len cur <= col ->
    Forall (fun l => len l <= 78) (splitLines true cur out)
    /\ len (openLine true cur out) <= col' /\ col' <= 78.
Proof.
  induction 1 as [col d Hd | col d rest out col' Hd Hrest IH];
    intros cur Hcur.
  - destruct (@data_lines true 78 d cur) as [H1 H2]; [lia|].
    split; [assumption|]. lia.
  - destruct (@data_lines true 78 d cur) as [H1 H2]; [lia|].
    destruct (IH []) as (H3 & H4 & H5); [reflexivity|].
    rewrite splitLines_app, openLine_app. simpl.
    split; [|split; assumption].
    apply Forall_app. split; [now apply Forall_removelast|].
    constructor; [|assumption]. rewrite len_rev. lia.
Qed.

(** ** The base64 line writer *)

Arguments b64Loop : simpl never.

Lemma b64Loop_step fuel (w : Buffer) lineLen p n :
  b64Loop (S fuel) w lineLen p n =
  if maxLineLen <? slen p + lineLen then
    chunk <- resliceTo p (maxLineLen - lineLen) ;;
    '(w1, _, _) <- Write w chunk ;;
    '(w2, _, _) <- Write w1 (literal [CR; LF]) ;;
    p' <- resliceFrom p (maxLineLen - lineLen) ;;
    b64Loop fuel w2 0 p' (n + (maxLineLen - lineLen))
  else Done (w, lineLen, p, n).
Proof. reflexivity. Qed.

Lemma Buffer_Write (B : list byte) (p : bslice) :
  Write (mkBuffer B) p = Done (mkBuffer (B ++ sdata p), slen p, None).
Proof. reflexivity. Qed.

Lemma b64Loop_spec (fuel : nat) :
  forall (B : list byte) (lineLen : Z) (p : bslice) (n : Z),
    0 <= lineLen <= 78 ->
    slen p + (if lineLen =? 78 then 1 else 0) < Z.of_nat fuel ->
    exists out lineLen' p',
      b64Loop fuel (mkBuffer B) lineLen p n
      = Done (mkBuffer (B ++ out), lineLen', p', n + (slen p - slen p'))
      /\ sspare p' = sspare p
      /\ 0 <= lineLen'
      /\ b64lined lineLen (sdata p) (out ++ sdata p') (lineLen' + slen p').
Proof.
  induction fuel as [|fuel IH]; intros B lineLen p n Hl Hf.
  - pose proof (len_nonneg (sdata p)). unfold slen in Hf.
    destruct (lineLen =? 78); lia.
  - rewrite b64Loop_step. unfold maxLineLen.
    pose proof (len_nonneg (sdata p)) as Hp. fold (slen p) in Hp.
    destruct (Z.ltb_spec 78 (slen p + lineLen)) as [Hlong|Hshort].
    + rewrite resliceTo_data by lia. bstep.
      rewrite Buffer_Write. bstep. rewrite Buffer_Write. bstep.
      rewrite resliceFrom_data by lia. bstep. unfold literal. cbn [sdata].
      destruct (@firstn_skipn_len _ (sdata p) (78 - lineLen)) as [Hf1 Hf2];
        [unfold slen in *; lia|].
      set (d := firstn (Z.to_nat (78 - lineLen)) (sdata p)) in *.
      set (rest := skipn (Z.to_nat (78 - lineLen)) (sdata p)) in *.
      destruct (IH ((B ++ d) ++ [CR; LF]) 0 (mkSlice rest (sspare p))
                   (n + (78 - lineLen)))
        as (out & lineLen' & p' & Heq & Hsp & Hl' & Hlined).
      * lia.
      * unfold slen in *. cbn [sdata]. rewrite Hf2.
        change (0 =? 78) with false. cbv iota.
        destruct (Z.eqb_spec lineLen 78); lia.
      * exists (d ++ [CR; LF] ++ out), lineLen', p'.
        rewrite Heq. unfold slen in *. cbn [sdata sspare] in *.
        split.
        { f_equal. f_equal; [|lia]. f_equal.
          now rewrite <- !app_assoc. }
        split; [exact Hsp|]. split; [exact Hl'|].
        rewrite <- (firstn_skipn (Z.to_nat (78 - lineLen)) (sdata p)).
        fold d. fold rest. rewrite <- !app_assoc.
        apply bl_break; [lia|]. exact Hlined.
    + exists [], lineLen, p. rewrite app_nil_r.
      split; [now rewrite Z.sub_diag, Z.add_0_r|].
      split; [reflexivity|]. split; [lia|].
      simpl app. apply bl_last. unfold slen in *. lia.
Qed.

Lemma base64LineWriter_Write_spec (B : list byte) (lineLen : Z) (p : bslice) :
  0 <= lineLen <= 78 ->
  exists out lineLen',
    Write (mkB64 (mkBuffer B) lineLen) p
    = Done (mkB64 (mkBuffer (B ++ out)) lineLen', slen p, None)
    /\ b64lined lineLen (sdata p) out lineLen'.
Proof.
  intros Hl.
  change (Write (mkB64 (mkBuffer B) lineLen) p)
    with (base64LineWriter_Write (mkB64 (mkBuffer B) lineLen) p).
  unfold base64LineWriter_Write. cbn [b_w b_lineLen].
  destruct (@b64Loop_spec (S (S (length (sdata p)))) B lineLen p 0 Hl)
    as (out & lineLen' & p' & -> & Hsp & Hl' & Hlined).
  { unfold slen, len. destruct (lineLen =? 78); lia. }
  bstep. rewrite Buffer_Write. bstep.
  exists (out ++ sdata p'), (lineLen' + slen p').
  split; [|exact Hlined].
  rewrite <- app_assoc. do 2 f_equal. f_equal. lia.
Qed.

(** ** The quoted-printable line writer *)

Lemma splitLines_LF_free (d b cur : list byte) :
  ~ In LF d ->
  splitLines false cur (d ++ b) = splitLines false (rev d ++ cur) b
  /\ openLine false cur (d ++ b) = openLine false (rev d ++ cur) b.
Proof.
  revert cur. induction d as [|c d IH]; intros cur Hn; [split; reflexivity|].
  simpl app. simpl splitLines. simpl openLine.
  assert (Hc : beq c LF = false).
  { apply beq_neq. intros ->. apply Hn. now left. }
  rewrite Hc. simpl andb. cbv iota.
  destruct (IH (c :: cur)) as [H1 H2].
  { intros Hin. apply Hn. now right. }
  rewrite H1, H2. simpl rev. rewrite <- app_assoc. split; reflexivity.
Qed.

Lemma qpLineOK_short (l : list byte) : len l <= 78 -> qpLineOK l = true.
Proof.
  intros H. unfold qpLineOK. destruct (Z.leb_spec (len l) 78); [reflexivity|lia].
Qed.

Lemma qplined_lines col data out col' :
  qplined col data out col' ->
  forall cur, len cur <= col ->
    Forall (fun l => qpLineOK l = true) (splitLines false cur out)
    /\ len (openLine false cur out) <= col' /\ col' <= 77.
Proof.
  induction 1 as [col d Hd
                 | col d rest out col' Hn Hd Hrest IH
                 | col d rest out col' Hn Hcut Hrest IH];
    intros cur Hcur.
  - destruct (@data_lines false 77 d cur) as [H1 H2]; [lia|].
    split; [|lia].
    eapply Forall_impl; [|exact H1]. intros l Hl. cbv beta in Hl.
    apply qpLineOK_short. lia.
  - destruct (@splitLines_LF_free d (LF :: out) cur Hn) as [-> ->].
    destruct (IH []) as (H3 & H4 & H5); [reflexivity|].
    change (splitLines false (rev d ++ cur) (LF :: out))
      with (rev (dropCR (rev d ++ cur)) :: splitLines false [] out).
    change (openLine false (rev d ++ cur) (LF :: out))
      with (openLine false [] out).
    split; [|split; assumption].
    constructor; [|assumption]. apply qpLineOK_short. rewrite len_rev.
    pose proof (len_dropCR (rev d ++ cur)) as Hdrop.
    revert Hdrop. lens. rewrite len_rev. intros Hdrop.
    destruct Hd as [Hd|[Hd Hcr]]; [lia|].
    destruct (rev d) as [|c t] eqn:Erev; [discriminate|].
    simpl in Hcr. simpl app. simpl dropCR. rewrite Hcr. lens.
    assert (len d = len t + 1).
    { rewrite <- (len_rev d), Erev. lens. reflexivity. }
    lia.
  - destruct (@splitLines_LF_free d ([EQ; CR; LF] ++ out) cur Hn) as [-> ->].
    destruct (IH []) as (H3 & H4 & H5); [reflexivity|].
    change (splitLines false (rev d ++ cur) ([EQ; CR; LF] ++ out))
      with (rev (EQ :: rev d ++ cur) :: splitLines false [] out).
    change (openLine false (rev d ++ cur) ([EQ; CR; LF] ++ out))
      with (openLine false [] out).
    split; [|split; assumption].
    constructor; [|assumption].
    unfold qpLineOK. rewrite rev_involutive.
    change (headIs EQ (EQ :: rev d ++ cur)) with true.
    rewrite len_rev. lens. rewrite len_rev.
    assert (col + len d <= 78) by (destruct Hcut as [H|[H|H]]; lia).
    destruct (Z.leb_spec (len d + len cur + 1) 78); [reflexivity|].
    simpl. apply andb_true_intro. split; [|reflexivity].
    apply Z.eqb_eq. lia.
Qed.

Lemma IndexAny_LF (s : list byte) : IndexAny s [LF] = IndexByte s LF.
Proof.
  induction s as [|b s IH]; [reflexivity|].
  simpl. rewrite orb_false_r, IH. reflexivity.
Qed.

Lemma IndexByte_app (a b : list byte) (c : byte) :
  IndexByte (a ++ b) c =
  if 0 <=? IndexByte a c then IndexByte a c
  else if 0 <=? IndexByte b c then len a + IndexByte b c else -1.
Proof.
  induction a as [|x a IH].
  - simpl app. change (IndexByte [] c) with (-1). change (0 <=? -1) with false.
    cbv iota. change (len (@nil byte)) with 0. rewrite Z.add_0_l.
    pose proof (IndexByte_range b c).
    destruct (Z.leb_spec 0 (IndexByte b c)); lia.
  - simpl app. simpl IndexByte. destruct (beq x c); [reflexivity|].
    rewrite IH. lens.
    pose proof (IndexByte_range a c). pose proof (IndexByte_range b c).
    pose proof (len_nonneg a).
    destruct (Z.leb_spec 0 (IndexByte a c)).
    + ltb_false. leb_true. reflexivity.
    + ltb_true. leb_false. destruct (Z.leb_spec 0 (IndexByte b c)).
      * ltb_false. lia.
      * reflexivity.
Qed.

Lemma IndexByte_firstn (s : list byte) (c : byte) :
  forall m, 0 <= m ->
    IndexByte (firstn (Z.to_nat m) s) c =
    if (0 <=? IndexByte s c) && (IndexByte s c <? m)
    then IndexByte s c else -1.
Proof.
  induction s as [|x s IH]; intros m Hm.
  - rewrite firstn_nil. reflexivity.
  - destruct (Z.eq_dec m 0) as [->|Hne].
    + simpl firstn. change (IndexByte [] c) with (-1).
      pose proof (IndexByte_range (x :: s) c).
      destruct (Z.leb_spec 0 (IndexByte (x :: s) c)); [|reflexivity].
      ltb_false. reflexivity.
    + replace (Z.to_nat m) with (S (Z.to_nat (m - 1))) by lia.
      simpl firstn. simpl IndexByte. destruct (beq x c).
      * leb_true. ltb_true. reflexivity.
      * rewrite IH by lia. pose proof (IndexByte_range s c).
        set (j := IndexByte s c) in *.
        destruct (Z.ltb_spec j 0); destruct (Z.leb_spec 0 j); try lia;
          destruct (Z.ltb_spec j (m - 1)); simpl andb; cbv iota; zcases.
Qed.

Lemma spare_no_LF (spare : list byte) :
  2 <= len spare -> ~ In LF (firstn 2 spare) ->
  IndexByte spare LF < 0 \/ 2 <= IndexByte spare LF.
Proof.
  intros Hlen Hn. destruct spare as [|a [|b t]].
  - change (len (@nil byte)) with 0 in Hlen. lia.
  - revert Hlen. lens. lia.
  - simpl firstn in Hn. simpl IndexByte.
    assert (Ha : beq a LF = false).
    { apply beq_neq. intros ->. apply Hn. now left. }
    assert (Hb : beq b LF = false).
    { apply beq_neq. intros ->. apply Hn. right. now left. }
    rewrite Ha, Hb. pose proof (IndexByte_range t LF).
    destruct (Z.ltb_spec (IndexByte t LF) 0).
    + change (-1 <? 0) with true. cbv iota. lia.
    + ltb_false. lia.
Qed.

(** The search for a line feed in [p[:m]] finds the first one of the data,
    when the two bytes after the data hold none. *)
Lemma window_index (data spare : list byte) (m : Z) :
  0 <= m <= len data + 2 ->
  2 <= len spare -> ~ In LF (firstn 2 spare) ->
  IndexByte (firstn (Z.to_nat m) (data ++ spare)) LF =
  if (0 <=? IndexByte data LF) && (IndexByte data LF <? m)
  then IndexByte data LF else -1.
Proof.
  intros Hm Hsp Hn. rewrite IndexByte_firstn by lia. rewrite IndexByte_app.
  pose proof (IndexByte_range data LF). pose proof (IndexByte_range spare LF).
  pose proof (len_nonneg data).
  set (j := IndexByte data LF) in *. set (k := IndexByte spare LF) in *.
  destruct (spare_no_LF _ Hsp Hn); fold k in H2;
    destruct (Z.leb_spec 0 j); simpl andb; cbv iota;
    try (destruct (Z.leb_spec 0 k); [|lia.. ]); zcases.
Qed.

Lemma In_firstn {A} (x : A) (n : nat) (l : list A) :
  In x (firstn n l) -> In x l.
Proof.
  intros H. rewrite <- (firstn_skipn n l). apply in_or_app. now left.
Qed.

Lemma firstn_LF_free (data : list byte) (k : Z) :
  IndexByte data LF < 0 \/ k <= IndexByte data LF ->
  ~ In LF (firstn (Z.to_nat k) data).
Proof.
  intros H Hin. pose proof (IndexByte_range data LF).
  destruct (Z.ltb_spec (IndexByte data LF) 0) as [Hlt|Hge].
  - destruct (IndexByte_none _ _ Hlt) as [_ Hn]. apply Hn.
    eapply In_firstn. eassumption.
  - destruct (IndexByte_found _ _ Hge) as (L & R & E & Hn & Hi).
    destruct H as [H|H]; [lia|]. apply Hn. rewrite E in Hin.
    rewrite firstn_app in Hin.
    replace (Z.to_nat k - length L)%nat with 0%nat in Hin
      by (unfold len in *; lia).
    simpl in Hin. rewrite app_nil_r in Hin.
    eapply In_firstn. eassumption.
Qed.

Lemma resliceTo_cap (p : bslice) (k : Z) :
  0 <= k <= scap p ->
  resliceTo p k
  = Done (mkSlice (firstn (Z.to_nat k) (sdata p ++ sspare p))
                  (skipn (Z.to_nat k) (sdata p ++ sspare p))).
Proof.
  intros Hk. unfold resliceTo, reslice, scap in *. lens.
  leb_true. leb_true. leb_true. simpl andb. cbv iota.
  rewrite Z.sub_0_r. reflexivity.
Qed.

(** The byte at an index, seen from the two sides of a cut. *)
Lemma cut_at (data : list byte) (k : Z) (c : byte) :
  get data k = Done c ->
  headIs EQ (skipn (Z.to_nat k) data) = beq c EQ
  /\ headIs EQ (rev (firstn (Z.to_nat (k + 1)) data)) = beq c EQ
  /\ headIs CR (rev (firstn (Z.to_nat (k + 1)) data)) = beq c CR
  /\ (k + 1 < len data ->
      headIs EQ (tl (rev (firstn (Z.to_nat (k + 2)) data))) = beq c EQ).
Proof.
  intros G. destruct (get_split _ _ G) as (P & R & -> & HP).
  pose proof (len_nonneg P). unfold len in HP.
  split; [|split; [|split]].
  - rewrite skipn_app, skipn_all2 by lia.
    replace (Z.to_nat k - length P)%nat with 0%nat by lia. reflexivity.
  - rewrite firstn_app, firstn_all2 by lia.
    replace (Z.to_nat (k + 1) - length P)%nat with 1%nat by lia.
    simpl firstn. rewrite rev_app_distr. reflexivity.
  - rewrite firstn_app, firstn_all2 by lia.
    replace (Z.to_nat (k + 1) - length P)%nat with 1%nat by lia.
    simpl firstn. rewrite rev_app_distr. reflexivity.
  - lens. intros Hlt. destruct R as [|r R].
    { change (len (@nil byte)) with 0 in Hlt. unfold len in Hlt. lia. }
    rewrite firstn_app, firstn_all2 by lia.
    replace (Z.to_nat (k + 2) - length P)%nat with 2%nat by lia.
    simpl firstn. rewrite rev_app_distr. reflexivity.
Qed.

Arguments qpLoop : simpl never.

Lemma qpLoop_step fuel (w : Buffer) lineLen p n :
  qpLoop (S fuel) w lineLen p n =
  if 0 <? slen p then
    if slen p <? maxLineLen - lineLen then
      '(w1, _, _) <- Write w p ;;
      Done (w1, lineLen + slen p, n + slen p)
    else
      window <- resliceTo p (maxLineLen - lineLen + 2) ;;
      let i := IndexAny (sdata window) [LF] in
      newline <-
        (if negb (i =? -1) then
           if negb (i =? maxLineLen - lineLen + 1) then Done true
           else c <- get (sdata p) (i - 1) ;; Done (beq c CR)
         else Done false) ;;
      if newline then
        line <- resliceTo p (i + 1) ;;
        '(w1, _, _) <- Write w line ;;
        p' <- resliceFrom p (i + 1) ;;
        qpLoop fuel w1 0 p' (n + (i + 1))
      else
        first <-
          (if 0 <=? maxLineLen - lineLen - 2 then
             c <- get (sdata p) (maxLineLen - lineLen - 2) ;;
             Done (beq c EQ)
           else Done false) ;;
        toWrite <-
          (if first then Done (maxLineLen - lineLen - 2)
           else
             c <- get (sdata p) (maxLineLen - lineLen - 1) ;;
             if beq c EQ then Done (maxLineLen - lineLen - 1)
             else Done (maxLineLen - lineLen)) ;;
        chunk <- resliceTo p toWrite ;;
        '(w1, _, _) <- Write w chunk ;;
        '(w2, _, _) <- Write w1 (literal [EQ; CR; LF]) ;;
        p' <- resliceFrom p toWrite ;;
        qpLoop fuel w2 0 p' (n + toWrite)
  else Done (w, lineLen, n).
Proof. reflexivity. Qed.


(** The rest of the data, written from column zero after a line end. *)
Lemma qp_rest (fuel : nat) (B : list byte) (p : bslice) (n k : Z) :
  qpLoopSpec fuel ->
  0 <= k <= slen p ->
  2 <= len (sspare p) -> ~ In LF (firstn 2 (sspare p)) ->
  2 * (slen p - k) < Z.of_nat fuel ->
  exists out lineLen',
    (p' <- resliceFrom p k ;; qpLoop fuel (mkBuffer B) 0 p' (n + k))
    = Done (mkBuffer (B ++ out), lineLen', n + slen p)
    /\ qplined 0 (skipn (Z.to_nat k) (sdata p)) out lineLen'.
Proof.
  intros IH Hk Hsp Hn Hf. rewrite resliceFrom_data by assumption. bstep.
  destruct (@firstn_skipn_len _ (sdata p) k Hk) as [_ Hlen].
  destruct (IH B 0 (mkSlice (skipn (Z.to_nat k) (sdata p)) (sspare p)) (n + k))
    as (out & lineLen' & Heq & Hl); try assumption; try lia.
  - unfold slen in *. cbn [sdata]. rewrite Hlen.
    change (0 <? 0) with false. cbv iota. lia.
  - exists out, lineLen'. rewrite Heq. unfold slen in *. cbn [sdata] in *.
    rewrite Hlen. split; [|exact Hl]. do 2 f_equal. lia.
Qed.

Lemma firstn_skipn_app {A} (a b : list A) (k : Z) :
  k = len a ->
  firstn (Z.to_nat k) (a ++ b) = a /\ skipn (Z.to_nat k) (a ++ b) = b.
Proof.
  intros ->. unfold len. rewrite Nat2Z.id. split.
  - rewrite firstn_app, Nat.sub_diag, firstn_all. simpl. apply app_nil_r.
  - rewrite skipn_app, Nat.sub_diag, skipn_all. reflexivity.
Qed.

(** The branch of the loop that writes up to a line feed of the data. *)
Lemma qp_newline (fuel : nat) (B : list byte) (lineLen : Z) (p : bslice)
      (n j : Z) :
  qpLoopSpec fuel ->
  2 <= len (sspare p) -> ~ In LF (firstn 2 (sspare p)) ->
  j = IndexByte (sdata p) LF -> 0 <= j ->
  lineLen + j <= 78
  \/ (lineLen + j = 79
      /\ headIs CR (rev (firstn (Z.to_nat j) (sdata p))) = true) ->
  2 * slen p <= Z.of_nat fuel ->
  exists out lineLen',
    (line <- resliceTo p (j + 1) ;;
     '(w1, _, _) <- Write (mkBuffer B) line ;;
     p' <- resliceFrom p (j + 1) ;;
     qpLoop fuel w1 0 p' (n + (j + 1)))
    = Done (mkBuffer (B ++ out), lineLen', n + slen p)
    /\ qplined lineLen (sdata p) out lineLen'.
Proof.
  intros IH Hsp Hn Hj Hj0 Hcol Hf. subst j.
  destruct (IndexByte_found _ _ Hj0) as (L & R & E & HnL & Hi).
  pose proof (IndexByte_range (sdata p) LF) as Hr.
  set (j := IndexByte (sdata p) LF) in *.
  assert (Hk : 0 <= j + 1 <= slen p) by (unfold slen; lia).
  rewrite resliceTo_data by assumption. bstep.
  rewrite Buffer_Write. bstep. cbn [sdata].
  destruct (@qp_rest fuel (B ++ firstn (Z.to_nat (j + 1)) (sdata p)) p n
                     (j + 1) IH Hk Hsp Hn)
    as (out & lineLen' & Heq & Hl); [lia|].
  exists (firstn (Z.to_nat (j + 1)) (sdata p) ++ out), lineLen'.
  rewrite Heq, app_assoc. split; [reflexivity|].
  assert (E2 : sdata p = (L ++ [LF]) ++ R).
  { rewrite E, <- app_assoc. reflexivity. }
  destruct (@firstn_skipn_app _ (L ++ [LF]) R (j + 1)) as [F1 F2].
  { lens. lia. }
  rewrite <- E2 in F1, F2. rewrite F1, F2 in *.
  destruct (@firstn_skipn_app _ L (LF :: R) j Hi) as [F3 _].
  rewrite <- E in F3. rewrite F3 in Hcol.
  rewrite E, <- app_assoc. simpl app.
  apply ql_newline; [assumption | | assumption].
  destruct Hcol as [Hc|[Hc Hcr]]; [left; lia | right; split; [lia | exact Hcr]].
Qed.

(** The flush of [k] bytes followed by a soft line break. *)
Lemma qp_cut (fuel : nat) (B : list byte) (lineLen : Z) (p : bslice)
      (n k : Z) :
  qpLoopSpec fuel ->
  2 <= len (sspare p) -> ~ In LF (firstn 2 (sspare p)) ->
  0 <= k <= slen p ->
  2 * (slen p - k) < Z.of_nat fuel ->
  ~ In LF (firstn (Z.to_nat k) (sdata p)) ->
  softCut lineLen (firstn (Z.to_nat k) (sdata p))
          (skipn (Z.to_nat k) (sdata p)) ->
  exists out lineLen',
    (chunk <- resliceTo p k ;;
     '(w1, _, _) <- Write (mkBuffer B) chunk ;;
     '(w2, _, _) <- Write w1 (literal [EQ; CR; LF]) ;;
     p' <- resliceFrom p k ;;
     qpLoop fuel w2 0 p' (n + k))
    = Done (mkBuffer (B ++ out), lineLen', n + slen p)
    /\ qplined lineLen (sdata p) out lineLen'.
Proof.
  intros IH Hsp Hn Hk Hf Hfree Hcut.
  rewrite resliceTo_data by assumption. bstep.
  rewrite Buffer_Write. bstep. rewrite Buffer_Write. bstep.
  cbn [sdata]. unfold literal. cbn [sdata].
  destruct (@qp_rest fuel
              ((B ++ firstn (Z.to_nat k) (sdata p)) ++ [EQ; CR; LF]) p n
              k IH Hk Hsp Hn Hf)
    as (out & lineLen' & Heq & Hl).
  exists (firstn (Z.to_nat k) (sdata p) ++ [EQ; CR; LF] ++ out), lineLen'.
  rewrite Heq. split.
  - rewrite <- !app_assoc. reflexivity.
  - rewrite <- (firstn_skipn (Z.to_nat k) (sdata p)) at 1.
    apply ql_soft; assumption.
Qed.

(** The branch of the loop that inserts a soft line break. *)
Lemma qp_soft (fuel : nat) (B : list byte) (lineLen : Z) (p : bslice)
      (n : Z) :
  qpLoopSpec fuel ->
  0 <= lineLen <= 77 ->
  2 <= len (sspare p) -> ~ In LF (firstn 2 (sspare p)) ->
  78 - lineLen <= slen p ->
  IndexByte (sdata p) LF < 0 \/ 78 - lineLen <= IndexByte (sdata p) LF ->
  2 * slen p + (if 0 <? lineLen then 1 else 0) <= Z.of_nat fuel ->
  exists out lineLen',
    (first <-
       (if 0 <=? 78 - lineLen - 2 then
          c <- get (sdata p) (78 - lineLen - 2) ;;
          Done (beq c EQ)
        else Done false) ;;
     toWrite <-
       (if first then Done (78 - lineLen - 2)
        else
          c <- get (sdata p) (78 - lineLen - 1) ;;
          if beq c EQ then Done (78 - lineLen - 1)
          else Done (78 - lineLen)) ;;
     chunk <- resliceTo p toWrite ;;
     '(w1, _, _) <- Write (mkBuffer B) chunk ;;
     '(w2, _, _) <- Write w1 (literal [EQ; CR; LF]) ;;
     p' <- resliceFrom p toWrite ;;
     qpLoop fuel w2 0 p' (n + toWrite))
    = Done (mkBuffer (B ++ out), lineLen', n + slen p)
    /\ qplined lineLen (sdata p) out lineLen'.
Proof.
  intros IH Hll Hsp Hn Hlong Hj Hf.
  replace (78 - lineLen - 2) with (76 - lineLen) by lia.
  replace (78 - lineLen - 1) with (77 - lineLen) by lia.
  assert (Hflag : 0 < lineLen -> 2 * slen p < Z.of_nat fuel).
  { intros H. revert Hf. ltb_true. lia. }
  assert (Hfuel0 : 2 * slen p <= Z.of_nat fuel).
  { revert Hf. destruct (0 <? lineLen); lia. }
  assert (Hfree : forall k, k <= 78 - lineLen ->
                            ~ In LF (firstn (Z.to_nat k) (sdata p))).
  { intros k Hk. apply firstn_LF_free. lia. }
  destruct (@get_in_range _ (sdata p) (77 - lineLen)) as [c2 G2].
  { unfold slen in *. lia. }
  destruct (cut_at _ _ G2) as (C2a & C2b & _ & _).
  assert (Hsecond :
    forall d1, headIs EQ (rev (firstn (Z.to_nat (77 - lineLen)) (sdata p)))
               = false ->
               headIs EQ (tl (rev (firstn (Z.to_nat (78 - lineLen))
                                          (sdata p)))) = d1 ->
               d1 = false ->
    exists out lineLen',
      (toWrite <-
         (c <- get (sdata p) (77 - lineLen) ;;
          if beq c EQ then Done (77 - lineLen) else Done (78 - lineLen)) ;;
       chunk <- resliceTo p toWrite ;;
       '(w1, _, _) <- Write (mkBuffer B) chunk ;;
       '(w2, _, _) <- Write w1 (literal [EQ; CR; LF]) ;;
       p' <- resliceFrom p toWrite ;;
       qpLoop fuel w2 0 p' (n + toWrite))
      = Done (mkBuffer (B ++ out), lineLen', n + slen p)
      /\ qplined lineLen (sdata p) out lineLen').
  { intros d1 Hprev Htl Hd1. subst d1. rewrite G2. bstep.
    destruct (beq c2 EQ) eqn:E2; bstep.
    - destruct (@firstn_skipn_len _ (sdata p) (77 - lineLen)) as [Hlen _].
      { unfold slen in *. lia. }
      apply qp_cut; try assumption.
      + unfold slen in *. lia.
      + destruct (Z.eq_dec lineLen 77); [|lia].
        assert (0 < lineLen) as H77 by lia. specialize (Hflag H77). lia.
      + apply Hfree. lia.
      + right. left. split; [lia|]. split; [congruence | assumption].
    - destruct (@firstn_skipn_len _ (sdata p) (78 - lineLen)) as [Hlen _].
      { unfold slen in *. lia. }
      apply qp_cut; try assumption.
      + unfold slen in *. lia.
      + lia.
      + apply Hfree. lia.
      + right. right. split; [lia|]. split; [|assumption].
        replace (78 - lineLen) with (77 - lineLen + 1) by lia. congruence. }
  destruct (Z.leb_spec 0 (76 - lineLen)) as [Hle|Hgt].
  - destruct (@get_in_range _ (sdata p) (76 - lineLen)) as [c1 G1].
    { unfold slen in *. lia. }
    destruct (cut_at _ _ G1) as (C1a & C1b & _ & C1d).
    rewrite G1. bstep. destruct (beq c1 EQ) eqn:E1; bstep.
    + destruct (@firstn_skipn_len _ (sdata p) (76 - lineLen)) as [Hlen _].
      { unfold slen in *. lia. }
      apply qp_cut; try assumption.
      * unfold slen in *. lia.
      * destruct (Z.eq_dec lineLen 76); [|lia].
        assert (0 < lineLen) as H76 by lia. specialize (Hflag H76). lia.
      * apply Hfree. lia.
      * left. split; [lia | congruence].
    + apply (Hsecond false).
      * replace (77 - lineLen) with (76 - lineLen + 1) by lia. assumption.
      * replace (78 - lineLen) with (76 - lineLen + 2) by lia.
        apply C1d. unfold slen in *. lia.
      * reflexivity.
  - bstep. assert (lineLen = 77) by lia. subst lineLen.
    apply (Hsecond false).
    + reflexivity.
    + change (Z.to_nat (78 - 77)) with 1%nat.
      destruct (sdata p); reflexivity.
    + reflexivity.
Qed.

(** The loop of [qpLineWriter.Write] ends, writes every byte it is given and
    lays the output out in lines, when the two bytes after the slice (which
    the search window reaches) exist and hold no line feed. *)
Lemma qpLoop_spec (fuel : nat) : qpLoopSpec fuel.
Proof.
  induction fuel as [|fuel IH]; intros B lineLen p n Hll Hsp Hn Hf.
  - exfalso. pose proof (len_nonneg (sdata p)). unfold slen in Hf.
    destruct (0 <? lineLen); lia.
  - rewrite qpLoop_step. unfold maxLineLen.
    pose proof (len_nonneg (sdata p)) as Hp0.
    destruct (Z.ltb_spec 0 (slen p)) as [Hpos|Hemp].
    2: { exists [], lineLen. rewrite app_nil_r.
         assert (E : sdata p = []).
         { unfold slen, len in Hemp. destruct (sdata p); [reflexivity|].
           simpl length in Hemp. lia. }
         unfold slen. rewrite E. change (len (@nil byte)) with 0.
         rewrite Z.add_0_r. split; [reflexivity|].
         replace lineLen with (lineLen + len (@nil byte)) at 2
           by (change (len (@nil byte)) with 0; lia).
         apply ql_last. change (len (@nil byte)) with 0. lia. }
    destruct (Z.ltb_spec (slen p) (78 - lineLen)) as [Hshort|Hlong].
    { rewrite Buffer_Write. bstep. exists (sdata p), (lineLen + slen p).
      split; [reflexivity|]. apply ql_last. unfold slen in *. lia. }
    rewrite resliceTo_cap by (unfold scap, slen in *; lia).
    bstep. cbv zeta. cbn [sdata]. rewrite IndexAny_LF.
    rewrite window_index by (unfold slen in *; try assumption; lia).
    pose proof (IndexByte_range (sdata p) LF) as Hr.
    assert (Hfuel : 2 * slen p + (if 0 <? lineLen then 1 else 0)
                    <= Z.of_nat fuel) by lia.
    assert (Hfuel0 : 2 * slen p <= Z.of_nat fuel).
    { revert Hfuel. destruct (0 <? lineLen); lia. }
    set (j := IndexByte (sdata p) LF) in *.
    destruct (Z.leb_spec 0 j) as [Hj0|Hneg]; cbn [andb]; cbv iota.
    2: { change (-1 =? -1) with true. cbn [negb]. bstep.
         apply qp_soft; try assumption. left. assumption. }
    destruct (Z.ltb_spec j (78 - lineLen + 2)) as [Hin|Hout]; cbv iota.
    2: { change (-1 =? -1) with true. cbn [negb]. bstep.
         apply qp_soft; try assumption. right. fold j. lia. }
    eqb_false. cbn [negb]. cbv iota.
    destruct (Z.eqb_spec j (78 - lineLen + 1)) as [Hedge|Hedge];
      cbn [negb]; cbv iota.
    + destruct (@get_in_range _ (sdata p) (j - 1)) as [c G].
      { unfold slen in *. lia. }
      destruct (cut_at _ _ G) as (_ & _ & Ccr & _).
      replace (j - 1 + 1) with j in Ccr by lia.
      rewrite G. bstep. destruct (beq c CR) eqn:Ec.
      * apply qp_newline; try assumption; [reflexivity|].
        right. split; [lia | assumption].
      * apply qp_soft; try assumption. right. fold j. lia.
    + bstep. apply qp_newline; try assumption; [reflexivity|]. left. lia.
Qed.

Lemma qpLineWriter_Write_spec (B : list byte) (lineLen : Z) (p : bslice) :
  0 <= lineLen <= 77 ->
  2 <= len (sspare p) -> ~ In LF (firstn 2 (sspare p)) ->
  exists out lineLen',
    Write (mkQp (mkBuffer B) lineLen) p
    = Done (mkQp (mkBuffer (B ++ out)) lineLen', slen p, None)
    /\ qplined lineLen (sdata p) out lineLen'.
Proof.
  intros Hl Hsp Hn.
  change (Write (mkQp (mkBuffer B) lineLen) p)
    with (qpLineWriter_Write (mkQp (mkBuffer B) lineLen) p).
  unfold qpLineWriter_Write. cbn [q_w q_lineLen].
  destruct (@qpLoop_spec (2 * length (sdata p) + 2) B lineLen p 0 Hl Hsp Hn)
    as (out & lineLen' & -> & Hlined).
  { unfold slen, len. destruct (0 <? lineLen); lia. }
  bstep. exists out, lineLen'. split; [|exact Hlined]. reflexivity.
Qed.

(** The lines of a buffer after more output, from those before it. *)
Lemma bounded_app mode (ok : list byte -> bool) (limit limit' : Z)
      (B out : list byte) (lineLen lineLen' : Z) :
  bounded mode ok limit B lineLen ->
  0 <= lineLen' ->
  (forall cur, len cur <= lineLen ->
     Forall (fun l => ok l = true) (splitLines mode cur out)
     /\ len (openLine mode cur out) <= lineLen' /\ lineLen' <= limit') ->
  bounded mode ok limit' (B ++ out) lineLen'.
Proof.
  intros (Hl & Hlines & Hopen) Hl' Hout.
  destruct (Hout _ Hopen) as (H1 & H2 & H3).
  split; [lia|]. split.
  - rewrite splitLines_app. apply Forall_app. split; [|assumption].
    apply Forall_removelast. assumption.
  - rewrite openLine_app. assumption.
Qed.

Lemma b64lined_nonneg col data out col' :
  b64lined col data out col' -> 0 <= col -> 0 <= col'.
Proof.
  induction 1 as [col d Hd | col d rest out col' Hd Hrest IH]; intros Hc.
  - pose proof (len_nonneg d). lia.
  - apply IH. lia.
Qed.

Lemma qplined_nonneg col data out col' :
  qplined col data out col' -> 0 <= col -> 0 <= col'.
Proof.
  induction 1 as [col d Hd
                 | col d rest out col' Hn Hd Hrest IH
                 | col d rest out col' Hn Hcut Hrest IH]; intros Hc.
  - pose proof (len_nonneg d). lia.
  - apply IH. lia.
  - apply IH. lia.
Qed.

(** C2 (amended): a [Write] on either line writer returns, having consumed
    the whole slice, and keeps the lines of the output bounded.  For the
    base64 writer every line between CRLF markers has at most 78 bytes, for
    every input.  For the quoted-printable writer, given a slice with two
    spare bytes free of line feeds, every line between line feeds (the
    carriage return before a line feed not counted) has at most 78 bytes, or
    79 bytes of which the last is the equals sign of a soft line break.  The
    column counter bounds the length of the open line and restarts at zero
    after each inserted line break ([b64lined], [qplined]). *)
Theorem line_writers_bound_lines (B Q : list byte) (lineLen col : Z)
        (p q : bslice) :
  bounded true b64LineOK 78 B lineLen ->
  bounded false qpLineOK 77 Q col ->
  2 <= len (sspare q) -> ~ In LF (firstn 2 (sspare q)) ->
  (exists out lineLen',
     Write (mkB64 (mkBuffer B) lineLen) p
     = Done (mkB64 (mkBuffer (B ++ out)) lineLen', slen p, None)
     /\ b64lined lineLen (sdata p) out lineLen'
     /\ bounded true b64LineOK 78 (B ++ out) lineLen')
  /\ (exists out col',
        Write (mkQp (mkBuffer Q) col) q
        = Done (mkQp (mkBuffer (Q ++ out)) col', slen q, None)
        /\ qplined col (sdata q) out col'
        /\ bounded false qpLineOK 77 (Q ++ out) col').
Proof.
  intros HB HQ Hsp Hn. split.
  - destruct (@base64LineWriter_Write_spec B lineLen p (proj1 HB))
      as (out & lineLen' & Heq & Hl).
    exists out, lineLen'. split; [exact Heq|]. split; [exact Hl|].
    eapply bounded_app; [exact HB | |].
    + eapply b64lined_nonneg; [exact Hl | apply (proj1 HB)].
    + intros cur Hcur. destruct (b64lined_lines Hl cur Hcur) as (H1 & H2 & H3).
      split; [|split; assumption].
      eapply Forall_impl; [|exact H1]. intros l Hlen. cbv beta in Hlen.
      unfold b64LineOK. apply Z.leb_le. assumption.
  - destruct (@qpLineWriter_Write_spec Q col q (proj1 HQ) Hsp Hn)
      as (out & col' & Heq & Hl).
    exists out, col'. split; [exact Heq|]. split; [exact Hl|].
    eapply bounded_app; [exact HQ | |].
    + eapply qplined_nonneg; [exact Hl | apply (proj1 HQ)].
    + intros cur Hcur. apply (qplined_lines Hl cur Hcur).
Qed.

Lemma line_writers_bound_lines_witness :
  (exists out lineLen',
     Write (mkB64 (mkBuffer []) 0) (literal (times 100 x41))
     = Done (mkB64 (mkBuffer ([] ++ out)) lineLen',
             slen (literal (times 100 x41)), None)
     /\ b64lined 0 (sdata (literal (times 100 x41))) out lineLen'
     /\ bounded true b64LineOK 78 ([] ++ out) lineLen')
  /\ (exists out col',
        Write (mkQp (mkBuffer []) 0) (mkSlice (times 100 x30) (make 2))
        = Done (mkQp (mkBuffer ([] ++ out)) col',
                slen (mkSlice (times 100 x30) (make 2)), None)
        /\ qplined 0 (sdata (mkSlice (times 100 x30) (make 2))) out col'
        /\ bounded false qpLineOK 77 ([] ++ out) col').
Proof.
  apply (@line_writers_bound_lines [] [] 0 0 (literal (times 100 x41))
           (mkSlice (times 100 x30) (make 2))).
  - split; [lia|].
    split; [apply Forall_cons; [reflexivity | apply Forall_nil]
           | vm_compute; discriminate].
  - split; [lia|].
    split; [apply Forall_cons; [reflexivity | apply Forall_nil]
           | vm_compute; discriminate].
  - vm_compute. discriminate.
  - simpl. intros [H|[H|[]]]; discriminate.
Defined.

(** C2, as stated, fails for the quoted-printable writer: a line that is cut
    by a soft line break holds up to 78 bytes of data and then the equals
    sign, 79 bytes between the CRLF markers; and a line feed of the data
    ends a line without any CRLF marker, so that the bytes between two CRLF
    markers are not bounded at all. *)
Lemma qpLineWriter_line_of_79 :
  Write (newQpLineWriter (mkBuffer [])) (mkSlice (times 79 x30) (make 2))
  = Done (mkQp (mkBuffer (times 78 x30 ++ [EQ; CR; LF] ++ [x30])) 1, 79, None)
  /\ splitLines true [] (times 78 x30 ++ [EQ; CR; LF] ++ [x30])
     = [times 78 x30 ++ [EQ]; [x30]]
  /\ len (times 78 x30 ++ [EQ]) = 79
  /\ Write (newQpLineWriter (mkBuffer []))
           (mkSlice (times 50 x30 ++ [LF] ++ times 50 x30) (make 2))
     = Done (mkQp (mkBuffer (times 50 x30 ++ [LF] ++ times 50 x30)) 50,
             101, None)
  /\ splitLines true [] (times 50 x30 ++ [LF] ++ times 50 x30)
     = [times 50 x30 ++ [LF] ++ times 50 x30].
Proof. vm_compute. repeat split. Qed.

(** C6: [qpLineWriter.Write] does perform an out-of-range access.  It
    searches the line feed in [p[:maxLineLen-w.lineLen+2]], two bytes past
    the line limit, without checking that the slice is that long.  The
    encoder hands it [dbuf[:n]] of a buffer of [3 * len(p)] bytes, so a body
    of 26 equals signs, encoded in exactly 78 bytes with no spare capacity,
    makes the writer evaluate [p[:80]] on a slice of length and capacity 78.
    The same happens on a direct call with 78 bytes and no spare capacity. *)
Theorem qpLineWriter_Write_out_of_range :
  Encode (times 26 EQ) = concat (repeat [EQ; x33; x44] 26)
  /\ len (Encode (times 26 EQ)) = 78
  /\ MaxEncodedLen (len (times 26 EQ)) = 78
  /\ Write (NewEncoder (newQpLineWriter (mkBuffer [])))
           (literal (times 26 EQ)) = Panic
  /\ Write (newQpLineWriter (mkBuffer [])) (literal (times 78 x30)) = Panic.
Proof. vm_compute. repeat split. Qed.

(** C9: a body of 79 zeros followed by CRLF, written through the encoder and
    the quoted-printable line writer, gives 78 zeros, the soft line break
    [=\r\n], the last zero and CRLF. *)
Theorem qp_body_of_79_zeros :
  Write (NewEncoder (newQpLineWriter (mkBuffer [])))
        (literal (times 79 x30 ++ [CR; LF]))
  = Done (NewEncoder
            (mkQp (mkBuffer (times 78 x30 ++ [EQ; CR; LF]
                             ++ [x30] ++ [CR; LF])) 3),
          81, None).
Proof. vm_compute. reflexivity. Qed.

(* ------------------------------------------------------------------ *)
(** ** The export of a message *)

Lemma lookup_assign (h : Header) (k : string) (v : list string) :
  lookup (assign h k v) k = Some v.
Proof.
  induction h as [|[k' v'] t IH]; simpl.
  - rewrite String.eqb_refl. reflexivity.
  - destruct (String.eqb k' k) eqn:E; simpl.
    + rewrite String.eqb_refl. reflexivity.
    + rewrite E. exact IH.
Qed.

Arguments base64Encoder_loop : simpl never.

Lemma base64Encoder_loop_step {W} `{Writer W} fuel (w : W) (p : list byte) :
  base64Encoder_loop (S fuel) w p =
  if 3 <=? len p then
    let nn := if len p <? 768 then len p - len p mod 3 else 768 in
    let out := b64EncodeToString (firstn (Z.to_nat nn) p) in
    '(w1, _, err) <- Write w (mkSlice out (make (1024 - len out))) ;;
    match err with
    | Some e => Done (w1, [], Some e)
    | None => base64Encoder_loop fuel w1 (skipn (Z.to_nat nn) p)
    end
  else Done (w, p, None).
Proof. reflexivity. Qed.

(** A write on the base64 line writer over a buffer, with the bounds of the
    column counter. *)
Lemma base64LineWriter_Write_ok (B : list byte) (lineLen : Z) (p : bslice) :
  0 <= lineLen <= 78 ->
  exists out lineLen',
    Write (mkB64 (mkBuffer B) lineLen) p
    = Done (mkB64 (mkBuffer (B ++ out)) lineLen', slen p, None)
    /\ 0 <= lineLen' <= 78.
Proof.
  intros Hl.
  destruct (@base64LineWriter_Write_spec B lineLen p Hl)
    as (out & lineLen' & Heq & Hlined).
  exists out, lineLen'. split; [exact Heq|].
  destruct (b64lined_lines Hlined [] ) as (_ & _ & Hle).
  { change (len (@nil byte)) with 0. lia. }
  split; [|exact Hle].
  eapply b64lined_nonneg; [exact Hlined | lia].
Qed.

(** The base64 encoder of the standard library, over the line writer over a
    buffer: it returns, without error. *)
Lemma base64Encoder_loop_spec (fuel : nat) :
  forall (B : list byte) (lineLen : Z) (p : list byte),
    0 <= lineLen <= 78 ->
    len p < Z.of_nat fuel ->
    exists out lineLen' rest,
      base64Encoder_loop fuel (mkB64 (mkBuffer B) lineLen) p
      = Done (mkB64 (mkBuffer (B ++ out)) lineLen', rest, None)
      /\ 0 <= lineLen' <= 78.
Proof.
  induction fuel as [|fuel IH]; intros B lineLen p Hl Hf.
  - pose proof (len_nonneg p). lia.
  - rewrite base64Encoder_loop_step.
    destruct (Z.leb_spec 3 (len p)) as [H3|H3].
    + cbv zeta.
      set (nn := if len p <? 768 then len p - len p mod 3 else 768).
      assert (Hnn : 0 < nn <= len p).
      { unfold nn. pose proof (Z.mod_pos_bound (len p) 3).
        destruct (Z.ltb_spec (len p) 768); lia. }
      set (out := b64EncodeToString (firstn (Z.to_nat nn) p)).
      destruct (@base64LineWriter_Write_ok B lineLen
                  (mkSlice out (make (1024 - len out))) Hl)
        as (o & l1 & Heq & Hl1).
      rewrite Heq. bstep.
      destruct (IH (B ++ o) l1 (skipn (Z.to_nat nn) p) Hl1)
        as (o2 & l2 & rest & Heq2 & Hl2).
      { destruct (@firstn_skipn_len _ p nn) as [_ Hs]; lia. }
      exists (o ++ o2), l2, rest. rewrite Heq2, app_assoc.
      split; [reflexivity | exact Hl2].
    + exists [], lineLen, p. rewrite app_nil_r. split; [reflexivity | exact Hl].
Qed.

Lemma encodeBody_Base64 (B body : list byte) :
  exists out,
    encodeBody (mkBuffer B) body Base64 = Done (mkBuffer (B ++ out), None).
Proof.
  unfold encodeBody. rewrite String.eqb_refl.
  unfold base64Encoder_Write, newBase64LineWriter.
  destruct (@base64Encoder_loop_spec (S (length body)) B 0 body)
    as (o & l1 & rest & Heq & Hl1); [lia | unfold len; lia |].
  rewrite Heq. bstep. unfold base64Encoder_Close.
  destruct (Z.ltb_spec 0 (len rest)).
  - cbv zeta.
    destruct (@base64LineWriter_Write_ok (B ++ o) l1
                (mkSlice (b64EncodeToString rest)
                         (make (1024 - len (b64EncodeToString rest)))) Hl1)
      as (o2 & l2 & Heq2 & Hl2).
    rewrite Heq2. bstep. cbn [b_w].
    exists (o ++ o2). rewrite app_assoc. reflexivity.
  - bstep. cbn [b_w]. exists o. reflexivity.
Qed.

(** The slice of its buffer that [encoder.Write] hands on *)
Lemma encoder_slice (enc pad : list byte) :
  reslice (literal (enc ++ pad)) 0 (len enc) = Done (mkSlice enc pad).
Proof.
  unfold reslice, literal. simpl sdata. simpl sspare. rewrite app_nil_r.
  pose proof (len_nonneg enc). pose proof (len_nonneg pad). lens.
  leb_true. leb_true. leb_true. simpl andb. cbv iota.
  rewrite Z.sub_0_r. unfold len. rewrite Nat2Z.id.
  change (Z.to_nat 0) with 0%nat. simpl skipn.
  rewrite firstn_app, firstn_all, Nat.sub_diag. simpl firstn.
  rewrite skipn_app, skipn_all, Nat.sub_diag. simpl skipn.
  now rewrite app_nil_r.
Qed.

(** A slice shorter than the rest of the line is written as it is. *)
Lemma qpLineWriter_Write_short (B : list byte) (lineLen : Z) (p : bslice) :
  slen p < 78 - lineLen ->
  Write (mkQp (mkBuffer B) lineLen) p
  = Done (mkQp (mkBuffer (B ++ sdata p)) (lineLen + slen p), slen p, None).
Proof.
  intros Hs.
  change (Write (mkQp (mkBuffer B) lineLen) p)
    with (qpLineWriter_Write (mkQp (mkBuffer B) lineLen) p).
  unfold qpLineWriter_Write. cbn [q_w q_lineLen].
  replace (2 * length (sdata p) + 2)%nat
    with (S (2 * length (sdata p) + 1)) by lia.
  rewrite qpLoop_step. unfold maxLineLen.
  destruct (Z.ltb_spec 0 (slen p)) as [Hpos|Hemp].
  - ltb_true. rewrite Buffer_Write. bstep. reflexivity.
  - bstep. pose proof (len_nonneg (sdata p)) as Hp0.
    assert (E : sdata p = []).
    { unfold slen, len in Hemp. destruct (sdata p); [reflexivity|].
      simpl length in Hemp. lia. }
    unfold slen. rewrite E. change (len (@nil byte)) with 0.
    rewrite app_nil_r, Z.add_0_r. reflexivity.
Qed.

Lemma make_no_LF (n : Z) : ~ In LF (firstn 2 (make n)).
Proof.
  intros Hin. apply In_firstn in Hin. unfold make in Hin.
  apply repeat_spec in Hin. discriminate.
Qed.

Lemma len_make (n : Z) : 0 <= n -> len (make n) = n.
Proof. intros Hn. unfold len, make. rewrite repeat_length. lia. Qed.

Lemma encoder_Write_ok {W} `{Writer W} (dw dw' : W) (p : bslice) (n : Z) :
  Write dw (mkSlice (Encode (sdata p))
                    (make (MaxEncodedLen (slen p) - len (Encode (sdata p)))))
  = Done (dw', n, None) ->
  encoder_Write (mkEncoder dw) p = Done (mkEncoder dw', slen p, None).
Proof.
  intros Hw. unfold encoder_Write. cbv zeta.
  rewrite encoder_slice. bstep. change (w (mkEncoder dw)) with dw.
  rewrite Hw. bstep. reflexivity.
Qed.

Lemma encodeBody_QP (B body : list byte) (enc : string) :
  String.eqb enc Base64 = false ->
  qpWritable body = true ->
  exists out,
    encodeBody (mkBuffer B) body enc = Done (mkBuffer (B ++ out), None).
Proof.
  intros Henc Hq. unfold encodeBody. rewrite Henc.
  change (Write (NewEncoder (newQpLineWriter (mkBuffer B))) (literal body))
    with (encoder_Write (mkEncoder (mkQp (mkBuffer B) 0)) (literal body)).
  set (q := mkSlice (Encode (sdata (literal body)))
              (make (MaxEncodedLen (slen (literal body))
                     - len (Encode (sdata (literal body)))))).
  assert (Hw : exists out l',
             Write (mkQp (mkBuffer B) 0) q
             = Done (mkQp (mkBuffer (B ++ out)) l', slen q, None)).
  { unfold qpWritable in Hq. apply orb_true_iff in Hq.
    destruct Hq as [Hshort|Hspare].
    - apply Z.ltb_lt in Hshort. exists (sdata q), (0 + slen q).
      apply qpLineWriter_Write_short. exact Hshort.
    - apply Z.leb_le in Hspare.
      destruct (@qpLineWriter_Write_spec B 0 q) as (out & l' & Heq & _).
      + lia.
      + unfold q. cbn [sspare]. unfold literal, slen. cbn [sdata].
        unfold literal, slen in Hspare. rewrite len_make; lia.
      + apply make_no_LF.
      + exists out, l'. exact Heq. }
  destruct Hw as (out & l' & Hw).
  rewrite (encoder_Write_ok _ _ Hw). bstep. cbn [w q_w].
  exists out. reflexivity.
Qed.

(** ** The methods of the message writer *)

Lemma steps_trans (w1 w2 w3 : messageWriter) (cs1 cs2 : list call) :
  steps w1 w2 cs1 -> steps w2 w3 cs2 -> steps w1 w3 (cs1 ++ cs2).
Proof.
  intros (D1 & C1 & R1 & H1 & (o1 & B1)) (D2 & C2 & R2 & H2 & (o2 & B2)).
  split; [congruence|].
  split; [rewrite C2, C1, app_assoc; reflexivity|].
  split; [assumption|]. split.
  - intros Hd. rewrite H2, H1; [reflexivity | assumption | lia].
  - exists (o1 ++ o2). rewrite B2, B1, app_assoc. reflexivity.
Qed.

Lemma createPart_spec (E : world) (w : messageWriter) (h : Header) :
  ready w -> 0 < depth w ->
  exists w',
    createPart E w h = Done w'
    /\ depth w' = depth w /\ calls w' = calls w /\ ready w'
    /\ mw_header w' = mw_header w /\ partWriter w' = true
    /\ exists out, contents (buf w') = contents (buf w) ++ out.
Proof.
  destruct w as [hd b ws pw d cs]. unfold ready. cbn [writers depth].
  intros (x & y & -> & Hd) Hpos.
  unfold createPart, writerAt, setWriterAt.
  cbn [writers depth mw_header buf partWriter calls].
  destruct Hd as [Hd|[[Hd Hx]|[Hd [Hx Hy]]]]; [lia| |]; subst d.
  - destruct x as [m|]; [|congruence].
    change ((1 - 1) mod 256) with 0.
    change (get [Some m; y] 0) with (Done (Some m)). bstep.
    eexists. split; [reflexivity|]. cbn.
    repeat split; try reflexivity.
    + exists (Some (mkMultipart (Boundary m) true)), y.
      split; [reflexivity|]. right. left. split; [reflexivity | discriminate].
    + eexists. reflexivity.
  - destruct y as [m|]; [|congruence].
    change ((2 - 1) mod 256) with 1.
    change (get [x; Some m] 1) with (Done (Some m)). bstep.
    eexists. split; [reflexivity|]. cbn.
    repeat split; try reflexivity.
    + exists x, (Some (mkMultipart (Boundary m) true)).
      split; [reflexivity|]. right. right.
      split; [reflexivity|]. split; [assumption | discriminate].
    + eexists. reflexivity.
Qed.

Lemma writeHeader_spec (E : world) (w : messageWriter) (h : Header) :
  ready w ->
  exists w',
    writeHeader E w h = Done w'
    /\ steps w w' [WriteHeader h]
    /\ (depth w = 0 \/ partWriter w' = true).
Proof.
  intros Hr. unfold writeHeader. cbv zeta.
  assert (Hr' : ready (record (WriteHeader h) w)).
  { destruct Hr as (a & b & Hw & Hd). exists a, b. split; assumption. }
  change (depth (record (WriteHeader h) w)) with (depth w).
  destruct (Z.eqb_spec (depth w) 0) as [H0|H0].
  - eexists. split; [reflexivity|]. split; [|left; assumption].
    split; [reflexivity|]. split; [reflexivity|]. split.
    + destruct Hr as (a & b & Hw & Hd). exists a, b. split; assumption.
    + split; [intros; cbn in *; lia|]. exists []. cbn.
      rewrite app_nil_r. reflexivity.
  - assert (Hpos : 0 < depth (record (WriteHeader h) w)).
    { destruct Hr as (a & b & Hw & Hd). cbn. lia. }
    destruct (createPart_spec E h Hr' Hpos)
      as (w' & Heq & Hd & Hc & Hrd & Hh & Hp & Hout).
    exists w'. split; [exact Heq|]. split; [|right; assumption].
    split; [exact Hd|]. split; [exact Hc|]. split; [assumption|].
    split; [intros _; exact Hh | exact Hout].
Qed.

Lemma writeBody_spec (w : messageWriter) (body : list byte) (enc : string) :
  ready w ->
  depth w = 0 \/ partWriter w = true ->
  enc = Base64 \/ (String.eqb enc Base64 = false /\ qpWritable body = true) ->
  exists w',
    writeBody w body enc = Done (w', None)
    /\ steps w w' [WriteBody body enc]
    /\ partWriter w' = partWriter w.
Proof.
  intros Hr Hsub Henc. unfold writeBody. cbv zeta.
  change (depth (record (WriteBody body enc) w)) with (depth w).
  change (partWriter (record (WriteBody body enc) w)) with (partWriter w).
  change (buf (record (WriteBody body enc) w)) with (buf w).
  assert (Hcond : (depth w =? 0) || partWriter w = true).
  { destruct Hsub as [->| ->]; [reflexivity | apply orb_true_r]. }
  rewrite Hcond.
  assert (Hb : exists out,
             encodeBody (buf w) body enc
             = Done (mkBuffer (contents (buf w) ++ out), None)).
  { destruct (buf w) as [B]. cbn [contents].
    destruct Henc as [->|[He Hq]];
      [apply encodeBody_Base64 | now apply encodeBody_QP]. }
  destruct Hb as (out & Hb). rewrite Hb. bstep.
  eexists. split; [reflexivity|]. split; [|reflexivity].
  split; [reflexivity|]. split; [reflexivity|]. split.
  - destruct Hr as (a & b & Hw & Hd). exists a, b. split; assumption.
  - split; [reflexivity|]. exists out. reflexivity.
Qed.

Lemma closeMultipart_spec (E : world) (w : messageWriter) :
  ready w -> 0 < depth w ->
  exists w',
    closeMultipart E w = Done w'
    /\ depth w' = depth w - 1
    /\ calls w' = calls w ++ [CloseMultipart]
    /\ ready w'
    /\ mw_header w' = mw_header w
    /\ exists out, contents (buf w') = contents (buf w) ++ out.
Proof.
  destruct w as [hd b ws pw d cs]. unfold ready. cbn [writers depth].
  intros (x & y & -> & Hd) Hpos.
  unfold closeMultipart, writerAt, setWriterAt. cbv zeta.
  cbn [record writers depth mw_header buf partWriter calls].
  destruct (Z.ltb_spec 0 d) as [_|]; [|lia].
  destruct Hd as [Hd|[[Hd Hx]|[Hd [Hx Hy]]]]; [lia| |]; subst d.
  - destruct x as [m|]; [|congruence].
    change ((1 - 1) mod 256) with 0.
    change (get [Some m; y] 0) with (Done (Some m)). bstep.
    eexists. split; [reflexivity|]. cbn.
    repeat split; try reflexivity.
    + exists (Some (mkMultipart (Boundary m) false)), y.
      split; [reflexivity|]. left. reflexivity.
    + eexists. reflexivity.
  - destruct y as [m|]; [|congruence].
    change ((2 - 1) mod 256) with 1.
    change (get [x; Some m] 1) with (Done (Some m)). bstep.
    eexists. split; [reflexivity|]. cbn.
    repeat split; try reflexivity.
    + exists x, (Some (mkMultipart (Boundary m) false)).
      split; [reflexivity|]. right. left. split; [reflexivity | assumption].
    + eexists. reflexivity.
Qed.

Lemma steps_refl (w : messageWriter) : ready w -> steps w w [].
Proof.
  intros Hr. split; [reflexivity|]. split; [now rewrite app_nil_r|].
  split; [assumption|]. split; [reflexivity|].
  exists []. now rewrite app_nil_r.
Qed.

Lemma exportParts_spec (E : world) (msg : Message) (ps : list part) :
  forall w,
    ready w ->
    (forall p, In p ps ->
       encoding msg = Base64
       \/ (String.eqb (encoding msg) Base64 = false
           /\ qpWritable (body p) = true)) ->
    exists w',
      exportParts E msg w ps = Done (w', None)
      /\ steps w w' (flat_map (partCalls msg) ps).
Proof.
  induction ps as [|p ps IH]; intros w Hr Henc.
  - exists w. split; [reflexivity | now apply steps_refl].
  - simpl exportParts.
    destruct (writeHeader_spec E (partHeader msg p) Hr)
      as (w1 & Heq1 & Hs1 & Hp1).
    rewrite Heq1. bstep.
    assert (Hr1 : ready w1) by apply Hs1.
    destruct (@writeBody_spec w1 (body p) (encoding msg) Hr1)
      as (w2 & Heq2 & Hs2 & _).
    { destruct Hp1 as [H0|Hp]; [left|right; exact Hp].
      destruct Hs1 as (Hd & _). congruence. }
    { apply Henc. now left. }
    rewrite Heq2. bstep.
    assert (Hr2 : ready w2) by apply Hs2.
    destruct (IH w2 Hr2) as (w3 & Heq3 & Hs3).
    { intros q Hq. apply Henc. now right. }
    exists w3. split; [exact Heq3|].
    exact (steps_trans Hs1 (steps_trans Hs2 Hs3)).
Qed.

Lemma exportAttachments_spec (E : world) (ats : list attachment) :
  forall w,
    ready w ->
    exists w',
      exportAttachments E w ats = Done (w', None)
      /\ steps w w' (flat_map (attachmentCalls E) ats)
      /\ (ats = [] -> w' = w).
Proof.
  induction ats as [|a ats IH]; intros w Hr.
  - exists w. split; [reflexivity|].
    split; [now apply steps_refl | reflexivity].
  - simpl exportAttachments.
    destruct (writeHeader_spec E (attachmentHeader E a) Hr)
      as (w1 & Heq1 & Hs1 & Hp1).
    rewrite Heq1. bstep.
    assert (Hr1 : ready w1) by apply Hs1.
    destruct (@writeBody_spec w1 (content a) Base64 Hr1)
      as (w2 & Heq2 & Hs2 & _).
    { destruct Hp1 as [H0|Hp]; [left|right; exact Hp].
      destruct Hs1 as (Hd & _). congruence. }
    { left. reflexivity. }
    rewrite Heq2. bstep.
    assert (Hr2 : ready w2) by apply Hs2.
    destruct (IH w2 Hr2) as (w3 & Heq3 & Hs3 & _).
    exists w3. split; [exact Heq3|].
    split; [|discriminate].
    exact (steps_trans Hs1 (steps_trans Hs2 Hs3)).
Qed.

(** The first and the second [openMultipart] of a message writer *)
Lemma openMultipart_first (E : world) (w : messageWriter) (mimeType : string)
      (a b : option multipartWriter) :
  depth w = 0 -> writers w = [a; b] ->
  openMultipart E w mimeType
  = Done (mkMessageWriter
            (assign (mw_header w) "Content-Type"
               [("multipart/" ++ mimeType ++ "; boundary="
                 ++ boundaryOf E 0)%string])
            (buf w) [Some (mkMultipart (boundaryOf E 0) false); b]
            (partWriter w) 1 (calls w ++ [OpenMultipart mimeType])).
Proof.
  destruct w as [hd bf ws pw d cs]. cbn [depth writers].
  intros -> ->. reflexivity.
Qed.

Lemma openMultipart_second (E : world) (w : messageWriter) (mimeType : string)
      (m : multipartWriter) (b : option multipartWriter) :
  depth w = 1 -> writers w = [Some m; b] ->
  openMultipart E w mimeType
  = Done (mkMessageWriter
            (mw_header w)
            (mkBuffer (contents (buf w)
                       ++ partHead E (Boundary m) (lastpart m)
                            [("Content-Type"%string,
                              [("multipart/" ++ mimeType ++ "; boundary="
                                ++ boundaryOf E 1)%string])]))
            [Some (mkMultipart (Boundary m) true);
             Some (mkMultipart (boundaryOf E 1) false)]
            true 2 (calls w ++ [OpenMultipart mimeType])).
Proof.
  destruct w as [hd bf ws pw d cs]. cbn [depth writers].
  intros -> ->. reflexivity.
Qed.

Lemma len_zero_nil {A} (l : list A) : len l <= 0 -> l = [].
Proof.
  destruct l; [reflexivity|]. unfold len. simpl length. lia.
Qed.

(** [Export] after its calls of [openMultipart] *)
Lemma export_tail (E : world) (msg : Message) (w2 : messageWriter) :
  exportable msg ->
  ready w2 ->
  depth w2 = (if isMixed msg then 1 else 0)
             + (if isAlternative msg then 1 else 0) ->
  exists w,
    ('(w, err) <- exportParts E msg w2 (parts msg) ;;
     match err with
     | Some e => Done (w, Some e)
     | None =>
       w <- (if isAlternative msg then closeMultipart E w else Done w) ;;
       '(w, err) <- exportAttachments E w (attachments msg) ;;
       match err with
       | Some e => Done (w, Some e)
       | None =>
         w <- (if isMixed msg then closeMultipart E w else Done w) ;;
         Done (w, None)
       end
     end) = Done (w, None)
    /\ depth w = 0
    /\ calls w = calls w2
                 ++ flat_map (partCalls msg) (parts msg)
                 ++ (if isAlternative msg then [CloseMultipart] else [])
                 ++ flat_map (attachmentCalls E) (attachments msg)
                 ++ (if isMixed msg then [CloseMultipart] else [])
    /\ (0 < depth w2 -> mw_header w = mw_header w2)
    /\ (exists out, contents (buf w) = contents (buf w2) ++ out).
Proof.
  intros Hex Hr Hd.
  destruct (@exportParts_spec E msg (parts msg) w2 Hr)
    as (w3 & Heq3 & (D3 & C3 & R3 & H3 & (o3 & B3))).
  { intros p Hp.
    destruct (String.eqb_spec (encoding msg) Base64) as [e|ne];
      [left; exact e|].
    right. split; [reflexivity|].
    destruct Hex as [e|Hf]; [contradiction|].
    rewrite Forall_forall in Hf. apply Hf, Hp. }
  rewrite Heq3. bstep.
  assert (H4 : exists w4,
             (if isAlternative msg then closeMultipart E w3 else Done w3)
             = Done w4
             /\ depth w4 = (if isMixed msg then 1 else 0)
             /\ calls w4 = calls w3
                  ++ (if isAlternative msg then [CloseMultipart] else [])
             /\ ready w4
             /\ mw_header w4 = mw_header w3
             /\ exists out, contents (buf w4) = contents (buf w3) ++ out).
  { destruct (isAlternative msg).
    - destruct (closeMultipart_spec E R3)
        as (w4 & Heq4 & D4 & C4 & R4 & H4 & B4).
      { rewrite D3, Hd. destruct (isMixed msg); lia. }
      exists w4. split; [exact Heq4|].
      split; [rewrite D4, D3, Hd; destruct (isMixed msg); lia|].
      split; [exact C4|]. split; [exact R4|]. split; [exact H4 | exact B4].
    - exists w3. split; [reflexivity|].
      split; [rewrite D3, Hd; destruct (isMixed msg); lia|].
      split; [now rewrite app_nil_r|]. split; [exact R3|].
      split; [reflexivity|]. exists []. now rewrite app_nil_r. }
  destruct H4 as (w4 & Heq4 & D4 & C4 & R4 & H4 & (o4 & B4)).
  rewrite Heq4. bstep.
  destruct (@exportAttachments_spec E (attachments msg) w4 R4)
    as (w5 & Heq5 & (D5 & C5 & R5 & H5 & (o5 & B5)) & Hnil).
  rewrite Heq5. bstep.
  assert (H6 : exists w6,
             (if isMixed msg then closeMultipart E w5 else Done w5)
             = Done w6
             /\ depth w6 = 0
             /\ calls w6 = calls w5
                  ++ (if isMixed msg then [CloseMultipart] else [])
             /\ mw_header w6 = mw_header w5
             /\ exists out, contents (buf w6) = contents (buf w5) ++ out).
  { destruct (isMixed msg).
    - destruct (closeMultipart_spec E R5)
        as (w6 & Heq6 & D6 & C6 & R6 & H6 & B6); [lia|].
      exists w6. split; [exact Heq6|]. split; [lia|].
      split; [exact C6|]. split; [exact H6 | exact B6].
    - exists w5. split; [reflexivity|]. split; [lia|].
      split; [now rewrite app_nil_r|]. split; [reflexivity|].
      exists []. now rewrite app_nil_r. }
  destruct H6 as (w6 & Heq6 & D6 & C6 & H6 & (o6 & B6)).
  rewrite Heq6. bstep. exists w6.
  split; [reflexivity|]. split; [exact D6|]. split.
  - rewrite C6, C5, C4, C3, <- !app_assoc. reflexivity.
  - split.
    + intros Hpos. rewrite H6.
      assert (H54 : mw_header w5 = mw_header w4).
      { destruct (isMixed msg) eqn:Em; [apply H5; lia|].
        destruct (isAlternative msg) eqn:Ea; [|simpl in Hd; lia].
        assert (Hat : attachments msg = []).
        { apply len_zero_nil. unfold isMixed, isAlternative in Em, Ea.
          apply orb_false_iff in Em. destruct Em as [Em1 Em2].
          apply Z.ltb_lt in Ea. apply Z.ltb_ge in Em2.
          apply andb_false_iff in Em1. destruct Em1 as [Em1|Em1].
          - apply Z.ltb_ge in Em1. lia.
          - apply Z.ltb_ge in Em1. lia. }
        rewrite (Hnil Hat). reflexivity. }
      rewrite H54, H4. apply H3. exact Hpos.
    + exists (o3 ++ o4 ++ o5 ++ o6).
      rewrite B6, B5, B4, B3, <- !app_assoc. reflexivity.
Qed.

(** ** The calls of an export *)









(** The run of [Export] on a message whose bodies can be written *)
Lemma exportWriter_spec (E : world) (msg : Message) :
  exportable msg ->
  exists w,
    exportWriter E msg = Done (w, None)
    /\ depth w = 0
    /\ calls w = exportCalls E msg
    /\ (isMixed msg = true ->
        lookup (mw_header w) "Content-Type"
        = Some ["multipart/mixed; boundary=" ++ boundaryOf E 0]%string)
    /\ (isMixed msg = false -> isAlternative msg = true ->
        lookup (mw_header w) "Content-Type"
        = Some ["multipart/alternative; boundary=" ++ boundaryOf E 0]%string)
    /\ (isMixed msg = true -> isAlternative msg = true ->
        exists rest,
          contents (buf w)
          = partHead E (boundaryOf E 0) false
              [("Content-Type"%string,
                ["multipart/alternative; boundary="
                 ++ boundaryOf E 1]%string)]
            ++ rest).
Proof.
  intros Hex. unfold exportWriter. cbv zeta.
  set (w0 := newMessageWriter E msg).
  assert (D0 : depth w0 = 0) by reflexivity.
  assert (W0 : writers w0 = [None; None]) by reflexivity.
  destruct (isMixed msg) eqn:Em; destruct (isAlternative msg) eqn:Ea.
  - rewrite (openMultipart_first E w0 "mixed" D0 W0). bstep.
    match goal with
    | |- context [openMultipart E ?w "alternative"] => set (w1 := w)
    end.
    rewrite (@openMultipart_second E w1 "alternative"
               (mkMultipart (boundaryOf E 0) false) None)
      by reflexivity.
    bstep.
    match goal with
    | |- context [exportParts E msg ?w _] => set (w2 := w)
    end.
    destruct (@export_tail E msg w2 Hex) as (w & Heq & D & C & H & (o & Bf)).
    { exists (Some (mkMultipart (boundaryOf E 0) true)),
             (Some (mkMultipart (boundaryOf E 1) false)).
      split; [reflexivity|]. right. right.
      split; [reflexivity|]. split; discriminate. }
    { rewrite Em, Ea. reflexivity. }
    rewrite Em, Ea in Heq, C. exists w. split; [exact Heq|].
    split; [exact D|]. split.
    + rewrite C. unfold exportCalls. rewrite Em, Ea. reflexivity.
    + split.
      * intros _. rewrite H by (cbn; lia). apply lookup_assign.
      * split; [discriminate|]. intros _ _. exists o. rewrite Bf. reflexivity.
  - rewrite (openMultipart_first E w0 "mixed" D0 W0). bstep.
    match goal with
    | |- context [exportParts E msg ?w _] => set (w2 := w)
    end.
    destruct (@export_tail E msg w2 Hex) as (w & Heq & D & C & H & (o & Bf)).
    { exists (Some (mkMultipart (boundaryOf E 0) false)), None.
      split; [reflexivity|]. right. left.
      split; [reflexivity | discriminate]. }
    { rewrite Em, Ea. reflexivity. }
    rewrite Em, Ea in Heq, C. exists w. split; [exact Heq|].
    split; [exact D|]. split.
    + rewrite C. unfold exportCalls. rewrite Em, Ea. reflexivity.
    + split.
      * intros _. rewrite H by (cbn; lia). apply lookup_assign.
      * split; discriminate.
  - bstep. rewrite (openMultipart_first E w0 "alternative" D0 W0). bstep.
    match goal with
    | |- context [exportParts E msg ?w _] => set (w2 := w)
    end.
    destruct (@export_tail E msg w2 Hex) as (w & Heq & D & C & H & (o & Bf)).
    { exists (Some (mkMultipart (boundaryOf E 0) false)), None.
      split; [reflexivity|]. right. left.
      split; [reflexivity | discriminate]. }
    { rewrite Em, Ea. reflexivity. }
    rewrite Em, Ea in Heq, C. exists w. split; [exact Heq|].
    split; [exact D|]. split.
    + rewrite C. unfold exportCalls. rewrite Em, Ea. reflexivity.
    + split; [discriminate|]. split; [|discriminate].
      intros _ _. rewrite H by (cbn; lia). apply lookup_assign.
  - bstep.
    destruct (@export_tail E msg w0 Hex) as (w & Heq & D & C & H & (o & Bf)).
    { exists None, None. split; [reflexivity|]. left. reflexivity. }
    { rewrite Em, Ea. reflexivity. }
    rewrite Em, Ea in Heq, C. exists w. split; [exact Heq|].
    split; [exact D|]. split.
    + rewrite C. unfold exportCalls. rewrite Em, Ea. reflexivity.
    + split; [discriminate|]. split; discriminate.
Qed.



(** The message of the test [TestMultipleAttachment], one text part and two
    attachments, is exported with the header and the body that the test
    expects: one multipart/mixed body with the text and the two files in
    base64, and no multipart/alternative part. *)
Theorem Export_text_and_two_files :
  Export testWorld testMessage
  = Done (Some
      ([("Mime-Version", ["1.0"]);
        ("Date", ["25 Jun 14 17:46 UTC"]);
        ("Content-Type", ["multipart/mixed; boundary=outer"])]%string,
       bs ("--outer" ++ crlf
           ++ "Content-Type: text/plain; charset=UTF-8" ++ crlf
           ++ "Content-Transfer-Encoding: quoted-printable" ++ crlf
           ++ crlf
           ++ "Test" ++ crlf
           ++ "--outer" ++ crlf
           ++ "Content-Type: application/pdf; name="
           ++ quote ++ "test.pdf" ++ quote ++ crlf
           ++ "Content-Disposition: attachment; filename="
           ++ quote ++ "test.pdf" ++ quote ++ crlf
           ++ "Content-Transfer-Encoding: base64" ++ crlf
           ++ crlf
           ++ "Q29udGVudCBvZiB0ZXN0LnBkZg==" ++ crlf
           ++ "--outer" ++ crlf
           ++ "Content-Type: application/zip; name="
           ++ quote ++ "test.zip" ++ quote ++ crlf
           ++ "Content-Disposition: attachment; filename="
           ++ quote ++ "test.zip" ++ quote ++ crlf
           ++ "Content-Transfer-Encoding: base64" ++ crlf
           ++ crlf
           ++ "Q29udGVudCBvZiB0ZXN0LnppcA==" ++ crlf
           ++ "--outer--" ++ crlf)%string),
    None).
Proof. vm_compute. reflexivity. Qed.

(** In any world, the body of that message is: the delimiter and header of
    the text part, the text, and for each file its delimiter and header and
    its content in base64, then the closing delimiter of the one multipart
    writer. *)
Theorem Export_text_and_two_files_parts (E : world) :
  Export E testMessage
  = Done (Some
      ([("Mime-Version", ["1.0"]);
        ("Date", [date E]);
        ("Content-Type", ["multipart/mixed; boundary=" ++ boundaryOf E 0])
       ]%string,
       partHead E (boundaryOf E 0) false
         (partHeader testMessage (mkPart "text/plain" (bs "Test")))
       ++ bs "Test"
       ++ partHead E (boundaryOf E 0) true
            (attachmentHeader E
               (mkAttachment "test.pdf" (bs "Content of test.pdf")))
       ++ bs "Q29udGVudCBvZiB0ZXN0LnBkZg=="
       ++ partHead E (boundaryOf E 0) true
            (attachmentHeader E
               (mkAttachment "test.zip" (bs "Content of test.zip")))
       ++ bs "Q29udGVudCBvZiB0ZXN0LnppcA=="
       ++ closeDelim E (boundaryOf E 0)),
    None).
Proof.
  destruct E as [d bo ty ex ph cd]. vm_compute. fold (@app byte).
  rewrite <- !app_assoc. reflexivity.
Qed.

(* ------------------------------------------------------------------ *)
(** ** Encoded words of a header *)

Import quotedprintable.

Lemma ascii_RuneStart (c : byte) :
  (bval c <? 128) = true -> RuneStart c = true.
Proof. each_byte c. Qed.

Lemma qsafe_ascii (c : byte) :
  beq c SP || isQSafe c = true -> (bval c <? 128) = true.
Proof. each_byte c. Qed.

Lemma wellFormedRune_inv (r : list byte) :
  wellFormedRune r = true ->
  exists c t,
    r = c :: t /\ RuneStart c = true /\ forallb continuation t = true
    /\ len t <= 3 /\ ((bval c <? 128) = true -> t = []).
Proof.
  destruct r as [|c t]; [discriminate|]. simpl.
  destruct (bval c <? 128) eqn:E.
  - intros H. destruct t; [|discriminate H]. exists c, [].
    split; [reflexivity|]. split; [now apply ascii_RuneStart|].
    split; [reflexivity|]. split; [change (len (@nil byte)) with 0; lia|].
    reflexivity.
  - intros H. apply andb_true_iff in H. destruct H as [H H3].
    apply andb_true_iff in H. destruct H as [H1 H2].
    exists c, t. split; [reflexivity|]. split; [assumption|].
    split; [assumption|]. split; [now apply Z.leb_le | congruence].
Qed.


Lemma concat_runes_start (rs : list (list byte)) :
  Forall (fun r => wellFormedRune r = true) rs -> startsRune (concat rs).
Proof.
  intros H. destruct H as [|r rs Hr Hrs]; [exact I|].
  destruct (wellFormedRune_inv _ Hr) as (c & t & -> & Hc & _).
  exact Hc.
Qed.

Arguments runeSizeLoop : simpl never.

Lemma runeSizeLoop_step fuel (s : list byte) (i runeSize : Z) :
  runeSizeLoop (S fuel) s i runeSize =
  if i + runeSize <? len s then
    c <- get s (i + runeSize) ;;
    if negb (RuneStart c) then runeSizeLoop fuel s i (runeSize + 1)
    else Done runeSize
  else Done runeSize.
Proof. reflexivity. Qed.

Lemma runeSizeLoop_spec (pre t post : list byte) (c : byte) :
  forallb continuation t = true -> startsRune post ->
  forall (fuel : nat) (k : Z),
    1 <= k <= 1 + len t ->
    1 + len t - k < Z.of_nat fuel ->
    runeSizeLoop fuel (pre ++ (c :: t) ++ post) (len pre) k
    = Done (1 + len t).
Proof.
  intros Ht Hpost. induction fuel as [|fuel IH]; intros k Hk Hf; [lia|].
  rewrite runeSizeLoop_step.
  pose proof (len_nonneg pre). pose proof (len_nonneg t).
  pose proof (len_nonneg post).
  destruct (Z.ltb_spec (len pre + k) (len (pre ++ (c :: t) ++ post)))
    as [Hin|Hout].
  - rewrite get_app_r by lia.
    destruct (Z.eq_dec k (1 + len t)) as [->|Hne].
    + destruct post as [|d post'].
      { revert Hin. lens. lia. }
      replace (1 + len t) with (len (c :: t)) by (lens; lia).
      rewrite get_mid. bstep. simpl in Hpost. rewrite Hpost. reflexivity.
    + rewrite get_app_l by (lens; lia).
      replace k with ((k - 1) + 1) at 1 by lia.
      rewrite get_tail by lia.
      destruct (@get_in_range _ t (k - 1)) as [b Gb]; [lia|].
      rewrite Gb. bstep.
      assert (Hb : continuation b = true).
      { rewrite forallb_forall in Ht. apply Ht. eapply get_In. exact Gb. }
      unfold continuation in Hb. rewrite Hb.
      apply IH; lia.
  - revert Hout. lens. intros Hout. f_equal. lia.
Qed.

Lemma getRuneSize_spec (pre t post : list byte) (c : byte) :
  forallb continuation t = true -> startsRune post ->
  getRuneSize (pre ++ (c :: t) ++ post) (len pre) = Done (1 + len t).
Proof.
  intros Ht Hpost. unfold getRuneSize.
  apply runeSizeLoop_spec; try assumption.
  - pose proof (len_nonneg t). lia.
  - rewrite !length_app. simpl length. unfold len. lia.
Qed.

(** ** The Q encoding of a text, cut at code points *)

Arguments qLoop : simpl never.

Lemma qLoop_step fuel (e : HeaderEncoder) (s : list byte) (i n : Z)
      (buf : list byte) :
  qLoop (S fuel) e s i n buf =
  if i <? len s then
    b <- get s i ;;
    '(encLen, runeSize) <-
       (if beq b SP || isQSafe b then Done (1, 1)
        else runeSize <- getRuneSize s i ;; Done (3 * runeSize, runeSize)) ;;
    let '(buf, n) :=
      if maxEncodedWordLen - 2 <? n + encLen then splitWord e buf
      else (buf, n) in
    rune <- slice s i (i + runeSize) ;;
    qLoop fuel e s (i + runeSize) (n + encLen) (buf ++ writeQString rune)
  else Done buf.
Proof. reflexivity. Qed.

Lemma writeQString_app (a b : list byte) :
  writeQString (a ++ b) = writeQString a ++ writeQString b.
Proof. apply flat_map_app. Qed.

Lemma writeQ_len (c : byte) :
  len (writeQ c) = if beq c SP || isQSafe c then 1 else 3.
Proof.
  unfold writeQ. destruct (beq c SP); [reflexivity|].
  destruct (isQSafe c); reflexivity.
Qed.

Lemma continuation_escaped (b : byte) :
  continuation b = true -> beq b SP || isQSafe b = false.
Proof. each_byte b. Qed.

Lemma writeQString_continuation (t : list byte) :
  forallb continuation t = true -> len (writeQString t) = 3 * len t.
Proof.
  induction t as [|b t IH]; [reflexivity|]. simpl forallb.
  intros H. apply andb_true_iff in H. destruct H as [Hb Ht].
  change (writeQString (b :: t)) with (writeQ b ++ writeQString t).
  lens. rewrite writeQ_len, (continuation_escaped _ Hb), (IH Ht). lia.
Qed.

(** The length of the Q encoding of a code point: one byte, or three for
    each of at most four bytes. *)
Lemma writeQString_rune (c : byte) (t : list byte) :
  forallb continuation t = true ->
  ((bval c <? 128) = true -> t = []) ->
  len (writeQString (c :: t))
  = if beq c SP || isQSafe c then 1 else 3 * (1 + len t).
Proof.
  intros Ht Hascii.
  change (writeQString (c :: t)) with (writeQ c ++ writeQString t).
  lens. rewrite writeQ_len, (writeQString_continuation _ Ht).
  destruct (beq c SP || isQSafe c) eqn:E; [|lia].
  rewrite (Hascii (qsafe_ascii _ E)). change (len (@nil byte)) with 0. lia.
Qed.

Lemma slice_mid {A} (P s R : list A) :
  slice (P ++ s ++ R) (len P) (len P + len s) = Done s.
Proof.
  rewrite app_assoc.
  unfold slice. pose proof (len_nonneg P). pose proof (len_nonneg s).
  pose proof (len_nonneg R). lens.
  leb_true. leb_true. leb_true. simpl andb. cbv iota. f_equal.
  rewrite <- app_assoc.
  destruct (@firstn_skipn_app _ P (s ++ R) (len P) eq_refl) as [_ ->].
  replace (len P + len s - len P) with (len s) by lia.
  destruct (@firstn_skipn_app _ s R (len s) eq_refl) as [-> _].
  reflexivity.
Qed.

Lemma len_opening (e : HeaderEncoder) :
  len (opening e) = 4 + len (charset e) + len (encoding e).
Proof. unfold opening. lens. change (len (bs "=?")) with 2.
  change (len (bs "?")) with 1. lia.
Qed.

Lemma splitWord_buf (e : HeaderEncoder) (W word : list byte) :
  splitWord e (W ++ word)
  = ((W ++ (word ++ bs "?=") ++ [CR; LF; SP]) ++ opening e,
     len (opening e)).
Proof.
  unfold splitWord, openWord, closeWord. rewrite len_opening.
  f_equal. unfold opening. rewrite <- !app_assoc. reflexivity.
Qed.

(** One turn of the loop, over a code point *)
Lemma qLoop_rune (e : HeaderEncoder) (fuel : nat) (pre r post : list byte)
      (n : Z) (buf : list byte) :
  wellFormedRune r = true -> startsRune post ->
  qLoop (S fuel) e (pre ++ r ++ post) (len pre) n buf
  = qLoop fuel e (pre ++ r ++ post) (len pre + len r)
      ((if 73 <? n + len (writeQString r) then snd (splitWord e buf) else n)
       + len (writeQString r))
      ((if 73 <? n + len (writeQString r) then fst (splitWord e buf)
        else buf)
       ++ writeQString r)
    /\ 1 <= len r /\ len (writeQString r) <= 12.
Proof.
  intros Hr Hpost.
  destruct (wellFormedRune_inv _ Hr) as (c & t & -> & Hc & Ht & Hlen & Hasc).
  pose proof (len_nonneg pre). pose proof (len_nonneg t).
  pose proof (len_nonneg post).
  pose proof (writeQString_rune c Ht Hasc) as Hq.
  split.
  - rewrite qLoop_step.
    destruct (Z.ltb_spec (len pre) (len (pre ++ (c :: t) ++ post)))
      as [_|Hge]; [|revert Hge; lens; lia].
    simpl app at 2. rewrite get_mid. bstep.
    change (pre ++ c :: t ++ post) with (pre ++ (c :: t) ++ post).
    unfold maxEncodedWordLen. change (75 - 2) with 73.
    destruct (beq c SP || isQSafe c) eqn:E.
    + rewrite (Hasc (qsafe_ascii _ E)) in *. bstep. rewrite Hq.
      change (len [c]) with 1.
      pose proof (@slice_mid _ pre [c] post) as Hs.
      change (len [c]) with 1 in Hs.
      destruct (73 <? n + 1); cbv iota; [destruct (splitWord e buf)|];
        cbv iota beta; rewrite Hs; bstep; reflexivity.
    + rewrite getRuneSize_spec by assumption. bstep. rewrite Hq.
      pose proof (@slice_mid _ pre (c :: t) post) as Hs.
      replace (len (c :: t)) with (1 + len t) in * by (lens; lia).
      destruct (73 <? n + 3 * (1 + len t)); cbv iota;
        [destruct (splitWord e buf)|];
        cbv iota beta; rewrite Hs; bstep; reflexivity.
  - split; [lens; lia|]. rewrite Hq.
    destruct (beq c SP || isQSafe c); lia.
Qed.

Arguments opening : simpl never.

Lemma joinWords_cons (w : list byte) (ws : list (list byte)) :
  ws <> [] -> joinWords (w :: ws) = w ++ [CR; LF; SP] ++ joinWords ws.
Proof. destruct ws; [congruence | reflexivity]. Qed.

(** The splitting loop of the Q branch: the buffer holds the closed words
    [W] and an open word with the code points [cur]; the loop distributes
    the code points [rest] over this word and new ones. *)
Lemma qLoop_groups (e : HeaderEncoder) :
  len (opening e) + 12 <= 73 ->
  forall (rest cur : list (list byte)) (pre W : list byte) (fuel : nat),
    Forall (fun r => wellFormedRune r = true) rest ->
    cur <> [] \/ rest <> [] ->
    len (opening e) + len (writeQString (concat cur)) <= 73 ->
    len (concat rest) < Z.of_nat fuel ->
    exists gs buf',
      concat gs = cur ++ rest
      /\ Forall (fun g => g <> []) gs
      /\ Forall (fun g => len (opening e ++ writeQString (concat g)
                               ++ bs "?=") <= 75) gs
      /\ qLoop fuel e (pre ++ concat rest) (len pre)
               (len (opening e) + len (writeQString (concat cur)))
               (W ++ opening e ++ writeQString (concat cur))
         = Done buf'
      /\ closeWord buf'
         = W ++ joinWords
                  (map (fun g => opening e ++ writeQString (concat g)
                                 ++ bs "?=") gs).
Proof.
  intros Hopen.
  induction rest as [|r rest IH]; intros cur pre W fuel Hwf Hne Hn Hf.
  - destruct fuel as [|fuel]; [unfold len in Hf; simpl in Hf; lia|].
    exists [cur], (W ++ opening e ++ writeQString (concat cur)).
    split; [simpl; now rewrite !app_nil_r|].
    split; [constructor; [|constructor]; destruct Hne; congruence|].
    split.
    { constructor; [|constructor]. lens. change (len (bs "?=")) with 2. lia. }
    split.
    + rewrite qLoop_step. simpl concat. rewrite app_nil_r.
      ltb_false. reflexivity.
    + unfold closeWord. cbn [map joinWords]. rewrite <- !app_assoc.
      reflexivity.
  - inversion Hwf as [|r' rest' Hr Hrest]; subst r' rest'.
    destruct fuel as [|fuel].
    { pose proof (len_nonneg (concat (r :: rest))). lia. }
    simpl concat.
    destruct (@qLoop_rune e fuel pre r (concat rest)
                (len (opening e) + len (writeQString (concat cur)))
                (W ++ opening e ++ writeQString (concat cur)) Hr
                (concat_runes_start Hrest))
      as (Hstep & Hr1 & Hr12).
    rewrite Hstep.
    assert (Hfuel : len (concat rest) < Z.of_nat fuel).
    { revert Hf. simpl concat. lens. lia. }
    replace (pre ++ r ++ concat rest) with ((pre ++ r) ++ concat rest)
      by (now rewrite <- app_assoc).
    replace (len pre + len r) with (len (pre ++ r)) by (lens; lia).
    destruct (Z.ltb_spec 73 (len (opening e)
                             + len (writeQString (concat cur))
                             + len (writeQString r))) as [Hsplit|Hfit].
    + (* a new word *)
      assert (Hcur : cur <> []).
      { intros ->. simpl concat in Hsplit.
        change (len (writeQString [])) with 0 in Hsplit. lia. }
      replace (W ++ opening e ++ writeQString (concat cur))
        with (W ++ (opening e ++ writeQString (concat cur)))
        by reflexivity.
      rewrite splitWord_buf. cbn [fst snd].
      destruct (IH [r] (pre ++ r)
                  (W ++ ((opening e ++ writeQString (concat cur)) ++ bs "?=")
                     ++ [CR; LF; SP]) fuel Hrest)
        as (gs & buf' & Hgs & Hgne & Hglen & Hrun & Hclose).
      { left. discriminate. }
      { simpl concat. rewrite app_nil_r. lia. }
      { exact Hfuel. }
      simpl concat in Hrun. rewrite app_nil_r in Hrun.
      rewrite <- !app_assoc in Hrun. rewrite <- !app_assoc.
      exists (cur :: gs), buf'.
      split; [simpl; rewrite Hgs; reflexivity|].
      split; [constructor; assumption|].
      split.
      { constructor; [|assumption]. lens. change (len (bs "?=")) with 2.
        lia. }
      split; [exact Hrun|].
      rewrite Hclose. cbn [map]. rewrite joinWords_cons.
      * rewrite <- !app_assoc. reflexivity.
      * destruct gs; [discriminate Hgs | discriminate].
    + (* the same word *)
      destruct (IH (cur ++ [r]) (pre ++ r) W fuel Hrest)
        as (gs & buf' & Hgs & Hgne & Hglen & Hrun & Hclose).
      { left. destruct cur; discriminate. }
      { rewrite concat_app, writeQString_app. simpl concat.
        rewrite app_nil_r. lens. lia. }
      { exact Hfuel. }
      rewrite concat_app, writeQString_app in Hrun. simpl concat in Hrun.
      rewrite app_nil_r in Hrun. revert Hrun. lens. intros Hrun.
      rewrite <- !app_assoc in Hrun. rewrite <- !app_assoc.
      rewrite Z.add_assoc in Hrun.
      exists gs, buf'.
      split; [rewrite Hgs, <- app_assoc; reflexivity|].
      split; [assumption|]. split; [assumption|].
      split; [exact Hrun | exact Hclose].
Qed.

(** ** The B encoding of a text, cut at code points *)

Lemma b64EncodeToString_len3 (t : list byte) :
  len (b64EncodeToString t) = EncodedLen (len t)
  /\ (forall a, len (b64EncodeToString (a :: t)) = EncodedLen (len (a :: t)))
  /\ (forall a b, len (b64EncodeToString (a :: b :: t))
                  = EncodedLen (len (a :: b :: t))).
Proof.
  induction t as [|c t (IH0 & IH1 & IH2)].
  - repeat split; intros; reflexivity.
  - split; [apply IH1|]. split; [intros a; apply IH2|].
    intros a b.
    change (b64EncodeToString (a :: b :: c :: t))
      with ([ b64char (Z.shiftr (bval a) 2);
              b64char (Z.lor (Z.shiftl (Z.land (bval a) 3) 4)
                             (Z.shiftr (bval b) 4));
              b64char (Z.lor (Z.shiftl (Z.land (bval b) 15) 2)
                             (Z.shiftr (bval c) 6));
              b64char (Z.land (bval c) 63) ] ++ b64EncodeToString t).
    lens. rewrite IH0. unfold EncodedLen.
    pose proof (len_nonneg t).
    Z.to_euclidean_division_equations. lia.
Qed.

Lemma b64EncodeToString_len (t : list byte) :
  len (b64EncodeToString t) = EncodedLen (len t).
Proof. apply b64EncodeToString_len3. Qed.

Lemma EncodedLen_mono (a b : Z) : a <= b -> EncodedLen a <= EncodedLen b.
Proof.
  intros H. unfold EncodedLen. Z.to_euclidean_division_equations. lia.
Qed.

Arguments bLoop : simpl never.

Lemma bLoop_step fuel (e : HeaderEncoder) (s : list byte) (maxLen : Z)
      (i n last : Z) (buf : list byte) :
  bLoop (S fuel) e s maxLen i n last buf =
  if i <? len s then
    runeSize <- getRuneSize s i ;;
    if EncodedLen (n + runeSize) <=? maxLen
    then bLoop fuel e s maxLen (i + runeSize) (n + runeSize) last buf
    else
      chunk <- slice s last i ;;
      let buf := fst (splitWord e (buf ++ b64EncodeToString chunk)) in
      bLoop fuel e s maxLen (i + runeSize) runeSize i buf
  else Done (buf, last).
Proof. reflexivity. Qed.

(** The splitting loop of the B branch: the buffer holds the closed words
    [W] and the start of a word, in which the code points [cur], counted
    but not yet written, will go. *)
Lemma bLoop_groups (e : HeaderEncoder) (maxLen : Z) :
  maxLen = 75 - len (opening e) - 2 -> 8 <= maxLen ->
  forall (rest cur : list (list byte)) (done W : list byte) (fuel : nat),
    Forall (fun r => wellFormedRune r = true) rest ->
    cur <> [] \/ rest <> [] ->
    cur = [] \/ EncodedLen (len (concat cur)) <= maxLen ->
    len (concat rest) < Z.of_nat fuel ->
    exists gs buf' last' tail,
      concat gs = cur ++ rest
      /\ Forall (fun g => g <> []) gs
      /\ Forall (fun g => len (opening e ++ b64EncodeToString (concat g)
                               ++ bs "?=") <= 75) gs
      /\ bLoop fuel e (done ++ concat cur ++ concat rest) maxLen
               (len done + len (concat cur)) (len (concat cur)) (len done)
               (W ++ opening e)
         = Done (buf', last')
      /\ sliceFrom (done ++ concat cur ++ concat rest) last' = Done tail
      /\ closeWord (buf' ++ b64EncodeToString tail)
         = W ++ joinWords
                  (map (fun g => opening e ++ b64EncodeToString (concat g)
                                 ++ bs "?=") gs).
Proof.
  intros Hmax H8.
  induction rest as [|r rest IH]; intros cur done W fuel Hwf Hne Hn Hf.
  - destruct fuel as [|fuel]; [unfold len in Hf; simpl in Hf; lia|].
    assert (Hcur : cur <> []) by (destruct Hne; congruence).
    destruct Hn as [Hn|Hn]; [congruence|].
    exists [cur], (W ++ opening e), (len done), (concat cur).
    split; [simpl; now rewrite !app_nil_r|].
    split; [constructor; [assumption | constructor]|].
    split.
    { constructor; [|constructor]. lens. change (len (bs "?=")) with 2.
      rewrite b64EncodeToString_len. lia. }
    simpl concat. rewrite app_nil_r.
    split; [|split].
    + rewrite bLoop_step, len_app. ltb_false. reflexivity.
    + apply slice_app_suffix.
    + unfold closeWord. cbn [map joinWords]. rewrite <- !app_assoc.
      reflexivity.
  - inversion Hwf as [|r' rest' Hr Hrest]; subst r' rest'.
    destruct fuel as [|fuel].
    { pose proof (len_nonneg (concat (r :: rest))). lia. }
    destruct (wellFormedRune_inv _ Hr) as (c & t & Er & Hc & Ht & Hlen & _).
    pose proof (len_nonneg t) as Ht0.
    assert (Hr4 : 1 <= len r <= 4) by (rewrite Er; lens; lia).
    assert (Hfuel : len (concat rest) < Z.of_nat fuel).
    { revert Hf. simpl concat. lens. lia. }
    simpl concat. rewrite bLoop_step.
    pose proof (len_nonneg done). pose proof (len_nonneg (concat cur)).
    pose proof (len_nonneg (concat rest)).
    destruct (Z.ltb_spec (len done + len (concat cur))
                (len (done ++ concat cur ++ r ++ concat rest)))
      as [_|Hge]; [|revert Hge; lens; lia].
    assert (Hsize : getRuneSize (done ++ concat cur ++ r ++ concat rest)
                      (len done + len (concat cur)) = Done (len r)).
    { replace (done ++ concat cur ++ r ++ concat rest)
        with ((done ++ concat cur) ++ r ++ concat rest)
        by (now rewrite <- app_assoc).
      replace (len done + len (concat cur)) with (len (done ++ concat cur))
        by (lens; lia).
      rewrite Er. rewrite getRuneSize_spec.
      - f_equal. lens. lia.
      - assumption.
      - now apply concat_runes_start. }
    rewrite Hsize. bstep.
    destruct (Z.leb_spec (EncodedLen (len (concat cur) + len r)) maxLen)
      as [Hfit|Hsplit].
    + (* the same word *)
      destruct (IH (cur ++ [r]) done W fuel Hrest)
        as (gs & buf' & last' & tail & Hgs & Hgne & Hglen & Hrun & Hsl & Hcl).
      { left. destruct cur; discriminate. }
      { right. rewrite concat_app. simpl concat. rewrite app_nil_r.
        lens. exact Hfit. }
      { exact Hfuel. }
      rewrite concat_app in Hrun, Hsl. simpl concat in Hrun, Hsl.
      rewrite app_nil_r in Hrun, Hsl. revert Hrun. lens. intros Hrun.
      rewrite <- !app_assoc in Hrun, Hsl. rewrite Z.add_assoc in Hrun.
      exists gs, buf', last', tail.
      split; [rewrite Hgs, <- app_assoc; reflexivity|].
      split; [assumption|]. split; [assumption|].
      split; [exact Hrun|]. split; [exact Hsl | exact Hcl].
    + (* a new word *)
      assert (Hcur : cur <> []).
      { intros ->. simpl concat in Hsplit.
        change (len (@nil byte)) with 0 in Hsplit.
        pose proof (@EncodedLen_mono (0 + len r) 4).
        change (EncodedLen 4) with 8 in *. lia. }
      destruct Hn as [Hn|Hn]; [congruence|].
      rewrite (@slice_mid _ done (concat cur) (r ++ concat rest)).
      bstep. cbv zeta.
      rewrite <- app_assoc. rewrite splitWord_buf. cbn [fst].
      destruct (IH [r] (done ++ concat cur)
                  (W ++ ((opening e ++ b64EncodeToString (concat cur))
                         ++ bs "?=") ++ [CR; LF; SP]) fuel Hrest)
        as (gs & buf' & last' & tail & Hgs & Hgne & Hglen & Hrun & Hsl & Hcl).
      { left. discriminate. }
      { right. simpl concat. rewrite app_nil_r.
        pose proof (@EncodedLen_mono (len r) 4).
        change (EncodedLen 4) with 8 in *. lia. }
      { exact Hfuel. }
      simpl concat in Hrun, Hsl. rewrite app_nil_r in Hrun, Hsl.
      revert Hrun. lens. intros Hrun.
      rewrite <- !app_assoc in Hrun, Hsl.
      exists (cur :: gs), buf', last', tail.
      split; [simpl; rewrite Hgs; reflexivity|].
      split; [constructor; assumption|].
      split.
      { constructor; [|assumption]. lens. change (len (bs "?=")) with 2.
        rewrite b64EncodeToString_len. lia. }
      split; [exact Hrun|]. split; [exact Hsl|].
      rewrite Hcl. cbn [map]. rewrite joinWords_cons.
      * rewrite <- !app_assoc. reflexivity.
      * destruct gs; [discriminate Hgs | discriminate].
Qed.

(** ** The words of [encodeWord] *)

Lemma encodeWord_groups (e : HeaderEncoder) (rs : list (list byte)) :
  splitWords e = true -> len (opening e) <= 61 ->
  Forall (fun r => wellFormedRune r = true) rs -> rs <> [] ->
  exists gs,
    concat gs = rs
    /\ Forall (fun g => g <> []) gs
    /\ Forall (fun g => len (encodedWord e (concat g)) <= 75) gs
    /\ encodeWord e (concat rs) = Done (joinWords (wordsOf e gs)).
Proof.
  intros Hsplit Hopen Hwf Hne. unfold encodeWord. cbv zeta.
  change (fst (openWord e [])) with (opening e).
  unfold wordsOf, encodedWord, payload, isB.
  rewrite Hsplit. cbn [negb orb].
  destruct (bytes_eqb (ToUpper (encoding e)) B).
  - unfold maxEncodedWordLen.
    destruct (Z.leb_spec (EncodedLen (len (concat rs)))
                         (75 - len (opening e) - 2)) as [Hfit|Hlong].
    + exists [rs]. simpl concat. rewrite app_nil_r.
      split; [reflexivity|].
      split; [constructor; [assumption | constructor]|].
      split.
      * constructor; [|constructor]. lens. change (len (bs "?=")) with 2.
        rewrite b64EncodeToString_len. lia.
      * unfold closeWord. cbn [map joinWords]. rewrite <- app_assoc.
        reflexivity.
    + destruct (@bLoop_groups e (75 - len (opening e) - 2) eq_refl)
        with (rest := rs) (cur := @nil (list byte)) (done := @nil byte)
             (W := @nil byte) (fuel := S (length (concat rs)))
        as (gs & buf' & last' & tail & Hgs & Hgne & Hglen & Hrun & Hsl & Hcl);
        try assumption.
      * lia.
      * right. assumption.
      * left. reflexivity.
      * unfold len. lia.
      * exists gs. split; [exact Hgs|]. split; [assumption|].
        split; [assumption|].
        change (bLoop (S (length (concat rs))) e (concat rs)
                  (75 - len (opening e) - 2) 0 0 0 (opening e)
                = Done (buf', last')) in Hrun.
        change (sliceFrom (concat rs) last' = Done tail) in Hsl.
        rewrite Hrun. bstep. rewrite Hsl. bstep. rewrite Hcl. reflexivity.
  - destruct (@qLoop_groups e) with (rest := rs) (cur := @nil (list byte))
      (pre := @nil byte) (W := @nil byte) (fuel := S (length (concat rs)))
      as (gs & buf' & Hgs & Hgne & Hglen & Hrun & Hcl); try assumption.
    + lia.
    + right. assumption.
    + simpl concat. change (len (writeQString [])) with 0. lia.
    + unfold len. lia.
    + exists gs. split; [exact Hgs|]. split; [assumption|].
      split; [assumption|].
      simpl concat in Hrun. change (writeQString []) with (@nil byte) in Hrun.
      change (len (@nil byte)) with 0 in Hrun.
      rewrite Z.add_0_r, app_nil_r in Hrun. simpl app in Hrun.
      rewrite Hrun. bstep. rewrite Hcl. reflexivity.
Qed.

Lemma encodeWord_one (e : HeaderEncoder) (s : list byte) :
  splitWords e = false -> encodeWord e s = Done (encodedWord e s).
Proof.
  intros Hsplit. unfold encodeWord. cbv zeta.
  change (fst (openWord e [])) with (opening e).
  unfold encodedWord, payload, isB. rewrite Hsplit. cbn [negb orb].
  destruct (bytes_eqb (ToUpper (encoding e)) B);
    unfold closeWord; rewrite <- app_assoc; reflexivity.
Qed.

Lemma bytes_eqb_eq (a b : list byte) : bytes_eqb a b = true -> a = b.
Proof.
  revert b. induction a as [|x a IH]; intros [|y b]; simpl;
    try discriminate; [reflexivity|].
  intros H. apply andb_true_iff in H. destruct H as [Hx Ha].
  apply beq_eq in Hx. subst y. f_equal. now apply IH.
Qed.

Lemma len_ToUpper (s : list byte) : len (ToUpper s) = len s.
Proof. unfold len, ToUpper. now rewrite length_map. Qed.

(** The encoders that [NewHeaderEncoder] makes *)
Lemma NewHeaderEncoder_inv (cs enc : list byte) (e : HeaderEncoder) :
  NewHeaderEncoder cs enc = (Some e, None) ->
  charset e = cs /\ encoding e = enc
  /\ splitWords e = bytes_eqb (ToUpper cs) (bs "UTF-8")
  /\ (ToUpper enc = Q \/ ToUpper enc = B)
  /\ len enc = 1.
Proof.
  unfold NewHeaderEncoder.
  destruct (bytes_eqb (ToUpper enc) Q) eqn:EQ_;
    destruct (bytes_eqb (ToUpper enc) B) eqn:EB_; simpl;
    try discriminate; intros H; inversion H; subst e; cbn;
    (split; [reflexivity|]); (split; [reflexivity|]);
    (split; [reflexivity|]).
  - apply bytes_eqb_eq in EQ_. split; [now left|].
    rewrite <- len_ToUpper, EQ_. reflexivity.
  - apply bytes_eqb_eq in EQ_. split; [now left|].
    rewrite <- len_ToUpper, EQ_. reflexivity.
  - apply bytes_eqb_eq in EB_. split; [now right|].
    rewrite <- len_ToUpper, EB_. reflexivity.
Qed.

Lemma utf8_opening (cs enc : list byte) (e : HeaderEncoder) :
  NewHeaderEncoder cs enc = (Some e, None) -> splitWords e = true ->
  len (opening e) = 10.
Proof.
  intros He Hs.
  destruct (NewHeaderEncoder_inv _ _ He) as (Hc & Hen & Hsp & _ & Hl).
  rewrite Hs in Hsp. symmetry in Hsp. apply bytes_eqb_eq in Hsp.
  rewrite len_opening, Hc, Hen, Hl, <- len_ToUpper, Hsp. reflexivity.
Qed.

Lemma needsEncoding_nonempty (rs : list (list byte)) :
  needsEncoding (concat rs) = true -> rs <> [].
Proof. intros H ->. discriminate. Qed.

(** C3 (amended): for an encoder of the UTF-8 charset made by
    [NewHeaderEncoder] (so one that splits words) and a string made of code
    points in the layout of UTF-8 that requires encoding, [EncodeHeader]
    returns encoded words joined by CRLF and a space; every word has at most
    75 bytes, and every word encodes a group of whole code points: the
    groups, in order, make up the string, so no code point is split between
    two words. *)
Theorem EncodeHeader_words_bounded (cs enc : list byte) (e : HeaderEncoder)
        (rs : list (list byte)) :
  NewHeaderEncoder cs enc = (Some e, None) ->
  splitWords e = true ->
  Forall (fun r => wellFormedRune r = true) rs ->
  needsEncoding (concat rs) = true ->
  exists gs,
    concat gs = rs
    /\ Forall (fun g => g <> []) gs
    /\ EncodeHeader e (concat rs) = Done (joinWords (wordsOf e gs))
    /\ Forall (fun w => len w <= 75) (wordsOf e gs).
Proof.
  intros He Hs Hwf Hneeds.
  destruct (@encodeWord_groups e rs Hs) as (gs & Hgs & Hgne & Hglen & Hrun).
  - rewrite (utf8_opening _ _ He Hs). lia.
  - exact Hwf.
  - now apply needsEncoding_nonempty.
  - exists gs. split; [exact Hgs|]. split; [exact Hgne|]. split.
    + unfold EncodeHeader. rewrite Hneeds. exact Hrun.
    + unfold wordsOf. apply Forall_map. exact Hglen.
Qed.

Lemma EncodeHeader_words_bounded_witness :
  exists gs,
    concat gs = repeat [xc3; xa9] 20
    /\ Forall (fun g => g <> []) gs
    /\ EncodeHeader StdHeaderEncoder (concat (repeat [xc3; xa9] 20))
       = Done (joinWords (wordsOf StdHeaderEncoder gs))
    /\ Forall (fun w => len w <= 75) (wordsOf StdHeaderEncoder gs).
Proof.
  apply (@EncodeHeader_words_bounded (bs "UTF-8") Q StdHeaderEncoder
           (repeat [xc3; xa9] 20)).
  - reflexivity.
  - reflexivity.
  - apply Forall_forall. intros r Hin. apply repeat_spec in Hin.
    subst r. reflexivity.
  - reflexivity.
Defined.

(** C3, as stated, fails for every charset other than UTF-8: the encoder
    then does not split, and a long string is encoded in one word of more
    than 75 bytes.  It also fails for the UTF-8 encoder on a run of more
    than 21 bytes of the form 10xxxxxx, which it takes for one code point. *)
Lemma EncodeHeader_word_over_75 :
  NewHeaderEncoder (bs "ISO-8859-1") Q
  = (Some (mkHeaderEncoder (bs "ISO-8859-1") Q false), None)
  /\ needsEncoding (times 30 xe9) = true
  /\ EncodeHeader (mkHeaderEncoder (bs "ISO-8859-1") Q false) (times 30 xe9)
     = Done (encodedWord (mkHeaderEncoder (bs "ISO-8859-1") Q false)
                         (times 30 xe9))
  /\ len (encodedWord (mkHeaderEncoder (bs "ISO-8859-1") Q false)
                      (times 30 xe9)) = 107
  /\ EncodeHeader StdHeaderEncoder (bs "a" ++ times 22 x80)
     = Done (joinWords [encodedWord StdHeaderEncoder (bs "a");
                        encodedWord StdHeaderEncoder (times 22 x80)])
  /\ len (encodedWord StdHeaderEncoder (times 22 x80)) = 78.
Proof. vm_compute. repeat split. Qed.

(* ------------------------------------------------------------------ *)
(** ** Base64: decoding the encoding *)

Lemma zrange_forallb (n : nat) (P : Z -> bool) :
  forallb P (zrange n) = true ->
  forall z, 0 <= z < Z.of_nat n -> P z = true.
Proof.
  intros H z Hz. rewrite forallb_forall in H. apply H.
  unfold zrange. apply in_map_iff. exists (Z.to_nat z).
  split; [lia|]. apply in_seq. lia.
Qed.

Lemma bitsOK_all (a : Z) : 0 <= a < 256 -> bitsOK a = true.
Proof.
  apply (zrange_forallb 256 bitsOK). vm_compute. reflexivity.
Qed.

Lemma firstOK_all (a y4 : Z) :
  0 <= a < 256 -> 0 <= y4 < 16 -> firstOK a y4 = true.
Proof.
  intros Ha Hy.
  apply (zrange_forallb 16 (fun y => firstOK a y)); [|exact Hy].
  revert a Ha.
  apply (zrange_forallb 256
           (fun a => forallb (fun y => firstOK a y) (zrange 16))).
  vm_compute. reflexivity.
Qed.

Lemma secondOK_all (x b y : Z) :
  0 <= x < 4 -> 0 <= b < 256 -> 0 <= y < 4 -> secondOK x b y = true.
Proof.
  intros Hx Hb Hy.
  apply (zrange_forallb 4 (fun y => secondOK x b y)); [|exact Hy].
  revert b Hb.
  apply (zrange_forallb 256
           (fun b => forallb (fun y => secondOK x b y) (zrange 4))).
  revert x Hx.
  apply (zrange_forallb 4
           (fun x => forallb
                       (fun b => forallb (fun y => secondOK x b y) (zrange 4))
                       (zrange 256))).
  vm_compute. reflexivity.
Qed.

Lemma thirdOK_all (x15 c : Z) :
  0 <= x15 < 16 -> 0 <= c < 256 -> thirdOK x15 c = true.
Proof.
  intros Hx Hc.
  apply (zrange_forallb 256 (fun c => thirdOK x15 c)); [|exact Hc].
  revert x15 Hx.
  apply (zrange_forallb 16
           (fun x => forallb (fun c => thirdOK x c) (zrange 256))).
  vm_compute. reflexivity.
Qed.

Lemma bval_range (a : byte) : 0 <= bval a < 256.
Proof. destruct a; vm_compute; split; congruence. Qed.

Lemma byte_of_Z_bval (a : byte) (v : Z) : v mod 256 = bval a -> byte_of_Z v = a.
Proof.
  intros H. unfold byte_of_Z. rewrite H. destruct a; reflexivity.
Qed.

Lemma b64value_b64char (v : Z) :
  0 <= v < 64 -> b64value (b64char v) = Some v.
Proof.
  intros Hv.
  assert (Hall : forallb (fun v => match b64value (b64char v) with
                                   | Some u => u =? v
                                   | None => false
                                   end) (zrange 64) = true)
    by (vm_compute; reflexivity).
  pose proof (@zrange_forallb 64 _ Hall v Hv) as H.
  cbv beta in H. destruct (b64value (b64char v)) as [u|]; [|discriminate].
  apply Z.eqb_eq in H. now subst u.
Qed.

Lemma b64char_plain (v : Z) : plainChar (b64char v) = true.
Proof.
  unfold b64char.
  destruct (nth_in_or_default (Z.to_nat v) b64alphabet x00) as [Hin| ->];
    [|reflexivity].
  assert (Hall : forallb plainChar b64alphabet = true) by reflexivity.
  rewrite forallb_forall in Hall. now apply Hall.
Qed.

Lemma list_ind3 {A} (P : list A -> Prop) :
  P [] -> (forall a, P [a]) -> (forall a b, P [a; b]) ->
  (forall a b c t, P t -> P (a :: b :: c :: t)) ->
  forall l, P l.
Proof.
  intros H0 H1 H2 H3.
  assert (H : forall l, P l /\ (forall a, P (a :: l))
                        /\ (forall a b, P (a :: b :: l))).
  { induction l as [|c l (I0 & I1 & I2)].
    - repeat split; auto.
    - split; [apply I1|]. split; [intros a; apply I2|].
      intros a b. apply H3. exact I0. }
  intros l. apply H.
Qed.

Lemma b64EncodeToString_plain (t : list byte) :
  forallb plainChar (b64EncodeToString t) = true.
Proof.
  induction t as [|a|a b|a b c t IH] using list_ind3.
  - reflexivity.
  - cbn [b64EncodeToString forallb]. rewrite !b64char_plain. reflexivity.
  - cbn [b64EncodeToString forallb]. rewrite !b64char_plain. reflexivity.
  - change (b64EncodeToString (a :: b :: c :: t))
      with ([ b64char (Z.shiftr (bval a) 2);
              b64char (Z.lor (Z.shiftl (Z.land (bval a) 3) 4)
                             (Z.shiftr (bval b) 4));
              b64char (Z.lor (Z.shiftl (Z.land (bval b) 15) 2)
                             (Z.shiftr (bval c) 6));
              b64char (Z.land (bval c) 63) ] ++ b64EncodeToString t).
    rewrite forallb_app, IH. cbn [forallb]. rewrite !b64char_plain.
    reflexivity.
Qed.

Ltac bool_hyps H :=
  repeat (apply andb_true_iff in H;
          let H' := fresh H in destruct H as [H H']).

(** The sextets of a group of bytes and the bytes they are decoded to *)
Lemma sextets_first (a : byte) (y4 : Z) :
  0 <= y4 < 16 ->
  let v1 := Z.shiftr (bval a) 2 in
  let v2 := Z.lor (Z.shiftl (Z.land (bval a) 3) 4) y4 in
  0 <= v1 < 64 /\ 0 <= v2 < 64
  /\ byte_of_Z (Z.lor (Z.shiftl v1 2) (Z.shiftr v2 4)) = a.
Proof.
  intros Hy v1 v2.
  pose proof (firstOK_all (bval_range a) Hy) as H.
  unfold firstOK, sextet in H. fold v1 v2 in H. bool_hyps H.
  split; [lia|]. split; [lia|].
  apply byte_of_Z_bval. now apply Z.eqb_eq.
Qed.

Lemma sextets_second (x : Z) (b : byte) (y : Z) :
  0 <= x < 4 -> 0 <= y < 4 ->
  let v2 := Z.lor (Z.shiftl x 4) (Z.shiftr (bval b) 4) in
  let v3 := Z.lor (Z.shiftl (Z.land (bval b) 15) 2) y in
  0 <= v3 < 64
  /\ byte_of_Z (Z.lor (Z.shiftl v2 4) (Z.shiftr v3 2)) = b.
Proof.
  intros Hx Hy v2 v3.
  pose proof (secondOK_all Hx (bval_range b) Hy) as H.
  unfold secondOK, sextet in H. fold v2 v3 in H. bool_hyps H.
  split; [lia|].
  apply byte_of_Z_bval. now apply Z.eqb_eq.
Qed.

Lemma sextets_third (x15 : Z) (c : byte) :
  0 <= x15 < 16 ->
  let v3 := Z.lor (Z.shiftl x15 2) (Z.shiftr (bval c) 6) in
  let v4 := Z.land (bval c) 63 in
  0 <= v4 < 64
  /\ byte_of_Z (Z.lor (Z.shiftl v3 6) v4) = c.
Proof.
  intros Hx v3 v4.
  pose proof (thirdOK_all Hx (bval_range c)) as H.
  unfold thirdOK, sextet in H. fold v3 v4 in H. bool_hyps H.
  split; [lia|].
  apply byte_of_Z_bval. now apply Z.eqb_eq.
Qed.

Lemma byte_bits (a : byte) :
  0 <= Z.land (bval a) 3 < 4 /\ 0 <= Z.shiftr (bval a) 6 < 4
  /\ 0 <= Z.shiftr (bval a) 4 < 16 /\ 0 <= Z.land (bval a) 15 < 16.
Proof.
  pose proof (bitsOK_all (bval_range a)) as H. unfold bitsOK in H.
  bool_hyps H. lia.
Qed.

Lemma b64value_EQ : b64value EQ = None.
Proof. reflexivity. Qed.

(** Decoding the quanta of an encoding gives the bytes back. *)
Lemma b64quanta_encode (t : list byte) :
  b64quanta (b64EncodeToString t) = Some t.
Proof.
  induction t as [|a|a b|a b c t IH] using list_ind3.
  - reflexivity.
  - destruct (byte_bits a) as (Ha3 & _).
    destruct (@sextets_first a 0) as (H1 & H2 & Hb1); [lia|].
    rewrite Z.lor_0_r in H2, Hb1.
    cbn [b64EncodeToString b64quanta].
    rewrite !b64value_b64char by assumption. rewrite b64value_EQ.
    cbv zeta. rewrite Hb1. reflexivity.
  - destruct (byte_bits a) as (Ha3 & _).
    destruct (byte_bits b) as (_ & _ & Hb4 & _).
    destruct (@sextets_first a (Z.shiftr (bval b) 4)) as (H1 & H2 & Hb1);
      [lia|].
    destruct (@sextets_second (Z.land (bval a) 3) b 0) as (H3 & Hb2);
      [lia | lia |].
    rewrite Z.lor_0_r in H3, Hb2.
    cbn [b64EncodeToString b64quanta].
    rewrite !b64value_b64char by assumption. rewrite b64value_EQ.
    cbv zeta. rewrite Hb1, Hb2. reflexivity.
  - destruct (byte_bits a) as (Ha3 & _).
    destruct (byte_bits b) as (_ & _ & Hb4 & Hb15).
    destruct (byte_bits c) as (_ & Hc6 & _).
    destruct (@sextets_first a (Z.shiftr (bval b) 4)) as (H1 & H2 & Hb1);
      [lia|].
    destruct (@sextets_second (Z.land (bval a) 3) b (Z.shiftr (bval c) 6))
      as (H3 & Hb2); [lia | lia |].
    destruct (@sextets_third (Z.land (bval b) 15) c) as (H4 & Hb3); [lia|].
    change (b64EncodeToString (a :: b :: c :: t))
      with (b64char (Z.shiftr (bval a) 2)
            :: b64char (Z.lor (Z.shiftl (Z.land (bval a) 3) 4)
                              (Z.shiftr (bval b) 4))
            :: b64char (Z.lor (Z.shiftl (Z.land (bval b) 15) 2)
                              (Z.shiftr (bval c) 6))
            :: b64char (Z.land (bval c) 63) :: b64EncodeToString t).
    cbn [b64quanta].
    rewrite !b64value_b64char by assumption.
    cbv zeta. rewrite IH, Hb1, Hb2, Hb3. reflexivity.
Qed.

Lemma filter_all {A} (p : A -> bool) (l : list A) :
  forallb p l = true -> filter p l = l.
Proof.
  induction l as [|x l IH]; [reflexivity|]. simpl.
  intros H. apply andb_true_iff in H. destruct H as [Hx Hl].
  rewrite Hx, (IH Hl). reflexivity.
Qed.

Lemma forallb_impl {A} (p q : A -> bool) (l : list A) :
  (forall x, p x = true -> q x = true) ->
  forallb p l = true -> forallb q l = true.
Proof.
  intros Hpq H. rewrite forallb_forall in *. intros x Hx.
  apply Hpq, H, Hx.
Qed.

(** [DecodeString] of [EncodeToString] *)
Lemma b64DecodeString_encode (t : list byte) :
  b64DecodeString (b64EncodeToString t) = (t, None).
Proof.
  unfold b64DecodeString. rewrite filter_all.
  - rewrite b64quanta_encode. reflexivity.
  - eapply forallb_impl; [|apply b64EncodeToString_plain].
    intros x Hx. unfold plainChar in Hx.
    apply andb_true_iff in Hx. apply Hx.
Qed.

(* ------------------------------------------------------------------ *)
(** ** Decoding the words of the encoder *)

Lemma qsafe_byte (c : byte) :
  isQSafe c = true ->
  beq c x5f = false /\ beq c EQ = false /\ isVchar c = true
  /\ beq c x3f = false.
Proof. each_byte c. Qed.

(** The text that the Q encoding of a text stands for *)
Lemma qValue_writeQString (t : list byte) :
  qValue (writeQString t) = Some t.
Proof.
  induction t as [|c t IH]; [reflexivity|].
  change (writeQString (c :: t)) with (writeQ c ++ writeQString t).
  unfold writeQ. destruct (beq c SP) eqn:Esp.
  - apply beq_eq in Esp. subst c. simpl. rewrite IH. reflexivity.
  - destruct (isQSafe c) eqn:Eq.
    + destruct (qsafe_byte _ Eq) as (H1 & H2 & H3 & _).
      simpl app. cbn [qValue]. rewrite H1, H2, H3, IH. reflexivity.
    + destruct (encodeByte_shape c) as (X & Y & -> & HX & HY & Hrd).
      simpl app. cbn [qValue].
      change (beq EQ x5f) with false. change (beq EQ EQ) with true.
      cbv iota. rewrite HX, HY, IH. cbn [andb option_map].
      pose proof (Hrd []) as H1.
      rewrite (@readHexByte_hex X Y [] HX HY) in H1.
      inversion H1 as [H2]. rewrite H2. reflexivity.
Qed.

Lemma writeQ_plain (c : byte) : forallb plainChar (writeQ c) = true.
Proof. each_byte c. Qed.

Lemma writeQString_plain (t : list byte) :
  forallb plainChar (writeQString t) = true.
Proof.
  induction t as [|c t IH]; [reflexivity|].
  change (writeQString (c :: t)) with (writeQ c ++ writeQString t).
  rewrite forallb_app, writeQ_plain, IH. reflexivity.
Qed.

Lemma writeQ_nonempty (c : byte) : writeQ c <> [].
Proof.
  unfold writeQ. destruct (beq c SP); [discriminate|].
  destruct (isQSafe c); discriminate.
Qed.

Lemma payload_plain (e : HeaderEncoder) (t : list byte) :
  forallb plainChar (payload e t) = true.
Proof.
  unfold payload. destruct (isB e);
    [apply b64EncodeToString_plain | apply writeQString_plain].
Qed.

Lemma payload_nonempty (e : HeaderEncoder) (t : list byte) :
  t <> [] -> payload e t <> [].
Proof.
  intros Ht. destruct t as [|c t]; [congruence|]. unfold payload.
  destruct (isB e).
  - destruct t as [|b [|d t]]; discriminate.
  - change (writeQString (c :: t)) with (writeQ c ++ writeQString t).
    pose proof (writeQ_nonempty c). destruct (writeQ c); [congruence|].
    discriminate.
Qed.

Lemma span_app (p : byte -> bool) (a b : list byte) :
  forallb p a = true ->
  match b with [] => True | d :: _ => p d = false end ->
  span p (a ++ b) = (a, b).
Proof.
  intros Ha Hb. induction a as [|c a IH].
  - destruct b as [|d b]; [reflexivity|]. simpl. rewrite Hb. reflexivity.
  - simpl in Ha. apply andb_true_iff in Ha. destruct Ha as [Hc Ha].
    simpl. rewrite Hc, (IH Ha). reflexivity.
Qed.

Lemma wordChar_plain (c : byte) : isWordChar c = true -> plainChar c = true.
Proof. each_byte c. Qed.

Lemma encoding_byte (x : byte) :
  beq (upperByte x) x51 || beq (upperByte x) x42 = true ->
  beq x x62 || beq x x42 || beq x x71 || beq x x51 = true
  /\ beq x x3f = false.
Proof. each_byte x. Qed.

Lemma plain_not_question (l : list byte) :
  forallb plainChar l = true ->
  forallb (fun c => negb (beq c x3f)) l = true.
Proof.
  apply forallb_impl. intros c Hc. unfold plainChar in Hc.
  apply andb_true_iff in Hc. apply Hc.
Qed.

(** The expression [rfc2047] matches an encoded word at the start of a
    text, and nothing more. *)
Lemma FindString_word (cs : list byte) (x : byte) (pl R : list byte) :
  wordCharset cs = true ->
  beq x x62 || beq x x42 || beq x x71 || beq x x51 = true ->
  pl <> [] -> forallb plainChar pl = true ->
  FindString (wordBytes cs x pl ++ R) = wordBytes cs x pl.
Proof.
  intros Hcs Hx Hpl Hplain. unfold wordCharset in Hcs.
  apply andb_true_iff in Hcs. destruct Hcs as [Hne Hcs].
  unfold wordBytes. rewrite <- ?app_assoc. simpl app.
  unfold FindString. change (beq EQ EQ && beq x3f x3f) with true. cbv iota.
  rewrite (@span_app isWordChar cs) by (assumption || reflexivity).
  destruct cs as [|c0 cs]; [discriminate|].
  change (beq x3f x3f) with true. rewrite Hx. cbn [andb].
  rewrite (@span_app (fun c => negb (beq c x3f)) pl)
    by (try reflexivity; now apply plain_not_question).
  destruct pl as [|p0 pl]; [congruence|].
  change (beq x3f x3f && beq EQ EQ) with true. cbv iota.
  reflexivity.
Qed.

Lemma Split_nonempty (s : list byte) (sep : byte) : Split s sep <> [].
Proof.
  induction s as [|c s IH]; simpl; [discriminate|].
  destruct (beq c sep); [discriminate|].
  destruct (Split s sep); [congruence | discriminate].
Qed.

Lemma Split_sep (a b : list byte) (sep : byte) :
  forallb (fun c => negb (beq c sep)) a = true ->
  Split (a ++ sep :: b) sep = a :: Split b sep.
Proof.
  intros Ha. induction a as [|c a IH].
  - simpl. rewrite beq_refl. reflexivity.
  - simpl in Ha. apply andb_true_iff in Ha. destruct Ha as [Hc Ha].
    apply negb_true_iff in Hc. simpl. rewrite Hc, (IH Ha). reflexivity.
Qed.

Lemma Split_none (a : list byte) (sep : byte) :
  forallb (fun c => negb (beq c sep)) a = true -> Split a sep = [a].
Proof.
  intros Ha. induction a as [|c a IH]; [reflexivity|].
  simpl in Ha. apply andb_true_iff in Ha. destruct Ha as [Hc Ha].
  apply negb_true_iff in Hc. simpl. rewrite Hc, (IH Ha). reflexivity.
Qed.

Lemma Split_word (cs : list byte) (x : byte) (pl : list byte) :
  forallb isWordChar cs = true -> beq x x3f = false ->
  forallb plainChar pl = true ->
  Split (wordBytes cs x pl) x3f = [[EQ]; cs; [x]; pl; [EQ]].
Proof.
  intros Hcs Hx Hpl. unfold wordBytes.
  change ([EQ; x3f] ++ cs ++ [x3f; x; x3f] ++ pl ++ [x3f; EQ])
    with ([EQ] ++ x3f :: cs ++ x3f :: [x] ++ x3f :: pl ++ x3f :: [EQ]).
  rewrite Split_sep by reflexivity.
  rewrite Split_sep
    by (apply plain_not_question; eapply forallb_impl;
        [apply wordChar_plain | exact Hcs]).
  rewrite Split_sep by (simpl; rewrite Hx; reflexivity).
  rewrite Split_sep by (now apply plain_not_question).
  rewrite Split_none by reflexivity. reflexivity.
Qed.

Lemma encodedWord_bytes (e : HeaderEncoder) (x : byte) (t : list byte) :
  encoding e = [x] ->
  encodedWord e t = wordBytes (charset e) x (payload e t).
Proof.
  intros He. unfold encodedWord, opening, wordBytes. rewrite He.
  rewrite <- !app_assoc. reflexivity.
Qed.

(** [decodeWord] on a word of the encoder *)
Lemma decodeWord_encodedWord (e : HeaderEncoder) (x : byte) (t : list byte) :
  encoding e = [x] ->
  forallb isWordChar (charset e) = true ->
  beq (upperByte x) x51 || beq (upperByte x) x42 = true ->
  decodeWord (encodedWord e t) = Done (t, charset e, None).
Proof.
  intros He Hcs Hx.
  destruct (encoding_byte _ Hx) as [_ Hq].
  rewrite (@encodedWord_bytes e x t He). unfold decodeWord.
  rewrite Split_word by (assumption || apply payload_plain).
  change (negb (bytes_eqb [EQ] [EQ])) with false.
  change (len [x] =? 1) with true. cbn [negb orb].
  unfold payload, isB. rewrite He.
  destruct (bytes_eqb (ToUpper [x]) B) eqn:EB.
  - rewrite b64DecodeString_encode. reflexivity.
  - assert (EQ' : bytes_eqb (ToUpper [x]) Q = true).
    { revert EB Hx. simpl. rewrite !andb_true_r.
      intros ->. rewrite orb_false_r. exact (fun H => H). }
    rewrite EQ'. rewrite (qDecode_text _ (qValue_writeQString t)).
    bstep. reflexivity.
Qed.

Arguments wordLoop : simpl never.
Arguments headerLoop : simpl never.
Arguments FindString : simpl never.
Arguments decodeWord : simpl never.

Lemma wordLoop_step fuel (word : list byte) (st : hstate) :
  wordLoop (S fuel) word st =
  '(dec, wordCharset, err) <- decodeWord word ;;
  match err with
  | Some _ =>
    rest <- sliceFrom (h_header st) (len word) ;;
    Done (inl (mkH rest (h_buf st ++ word) (h_charset st)))
  | None =>
    if negb (isNil (h_charset st))
       && negb (bytes_eqb (h_charset st) wordCharset)
    then Done (inr (ErrMultipleCharsets (h_charset st) wordCharset))
    else
      let cs := if isNil (h_charset st) then wordCharset
                else h_charset st in
      rest <- sliceFrom (h_header st) (len word) ;;
      let st1 := mkH rest (h_buf st ++ dec) cs in
      let j := countLWS rest in
      if j =? 0 then Done (inl st1)
      else
        after <- sliceFrom rest j ;;
        let word := FindString after in
        if isNil word then Done (inl st1)
        else wordLoop fuel word (mkH after (h_buf st1) cs)
  end.
Proof. reflexivity. Qed.

Lemma headerLoop_step fuel (st : hstate) :
  headerLoop (S fuel) st =
  let i := IndexByte (h_header st) EQ in
  if i =? -1 then Done (h_buf st ++ h_header st, h_charset st, None)
  else
    st <- (if 0 <? i then
             pre <- slice (h_header st) 0 i ;;
             rest <- sliceFrom (h_header st) i ;;
             Done (mkH rest (h_buf st ++ pre) (h_charset st))
           else Done st) ;;
    let word := FindString (h_header st) in
    if isNil word then
      rest <- sliceFrom (h_header st) 1 ;;
      headerLoop fuel (mkH rest (h_buf st ++ [EQ]) (h_charset st))
    else
      r <- wordLoop (S (length (h_header st))) word st ;;
      match r with
      | inr e => Done ([], [], Some e)
      | inl st => headerLoop fuel st
      end.
Proof. reflexivity. Qed.

Lemma bytes_eqb_refl (a : list byte) : bytes_eqb a a = true.
Proof.
  induction a as [|x a IH]; [reflexivity|]. simpl.
  rewrite beq_refl, IH. reflexivity.
Qed.

Lemma encodedWord_head (e : HeaderEncoder) (t : list byte) :
  exists w, encodedWord e t = EQ :: x3f :: w.
Proof. eexists. reflexivity. Qed.

Lemma joinWords_head (e : HeaderEncoder) (t : list byte)
      (ts : list (list byte)) :
  exists R,
    joinWords (map (encodedWord e) (t :: ts)) = encodedWord e t ++ R
    /\ (ts = [] -> R = [])
    /\ (ts <> [] ->
        R = [CR; LF; SP] ++ joinWords (map (encodedWord e) ts)).
Proof.
  destruct ts as [|t' ts].
  - exists []. split; [simpl; now rewrite app_nil_r|].
    split; [reflexivity | congruence].
  - eexists. split; [reflexivity|]. split; [discriminate | reflexivity].
Qed.

(** The inner loop of [DecodeHeader] over the words of the encoder *)
Lemma wordLoop_words (e : HeaderEncoder) (x : byte) :
  encoding e = [x] ->
  wordCharset (charset e) = true ->
  beq (upperByte x) x51 || beq (upperByte x) x42 = true ->
  forall (ts : list (list byte)) (t buf cs0 : list byte) (fuel : nat),
    Forall (fun t => t <> []) (t :: ts) ->
    (length ts < fuel)%nat ->
    cs0 = [] \/ cs0 = charset e ->
    wordLoop fuel (encodedWord e t)
             (mkH (joinWords (map (encodedWord e) (t :: ts))) buf cs0)
    = Done (inl (mkH [] (buf ++ t ++ concat ts) (charset e))).
Proof.
  intros He Hcs Hx.
  assert (Hcs' := Hcs). unfold wordCharset in Hcs'.
  apply andb_true_iff in Hcs'. destruct Hcs' as [Hne Hwc].
  destruct (encoding_byte _ Hx) as [Hx4 _].
  induction ts as [|t' ts IH]; intros t buf cs0 fuel Hts Hf Hcs0;
    (destruct fuel as [|fuel]; [lia|]);
    rewrite wordLoop_step, (@decodeWord_encodedWord e x t He Hwc Hx); bstep;
    cbn [h_charset h_header h_buf];
    assert (Hsame : negb (isNil cs0) && negb (bytes_eqb cs0 (charset e))
                    = false)
      by (destruct Hcs0 as [->| ->];
          [reflexivity | rewrite bytes_eqb_refl; apply andb_false_r]);
    rewrite Hsame; cbv zeta;
    assert (Hcase : (if isNil cs0 then charset e else cs0) = charset e)
      by (destruct Hcs0 as [->| ->];
          [reflexivity | destruct (charset e); [discriminate|reflexivity]]);
    rewrite Hcase.
  - simpl map. cbn [joinWords].
    rewrite <- (app_nil_r (encodedWord e t)) at 1.
    rewrite slice_app_suffix. bstep.
    change (countLWS []) with 0. change (0 =? 0) with true. cbv iota.
    simpl concat. rewrite app_nil_r. reflexivity.
  - destruct (joinWords_head e t (t' :: ts)) as (R & -> & _ & HR).
    rewrite (HR ltac:(discriminate)).
    rewrite slice_app_suffix. bstep.
    destruct (joinWords_head e t' ts) as (R' & HJ & _).
    destruct (encodedWord_head e t') as (w' & Hw').
    assert (Hcount : countLWS ([CR; LF; SP]
                               ++ joinWords (map (encodedWord e) (t' :: ts)))
                     = 3).
    { rewrite HJ, Hw'. reflexivity. }
    rewrite Hcount. change (3 =? 0) with false. cbv iota.
    change (sliceFrom ([CR; LF; SP]
                       ++ joinWords (map (encodedWord e) (t' :: ts))) 3)
      with (sliceFrom ([CR; LF; SP]
                       ++ joinWords (map (encodedWord e) (t' :: ts)))
                      (len [CR; LF; SP])).
    rewrite slice_app_suffix. bstep.
    inversion Hts as [|? ? Ht Hts']; subst.
    inversion Hts' as [|? ? Ht' Hts'']; subst.
    assert (Hfind : FindString (joinWords (map (encodedWord e) (t' :: ts)))
                    = encodedWord e t').
    { rewrite HJ. rewrite (@encodedWord_bytes e x t' He).
      apply FindString_word; try assumption.
      - now apply payload_nonempty.
      - apply payload_plain. }
    rewrite Hfind. rewrite Hw' at 1. cbn [isNil].
    rewrite IH; [|assumption | simpl length in Hf; lia | now right].
    simpl concat. rewrite <- !app_assoc. reflexivity.
Qed.

Lemma joinWords_longer (e : HeaderEncoder) (ts : list (list byte)) :
  forall t,
    (length ts < length (joinWords (map (encodedWord e) (t :: ts))))%nat.
Proof.
  induction ts as [|t' ts IH]; intros t.
  - destruct (encodedWord_head e t) as (w & Hw). simpl map. cbn [joinWords].
    rewrite Hw. simpl length. lia.
  - destruct (joinWords_head e t (t' :: ts)) as (R & -> & _ & HR).
    rewrite (HR ltac:(discriminate)). rewrite !length_app.
    specialize (IH t'). simpl length in *. lia.
Qed.

(** [DecodeHeader] on the words of the encoder, joined by CRLF and a space *)
Lemma DecodeHeader_words (e : HeaderEncoder) (x : byte)
      (t : list byte) (ts : list (list byte)) :
  encoding e = [x] ->
  wordCharset (charset e) = true ->
  beq (upperByte x) x51 || beq (upperByte x) x42 = true ->
  Forall (fun t => t <> []) (t :: ts) ->
  DecodeHeader (joinWords (map (encodedWord e) (t :: ts)))
  = Done (t ++ concat ts, charset e, None).
Proof.
  intros He Hcs Hx Hts.
  assert (Hcs' := Hcs). unfold wordCharset in Hcs'.
  apply andb_true_iff in Hcs'. destruct Hcs' as [Hne Hwc].
  destruct (encoding_byte _ Hx) as [Hx4 _].
  unfold DecodeHeader.
  set (header := joinWords (map (encodedWord e) (t :: ts))).
  destruct (joinWords_head e t ts) as (R & HJ & _).
  destruct (encodedWord_head e t) as (w & Hw).
  assert (Hidx : IndexByte header EQ = 0).
  { unfold header. rewrite HJ, Hw. reflexivity. }
  assert (Hfind : FindString header = encodedWord e t).
  { unfold header. rewrite HJ. rewrite (@encodedWord_bytes e x t He).
    inversion Hts; subst.
    apply FindString_word; try assumption.
    - now apply payload_nonempty.
    - apply payload_plain. }
  rewrite headerLoop_step. cbn [h_header h_buf h_charset]. cbv zeta.
  rewrite Hidx. change (0 =? -1) with false. change (0 <? 0) with false.
  cbv iota. bstep. cbn [h_header h_buf h_charset].
  rewrite Hfind. rewrite Hw at 1. cbn [isNil].
  unfold header at 2.
  rewrite (@wordLoop_words e x He Hcs Hx ts t [] []);
    [|assumption | pose proof (joinWords_longer e ts t); subst header; lia
     |now left].
  bstep.
  assert (Hlen : exists n, length header = S n).
  { unfold header. rewrite HJ, Hw. simpl length. eexists. reflexivity. }
  destruct Hlen as (n & ->).
  rewrite headerLoop_step. cbn [h_header h_buf h_charset]. cbv zeta.
  change (IndexByte [] EQ =? -1) with true. cbv iota.
  rewrite app_nil_r. reflexivity.
Qed.

Lemma Forall_concat_inv {A} (P : A -> Prop) (ls : list (list A)) :
  Forall P (concat ls) -> Forall (Forall P) ls.
Proof.
  induction ls as [|l ls IH]; intros H; [constructor|].
  simpl in H. apply Forall_app in H. destruct H as [Hl Hls].
  constructor; [assumption | now apply IH].
Qed.

Lemma concat_map_concat {A} (gs : list (list (list A))) :
  concat (map (@concat A) gs) = concat (concat gs).
Proof.
  induction gs as [|g gs IH]; [reflexivity|].
  simpl. rewrite concat_app, IH. reflexivity.
Qed.

Lemma group_text_nonempty (g : list (list byte)) :
  g <> [] -> Forall (fun r => wellFormedRune r = true) g -> concat g <> [].
Proof.
  intros Hg Hwf. destruct g as [|r g]; [congruence|].
  inversion Hwf as [|? ? Hr _]; subst.
  destruct r; [discriminate|]. discriminate.
Qed.

(** C5 (amended): for an encoder made by [NewHeaderEncoder] whose charset
    name consists of letters, digits, underscores and hyphens, and a string
    that requires encoding and, when the charset is UTF-8, is made of code
    points in the layout of UTF-8, [DecodeHeader] applied to the output of
    [EncodeHeader] returns the string, the charset and no error. *)
Theorem DecodeHeader_EncodeHeader (cs enc : list byte) (e : HeaderEncoder)
        (rs : list (list byte)) :
  NewHeaderEncoder cs enc = (Some e, None) ->
  wordCharset cs = true ->
  (splitWords e = true -> Forall (fun r => wellFormedRune r = true) rs) ->
  needsEncoding (concat rs) = true ->
  exists out,
    EncodeHeader e (concat rs) = Done out
    /\ DecodeHeader out = Done (concat rs, cs, None).
Proof.
  intros He Hcs Hwf Hneeds.
  destruct (NewHeaderEncoder_inv _ _ He) as (Hc & Hen & Hsp & Hup & Hl).
  assert (Hx : exists x, enc = [x]
                         /\ beq (upperByte x) x51 || beq (upperByte x) x42
                            = true).
  { destruct enc as [|x [|y enc]];
      [discriminate Hl | |
       exfalso; revert Hl; lens; pose proof (len_nonneg enc); lia].
    exists x. split; [reflexivity|].
    destruct Hup as [Hu|Hu]; simpl in Hu; inversion Hu as [Hu'];
      rewrite Hu'; reflexivity. }
  destruct Hx as (x & -> & Hx).
  rewrite <- Hc in Hcs.
  unfold EncodeHeader. rewrite Hneeds. cbn [negb].
  destruct (splitWords e) eqn:Hs.
  - specialize (Hwf eq_refl).
    destruct (@encodeWord_groups e rs Hs) as (gs & Hgs & Hgne & _ & Hrun).
    + rewrite (utf8_opening _ _ He Hs). lia.
    + exact Hwf.
    + now apply needsEncoding_nonempty.
    + exists (joinWords (wordsOf e gs)). split; [exact Hrun|].
      unfold wordsOf. rewrite <- (map_map (@concat byte) (encodedWord e)).
      assert (Hts : Forall (fun t => t <> []) (map (@concat byte) gs)).
      { apply Forall_map. rewrite <- Hgs in Hwf.
        apply Forall_concat_inv in Hwf.
        rewrite Forall_forall in *. intros g Hg.
        apply group_text_nonempty; [now apply Hgne | now apply Hwf]. }
      assert (Htext : concat (map (@concat byte) gs) = concat rs).
      { rewrite concat_map_concat, Hgs. reflexivity. }
      destruct (map (@concat byte) gs) as [|t ts] eqn:Em.
      { exfalso. destruct gs; [|discriminate Em].
        simpl in Hgs. subst rs. discriminate Hneeds. }
      rewrite (@DecodeHeader_words e x t ts Hen Hcs Hx Hts).
      change (t ++ concat ts) with (concat (t :: ts)).
      rewrite Htext, Hc. reflexivity.
  - exists (encodedWord e (concat rs)).
    split; [now apply encodeWord_one|].
    change (encodedWord e (concat rs))
      with (joinWords (map (encodedWord e) [concat rs])).
    rewrite (@DecodeHeader_words e x (concat rs) [] Hen Hcs Hx).
    + simpl concat. rewrite app_nil_r, Hc. reflexivity.
    + constructor; [|constructor]. intros E. rewrite E in Hneeds.
      discriminate Hneeds.
Qed.

Lemma DecodeHeader_EncodeHeader_witness :
  exists out,
    EncodeHeader StdHeaderEncoder
      (concat [[x43]; [x61]; [x66]; [xc3; xa9]; [SP]; [SP]]) = Done out
    /\ DecodeHeader out
       = Done (concat [[x43]; [x61]; [x66]; [xc3; xa9]; [SP]; [SP]],
               bs "UTF-8", None).
Proof.
  apply (@DecodeHeader_EncodeHeader (bs "UTF-8") Q StdHeaderEncoder
           [[x43]; [x61]; [x66]; [xc3; xa9]; [SP]; [SP]]).
  - reflexivity.
  - reflexivity.
  - intros _. repeat constructor.
  - reflexivity.
Defined.

(** C5, as stated, fails.  On a string that starts with 22 bytes of the form
    10xxxxxx the UTF-8 encoder emits an empty first word, which
    [DecodeHeader] does not take for an encoded word and copies, with the
    fold that follows it.  And a charset name with a character other than
    letters, digits, underscore and hyphen, as the registered name
    ISO_8859-1:1987 has, is not matched by the expression [rfc2047]:
    [DecodeHeader] returns the encoded word as it is. *)
Lemma DecodeHeader_EncodeHeader_differs :
  (exists out,
     EncodeHeader StdHeaderEncoder (times 22 x80 ++ bs "a ") = Done out
     /\ DecodeHeader out
        = Done (bs "=?UTF-8?Q??=" ++ [CR; LF; SP] ++ times 22 x80 ++ bs "a ",
                bs "UTF-8", None))
  /\ NewHeaderEncoder (bs "ISO_8859-1:1987") Q
     = (Some (mkHeaderEncoder (bs "ISO_8859-1:1987") Q false), None)
  /\ EncodeHeader (mkHeaderEncoder (bs "ISO_8859-1:1987") Q false)
                  (bs "caf" ++ [xe9; SP])
     = Done (bs "=?ISO_8859-1:1987?Q?caf=E9_?=")
  /\ DecodeHeader (bs "=?ISO_8859-1:1987?Q?caf=E9_?=")
     = Done (bs "=?ISO_8859-1:1987?Q?caf=E9_?=", [], None).
Proof.
  split.
  - eexists. split; vm_compute; reflexivity.
  - vm_compute. repeat split.
Qed.

(** ** More on the codec *)

(** [Encode] never shortens its input and at most triples it: the bound of
    [MaxEncodedLen] holds, and every input byte gives at least one byte. *)
Theorem Encode_length (src : list byte) :
  len src <= len (Encode src) <= MaxEncodedLen (len src).
Proof.
  unfold MaxEncodedLen. induction src as [|c rest IH].
  - rewrite Encode_nil. change (len (@nil byte)) with 0. lia.
  - rewrite Encode_cons. lens.
    destruct (encUnit_len c rest) as [(-> & _)|(-> & _)]; lia.
Qed.

Lemma hex_printable (c : byte) :
  isHexDigit c = true -> isVchar c = true.
Proof. each_byte c. Qed.

Lemma literal_printable (c : byte) :
  ((32 <=? bval c) && (bval c <=? 126)) || beq c LF || beq c CR || beq c TAB
  = true ->
  isVchar c || isWSP c || isNewline c = true.
Proof. each_byte c. Qed.

(** The output of [Encode] is made of visible ASCII characters, spaces,
    tabs, carriage returns and line feeds only, whatever the input. *)
Theorem Encode_printable (src : list byte) :
  forallb (fun c => isVchar c || isWSP c || isNewline c) (Encode src) = true.
Proof.
  induction src as [|c rest IH]; [reflexivity|].
  rewrite Encode_cons, forallb_app, IH, andb_true_r.
  destruct (encUnit_cases c rest) as [(-> & _ & _ & R)|(-> & _)].
  - cbn [forallb]. now rewrite (literal_printable _ R).
  - destruct (encodeByte_shape c) as (X & Y & -> & HX & HY & _).
    cbn [forallb].
    now rewrite (hex_printable _ HX), (hex_printable _ HY).
Qed.

(** In the output of [Encode] no space or tab is the last byte or stands
    before a line feed or before CR LF: a space or tab at the end of a line
    of the input is written as an escape. *)
Theorem Encode_no_trailing_space (src A B : list byte) (c : byte) :
  Encode src = A ++ c :: B -> isWSP c = true -> eolAhead B = false.
Proof.
  revert A. induction src as [|d rest IH]; intros A HE HW.
  - rewrite Encode_nil in HE. now destruct A.
  - rewrite Encode_cons in HE.
    destruct (ahead_Encode rest) as [He _].
    destruct (encUnit_cases d rest) as [(E & _ & W & _)|(E & _)];
      rewrite E in HE.
    + destruct A as [|a A]; simpl in HE.
      * injection HE as -> <-. rewrite He. now apply W.
      * injection HE as _ HE. now apply (IH A).
    + destruct (encodeByte_shape d) as (X & Y & EX & HX & HY & _).
      rewrite EX in HE.
      destruct (hex_byte _ HX) as (WX & _ & CX & LX).
      destruct (hex_byte _ HY) as (WY & _).
      destruct A as [|a0 [|a1 [|a2 A]]]; simpl in HE.
      * injection HE as <- <-. discriminate HW.
      * injection HE as _ <- <-. congruence.
      * injection HE as _ _ <- <-. congruence.
      * injection HE as _ _ _ HE. now apply (IH A).
Qed.

Lemma Encode_no_trailing_space_witness :
  Encode (bs "a b") = bs "a" ++ SP :: bs "b" /\ eolAhead (bs "b") = false.
Proof.
  split; [reflexivity|].
  apply (@Encode_no_trailing_space (bs "a b") (bs "a") (bs "b") SP);
    reflexivity.
Defined.

(** The digits [encodeByte] writes after the equals sign are read back by
    [readHexByte] as the byte that was encoded, whatever follows them. *)
Theorem readHexByte_encodeByte (b : byte) (t : list byte) :
  exists X Y, encodeByte b = [EQ; X; Y]
              /\ readHexByte (X :: Y :: t) = Done (b, None).
Proof.
  destruct (encodeByte_shape b) as (X & Y & E & _ & _ & R).
  exists X, Y. split; [exact E | apply R].
Qed.

Lemma readHexByte_two (X Y : byte) (t : list byte) :
  exists b e, readHexByte (X :: Y :: t) = Done (b, e).
Proof.
  unfold readHexByte. rewrite get_head. bstep.
  destruct (fromHex X) as [hb [e|]]; [eauto|].
  change (get (X :: Y :: t) 1) with (Done Y). bstep.
  destruct (fromHex Y) as [lb [e|]]; eauto.
Qed.

Lemma decodeLoop_returns (fuel : nat) :
  forall (src : list byte) (i : Z) (st : dstate) (dst : list byte),
    0 <= i -> Z.max 0 (len src - i) < Z.of_nat fuel ->
    exists d e, decodeLoop fuel src i st dst = Done (d, e)
                /\ len d <= len dst + Z.max 0 (len src - i).
Proof.
  induction fuel as [|fuel IH]; intros src i st dst Hi Hf.
  { lia. }
  rewrite decodeLoop_eq.
  destruct (Z.leb_spec (len src) i) as [Hend|Hin].
  { exists dst, None. split; [reflexivity | lia]. }
  destruct (@get_in_range _ src i (conj Hi Hin)) as (c & Hc).
  destruct (@get_split _ _ _ _ Hc) as (P & R & -> & HP).
  assert (Hst : exists st',
    (if i =? d_eol st then scanLine (P ++ c :: R) i (d_err st) else Done st)
    = Done st').
  { destruct (i =? d_eol st); [|eauto]. rewrite <- HP.
    destruct (@scanLine_spec P (c :: R) (d_err st)) as (st' & H & _);
      [discriminate | eauto]. }
  destruct Hst as (st' & ->). bstep.
  destruct ((0 <? d_trimLen st')
            && (i =? d_eol st' - d_trimLen st' - d_eolLen st')) eqn:Hskip.
  - apply andb_prop in Hskip. destruct Hskip as [Ht _].
    apply Z.ltb_lt in Ht.
    destruct (d_err st') as [e|].
    + exists dst, (Some e). split; [reflexivity | lia].
    + destruct (IH (P ++ c :: R) (i + (d_trimLen st' - 1) + 1) st' dst)
        as (d & e & -> & Hd); [lia | lia |].
      exists d, e. split; [reflexivity | lia].
  - rewrite Hc. bstep.
    destruct (beq c EQ).
    + destruct (Z.leb_spec (len (P ++ c :: R)) (i + 2)) as [Hshort|Hlong].
      { exists dst, (Some ErrUnexpectedEOF). split; [reflexivity | lia]. }
      destruct R as [|X [|Y R]];
        [revert Hlong; lens; lia | revert Hlong; lens; lia |].
      replace (P ++ c :: X :: Y :: R) with ((P ++ [c]) ++ X :: Y :: R)
        by (rewrite <- app_assoc; reflexivity).
      replace (i + 1) with (len (P ++ [c])) by (lens; lia).
      rewrite slice_app_suffix. bstep.
      destruct (readHexByte_two X Y R) as (b & e & ->). bstep.
      destruct e as [e|].
      * exists dst, (Some e). split; [reflexivity | lia].
      * destruct (IH ((P ++ [c]) ++ X :: Y :: R) (len (P ++ [c]) - 1 + 2 + 1)
                     st' (dst ++ [b]))
          as (d & e & H & Hd).
        { revert Hf. lens. lia. }
        { revert Hf Hlong. lens. lia. }
        replace (len (P ++ [c]) - 1 + 2 + 1) with (i + 2 + 1) in H
          by (lens; lia).
        replace (len (P ++ [c])) with (i + 1) by (lens; lia).
        rewrite H.
        exists d, e. split; [reflexivity|]. revert Hd. lens.
        pose proof (len_nonneg R). lia.
    + destruct (((32 <=? bval c) && (bval c <=? 126))
                || beq c LF || beq c CR || beq c TAB).
      * destruct (IH (P ++ c :: R) (i + 1) st' (dst ++ [c]))
          as (d & e & -> & Hd); [lia | lia |].
        exists d, e. split; [reflexivity|]. revert Hd Hin. lens.
        pose proof (len_nonneg R). lia.
      * exists dst, (Some (ErrInvalidUnescaped c)).
        split; [reflexivity | lia].
Qed.

(** [Decode] returns on every input: no index is out of range, and the
    decoded bytes are never more than [MaxDecodedLen] of the input
    length. *)
Theorem Decode_returns (src : list byte) :
  exists dst err,
    Decode src = Done (dst, err) /\ len dst <= MaxDecodedLen (len src).
Proof.
  unfold Decode, MaxDecodedLen.
  destruct (@decodeLoop_returns (S (length src)) src 0 (mkD 0 0 0 None) [])
    as (d & e & H & Hd); [lia | unfold len; lia |].
  exists d, e. split; [exact H|].
  pose proof (len_nonneg src). change (len (@nil byte)) with 0 in Hd. lia.
Qed.

(** ** [Decode] after the encoder and the line writer *)

Lemma noDanglingCR_app (y z : list byte) :
  noDanglingCR (y ++ z) = true -> noDanglingCR z = true.
Proof.
  induction y as [|c y IH]; [auto|]. simpl. intros H.
  apply andb_prop in H. tauto.
Qed.

Lemma unitCut_tail (a : byte) (d rest : list byte) :
  unitCut (a :: d) rest -> unitCut d rest.
Proof.
  unfold unitCut. destruct d as [|b d] using rev_ind.
  { intros _. right. left. split; reflexivity. }
  clear IHd.
  change (a :: d ++ [b]) with ((a :: d) ++ [b]). rewrite !rev_app_distr.
  simpl rev. cbn [app tl headIs].
  intros [H|[[H1 H2]|H]]; [now left | | now right; right].
  right. left. split; [exact H1|].
  destruct (rev d); [reflexivity | exact H2].
Qed.

Lemma units_cut (x : list byte) :
  forall d rest,
    Encode x = d ++ rest -> unitCut d rest ->
    exists y z, x = y ++ z /\ d = encUnits y z /\ rest = Encode z.
Proof.
  induction x as [|c x IH]; intros d rest HE HC.
  - rewrite Encode_nil in HE. symmetry in HE.
    apply app_eq_nil in HE. destruct HE as [-> ->].
    exists [], []. auto.
  - destruct d as [|a d].
    { exists [], (c :: x). auto. }
    rewrite Encode_cons in HE.
    assert (Hstep : forall d', Encode x = d' ++ rest -> unitCut d' rest ->
              exists y z, c :: x = y ++ z
                          /\ encUnit c x ++ d' = encUnits y z
                          /\ rest = Encode z).
    { intros d' HE' HC'. destruct (IH d' rest HE' HC') as (y & z & -> & -> & ->).
      exists (c :: y), z. auto. }
    destruct (encUnit_len c x) as [(_ & E & _)|(_ & X & Y & E)];
      rewrite E in *.
    + simpl in HE. injection HE as <- HE.
      apply (Hstep d HE). exact (unitCut_tail HC).
    + destruct (encodeByte_shape c) as (X' & Y' & EB & HX & HY & _).
      assert (EXY : [EQ; X; Y] = [EQ; X'; Y']).
      { destruct (encUnit_cases c x) as [(E1 & Q & _)|(E1 & _)].
        - rewrite E in E1. injection E1 as <-. discriminate Q.
        - congruence. }
      injection EXY as -> ->.
      destruct (hex_byte _ HX) as (_ & QX & _ & LX).
      destruct (hex_byte _ HY) as (_ & QY & _ & LY).
      simpl in HE. injection HE as <- HE.
      destruct d as [|a1 [|a2 d]]; simpl in HE.
      * subst rest. exfalso. unfold unitCut in HC. simpl in HC.
        destruct HC as [H|[[H _]|H]];
          first [congruence | vm_compute in H; discriminate].
      * injection HE as <- HE. subst rest. exfalso.
        unfold unitCut in HC. simpl in HC.
        destruct HC as [H|[[_ H]|H]];
          first [congruence | vm_compute in H; discriminate].
      * injection HE as <- <- HE.
        apply (Hstep d HE).
        exact (unitCut_tail (unitCut_tail (unitCut_tail HC))).
Qed.

Lemma get_at {A} (P d : list A) (c : A) (R : list A) (k : Z) :
  k = len P + len d -> get (P ++ d ++ c :: R) k = Done c.
Proof.
  intros ->. rewrite app_assoc. rewrite <- len_app. apply get_mid.
Qed.

Lemma get_at1 {A} (P d : list A) (a c : A) (R : list A) (k : Z) :
  k = len P + len d + 1 -> get (P ++ d ++ a :: c :: R) k = Done c.
Proof.
  intros ->. replace (d ++ a :: c :: R) with ((d ++ [a]) ++ c :: R)
    by (now rewrite <- app_assoc).
  apply get_at. rewrite len_app, len_cons, len_nil. lia.
Qed.

Lemma decode_units (y : list byte) :
  forall (z P R dst : list byte) (st : dstate) (fuel : nat),
    len P + len (encUnits y z) <= d_eol st ->
    (d_trimLen st = 0
     \/ len P + len (encUnits y z) <= d_eol st - d_trimLen st - d_eolLen st) ->
    len (encUnits y z) < Z.of_nat fuel ->
    exists fuel',
      Z.of_nat fuel - len (encUnits y z) <= Z.of_nat fuel'
      /\ decodeLoop fuel (P ++ encUnits y z ++ R) (len P) st dst
         = decodeLoop fuel' (P ++ encUnits y z ++ R)
                      (len P + len (encUnits y z)) st (dst ++ y).
Proof.
  induction y as [|c y IH]; intros z P R dst st fuel Heol Htrim Hf.
  { exists fuel. simpl encUnits. rewrite len_nil, Z.add_0_r, app_nil_r.
    split; [lia | reflexivity]. }
  simpl encUnits in *. set (U := encUnits y z) in *.
  pose proof (len_nonneg P) as HP. pose proof (len_nonneg U) as HU.
  pose proof (len_nonneg R) as HR.
  pose proof (len_nonneg (encUnit c (y ++ z))) as Hu.
  destruct fuel as [|fuel]; [rewrite len_app in Hf; lia|].
  assert (Hskip : (0 <? d_trimLen st)
                  && (len P =? d_eol st - d_trimLen st - d_eolLen st) = false).
  { destruct (encUnit_len c (y ++ z)) as [(L & _)|(L & _)];
      rewrite len_app, L in Htrim;
      (destruct Htrim as [->|Ht]; [reflexivity|]);
      apply andb_false_iff; right; apply Z.eqb_neq; lia. }
  destruct (encUnit_cases c (y ++ z)) as [(EU & Q & _ & D)|(EU & _)].
  - (* the byte was written as itself *)
    rewrite EU in *. rewrite !len_app, len_cons, len_nil in *.
    assert (S1 : decodeLoop (S fuel) (P ++ ([c] ++ U) ++ R) (len P) st dst
                 = decodeLoop fuel (P ++ ([c] ++ U) ++ R) (len P + 1) st
                              (dst ++ [c])).
    { rewrite decodeLoop_eq. lens.
      destruct (Z.leb_spec (len P + (0 + 1 + len U + len R)) (len P)); [lia|].
      destruct (Z.eqb_spec (len P) (d_eol st)); [lia|].
      bstep. rewrite Hskip. simpl app. rewrite get_mid. bstep.
      now rewrite Q, D. }
    rewrite S1.
    destruct (IH z (P ++ [c]) R (dst ++ [c]) st fuel) as (fuel' & Hf' & E).
    { lens. fold U. lia. }
    { destruct Htrim as [?|?]; [now left | right; lens; fold U; lia]. }
    { fold U. lia. }
    exists fuel'. split; [fold U in Hf'; lia|].
    revert E. lens. rewrite <- !app_assoc. simpl app. fold U.
    replace (len P + (0 + 1)) with (len P + 1) by lia.
    replace (len P + (0 + 1 + len U)) with (len P + 1 + len U) by lia.
    auto.
  - (* the byte was written as an escape *)
    destruct (encodeByte_shape c) as (X & Y & EB & _ & _ & RH).
    rewrite EU, EB in *. rewrite !len_app, !len_cons, len_nil in *.
    assert (S1 : decodeLoop (S fuel) (P ++ ([EQ; X; Y] ++ U) ++ R) (len P)
                            st dst
                 = decodeLoop fuel (P ++ ([EQ; X; Y] ++ U) ++ R)
                              (len P + 2 + 1) st (dst ++ [c])).
    { rewrite decodeLoop_eq. lens.
      destruct (Z.leb_spec (len P + (0 + 1 + 1 + 1 + len U + len R)) (len P));
        [lia|].
      destruct (Z.eqb_spec (len P) (d_eol st)); [lia|].
      bstep. rewrite Hskip. simpl app. rewrite get_mid. bstep.
      rewrite beq_refl.
      destruct (Z.leb_spec (len P + (0 + 1 + 1 + 1 + len U + len R))
                           (len P + 2)); [lia|].
      rewrite sliceFrom_after. bstep. rewrite RH. bstep. reflexivity. }
    rewrite S1.
    destruct (IH z (P ++ [EQ; X; Y]) R (dst ++ [c]) st fuel)
      as (fuel' & Hf' & E).
    { lens. fold U. lia. }
    { destruct Htrim as [?|?]; [now left | right; lens; fold U; lia]. }
    { fold U. lia. }
    exists fuel'. split; [fold U in Hf'; lia|].
    revert E. lens. rewrite <- !app_assoc. simpl app. fold U.
    replace (len P + (0 + 1 + 1 + 1)) with (len P + 2 + 1) by lia.
    replace (len P + (0 + 1 + 1 + 1 + len U)) with (len P + 2 + 1 + len U)
      by lia.
    auto.
Qed.

Lemma decodeLoop_at_eol fuel src i st dst :
  d_eol st = i ->
  decodeLoop fuel src i st dst
  = decodeLoop fuel src i (mkD i 0 0 (d_err st)) dst.
Proof.
  intros E. destruct fuel as [|fuel]; [reflexivity|].
  rewrite !decodeLoop_eq. cbn [d_eol d_err]. rewrite E, Z.eqb_refl.
  reflexivity.
Qed.

Lemma decodeLoop_rescan fuel src i st st1 dst :
  d_eol st = i -> scanLine src i (d_err st) = Done st1 -> d_eol st1 <> i ->
  decodeLoop fuel src i st dst = decodeLoop fuel src i st1 dst.
Proof.
  intros E Hs Hne. destruct fuel as [|fuel]; [reflexivity|].
  rewrite !decodeLoop_eq. rewrite E, Z.eqb_refl, Hs.
  destruct (Z.eqb_spec i (d_eol st1)); [congruence | reflexivity].
Qed.

Lemma scanLine_soft_break (P d R : list byte) (err : option error) :
  ~ In LF d ->
  scanLine (P ++ d ++ [EQ; CR; LF] ++ R) (len P) err
  = Done (mkD (len P + len d + 3) 3 0 err).
Proof.
  intros Hn. unfold scanLine. rewrite slice_app_suffix. bstep.
  replace (d ++ [EQ; CR; LF] ++ R) with ((d ++ [EQ; CR]) ++ LF :: R)
    by (now rewrite <- app_assoc).
  rewrite IndexByte_first.
  2:{ apply not_in_snoc; [assumption|]. simpl. intros [H|[H|[]]]; discriminate. }
  pose proof (len_nonneg d). pose proof (len_nonneg P). lens.
  eqb_false. leb_true.
  rewrite <- app_assoc. simpl app.
  rewrite get_at1 by lia.
  bstep. rewrite beq_refl. bstep.
  rewrite trimLoop_eq. eqb_false.
  rewrite (@get_at _ P d EQ (CR :: LF :: R)) by lia.
  bstep. change (isTrimByte EQ) with false. rewrite beq_refl. cbv iota.
  change (0 <? 0) with false. cbv iota. bstep. f_equal. f_equal. lia.
Qed.

Lemma clean_line (d B : list byte) :
  clean (d ++ LF :: B) = true -> clean (d ++ [LF]) = true.
Proof.
  induction d as [|c d IH]; [reflexivity|].
  simpl. intros H. apply andb_prop in H. destruct H as [H1 H2].
  rewrite (IH H2), andb_true_r. rewrite <- H1.
  destruct d as [|a [|b d]]; reflexivity.
Qed.

Lemma scanLine_line (P d R : list byte) (err : option error) :
  ~ In LF d -> clean (d ++ [LF]) = true ->
  exists eolLen,
    scanLine (P ++ d ++ LF :: R) (len P) err
    = Done (mkD (len P + len d + 1) 0 eolLen err).
Proof.
  intros Hn Hc. unfold scanLine. rewrite slice_app_suffix. bstep.
  rewrite IndexByte_first by assumption.
  pose proof (len_nonneg d) as Hd. pose proof (len_nonneg P) as HP.
  eqb_false.
  replace (len d + len P + 1) with (len P + len d + 1) by lia.
  destruct d as [|c L0] using rev_ind.
  - (* empty line *)
    rewrite len_nil. leb_false.
    bstep. rewrite trimLoop_empty by lia. bstep. eauto.
  - clear IHL0. rewrite len_app, len_cons, len_nil in *.
    pose proof (len_nonneg L0) as HL0. leb_true.
    assert (G : get (P ++ (L0 ++ [c]) ++ LF :: R)
                    (len P + (len L0 + (0 + 1)) + 1 - 2) = Done c).
    { rewrite <- app_assoc. simpl app. apply get_at. lia. }
    rewrite G. bstep. rewrite <- app_assoc in Hc. simpl app in Hc.
    destruct (beq c CR) eqn:ECR.
    + (* the line ends in CR LF *)
      apply beq_eq in ECR. subst c. bstep.
      destruct L0 as [|b L1] using rev_ind.
      * rewrite trimLoop_empty by (rewrite len_nil; lia). bstep. eauto.
      * clear IHL1. rewrite <- app_assoc in Hc. simpl app in Hc.
        destruct (follows_dangling _ _ (clean_app_inv _ _ _ Hc) eq_refl)
          as (W & Q & C).
        rewrite len_app, len_cons, len_nil in *.
        erewrite trimLoop_stop with (c := b); eauto.
        -- bstep. eauto.
        -- pose proof (len_nonneg L1). lia.
        -- rewrite <- !app_assoc. simpl app. apply get_at. lia.
        -- apply isTrimByte_false; auto.
           apply not_in_beq with (L := L1). intros Hin. apply Hn.
           apply in_or_app. now left.
    + (* the line ends in a bare line feed *)
      bstep.
      destruct (follows_eol _ _ (clean_app_inv _ _ _ Hc) eq_refl) as (W & Q).
      erewrite trimLoop_stop with (c := c); eauto.
      * bstep. eauto.
      * lia.
      * rewrite <- G. f_equal. lia.
      * apply isTrimByte_false; auto. now apply not_in_beq with (L := L0).
Qed.

Lemma decode_qplined (col : Z) (data out : list byte) (col' : Z) :
  qplined col data out col' ->
  col = 0 ->
  forall (x P dst : list byte) (st : dstate) (fuel : nat),
    data = Encode x -> noDanglingCR x = true ->
    d_eol st = len P -> d_err st = None ->
    len out < Z.of_nat fuel ->
    decodeLoop fuel (P ++ out) (len P) st dst = Done (dst ++ x, None).
Proof.
  induction 1 as [col d Hlen
                 |col d rest out col' Hn Hcol _ IH
                 |col d rest out col' Hn Hcut _ IH];
    intros -> x P dst st fuel HE Hx Heol Herr Hf.
  - (* no line is cut *)
    subst d. rewrite decodeLoop_at_eol by assumption.
    apply decodeLoop_Encode; auto. unfold len in Hf. lia.
  - (* a line of the data *)
    destruct (@units_cut x (d ++ [LF]) rest) as (y & z & -> & HU & ->).
    { rewrite <- HE, <- app_assoc. reflexivity. }
    { right. right. rewrite rev_app_distr. reflexivity. }
    pose proof (Encode_clean _ Hx) as Hc. rewrite <- HE in Hc.
    destruct (@scanLine_line P d out None Hn (clean_line _ _ Hc))
      as (eolLen & Hscan).
    pose proof (len_nonneg P) as HP. pose proof (len_nonneg d) as Hd.
    pose proof (len_nonneg out) as Ho.
    rewrite (@decodeLoop_rescan fuel (P ++ d ++ LF :: out) (len P) st
               (mkD (len P + len d + 1) 0 eolLen None) dst Heol);
      [| rewrite Herr; exact Hscan | cbn [d_eol]; lia].
    revert Hf. lens. intros Hf.
    replace (P ++ d ++ LF :: out) with (P ++ encUnits y z ++ out)
      by (rewrite <- HU, <- app_assoc; reflexivity).
    assert (HL : len (encUnits y z) = len d + 1).
    { rewrite <- HU. lens. lia. }
    destruct (@decode_units y z P out dst
                (mkD (len P + len d + 1) 0 eolLen None) fuel)
      as (fuel' & Hf' & ->);
      [cbn [d_eol]; lia | now left | lia |].
    replace (P ++ encUnits y z ++ out) with ((P ++ encUnits y z) ++ out)
      by (now rewrite <- app_assoc).
    replace (len P + len (encUnits y z)) with (len (P ++ encUnits y z))
      by (now rewrite len_app).
    rewrite (IH eq_refl z); auto.
    + now rewrite <- app_assoc.
    + eapply noDanglingCR_app; eauto.
    + cbn [d_eol]. lens. lia.
    + lia.
  - (* a line that is cut *)
    destruct (@units_cut x d rest (eq_sym HE)) as (y & z & -> & HU & ->).
    { unfold softCut in Hcut. unfold unitCut.
      destruct Hcut as [(_ & H)|[(_ & H & _)|(_ & H1 & H2)]]; auto. }
    pose proof (@scanLine_soft_break P d out None Hn) as Hscan.
    pose proof (len_nonneg P) as HP. pose proof (len_nonneg d) as Hd.
    pose proof (len_nonneg out) as Ho.
    rewrite (@decodeLoop_rescan fuel (P ++ d ++ [EQ; CR; LF] ++ out) (len P)
               st (mkD (len P + len d + 3) 3 0 None) dst Heol);
      [| rewrite Herr; exact Hscan | cbn [d_eol]; lia].
    revert Hf. lens. intros Hf.
    set (st1 := mkD (len P + len d + 3) 3 0 None).
    rewrite HU.
    destruct (@decode_units y z P ([EQ; CR; LF] ++ out) dst st1 fuel)
      as (fuel' & Hf' & ->);
      [rewrite <- HU; cbn [d_eol st1]; lia
      |right; rewrite <- HU; cbn [d_eol d_trimLen d_eolLen st1]; lia
      |rewrite <- HU; lia |].
    rewrite <- HU in *.
    destruct fuel' as [|fuel']; [lia|].
    rewrite decodeLoop_eq. lens.
    destruct (Z.leb_spec (len P + (len d + (0 + 1 + 1 + 1 + len out)))
                         (len P + len d)); [lia|].
    cbn [d_eol d_trimLen d_eolLen d_err st1].
    destruct (Z.eqb_spec (len P + len d) (len P + len d + 3)); [lia|].
    bstep. cbn [d_eol d_trimLen d_eolLen d_err st1].
    change (0 <? 3) with true.
    destruct (Z.eqb_spec (len P + len d) (len P + len d + 3 - 3 - 0)); [|lia].
    cbn [andb].
    replace (P ++ d ++ [EQ; CR; LF] ++ out)
      with ((P ++ d ++ [EQ; CR; LF]) ++ out)
      by (now rewrite <- !app_assoc).
    replace (len P + len d + (3 - 1) + 1) with (len (P ++ d ++ [EQ; CR; LF]))
      by (lens; lia).
    rewrite (IH eq_refl z); auto.
    + now rewrite <- app_assoc.
    + eapply noDanglingCR_app; eauto.
    + cbn [d_eol st1]. lens. lia.
    + lia.
Qed.

(** What [writeBody] appends to a buffer for a quoted-printable body: the
    encoding of the body, with the soft line breaks of the line writer. *)
Lemma encodeBody_QP_lined (B body : list byte) (enc : string) :
  String.eqb enc Base64 = false ->
  qpWritable body = true ->
  exists out l',
    encodeBody (mkBuffer B) body enc = Done (mkBuffer (B ++ out), None)
    /\ qplined 0 (Encode body) out l'.
Proof.
  intros Henc Hq. unfold encodeBody. rewrite Henc.
  change (Write (NewEncoder (newQpLineWriter (mkBuffer B))) (literal body))
    with (encoder_Write (mkEncoder (mkQp (mkBuffer B) 0)) (literal body)).
  set (q := mkSlice (Encode (sdata (literal body)))
              (make (MaxEncodedLen (slen (literal body))
                     - len (Encode (sdata (literal body)))))).
  assert (Hw : exists out l',
             Write (mkQp (mkBuffer B) 0) q
             = Done (mkQp (mkBuffer (B ++ out)) l', slen q, None)
             /\ qplined 0 (Encode body) out l').
  { unfold qpWritable in Hq. apply orb_true_iff in Hq.
    destruct Hq as [Hshort|Hspare].
    - apply Z.ltb_lt in Hshort. exists (sdata q), (0 + slen q).
      split; [apply qpLineWriter_Write_short; exact Hshort|].
      apply ql_last. exact Hshort.
    - apply Z.leb_le in Hspare.
      destruct (@qpLineWriter_Write_spec B 0 q) as (out & l' & Heq & Hl).
      + lia.
      + unfold q. cbn [sspare]. unfold literal, slen. cbn [sdata].
        unfold literal, slen in Hspare. rewrite len_make; lia.
      + apply make_no_LF.
      + exists out, l'. split; assumption. }
  destruct Hw as (out & l' & Hw & Hl).
  rewrite (encoder_Write_ok _ _ Hw). bstep. cbn [w q_w].
  exists out, l'. split; [reflexivity | exact Hl].
Qed.

(** A body written through the quoted-printable encoder and the line
    writer, as [writeBody] does, is read back by [Decode]: the soft line
    breaks of the line writer are removed and the body comes out as it
    was, when it has no dangling carriage return. *)
Theorem encodeBody_Decode (body : list byte) (enc : string) :
  String.eqb enc Base64 = false ->
  qpWritable body = true ->
  noDanglingCR body = true ->
  exists out,
    encodeBody (mkBuffer []) body enc = Done (mkBuffer out, None)
    /\ Decode out = Done (body, None).
Proof.
  intros Henc Hq Hx.
  destruct (@encodeBody_QP_lined [] body enc Henc Hq) as (out & l' & Hw & Hl).
  exists out. split; [exact Hw|].
  unfold Decode.
  apply (@decode_qplined 0 (Encode body) out l' Hl eq_refl body []
           [] (mkD 0 0 0 None)); auto.
  unfold len. lia.
Qed.

Lemma encodeBody_Decode_witness :
  exists out,
    encodeBody (mkBuffer []) (repeat xc3 30 ++ [CR; LF] ++ bs "a b")
               "quoted-printable"
    = Done (mkBuffer out, None)
    /\ Decode out = Done (repeat xc3 30 ++ [CR; LF] ++ bs "a b", None).
Proof.
  apply encodeBody_Decode; reflexivity.
Defined.

(** ** More on the encoded words of headers *)

(** The Q encoding of a text is decoded by [qDecode] to the text, with no
    error, and holds neither a question mark nor a line break, so that it
    can stand in an encoded word. *)
Theorem qDecode_writeQString (t : list byte) :
  qDecode (writeQString t) = Done (t, None)
  /\ forallb plainChar (writeQString t) = true.
Proof.
  split.
  - apply qDecode_text, qValue_writeQString.
  - apply writeQString_plain.
Qed.

Lemma slice_returns {A} (s : list A) (lo hi : Z) :
  0 <= lo <= hi -> hi <= len s -> exists v, slice s lo hi = Done v.
Proof.
  intros H1 H2. unfold slice.
  destruct (Z.leb_spec 0 lo); [|lia].
  destruct (Z.leb_spec lo hi); [|lia].
  destruct (Z.leb_spec hi (len s)); [|lia].
  simpl. eauto.
Qed.

Lemma runeSizeLoop_returns (s : list byte) (i : Z) :
  0 <= i ->
  forall (fuel : nat) (k : Z),
    1 <= k -> i + k <= len s -> len s - (i + k) < Z.of_nat fuel ->
    exists r, runeSizeLoop fuel s i k = Done r /\ k <= r /\ i + r <= len s.
Proof.
  intros Hi. induction fuel as [|fuel IH]; intros k Hk Hle Hf; [lia|].
  rewrite runeSizeLoop_step.
  destruct (Z.ltb_spec (i + k) (len s)) as [Hlt|Hge].
  - destruct (@get_in_range _ s (i + k)) as (c & ->); [lia|]. bstep.
    destruct (negb (RuneStart c)).
    + destruct (IH (k + 1)) as (r & -> & Hr1 & Hr2); [lia | lia | lia |].
      exists r. split; [reflexivity | lia].
    + exists k. split; [reflexivity | lia].
  - exists k. split; [reflexivity | lia].
Qed.

Lemma getRuneSize_returns (s : list byte) (i : Z) :
  0 <= i < len s ->
  exists r, getRuneSize s i = Done r /\ 1 <= r /\ i + r <= len s.
Proof.
  intros Hi. unfold getRuneSize.
  apply runeSizeLoop_returns; try lia. unfold len. lia.
Qed.

Lemma qLoop_returns (e : HeaderEncoder) (s : list byte) :
  forall (fuel : nat) (i n : Z) (buf : list byte),
    0 <= i -> Z.max 0 (len s - i) < Z.of_nat fuel ->
    exists m, qLoop fuel e s i n buf = Done (buf ++ m).
Proof.
  induction fuel as [|fuel IH]; intros i n buf Hi Hf.
  { lia. }
  rewrite qLoop_step.
  destruct (Z.ltb_spec i (len s)) as [Hlt|Hge].
  2:{ exists []. now rewrite app_nil_r. }
  destruct (@get_in_range _ s i) as (b & ->); [lia|]. bstep.
  assert (Hsz : exists encLen r,
    (if beq b SP || isQSafe b then Done (1, 1)
     else runeSize <- getRuneSize s i ;; Done (3 * runeSize, runeSize))
    = Done (encLen, r) /\ 1 <= r /\ i + r <= len s).
  { destruct (beq b SP || isQSafe b).
    - exists 1, 1. split; [reflexivity | lia].
    - destruct (@getRuneSize_returns s i) as (r & -> & Hr); [lia|].
      bstep. exists (3 * r), r. auto. }
  destruct Hsz as (encLen & r & -> & Hr1 & Hr2). bstep.
  destruct (@slice_returns _ s i (i + r)) as (rune & Hrune); [lia | lia|].
  destruct (maxEncodedWordLen - 2 <? n + encLen).
  - unfold splitWord, openWord, closeWord. cbv beta iota.
    rewrite Hrune. bstep.
    match goal with
    | |- context [qLoop fuel e s ?i' ?n' ?b'] =>
      destruct (IH i' n' b') as (m & ->); [lia | lia |]
    end.
    rewrite <- !app_assoc. eexists. reflexivity.
  - rewrite Hrune. bstep.
    destruct (IH (i + r) (n + encLen) (buf ++ writeQString rune))
      as (m & ->); [lia | lia |].
    rewrite <- !app_assoc. eexists. reflexivity.
Qed.

Lemma bLoop_returns (e : HeaderEncoder) (s : list byte) (maxLen : Z) :
  forall (fuel : nat) (i n last : Z) (buf : list byte),
    0 <= last <= i -> last <= len s ->
    Z.max 0 (len s - i) < Z.of_nat fuel ->
    exists m last',
      bLoop fuel e s maxLen i n last buf = Done (buf ++ m, last')
      /\ 0 <= last' <= len s.
Proof.
  induction fuel as [|fuel IH]; intros i n last buf Hl Hls Hf.
  { lia. }
  rewrite bLoop_step.
  destruct (Z.ltb_spec i (len s)) as [Hlt|Hge].
  2:{ exists [], last. rewrite app_nil_r. split; [reflexivity | lia]. }
  destruct (@getRuneSize_returns s i) as (r & -> & Hr1 & Hr2); [lia|].
  bstep.
  destruct (EncodedLen (n + r) <=? maxLen).
  - apply IH; lia.
  - destruct (@slice_returns _ s last i) as (chunk & ->); [lia | lia|].
    bstep. unfold splitWord, openWord, closeWord. cbn [fst].
    match goal with
    | |- context [bLoop fuel e s maxLen ?i' ?n' ?l' ?b'] =>
      destruct (IH i' n' l' b') as (m & last' & -> & Hl'); [lia | lia | lia |]
    end.
    rewrite <- !app_assoc. eexists. exists last'.
    split; [reflexivity | lia].
Qed.

Lemma encodeWord_returns (e : HeaderEncoder) (s : list byte) :
  exists mid, encodeWord e s = Done (opening e ++ mid ++ bs "?=").
Proof.
  unfold encodeWord. cbv zeta.
  change (fst (openWord e [])) with (opening e).
  unfold closeWord.
  destruct (bytes_eqb (ToUpper (encoding e)) B).
  - destruct (negb (splitWords e)
              || (EncodedLen (len s)
                  <=? maxEncodedWordLen - len (opening e) - 2)).
    + exists (b64EncodeToString s). rewrite <- app_assoc. reflexivity.
    + destruct (@bLoop_returns e s
                  (maxEncodedWordLen - len (opening e) - 2)
                  (S (length s)) 0 0 0 (opening e))
        as (m & last & -> & Hl); [lia | apply len_nonneg | unfold len; lia |].
      bstep.
      destruct (@slice_returns _ s last (len s)) as (tail & Ht);
        [lia | lia |].
      unfold sliceFrom. rewrite Ht. bstep.
      exists (m ++ b64EncodeToString tail).
      rewrite <- !app_assoc. reflexivity.
  - destruct (negb (splitWords e)).
    + exists (writeQString s). rewrite <- app_assoc. reflexivity.
    + destruct (@qLoop_returns e s (S (length s)) 0 (len (opening e))
                               (opening e))
        as (m & ->); [lia | unfold len; lia |].
      bstep. exists m. rewrite <- !app_assoc. reflexivity.
Qed.

(** [EncodeHeader] returns for every encoder and every string, valid UTF-8
    or not: no index leaves the string.  A string that needs no encoding
    comes back as it is; any other is returned as text that starts with
    the opening of an encoded word and ends with its closing. *)
Theorem EncodeHeader_returns (e : HeaderEncoder) (s : list byte) :
  exists out,
    EncodeHeader e s = Done out
    /\ (needsEncoding s = false -> out = s)
    /\ (needsEncoding s = true ->
        exists mid, out = opening e ++ mid ++ bs "?=").
Proof.
  unfold EncodeHeader.
  destruct (needsEncoding s) eqn:Hn; cbn [negb].
  - destruct (encodeWord_returns e s) as (mid & ->).
    eexists. split; [reflexivity|]. split; [discriminate | eauto].
  - exists s. split; [reflexivity|]. split; [auto | discriminate].
Qed.

Lemma noEncodedWord_tail (a : byte) (s : list byte) :
  noEncodedWord (a :: s) = true ->
  FindString (a :: s) = [] /\ noEncodedWord s = true.
Proof.
  unfold noEncodedWord. cbn [suffixes forallb]. intros H.
  apply andb_prop in H. destruct H as [H1 H2]. split; [|exact H2].
  destruct (FindString (a :: s)); [reflexivity | discriminate].
Qed.

Lemma noEncodedWord_app (L R : list byte) :
  noEncodedWord (L ++ R) = true -> noEncodedWord R = true.
Proof.
  induction L as [|a L IH]; [auto|]. intros H.
  apply IH. now apply (@noEncodedWord_tail a (L ++ R)).
Qed.

Lemma headerLoop_plain (fuel : nat) :
  forall (st : hstate),
    len (h_header st) < Z.of_nat fuel ->
    noEncodedWord (h_header st) = true ->
    headerLoop fuel st = Done (h_buf st ++ h_header st, h_charset st, None).
Proof.
  induction fuel as [|fuel IH]; intros [header buf cs] Hf Hn;
    cbn [h_header h_buf h_charset] in *.
  { pose proof (len_nonneg header). lia. }
  rewrite headerLoop_step. cbn [h_header h_buf h_charset]. cbv zeta.
  pose proof (IndexByte_range header EQ) as Hr.
  destruct (Z.eqb_spec (IndexByte header EQ) (-1)) as [|Hne]; [reflexivity|].
  destruct (@IndexByte_found header EQ) as (L & R & -> & _ & Hi); [lia|].
  rewrite Hi. pose proof (len_nonneg L) as HL.
  pose proof (@noEncodedWord_app L (EQ :: R) Hn) as Hn'.
  destruct (@noEncodedWord_tail EQ R Hn') as [Hfind HnR].
  assert (Hst : (if 0 <? len L
                 then pre <- slice (L ++ EQ :: R) 0 (len L) ;;
                      rest <- sliceFrom (L ++ EQ :: R) (len L) ;;
                      Done (mkH rest (buf ++ pre) cs)
                 else Done (mkH (L ++ EQ :: R) buf cs))
                = Done (mkH (EQ :: R) (buf ++ L) cs)).
  { destruct (Z.ltb_spec 0 (len L)) as [Hpos|Hz].
    - pose proof (@slice_mid _ [] L (EQ :: R)) as Hs.
      simpl app in Hs. change (len (@nil byte)) with 0 in Hs.
      rewrite Z.add_0_l in Hs. rewrite Hs. bstep.
      rewrite slice_app_suffix. bstep. reflexivity.
    - destruct L as [|l L]; [now rewrite app_nil_r|].
      rewrite len_cons in Hz. pose proof (len_nonneg L). lia. }
  rewrite Hst. bstep. cbn [h_header h_buf h_charset]. rewrite Hfind.
  cbn [isNil].
  change (sliceFrom (EQ :: R) 1) with (sliceFrom ([EQ] ++ R) (len [EQ])).
  rewrite slice_app_suffix. bstep.
  rewrite IH; cbn [h_header h_buf h_charset].
  - rewrite <- !app_assoc. reflexivity.
  - revert Hf. lens. lia.
  - exact HnR.
Qed.

(** A header in which no encoded word starts is returned by [DecodeHeader]
    as it is, equals signs included, with an empty charset and no error. *)
Theorem DecodeHeader_plain (header : list byte) :
  noEncodedWord header = true ->
  DecodeHeader header = Done (header, [], None).
Proof.
  intros Hn. unfold DecodeHeader.
  rewrite headerLoop_plain; [reflexivity | | exact Hn].
  cbn [h_header]. unfold len. lia.
Qed.

Lemma DecodeHeader_plain_witness :
  DecodeHeader (bs "a=b =?x? 1+1=2") = Done (bs "a=b =?x? 1+1=2", [], None).
Proof.
  apply DecodeHeader_plain. reflexivity.
Defined.

Lemma encoder_byte (cs enc : list byte) (e : HeaderEncoder) :
  NewHeaderEncoder cs enc = (Some e, None) ->
  charset e = cs
  /\ exists x, encoding e = [x]
               /\ beq (upperByte x) x51 || beq (upperByte x) x42 = true.
Proof.
  intros He.
  destruct (NewHeaderEncoder_inv _ _ He) as (Hc & Hen & _ & Hup & Hl).
  split; [exact Hc|]. rewrite Hen.
  destruct enc as [|x [|y enc]];
    [discriminate Hl | |
     exfalso; revert Hl; lens; pose proof (len_nonneg enc); lia].
  exists x. split; [reflexivity|].
  destruct Hup as [Hu|Hu]; simpl in Hu; inversion Hu as [Hu'];
    rewrite Hu'; reflexivity.
Qed.

(** Two encoded words with different charset names, as two encoders write
    them, separated by a space: [DecodeHeader] returns no text and the error
    that names the two charsets.  The names are compared as they are
    written, so that names that differ in case only are different. *)
Theorem DecodeHeader_two_charsets (cs1 enc1 cs2 enc2 : list byte)
        (e1 e2 : HeaderEncoder) (t1 t2 : list byte) :
  NewHeaderEncoder cs1 enc1 = (Some e1, None) ->
  NewHeaderEncoder cs2 enc2 = (Some e2, None) ->
  wordCharset cs1 = true -> wordCharset cs2 = true ->
  bytes_eqb cs1 cs2 = false ->
  t1 <> [] -> t2 <> [] ->
  DecodeHeader (encodedWord e1 t1 ++ [SP] ++ encodedWord e2 t2)
  = Done ([], [], Some (ErrMultipleCharsets cs1 cs2)).
Proof.
  intros He1 He2 Hcs1 Hcs2 Hdiff Ht1 Ht2.
  destruct (encoder_byte _ _ He1) as (Hc1 & x1 & Hen1 & Hx1).
  destruct (encoder_byte _ _ He2) as (Hc2 & x2 & Hen2 & Hx2).
  rewrite <- Hc1 in Hcs1, Hdiff |- *. rewrite <- Hc2 in Hcs2, Hdiff |- *.
  assert (Hw1 := Hcs1). assert (Hw2 := Hcs2).
  unfold wordCharset in Hw1, Hw2.
  apply andb_true_iff in Hw1. destruct Hw1 as [Hne1 Hwc1].
  apply andb_true_iff in Hw2. destruct Hw2 as [Hne2 Hwc2].
  destruct (encoding_byte _ Hx1) as [Hx1' _].
  destruct (encoding_byte _ Hx2) as [Hx2' _].
  destruct (encodedWord_head e1 t1) as (w1 & Hh1).
  destruct (encodedWord_head e2 t2) as (w2 & Hh2).
  assert (Hfind1 : FindString (encodedWord e1 t1 ++ [SP] ++ encodedWord e2 t2)
                   = encodedWord e1 t1).
  { rewrite (@encodedWord_bytes e1 x1 t1 Hen1).
    apply FindString_word; try assumption.
    - now apply payload_nonempty.
    - apply payload_plain. }
  assert (Hfind2 : FindString (encodedWord e2 t2) = encodedWord e2 t2).
  { rewrite <- (app_nil_r (encodedWord e2 t2)) at 1.
    rewrite (@encodedWord_bytes e2 x2 t2 Hen2).
    apply FindString_word; try assumption.
    - now apply payload_nonempty.
    - apply payload_plain. }
  unfold DecodeHeader. rewrite headerLoop_step.
  cbn [h_header h_buf h_charset]. cbv zeta.
  set (header := encodedWord e1 t1 ++ [SP] ++ encodedWord e2 t2) in *.
  assert (Hi : IndexByte header EQ = 0).
  { unfold header. rewrite Hh1. reflexivity. }
  rewrite Hi. change (0 =? -1) with false. change (0 <? 0) with false.
  cbv iota. bstep. cbn [h_header h_buf h_charset].
  rewrite Hfind1. rewrite Hh1 at 1. cbn [isNil].
  assert (Hlen : (2 <= length header)%nat).
  { unfold header. rewrite Hh1. simpl. lia. }
  destruct (length header) as [|[|n]]; [lia | lia |].
  rewrite wordLoop_step,
    (@decodeWord_encodedWord e1 x1 t1 Hen1 Hwc1 Hx1).
  bstep. cbn [h_header h_buf h_charset isNil negb andb]. cbv zeta.
  unfold header. rewrite slice_app_suffix. bstep.
  assert (Hcount : countLWS ([SP] ++ encodedWord e2 t2) = 1).
  { rewrite Hh2. reflexivity. }
  rewrite Hcount. change (1 =? 0) with false. cbv iota.
  change (sliceFrom ([SP] ++ encodedWord e2 t2) 1)
    with (sliceFrom ([SP] ++ encodedWord e2 t2) (len [SP])).
  rewrite slice_app_suffix. bstep.
  rewrite Hfind2. rewrite Hh2 at 1. cbn [isNil].
  rewrite wordLoop_step,
    (@decodeWord_encodedWord e2 x2 t2 Hen2 Hwc2 Hx2).
  bstep. cbn [h_header h_buf h_charset]. rewrite Hdiff.
  destruct (charset e1); [discriminate Hne1|]. reflexivity.
Qed.

Lemma DecodeHeader_two_charsets_witness :
  DecodeHeader (encodedWord (mkHeaderEncoder (bs "UTF-8") Q true) (bs "a b")
                ++ [SP]
                ++ encodedWord (mkHeaderEncoder (bs "utf-8") B true)
                               (bs "c"))
  = Done ([], [], Some (ErrMultipleCharsets (bs "UTF-8") (bs "utf-8"))).
Proof.
  apply (@DecodeHeader_two_charsets (bs "UTF-8") Q (bs "utf-8") B);
    try reflexivity; discriminate.
Defined.

Lemma span_eq (p : byte -> bool) (s : list byte) :
  s = fst (span p s) ++ snd (span p s).
Proof.
  induction s as [|c s IH]; [reflexivity|]. simpl.
  destruct (p c); [|reflexivity].
  destruct (span p s) as [a b]. simpl in *. now rewrite IH at 1.
Qed.

Lemma FindString_prefix (header : list byte) :
  exists R, header = FindString header ++ R.
Proof.
  assert (Hnil : exists R, header = [] ++ R) by (exists header; reflexivity).
  unfold FindString.
  destruct header as [|e [|q r1]]; try exact Hnil.
  destruct (beq e EQ && beq q x3f); [|exact Hnil].
  pose proof (span_eq isWordChar r1) as E1.
  destruct (span isWordChar r1) as [cs r2]. cbn [fst snd] in E1.
  destruct cs as [|c0 cs]; [exact Hnil|].
  destruct r2 as [|q2 [|enc [|q3 r3]]]; try exact Hnil.
  destruct (beq q2 x3f
            && (beq enc x62 || beq enc x42 || beq enc x71 || beq enc x51)
            && beq q3 x3f); [|exact Hnil].
  pose proof (span_eq (fun c => negb (beq c x3f)) r3) as E2.
  destruct (span (fun c => negb (beq c x3f)) r3) as [pl r4].
  cbn [fst snd] in E2.
  destruct pl as [|p0 pl]; [exact Hnil|].
  destruct r4 as [|q4 [|e2 r5]]; try exact Hnil.
  destruct (beq q4 x3f && beq e2 EQ); [|exact Hnil].
  exists r5. rewrite E1, E2. rewrite <- !app_assoc. reflexivity.
Qed.

Lemma qDecodeLoop_returns (s : list byte) :
  forall (fuel : nat) (i : Z) (dec : list byte),
    0 <= i -> Z.max 0 (len s - i) < Z.of_nat fuel ->
    exists d e, qDecodeLoop fuel s i dec = Done (d, e).
Proof.
  induction fuel as [|fuel IH]; intros i dec Hi Hf; [lia|].
  rewrite qDecodeLoop_step.
  destruct (Z.ltb_spec i (len s)) as [Hlt|Hge]; [|eauto].
  destruct (@get_in_range _ s i (conj Hi Hlt)) as (c & Hc).
  rewrite Hc. bstep.
  destruct (beq c x5f); [apply IH; lia|].
  destruct (beq c EQ).
  - destruct (Z.leb_spec (len s) (i + 2)) as [Hshort|Hlong]; [eauto|].
    destruct (@get_split _ _ _ _ Hc) as (P & R & -> & HP).
    destruct R as [|X [|Y R]];
      [revert Hlong; lens; lia | revert Hlong; lens; lia |].
    rewrite <- HP, sliceFrom_after. bstep.
    destruct (readHexByte_two X Y R) as (b & e & ->). bstep.
    destruct e as [e|]; [eauto|].
    apply IH; [lia|]. revert Hf. lens. pose proof (len_nonneg R). lia.
  - destruct (isVchar c || beq c SP || beq c LF || beq c CR || beq c TAB);
      [apply IH; lia | eauto].
Qed.

Lemma decodeWord_returns (s : list byte) :
  exists dec cs err, decodeWord s = Done (dec, cs, err).
Proof.
  unfold decodeWord.
  destruct (Split s x3f) as [|f0 [|cs [|enc [|src [|f4 [|f5 fs]]]]]]; eauto.
  destruct (negb (bytes_eqb f0 [EQ]) || negb (bytes_eqb f4 [EQ])
            || negb (len enc =? 1)); [eauto|].
  destruct (bytes_eqb (ToUpper enc) B).
  { destruct (b64DecodeString src) as [dec err]. eauto. }
  destruct (bytes_eqb (ToUpper enc) Q); [|eauto].
  destruct (@qDecodeLoop_returns src (S (length src)) 0 [])
    as (d & e & Hq); [lia | unfold len; lia |].
  unfold qDecode. rewrite Hq. bstep. eauto.
Qed.

Lemma countLWS_range (s : list byte) : 0 <= countLWS s <= len s.
Proof.
  induction s as [|c s IH]; [simpl; unfold len; simpl; lia|].
  change (countLWS (c :: s))
    with (if isWSP c || isNewline c then 1 + countLWS s else 0).
  rewrite len_cons. destruct (isWSP c || isNewline c); lia.
Qed.

Lemma sliceFrom_returns {A} (s : list A) (k : Z) :
  0 <= k <= len s ->
  exists R, sliceFrom s k = Done R /\ len R = len s - k.
Proof.
  intros Hk. unfold sliceFrom, slice.
  destruct (Z.leb_spec 0 k); [|lia].
  destruct (Z.leb_spec k (len s)); [|lia].
  destruct (Z.leb_spec (len s) (len s)); [|lia].
  simpl. eexists. split; [reflexivity|].
  unfold len. rewrite length_firstn, length_skipn. unfold len in Hk. lia.
Qed.

(** What the inner loop of [DecodeHeader] returns: an error about two
    charsets, or a state with a shorter header. *)
Lemma wordLoop_returns (fuel : nat) :
  forall (word : list byte) (st : hstate),
    word <> [] -> (exists R, h_header st = word ++ R) ->
    len (h_header st) < Z.of_nat fuel ->
    exists r,
      wordLoop fuel word st = Done r
      /\ match r with
         | inl st' => len (h_header st') < len (h_header st)
         | inr e => exists c1 c2, e = ErrMultipleCharsets c1 c2
         end.
Proof.
  induction fuel as [|fuel IH]; intros word [header buf cs] Hne (R & HR) Hf;
    cbn [h_header h_buf h_charset] in *.
  { pose proof (len_nonneg header). lia. }
  rewrite wordLoop_step. cbn [h_header h_buf h_charset].
  destruct (decodeWord_returns word) as (dec & wcs & err & ->). bstep.
  assert (Hw : 0 < len word).
  { destruct word; [contradiction|]. rewrite len_cons.
    pose proof (len_nonneg word). lia. }
  subst header. rewrite slice_app_suffix. bstep.
  pose proof (len_nonneg R) as HRn.
  destruct err as [e|].
  { eexists. split; [reflexivity|]. cbn [h_header]. lens. lia. }
  destruct (negb (isNil cs) && negb (bytes_eqb cs wcs)).
  { eexists. split; [reflexivity|]. do 2 eexists. reflexivity. }
  cbv zeta. pose proof (countLWS_range R) as Hj.
  destruct (Z.eqb_spec (countLWS R) 0) as [Hz|Hnz].
  { eexists. split; [reflexivity|]. cbn [h_header]. lens. lia. }
  destruct (@sliceFrom_returns _ R (countLWS R) Hj) as (after & -> & Hlen).
  bstep.
  destruct (FindString_prefix after) as (R' & HR').
  destruct (FindString after) as [|w0 w] eqn:Hfind.
  { eexists. split; [reflexivity|]. cbn [h_header]. lens. lia. }
  cbn [isNil].
  match goal with
  | |- context [wordLoop fuel ?w' ?st'] =>
    destruct (IH w' st') as (r & -> & Hr)
  end.
  - discriminate.
  - cbn [h_header]. eauto.
  - cbn [h_header]. revert Hf. lens. lia.
  - exists r. split; [reflexivity|].
    destruct r as [st'|e]; [|exact Hr].
    cbn [h_header] in Hr. lens. lia.
Qed.

Lemma headerLoop_returns (fuel : nat) :
  forall (st : hstate),
    len (h_header st) < Z.of_nat fuel ->
    exists text cs err,
      headerLoop fuel st = Done (text, cs, err)
      /\ (err = None
          \/ (text = [] /\ cs = []
              /\ exists c1 c2, err = Some (ErrMultipleCharsets c1 c2))).
Proof.
  induction fuel as [|fuel IH]; intros [header buf cs] Hf;
    cbn [h_header h_buf h_charset] in *.
  { pose proof (len_nonneg header). lia. }
  rewrite headerLoop_step. cbn [h_header h_buf h_charset]. cbv zeta.
  pose proof (IndexByte_range header EQ) as Hr.
  destruct (Z.eqb_spec (IndexByte header EQ) (-1)) as [|Hne].
  { do 3 eexists. split; [reflexivity | now left]. }
  destruct (@IndexByte_found header EQ) as (L & R & -> & _ & Hi); [lia|].
  rewrite Hi. pose proof (len_nonneg L) as HL.
  pose proof (len_nonneg R) as HRn.
  assert (Hst : (if 0 <? len L
                 then pre <- slice (L ++ EQ :: R) 0 (len L) ;;
                      rest <- sliceFrom (L ++ EQ :: R) (len L) ;;
                      Done (mkH rest (buf ++ pre) cs)
                 else Done (mkH (L ++ EQ :: R) buf cs))
                = Done (mkH (EQ :: R) (buf ++ L) cs)).
  { destruct (Z.ltb_spec 0 (len L)) as [Hpos|Hz].
    - pose proof (@slice_mid _ [] L (EQ :: R)) as Hs.
      simpl app in Hs. change (len (@nil byte)) with 0 in Hs.
      rewrite Z.add_0_l in Hs. rewrite Hs. bstep.
      rewrite slice_app_suffix. bstep. reflexivity.
    - destruct L as [|l L]; [now rewrite app_nil_r|].
      rewrite len_cons in Hz. pose proof (len_nonneg L). lia. }
  rewrite Hst. bstep. cbn [h_header h_buf h_charset].
  destruct (FindString_prefix (EQ :: R)) as (R' & HR').
  destruct (FindString (EQ :: R)) as [|w0 w] eqn:Hfind.
  - cbn [isNil].
    change (sliceFrom (EQ :: R) 1) with (sliceFrom ([EQ] ++ R) (len [EQ])).
    rewrite slice_app_suffix. bstep.
    apply IH. cbn [h_header]. revert Hf. lens. lia.
  - cbn [isNil].
    destruct (@wordLoop_returns (S (length (EQ :: R))) (w0 :: w)
                (mkH (EQ :: R) (buf ++ L) cs)) as (r & -> & Hres).
    + discriminate.
    + cbn [h_header]. eauto.
    + cbn [h_header]. unfold len. lia.
    + bstep. destruct r as [st'|e].
      * apply IH. cbn [h_header] in Hres. revert Hf Hres. lens. lia.
      * destruct Hres as (c1 & c2 & ->).
        do 3 eexists. split; [reflexivity|]. right. eauto.
Qed.

(** [DecodeHeader] returns on every header.  Its only error is the one
    about two charsets, with no text; an encoded word that cannot be
    decoded is no error: it is copied as it is. *)
Theorem DecodeHeader_returns (header : list byte) :
  exists text cs err,
    DecodeHeader header = Done (text, cs, err)
    /\ (err = None
        \/ (text = [] /\ cs = []
            /\ exists c1 c2, err = Some (ErrMultipleCharsets c1 c2))).
Proof.
  unfold DecodeHeader. apply headerLoop_returns.
  cbn [h_header]. unfold len. lia.
Qed.

(** ** The base64 body *)

Lemma b64lined_data (col : Z) (data out : list byte) (col' : Z) :
  b64lined col data out col' ->
  filter (fun c => negb (beq c LF || beq c CR)) out
  = filter (fun c => negb (beq c LF || beq c CR)) data.
Proof.
  induction 1 as [col d _|col d rest out col' _ _ IH]; [reflexivity|].
  rewrite !filter_app, IH. reflexivity.
Qed.

Lemma b64EncodeToString_app (a b : list byte) :
  len a mod 3 = 0 ->
  b64EncodeToString (a ++ b) = b64EncodeToString a ++ b64EncodeToString b.
Proof.
  induction a as [|x|x y|x y z t IH] using list_ind3; intros Hm.
  - reflexivity.
  - discriminate Hm.
  - discriminate Hm.
  - change (b64EncodeToString ((x :: y :: z :: t) ++ b))
      with ([ b64char (Z.shiftr (bval x) 2);
              b64char (Z.lor (Z.shiftl (Z.land (bval x) 3) 4)
                             (Z.shiftr (bval y) 4));
              b64char (Z.lor (Z.shiftl (Z.land (bval y) 15) 2)
                             (Z.shiftr (bval z) 6));
              b64char (Z.land (bval z) 63) ] ++ b64EncodeToString (t ++ b)).
    change (b64EncodeToString (x :: y :: z :: t))
      with ([ b64char (Z.shiftr (bval x) 2);
              b64char (Z.lor (Z.shiftl (Z.land (bval x) 3) 4)
                             (Z.shiftr (bval y) 4));
              b64char (Z.lor (Z.shiftl (Z.land (bval y) 15) 2)
                             (Z.shiftr (bval z) 6));
              b64char (Z.land (bval z) 63) ] ++ b64EncodeToString t).
    rewrite IH, <- app_assoc; [reflexivity|].
    revert Hm. rewrite !len_cons.
    replace (len t + 1 + 1 + 1) with (len t + 1 * 3) by lia.
    now rewrite Z.mod_add by lia.
Qed.

Lemma b64_unfolded (t : list byte) :
  filter (fun c => negb (beq c LF || beq c CR)) (b64EncodeToString t)
  = b64EncodeToString t.
Proof.
  apply filter_all.
  apply (forallb_impl plainChar); [|apply b64EncodeToString_plain].
  intros c. unfold plainChar. intros H. apply andb_true_iff in H. tauto.
Qed.

(** The loop of the base64 encoder over the line writer: what reaches the
    buffer is, line breaks apart, the encoding of the whole groups of three
    bytes; at most two bytes are kept. *)
Lemma base64Encoder_loop_data (fuel : nat) :
  forall (B : list byte) (lineLen : Z) (p : list byte),
    0 <= lineLen <= 78 ->
    len p < Z.of_nat fuel ->
    exists out lineLen' q rest,
      base64Encoder_loop fuel (mkB64 (mkBuffer B) lineLen) p
      = Done (mkB64 (mkBuffer (B ++ out)) lineLen', rest, None)
      /\ 0 <= lineLen' <= 78
      /\ p = q ++ rest /\ len q mod 3 = 0
      /\ filter (fun c => negb (beq c LF || beq c CR)) out
         = b64EncodeToString q.
Proof.
  induction fuel as [|fuel IH]; intros B lineLen p Hl Hf.
  - pose proof (len_nonneg p). lia.
  - rewrite base64Encoder_loop_step.
    destruct (Z.leb_spec 3 (len p)) as [H3|H3].
    + cbv zeta.
      set (nn := if len p <? 768 then len p - len p mod 3 else 768).
      assert (Hnn : 0 < nn <= len p /\ nn mod 3 = 0).
      { unfold nn. pose proof (Z.mod_pos_bound (len p) 3).
        destruct (Z.ltb_spec (len p) 768); [|split; [lia | reflexivity]].
        split; [lia|].
        rewrite (Z.div_mod (len p) 3) at 1 by lia.
        replace (3 * (len p / 3) + len p mod 3 - len p mod 3)
          with ((len p / 3) * 3) by lia.
        apply Z.mod_mul. lia. }
      destruct Hnn as [Hnn Hmod].
      set (chunk := firstn (Z.to_nat nn) p).
      destruct (@base64LineWriter_Write_spec B lineLen
                  (mkSlice (b64EncodeToString chunk)
                           (make (1024 - len (b64EncodeToString chunk)))) Hl)
        as (o & l1 & Heq & Hlined).
      assert (Hl1 : 0 <= l1 <= 78).
      { destruct (b64lined_lines Hlined []) as (_ & _ & Hle).
        { change (len (@nil byte)) with 0. lia. }
        split; [|exact Hle].
        eapply b64lined_nonneg; [exact Hlined | lia]. }
      rewrite Heq. bstep.
      destruct (@firstn_skipn_len _ p nn) as [Hfl Hsl]; [lia|].
      destruct (IH (B ++ o) l1 (skipn (Z.to_nat nn) p) Hl1)
        as (o2 & l2 & q & rest & Heq2 & Hl2 & Hp & Hq & Hfil); [lia|].
      exists (o ++ o2), l2, (chunk ++ q), rest. rewrite Heq2, app_assoc.
      split; [reflexivity|]. split; [exact Hl2|]. split.
      { rewrite <- app_assoc, <- Hp. unfold chunk.
        now rewrite firstn_skipn. }
      split.
      { rewrite len_app. fold chunk in Hfl. rewrite Hfl.
        rewrite Z.add_mod, Hmod, Hq by lia. reflexivity. }
      rewrite filter_app, Hfil, (b64lined_data Hlined). cbn [sdata].
      rewrite b64_unfolded. symmetry. apply b64EncodeToString_app.
      fold chunk in Hfl. now rewrite Hfl.
    + exists [], lineLen, [], p. rewrite app_nil_r.
      repeat split; auto; lia.
Qed.

(** What [writeBody] appends to a buffer for a base64 body: the encoding
    of the body, with line breaks. *)
Lemma encodeBody_Base64_data (B body : list byte) :
  exists out,
    encodeBody (mkBuffer B) body Base64 = Done (mkBuffer (B ++ out), None)
    /\ filter (fun c => negb (beq c LF || beq c CR)) out
       = b64EncodeToString body.
Proof.
  unfold encodeBody. rewrite String.eqb_refl.
  unfold base64Encoder_Write, newBase64LineWriter.
  destruct (@base64Encoder_loop_data (S (length body)) B 0 body)
    as (o & l1 & q & rest & Heq & Hl1 & Hp & Hq & Hfil);
    [lia | unfold len; lia |].
  rewrite Heq. bstep. unfold base64Encoder_Close.
  destruct (Z.ltb_spec 0 (len rest)) as [Hr|Hr].
  - cbv zeta.
    destruct (@base64LineWriter_Write_spec (B ++ o) l1
                (mkSlice (b64EncodeToString rest)
                         (make (1024 - len (b64EncodeToString rest)))) Hl1)
      as (o2 & l2 & Heq2 & Hlined).
    rewrite Heq2. bstep. cbn [b_w].
    exists (o ++ o2). rewrite app_assoc. split; [reflexivity|].
    rewrite filter_app, Hfil, (b64lined_data Hlined). cbn [sdata].
    rewrite b64_unfolded, Hp. symmetry. now apply b64EncodeToString_app.
  - bstep. cbn [b_w]. exists o. split; [reflexivity|].
    assert (rest = []) as ->.
    { destruct rest; [reflexivity|]. rewrite len_cons in Hr.
      pose proof (len_nonneg rest). lia. }
    rewrite app_nil_r in Hp. now rewrite Hfil, Hp.
Qed.

(** A body written through the base64 encoder and the line writer, as
    [writeBody] does for base64, is read back by the base64 decoder, which
    ignores the line breaks, as the body. *)
Theorem encodeBody_b64DecodeString (body : list byte) :
  exists out,
    encodeBody (mkBuffer []) body Base64 = Done (mkBuffer out, None)
    /\ b64DecodeString out = (body, None).
Proof.
  destruct (encodeBody_Base64_data [] body) as (out & Hw & Hfil).
  exists out. split; [exact Hw|].
  unfold b64DecodeString. now rewrite Hfil, b64quanta_encode.
Qed.

(** ** The header of the exported mail *)

Lemma lookup_assign_other (h : Header) (k k' : string) (v : list string) :
  k' <> k -> lookup (assign h k' v) k = lookup h k.
Proof.
  intros Hne. apply String.eqb_neq in Hne.
  induction h as [|[k0 v0] t IH]; simpl.
  - now rewrite Hne.
  - destruct (String.eqb k0 k') eqn:E0; simpl.
    + apply String.eqb_eq in E0. subst k0. now rewrite Hne.
    + destruct (String.eqb k0 k); [reflexivity | exact IH].
Qed.

Lemma lookup_fold_assign (l : Header) :
  NoDup (map fst l) ->
  forall (h0 : Header) (k : string),
    lookup (fold_left (fun h kv => assign h (fst kv) (snd kv)) l h0) k
    = match lookup l k with
      | Some v => Some v
      | None => lookup h0 k
      end.
Proof.
  induction l as [|[k1 v1] l IH]; intros Hnd h0 k; [reflexivity|].
  simpl map in Hnd. inversion Hnd as [|? ? Hnin Hnd']; subst.
  cbn [fold_left fst snd lookup]. rewrite (IH Hnd').
  destruct (String.eqb k1 k) eqn:E.
  - apply String.eqb_eq in E. subst k1.
    assert (Hnone : lookup l k = None).
    { clear - Hnin. induction l as [|[k2 v2] l IH]; [reflexivity|].
      simpl in *. destruct (String.eqb k2 k) eqn:E2.
      - apply String.eqb_eq in E2. tauto.
      - apply IH. tauto. }
    rewrite Hnone. apply lookup_assign.
  - apply String.eqb_neq in E.
    destruct (lookup l k); [reflexivity|]. now apply lookup_assign_other.
Qed.

Lemma sameFields_refl (h : Header) : sameFields h h.
Proof. intros k _. reflexivity. Qed.

Lemma sameFields_trans (h1 h2 h3 : Header) :
  sameFields h1 h2 -> sameFields h2 h3 -> sameFields h1 h3.
Proof. intros H1 H2 k Hk. now rewrite (H2 k Hk), (H1 k Hk). Qed.

Lemma sameFields_assign (h : Header) (k : string) (v : list string) :
  mimeField k = true -> sameFields h (assign h k v).
Proof.
  intros Hk k' Hk'. apply lookup_assign_other. congruence.
Qed.

Lemma sameFields_fold (l h : Header) :
  Forall (fun kv => mimeField (fst kv) = true) l ->
  sameFields h (fold_left (fun h kv => assign h (fst kv) (snd kv)) l h).
Proof.
  revert h. induction l as [|[k v] l IH]; intros h Hl.
  - apply sameFields_refl.
  - inversion Hl as [|? ? Hk Hl']; subst. cbn [fold_left fst snd].
    eapply sameFields_trans; [|apply IH; exact Hl'].
    now apply sameFields_assign.
Qed.

Lemma setWriterAt_header (w w' : messageWriter) (i : Z) (m : multipartWriter) :
  setWriterAt w i m = Done w' ->
  mw_header w' = mw_header w /\ buf w' = buf w /\ depth w' = depth w.
Proof.
  unfold setWriterAt. destruct (get (writers w) (i mod 256)); try discriminate.
  bstep. intros H. apply Done_inj in H. subst w'. auto.
Qed.

Lemma createPart_header (E : world) (w w' : messageWriter) (h : Header) :
  createPart E w h = Done w' -> mw_header w' = mw_header w.
Proof.
  unfold createPart.
  destruct (writerAt w (depth w - 1)) as [[m|]| |]; try discriminate.
  bstep.
  destruct (setWriterAt w (depth w - 1) (mkMultipart (Boundary m) true))
    as [w1| |] eqn:E1; try discriminate.
  bstep. intros H. apply Done_inj in H. subst w'. cbn [mw_header].
  now destruct (setWriterAt_header _ _ _ E1).
Qed.

Lemma openMultipart_header (E : world) (w w' : messageWriter) (t : string) :
  openMultipart E w t = Done w' -> sameFields (mw_header w) (mw_header w').
Proof.
  unfold openMultipart. cbv zeta.
  match goal with
  | |- context [setWriterAt ?a ?b ?c] =>
    destruct (setWriterAt a b c) as [w1| |] eqn:E1; try discriminate
  end.
  destruct (setWriterAt_header _ _ _ E1) as (H1 & _ & _).
  cbn [mw_header record] in H1. bstep.
  destruct (depth w1 =? 0).
  - bstep. intros H. apply Done_inj in H. subst w'. cbn [mw_header].
    rewrite H1. now apply sameFields_assign.
  - match goal with
    | |- context [createPart E w1 ?h] =>
      destruct (createPart E w1 h) as [w2| |] eqn:E2; try discriminate
    end.
    bstep. intros H. apply Done_inj in H. subst w'. cbn [mw_header].
    rewrite (createPart_header _ _ _ E2), H1. apply sameFields_refl.
Qed.

Lemma closeMultipart_header (E : world) (w w' : messageWriter) :
  closeMultipart E w = Done w' -> mw_header w' = mw_header w.
Proof.
  unfold closeMultipart. cbv zeta.
  change (depth (record CloseMultipart w)) with (depth w).
  destruct (0 <? depth w).
  - destruct (writerAt (record CloseMultipart w) (depth w - 1))
      as [[m|]| |]; try discriminate.
    bstep.
    match goal with
    | |- context [setWriterAt ?a ?b ?c] =>
      destruct (setWriterAt a b c) as [w1| |] eqn:E1; try discriminate
    end.
    destruct (setWriterAt_header _ _ _ E1) as (H1 & _ & _).
    bstep. intros H. apply Done_inj in H. subst w'. cbn [mw_header].
    exact H1.
  - intros H. apply Done_inj in H. subst w'. reflexivity.
Qed.

Lemma writeHeader_header (E : world) (w w' : messageWriter) (h : Header) :
  Forall (fun kv => mimeField (fst kv) = true) h ->
  writeHeader E w h = Done w' -> sameFields (mw_header w) (mw_header w').
Proof.
  intros Hh. unfold writeHeader. cbv zeta.
  change (depth (record (WriteHeader h) w)) with (depth w).
  destruct (depth w =? 0).
  - intros H. apply Done_inj in H. subst w'. cbn [mw_header record].
    now apply sameFields_fold.
  - intros H. rewrite (createPart_header _ _ _ H). apply sameFields_refl.
Qed.

Lemma writeBody_header (w w' : messageWriter) (body : list byte)
      (enc : string) (err : option error) :
  writeBody w body enc = Done (w', err) -> mw_header w' = mw_header w.
Proof.
  unfold writeBody. cbv zeta.
  destruct ((depth (record (WriteBody body enc) w) =? 0)
            || partWriter (record (WriteBody body enc) w)).
  - destruct (encodeBody (buf (record (WriteBody body enc) w)) body enc)
      as [[b e]| |]; try discriminate.
    bstep. intros H. apply Done_inj in H. injection H as <- _. reflexivity.
  - destruct (encodeBody Nil body enc) as [[b e]| |]; try discriminate.
    bstep. intros H. apply Done_inj in H. injection H as <- _. reflexivity.
Qed.

Lemma partHeader_fields (msg : Message) (p : part) :
  Forall (fun kv => mimeField (fst kv) = true) (partHeader msg p).
Proof.
  unfold partHeader. destruct (String.eqb (gomail.encoding msg) Base64);
    repeat constructor.
Qed.

Lemma attachmentHeader_fields (E : world) (a : attachment) :
  Forall (fun kv => mimeField (fst kv) = true) (attachmentHeader E a).
Proof. unfold attachmentHeader. cbv zeta. repeat constructor. Qed.

Lemma exportParts_header (E : world) (msg : Message) (ps : list part) :
  forall w w' err,
    exportParts E msg w ps = Done (w', err) ->
    sameFields (mw_header w) (mw_header w').
Proof.
  induction ps as [|p ps IH]; intros w w' err.
  - intros H. apply Done_inj in H. injection H as <- _.
    apply sameFields_refl.
  - cbn [exportParts].
    destruct (writeHeader E w (partHeader msg p)) as [w1| |] eqn:E1;
      try discriminate.
    bstep.
    destruct (writeBody w1 (body p) (gomail.encoding msg))
      as [[w2 e]| |] eqn:E2; try discriminate.
    bstep.
    pose proof (writeHeader_header _ _ (partHeader_fields msg p) E1) as H1.
    pose proof (writeBody_header _ _ _ E2) as H2.
    destruct e as [e|].
    + intros H. apply Done_inj in H. injection H as <- _.
      now rewrite H2.
    + intros H. eapply sameFields_trans; [exact H1|].
      rewrite <- H2. eapply IH; eauto.
Qed.

Lemma exportAttachments_header (E : world) (ats : list attachment) :
  forall w w' err,
    exportAttachments E w ats = Done (w', err) ->
    sameFields (mw_header w) (mw_header w').
Proof.
  induction ats as [|a ats IH]; intros w w' err.
  - intros H. apply Done_inj in H. injection H as <- _.
    apply sameFields_refl.
  - cbn [exportAttachments].
    destruct (writeHeader E w (attachmentHeader E a)) as [w1| |] eqn:E1;
      try discriminate.
    bstep.
    destruct (writeBody w1 (content a) Base64)
      as [[w2 e]| |] eqn:E2; try discriminate.
    bstep.
    pose proof (writeHeader_header _ _ (attachmentHeader_fields E a) E1)
      as H1.
    pose proof (writeBody_header _ _ _ E2) as H2.
    destruct e as [e|].
    + intros H. apply Done_inj in H. injection H as <- _.
      now rewrite H2.
    + intros H. eapply sameFields_trans; [exact H1|].
      rewrite <- H2. eapply IH; eauto.
Qed.

Lemma exportWriter_header (E : world) (msg : Message) (w : messageWriter)
      (err : option error) :
  exportWriter E msg = Done (w, err) ->
  sameFields (mw_header (newMessageWriter E msg)) (mw_header w).
Proof.
  unfold exportWriter. cbv zeta.
  set (w0 := newMessageWriter E msg).
  assert (S1 : exists w1,
    (if isMixed msg then openMultipart E w0 "mixed" else Done w0) = Done w1
    /\ sameFields (mw_header w0) (mw_header w1)
    \/ (if isMixed msg then openMultipart E w0 "mixed" else Done w0)
       <> Done w1 /\ forall a, (if isMixed msg then openMultipart E w0 "mixed"
                                else Done w0) <> Done a).
  { destruct (isMixed msg).
    - destruct (openMultipart E w0 "mixed") as [w1| |] eqn:E1.
      + exists w1. left. split; [reflexivity|].
        exact (openMultipart_header _ _ _ E1).
      + exists w0. right. split; discriminate.
      + exists w0. right. split; discriminate.
    - exists w0. left. split; [reflexivity | apply sameFields_refl]. }
  destruct S1 as (w1 & [[-> H1]|[_ Hno]]).
  2:{ destruct (if isMixed msg then openMultipart E w0 "mixed" else Done w0)
        as [a| |]; [now destruct (Hno a) | discriminate | discriminate]. }
  bstep.
  assert (S2 : forall r,
    (if isAlternative msg then openMultipart E w1 "alternative" else Done w1)
    = Done r -> sameFields (mw_header w1) (mw_header r)).
  { intros r. destruct (isAlternative msg).
    - apply openMultipart_header.
    - intros H. apply Done_inj in H. subst r. apply sameFields_refl. }
  destruct (if isAlternative msg then openMultipart E w1 "alternative"
            else Done w1) as [w2| |]; try discriminate.
  specialize (S2 w2 eq_refl). bstep.
  destruct (exportParts E msg w2 (parts msg)) as [[w3 e3]| |] eqn:E3;
    try discriminate.
  pose proof (exportParts_header _ _ _ _ E3) as H3. bstep.
  assert (H03 : sameFields (mw_header w0) (mw_header w3)).
  { eapply sameFields_trans; [exact H1|].
    eapply sameFields_trans; [exact S2 | exact H3]. }
  destruct e3 as [e3|].
  { intros H. apply Done_inj in H. injection H as <- _. exact H03. }
  assert (S4 : forall r,
    (if isAlternative msg then closeMultipart E w3 else Done w3) = Done r ->
    mw_header r = mw_header w3).
  { intros r. destruct (isAlternative msg).
    - apply closeMultipart_header.
    - intros H. apply Done_inj in H. now subst r. }
  destruct (if isAlternative msg then closeMultipart E w3 else Done w3)
    as [w4| |]; try discriminate.
  specialize (S4 w4 eq_refl). bstep.
  destruct (exportAttachments E w4 (attachments msg)) as [[w5 e5]| |] eqn:E5;
    try discriminate.
  pose proof (exportAttachments_header _ _ _ E5) as H5. bstep.
  rewrite S4 in H5.
  assert (H05 : sameFields (mw_header w0) (mw_header w5)).
  { eapply sameFields_trans; [exact H03 | exact H5]. }
  destruct e5 as [e5|].
  { intros H. apply Done_inj in H. injection H as <- _. exact H05. }
  assert (S6 : forall r,
    (if isMixed msg then closeMultipart E w5 else Done w5) = Done r ->
    mw_header r = mw_header w5).
  { intros r. destruct (isMixed msg).
    - apply closeMultipart_header.
    - intros H. apply Done_inj in H. now subst r. }
  destruct (if isMixed msg then closeMultipart E w5 else Done w5)
    as [w6| |]; try discriminate.
  specialize (S6 w6 eq_refl). bstep.
  intros H. apply Done_inj in H. injection H as <- _.
  now rewrite S6.
Qed.

(** The header that [newMessageWriter] starts from *)
Lemma newMessageWriter_lookup (E : world) (msg : Message) (k : string) :
  NoDup (map fst (header msg)) ->
  lookup (mw_header (newMessageWriter E msg)) k
  = if String.eqb k "Mime-Version"
    then Some (match lookup (header msg) "Mime-Version" with
               | Some v => v
               | None => ["1.0"%string]
               end)
    else if String.eqb k "Date"
         then Some (match lookup (header msg) "Date" with
                    | Some v => v
                    | None => [date E]
                    end)
         else lookup (header msg) k.
Proof.
  intros Hnd. unfold newMessageWriter. cbv zeta. cbn [mw_header].
  set (h0 := fold_left (fun h kv => assign h (fst kv) (snd kv))
                       (header msg) []).
  assert (L0 : forall k', lookup h0 k' = lookup (header msg) k').
  { intros k'. unfold h0. rewrite (@lookup_fold_assign (header msg) Hnd).
    now destruct (lookup (header msg) k'). }
  set (h1 := match lookup h0 "Mime-Version" with
             | Some _ => h0
             | None => assign h0 "Mime-Version" ["1.0"%string]
             end).
  assert (L1 : forall k',
    lookup h1 k' = if String.eqb k' "Mime-Version"
                   then Some (match lookup (header msg) "Mime-Version" with
                              | Some v => v
                              | None => ["1.0"%string]
                              end)
                   else lookup (header msg) k').
  { intros k'. unfold h1. rewrite <- !L0.
    destruct (String.eqb k' "Mime-Version") eqn:E1.
    - apply String.eqb_eq in E1. subst k'.
      destruct (lookup h0 "Mime-Version") eqn:E2;
        [exact E2 | apply lookup_assign].
    - apply String.eqb_neq in E1.
      destruct (lookup h0 "Mime-Version"); [reflexivity|].
      apply lookup_assign_other. congruence. }
  destruct (String.eqb k "Date") eqn:E2.
  - apply String.eqb_eq in E2. subst k.
    change (String.eqb "Date" "Mime-Version") with false. cbv iota.
    assert (L1d : lookup h1 "Date" = lookup (header msg) "Date")
      by (rewrite L1; reflexivity).
    rewrite <- L1d.
    destruct (lookup h1 "Date") eqn:E3; [exact E3 | apply lookup_assign].
  - apply String.eqb_neq in E2. rewrite <- L1.
    destruct (lookup h1 "Date"); [reflexivity|].
    apply lookup_assign_other. congruence.
Qed.

(** [Export] copies the header of the message: every field that is not a
    MIME field (content type, transfer encoding, disposition) has in the
    exported header the values it has in the message.  [Mime-Version] is
    "1.0" and [Date] the current date unless the message sets them. *)
Theorem Export_keeps_header (E : world) (msg : Message) :
  exportable msg ->
  NoDup (map fst (header msg)) ->
  exists h out,
    Export E msg = Done (Some (h, out), None)
    /\ (forall k, mimeField k = false ->
          k <> "Mime-Version"%string -> k <> "Date"%string ->
          lookup h k = lookup (header msg) k)
    /\ lookup h "Mime-Version"
       = Some (match lookup (header msg) "Mime-Version" with
               | Some v => v
               | None => ["1.0"%string]
               end)
    /\ lookup h "Date"
       = Some (match lookup (header msg) "Date" with
               | Some v => v
               | None => [date E]
               end).
Proof.
  intros Hex Hnd.
  destruct (exportWriter_spec E Hex) as (w & Hw & _).
  pose proof (exportWriter_header _ _ Hw) as Hsame.
  exists (mw_header w), (contents (buf w)).
  split; [unfold Export; rewrite Hw; reflexivity|].
  split; [|split].
  - intros k Hk Hm Hd.
    rewrite (Hsame k Hk), (@newMessageWriter_lookup E msg k Hnd).
    apply String.eqb_neq in Hm, Hd. now rewrite Hm, Hd.
  - rewrite (Hsame "Mime-Version"%string eq_refl),
      (@newMessageWriter_lookup E msg "Mime-Version" Hnd).
    reflexivity.
  - rewrite (Hsame "Date"%string eq_refl),
      (@newMessageWriter_lookup E msg "Date" Hnd).
    reflexivity.
Qed.

Lemma Export_keeps_header_witness :
  exists h out,
    Export testWorld
      (mkMessage [("Subject"%string, ["Hi"%string]);
                  ("Date"%string, ["today"%string])]
                 [mkPart "text/plain" (bs "x")] [] "UTF-8" QuotedPrintable
                 None)
    = Done (Some (h, out), None)
    /\ (forall k, mimeField k = false ->
          k <> "Mime-Version"%string -> k <> "Date"%string ->
          lookup h k
          = lookup [("Subject"%string, ["Hi"%string]);
                    ("Date"%string, ["today"%string])] k)
    /\ lookup h "Mime-Version" = Some ["1.0"%string]
    /\ lookup h "Date" = Some ["today"%string].
Proof.
  apply (@Export_keeps_header testWorld
           (mkMessage [("Subject"%string, ["Hi"%string]);
                       ("Date"%string, ["today"%string])]
                      [mkPart "text/plain" (bs "x")] [] "UTF-8"
                      QuotedPrintable None)).
  - right. repeat constructor.
  - repeat constructor; simpl; intuition discriminate.
Defined.

(** A message with one part and no attachment is exported without a
    multipart: the header of the mail has the content type of the part,
    with the charset, and the transfer encoding of the message, and the body
    of the mail is the encoded body of the part, which decodes to it. *)
Theorem Export_single_part (E : world) (msg : Message) (p : part) :
  parts msg = [p] -> attachments msg = [] ->
  gomail.encoding msg = Base64
  \/ (String.eqb (gomail.encoding msg) Base64 = false
      /\ qpWritable (body p) = true /\ noDanglingCR (body p) = true) ->
  exists h out,
    Export E msg = Done (Some (h, out), None)
    /\ lookup h "Content-Type"
       = Some [(contentType p ++ "; charset=" ++ gomail.charset msg)%string]
    /\ lookup h "Content-Transfer-Encoding"
       = Some [if String.eqb (gomail.encoding msg) Base64
               then Base64 else QuotedPrintable]
    /\ (if String.eqb (gomail.encoding msg) Base64
        then b64DecodeString out = (body p, None)
        else Decode out = Done (body p, None)).
Proof.
  intros Hp Ha Henc.
  assert (Hb : exists out,
    encodeBody (mkBuffer []) (body p) (gomail.encoding msg)
    = Done (mkBuffer out, None)
    /\ (if String.eqb (gomail.encoding msg) Base64
        then b64DecodeString out = (body p, None)
        else Decode out = Done (body p, None))).
  { destruct Henc as [->|(He & Hq & Hx)].
    - destruct (encodeBody_Base64_data [] (body p)) as (out & Hw & Hfil).
      exists out. split; [exact Hw|]. rewrite String.eqb_refl.
      unfold b64DecodeString. now rewrite Hfil, b64quanta_encode.
    - destruct (@encodeBody_QP_lined [] (body p) _ He Hq)
        as (out & l' & Hw & Hl).
      exists out. split; [exact Hw|]. rewrite He. unfold Decode.
      apply (@decode_qplined 0 (Encode (body p)) out l' Hl eq_refl (body p)
               [] [] (mkD 0 0 0 None)); auto.
      unfold len. lia. }
  destruct Hb as (out & Hw & Hdec).
  assert (Hm : isMixed msg = false)
    by (unfold isMixed; rewrite Hp, Ha; reflexivity).
  assert (Hal : isAlternative msg = false)
    by (unfold isAlternative; rewrite Hp; reflexivity).
  unfold Export, exportWriter. cbv zeta. rewrite Hm, Hal, Hp, Ha. bstep.
  cbn [exportParts].
  unfold writeHeader. cbv zeta.
  change (depth (record (WriteHeader (partHeader msg p))
                        (newMessageWriter E msg)) =? 0) with true.
  cbv iota. bstep.
  unfold writeBody. cbv zeta. cbn [depth record partWriter buf].
  change (depth (newMessageWriter E msg) =? 0) with true.
  cbn [orb]. change (buf (newMessageWriter E msg)) with (mkBuffer []).
  rewrite Hw. bstep. cbn [exportAttachments]. bstep.
  do 2 eexists. split; [reflexivity|].
  cbn [export fst snd mw_header buf contents].
  assert (Hph : partHeader msg p
                = [("Content-Type"%string,
                    [(contentType p ++ "; charset="
                      ++ gomail.charset msg)%string]);
                   ("Content-Transfer-Encoding"%string,
                    [if String.eqb (gomail.encoding msg) Base64
                     then Base64 else QuotedPrintable])]).
  { unfold partHeader.
    destruct (String.eqb (gomail.encoding msg) Base64); reflexivity. }
  rewrite Hph. cbn [fold_left fst snd record mw_header].
  split; [|split; [|exact Hdec]].
  - rewrite lookup_assign_other by discriminate. apply lookup_assign.
  - apply lookup_assign.
Qed.

Lemma Export_single_part_witness :
  exists h out,
    Export testWorld
      (mkMessage [] [mkPart "text/plain" (repeat xc3 40 ++ bs " a" ++ [LF] ++ bs "b")] []
                 "UTF-8" QuotedPrintable None)
    = Done (Some (h, out), None)
    /\ lookup h "Content-Type" = Some ["text/plain; charset=UTF-8"%string]
    /\ lookup h "Content-Transfer-Encoding" = Some [QuotedPrintable]
    /\ Decode out = Done (repeat xc3 40 ++ bs " a" ++ [LF] ++ bs "b", None).
Proof.
  apply (@Export_single_part testWorld
           (mkMessage [] [mkPart "text/plain" (repeat xc3 40 ++ bs " a" ++ [LF] ++ bs "b")]
                      [] "UTF-8" QuotedPrintable None)
           (mkPart "text/plain" (repeat xc3 40 ++ bs " a" ++ [LF] ++ bs "b"))); try reflexivity.
  right. repeat split; reflexivity.
Defined.

(** ** The header of a message *)



Lemma assign_keys (h : Header) (k : string) (v : list string) :
  NoDup (map fst h) ->
  NoDup (map fst (assign h k v))
  /\ forall x, In x (map fst (assign h k v)) -> x = k \/ In x (map fst h).
Proof.
  induction h as [|[k0 v0] t IH]; intros Hnd.
  - split.
    + simpl. apply NoDup_cons; [intros [] | apply NoDup_nil].
    + simpl. intros x [->|[]]. now left.
  - simpl map in Hnd. inversion Hnd as [|? ? Hnin Hnd']; subst.
    destruct (IH Hnd') as [IH1 IH2]. cbn [assign].
    destruct (String.eqb k0 k) eqn:E.
    + apply String.eqb_eq in E. subst k0. split; [exact Hnd|].
      simpl. tauto.
    + split.
      * simpl. constructor; [|exact IH1]. intros Hin.
        destruct (IH2 _ Hin) as [->|Hin']; [|tauto].
        now rewrite String.eqb_refl in E.
      * simpl. intros x [->|Hin]; [tauto|].
        destruct (IH2 _ Hin); tauto.
Qed.


Lemma encodeHeader_returns (msg : Message) (e : HeaderEncoder)
      (value : string) :
  hEncoder msg = Some e ->
  exists out,
    EncodeHeader e (bs value) = Done out
    /\ encodeHeader msg value = Done (string_of_list_byte out)
    /\ (needsEncoding (bs value) = false -> string_of_list_byte out = value).
Proof.
  intros He. unfold encodeHeader. rewrite He. unfold EncodeHeader.
  destruct (needsEncoding (bs value)); cbn [negb].
  - destruct (encodeWord_returns e (bs value)) as (mid & ->). bstep.
    eexists. split; [reflexivity|]. split; [reflexivity | discriminate].
  - bstep. exists (bs value). split; [reflexivity|].
    split; [reflexivity|]. intros _. apply string_of_list_byte_of_string.
Qed.

(** [SetHeader] on a message with an encoder returns: the field then has
    one value, the value encoded by [EncodeHeader] (the value itself when
    it needs no encoding), every other field has the values it had, and
    the keys of the header stay distinct. *)
Theorem SetHeader_GetHeader (msg : Message) (e : HeaderEncoder)
        (field value : string) :
  hEncoder msg = Some e ->
  NoDup (map fst (header msg)) ->
  exists msg' out,
    SetHeader msg field value = Done msg'
    /\ EncodeHeader e (bs value) = Done out
    /\ GetHeader msg' field = [string_of_list_byte out]
    /\ (needsEncoding (bs value) = false -> GetHeader msg' field = [value])
    /\ (forall g, g <> field -> GetHeader msg' g = GetHeader msg g)
    /\ NoDup (map fst (header msg')).
Proof.
  intros He Hnd.
  destruct (encodeHeader_returns msg value He) as (out & Hout & Henc & Hplain).
  unfold SetHeader. rewrite Henc. bstep.
  eexists. exists out. split; [reflexivity|]. split; [exact Hout|].
  unfold GetHeader, withHeader. cbn [header].
  rewrite lookup_assign.
  split; [reflexivity|]. split; [intros Hn; now rewrite (Hplain Hn)|].
  split.
  - intros g Hg. rewrite lookup_assign_other by congruence. reflexivity.
  - now apply assign_keys.
Qed.

Lemma SetHeader_GetHeader_witness :
  exists msg' out,
    SetHeader NewMessage "Subject" "Hello" = Done msg'
    /\ EncodeHeader StdHeaderEncoder (bs "Hello") = Done out
    /\ GetHeader msg' "Subject" = [string_of_list_byte out]
    /\ (needsEncoding (bs "Hello") = false
        -> GetHeader msg' "Subject" = ["Hello"%string])
    /\ (forall g, g <> "Subject"%string
                  -> GetHeader msg' g = GetHeader NewMessage g)
    /\ NoDup (map fst (header msg')).
Proof.
  apply (@SetHeader_GetHeader NewMessage StdHeaderEncoder "Subject" "Hello").
  - reflexivity.
  - constructor.
Defined.



(** ** [Export] returns no error *)








(** ** Package mailer *)

Section MailerProperties.

Variable Auth : Type.
Variable ParseAddress : string -> string + mailer.error.
Variable sendMail : mailer.sent Auth -> option mailer.error.

Lemma isInList_In (a : string) (l : list string) :
  mailer.isInList a l = true <-> In a l.
Proof.
  induction l as [|b l IH]; simpl.
  - split; [discriminate | tauto].
  - destruct (String.eqb a b) eqn:E.
    + apply String.eqb_eq in E. subst b. tauto.
    + apply String.eqb_neq in E. rewrite IH. split; [tauto|].
      intros [H|H]; [congruence | exact H].
Qed.

Lemma isInList_not_In (a : string) (l : list string) :
  mailer.isInList a l = false <-> ~ In a l.
Proof.
  rewrite <- isInList_In. destruct (mailer.isInList a l); split;
    congruence.
Qed.

Lemma NoDup_snoc (a : string) (l : list string) :
  NoDup l -> ~ In a l -> NoDup (l ++ [a]).
Proof.
  intros Hl Ha. apply NoDup_app; [exact Hl | repeat constructor; auto |].
  intros x Hx [<-|[]]. exact (Ha Hx).
Qed.

(** What the loop of [getRecipients] over the values of the field Bcc
    does, from no recipient: it collects the parsed addresses once each. *)
Lemma addValue_Bcc (vs : list string) :
  forall bcc,
    NoDup bcc ->
    exists bcc',
      fold_left (mailer.addValue ParseAddress "Bcc") vs ([], bcc)
      = ([], bcc')
      /\ NoDup bcc'
      /\ forall a, In a bcc' <->
                   In a bcc \/ exists v, In v vs /\ ParseAddress v = inl a.
Proof.
  induction vs as [|v vs IH]; intros bcc Hnd.
  - exists bcc. split; [reflexivity|]. split; [exact Hnd|].
    intros a. split; [tauto|]. intros [H|(v & [] & _)]. exact H.
  - cbn [fold_left]. unfold mailer.addValue at 2, mailer.parseAddress.
    destruct (ParseAddress v) as [address|err] eqn:Ep.
    + change (String.eqb "Bcc" "Bcc") with true. cbv iota.
      destruct (mailer.isInList address bcc) eqn:Ein; cbn [negb].
      * destruct (IH bcc Hnd) as (bcc' & -> & Hnd' & Hin).
        exists bcc'. split; [reflexivity|]. split; [exact Hnd'|].
        intros a. rewrite Hin. split.
        -- intros [H|(v' & Hv' & Hp)]; [tauto|].
           right. exists v'. split; [now right | exact Hp].
        -- intros [H|(v' & [<-|Hv'] & Hp)]; [tauto | |].
           ++ left. apply isInList_In in Ein. congruence.
           ++ right. eauto.
      * apply isInList_not_In in Ein.
        destruct (IH (bcc ++ [address]) (@NoDup_snoc address bcc Hnd Ein))
          as (bcc' & -> & Hnd' & Hin).
        exists bcc'. split; [reflexivity|]. split; [exact Hnd'|].
        intros a. rewrite Hin, in_app_iff. split.
        -- intros [[H|[<-|[]]]|(v' & Hv' & Hp)]; [tauto | |].
           ++ right. exists v. split; [now left | exact Ep].
           ++ right. exists v'. split; [now right | exact Hp].
        -- intros [H|(v' & [<-|Hv'] & Hp)]; [tauto | |].
           ++ left. right. left. congruence.
           ++ right. eauto.
    + destruct (IH bcc Hnd) as (bcc' & -> & Hnd' & Hin).
      exists bcc'. split; [reflexivity|]. split; [exact Hnd'|].
      intros a. rewrite Hin. split.
      * intros [H|(v' & Hv' & Hp)]; [tauto|].
        right. exists v'. split; [now right | exact Hp].
      * intros [H|(v' & [<-|Hv'] & Hp)]; [tauto | congruence |].
        right. eauto.
Qed.

(** The loop over the values of another field: it adds to the recipients
    the parsed addresses that are neither blind-copy recipients nor
    recipients yet. *)
Lemma addValue_other (field : string) (bcc vs : list string) :
  String.eqb field "Bcc" = false ->
  forall rs,
    NoDup rs -> (forall a, In a rs -> ~ In a bcc) ->
    exists rs',
      fold_left (mailer.addValue ParseAddress field) vs (rs, bcc)
      = (rs', bcc)
      /\ NoDup rs'
      /\ (forall a, In a rs' -> ~ In a bcc)
      /\ forall a, In a rs' <->
                   In a rs
                   \/ ((exists v, In v vs /\ ParseAddress v = inl a)
                       /\ ~ In a bcc).
Proof.
  intros Hf. induction vs as [|v vs IH]; intros rs Hnd Hdis.
  - exists rs. split; [reflexivity|]. split; [exact Hnd|].
    split; [exact Hdis|].
    intros a. split; [tauto|]. intros [H|((v & [] & _) & _)]. exact H.
  - cbn [fold_left]. unfold mailer.addValue at 2, mailer.parseAddress.
    destruct (ParseAddress v) as [address|err] eqn:Ep.
    + rewrite Hf.
      destruct (mailer.isInList address bcc) eqn:Eb; cbn [negb andb].
      * apply isInList_In in Eb.
        destruct (IH rs Hnd Hdis) as (rs' & -> & Hnd' & Hdis' & Hin).
        exists rs'. split; [reflexivity|]. split; [exact Hnd'|].
        split; [exact Hdis'|].
        intros a. rewrite Hin. split.
        -- intros [H|((v' & Hv' & Hp) & Hn)]; [tauto|].
           right. split; [|exact Hn]. exists v'. split; [now right|exact Hp].
        -- intros [H|((v' & [<-|Hv'] & Hp) & Hn)]; [tauto | |].
           ++ exfalso. apply Hn. congruence.
           ++ right. split; [eauto | exact Hn].
      * apply isInList_not_In in Eb.
        destruct (mailer.isInList address rs) eqn:Er; cbn [negb].
        -- apply isInList_In in Er.
           destruct (IH rs Hnd Hdis) as (rs' & -> & Hnd' & Hdis' & Hin).
           exists rs'. split; [reflexivity|]. split; [exact Hnd'|].
           split; [exact Hdis'|].
           intros a. rewrite Hin. split.
           ++ intros [H|((v' & Hv' & Hp) & Hn)]; [tauto|].
              right. split; [|exact Hn].
              exists v'. split; [now right|exact Hp].
           ++ intros [H|((v' & [<-|Hv'] & Hp) & Hn)]; [tauto | |].
              ** left. congruence.
              ** right. split; [eauto | exact Hn].
        -- apply isInList_not_In in Er.
           destruct (IH (rs ++ [address]) (@NoDup_snoc address rs Hnd Er))
             as (rs' & -> & Hnd' & Hdis' & Hin).
           { intros a Ha. apply in_app_iff in Ha.
             destruct Ha as [Ha|[<-|[]]]; [now apply Hdis | exact Eb]. }
           exists rs'. split; [reflexivity|]. split; [exact Hnd'|].
           split; [exact Hdis'|].
           intros a. rewrite Hin, in_app_iff. split.
           ++ intros [[H|[<-|[]]]|((v' & Hv' & Hp) & Hn)]; [tauto | |].
              ** right. split; [|exact Eb].
                 exists v. split; [now left | exact Ep].
              ** right. split; [|exact Hn].
                 exists v'. split; [now right|exact Hp].
           ++ intros [H|((v' & [<-|Hv'] & Hp) & Hn)]; [tauto | |].
              ** left. right. left. congruence.
              ** right. split; [eauto | exact Hn].
    + destruct (IH rs Hnd Hdis) as (rs' & -> & Hnd' & Hdis' & Hin).
      exists rs'. split; [reflexivity|]. split; [exact Hnd'|].
      split; [exact Hdis'|].
      intros a. rewrite Hin. split.
      * intros [H|((v' & Hv' & Hp) & Hn)]; [tauto|].
        right. split; [|exact Hn]. exists v'. split; [now right|exact Hp].
      * intros [H|((v' & [<-|Hv'] & Hp) & Hn)]; [tauto | congruence |].
        right. split; [eauto | exact Hn].
Qed.

Lemma addField_values (msg : mailer.Message)
      (acc : list string * list string) (field : string) :
  mailer.addField ParseAddress msg acc field
  = fold_left (mailer.addValue ParseAddress field)
              (mailer.values (mailer.Header msg) field) acc.
Proof.
  unfold mailer.addField, mailer.values.
  destruct (lookup (mailer.Header msg) field); reflexivity.
Qed.

(** [getRecipients], field by field *)
Lemma getRecipients_fields (msg : mailer.Message) :
  exists rs bcc,
    mailer.getRecipients ParseAddress msg = (rs, bcc)
    /\ NoDup rs /\ NoDup bcc
    /\ (forall a, In a rs -> ~ In a bcc)
    /\ (forall a, In a bcc <->
          exists v, In v (mailer.values (mailer.Header msg) "Bcc")
                    /\ ParseAddress v = inl a)
    /\ (forall a, In a rs <->
          (exists v,
             (In v (mailer.values (mailer.Header msg) "To")
              \/ In v (mailer.values (mailer.Header msg) "Cc"))
             /\ ParseAddress v = inl a)
          /\ ~ In a bcc).
Proof.
  unfold mailer.getRecipients, mailer.destinationFields.
  cbn [fold_left]. rewrite !addField_values.
  destruct (@addValue_Bcc (mailer.values (mailer.Header msg) "Bcc") [])
    as (bcc & -> & Hb & Hinb); [constructor|].
  destruct (@addValue_other "To" bcc
              (mailer.values (mailer.Header msg) "To") eq_refl [])
    as (r1 & -> & Hr1 & Hd1 & Hin1); [constructor | intros a [] |].
  destruct (@addValue_other "Cc" bcc
              (mailer.values (mailer.Header msg) "Cc") eq_refl r1 Hr1 Hd1)
    as (r2 & -> & Hr2 & Hd2 & Hin2).
  exists r2, bcc. split; [reflexivity|]. split; [exact Hr2|].
  split; [exact Hb|]. split; [exact Hd2|]. split.
  - intros a. rewrite Hinb. split; [intros [[]|H]; exact H | tauto].
  - intros a. rewrite Hin2, Hin1. split.
    + intros [[[]|((v & Hv & Hp) & Hn)]|((v & Hv & Hp) & Hn)];
        (split; [exists v; tauto | exact Hn]).
    + intros ((v & [Hv|Hv] & Hp) & Hn).
      * left. right. split; [eauto | exact Hn].
      * right. split; [eauto | exact Hn].
Qed.

(** The two lists of [getRecipients] have no address twice, and no
    address is in both: an address that is a blind-copy recipient is not
    a recipient, whatever the fields To and Cc hold. *)
Theorem getRecipients_distinct (msg : mailer.Message) :
  NoDup (fst (mailer.getRecipients ParseAddress msg)
         ++ snd (mailer.getRecipients ParseAddress msg)).
Proof.
  destruct (getRecipients_fields msg)
    as (rs & bcc & -> & Hr & Hb & Hd & _). cbn [fst snd].
  apply NoDup_app; assumption.
Qed.

(** Who gets the mail: the blind-copy recipients are the addresses that
    [mail.ParseAddress] finds in the values of Bcc, the recipients those it
    finds in the values of To and Cc that are not blind-copy recipients;
    a value that does not parse is skipped. *)
Theorem getRecipients_members (msg : mailer.Message) (a : string) :
  (In a (snd (mailer.getRecipients ParseAddress msg)) <->
     exists v, In v (mailer.values (mailer.Header msg) "Bcc")
               /\ ParseAddress v = inl a)
  /\ (In a (fst (mailer.getRecipients ParseAddress msg)) <->
        (exists v,
           (In v (mailer.values (mailer.Header msg) "To")
            \/ In v (mailer.values (mailer.Header msg) "Cc"))
           /\ ParseAddress v = inl a)
        /\ ~ In a (snd (mailer.getRecipients ParseAddress msg))).
Proof.
  destruct (getRecipients_fields msg)
    as (rs & bcc & -> & _ & _ & _ & Hb & Hr). cbn [fst snd].
  split; [apply Hb | apply Hr].
Qed.

Lemma concat_empty_cons (x : string) (l : list string) :
  String.concat "" (x :: l) = (x ++ String.concat "" l)%string.
Proof.
  destruct l as [|y l]; [|reflexivity].
  simpl. induction x as [|c x IH]; [reflexivity|].
  simpl. now rewrite <- IH.
Qed.

(** The header of the mail for the recipients, flattened with no
    blind-copy address, has no line for the field Bcc: it is the header
    flattened without that field, for any address. *)
Theorem flattenHeader_hides_Bcc (msg : mailer.Message) (to : string) :
  mailer.flattenHeader msg ""
  = mailer.flattenHeader
      (mailer.mkMessage (delete (mailer.Header msg) "Bcc") (mailer.Body msg))
      to.
Proof.
  unfold mailer.flattenHeader. cbn [mailer.Header]. f_equal. f_equal.
  induction (mailer.Header msg) as [|[k v] h IH]; [reflexivity|].
  unfold delete in *. cbn [map filter fst].
  destruct (String.eqb k "Bcc") eqn:E; cbn [negb].
  - rewrite concat_empty_cons, IH.
    unfold mailer.flattenField. rewrite E. reflexivity.
  - cbn [map]. rewrite !concat_empty_cons, IH.
    unfold mailer.flattenField. rewrite E. reflexivity.
Qed.

Lemma sendBcc_spec (m : mailer.Mailer Auth) (msg : mailer.Message)
      (from : string) (body : list byte) (bcc : list string) :
  forall log,
    exists tos rest,
      bcc = tos ++ rest
      /\ fst (mailer.sendBcc sendMail m msg from body bcc log)
         = log ++ map (mailer.bccCall m msg from body) tos
      /\ match snd (mailer.sendBcc sendMail m msg from body bcc log) with
         | None =>
           rest = []
           /\ Forall (fun to => sendMail (mailer.bccCall m msg from body to)
                                = None) tos
         | Some e =>
           exists pre to,
             tos = pre ++ [to]
             /\ sendMail (mailer.bccCall m msg from body to) = Some e
             /\ Forall (fun to => sendMail (mailer.bccCall m msg from body to)
                                  = None) pre
         end.
Proof.
  induction bcc as [|to bcc IH]; intros log.
  - exists [], []. cbn [mailer.sendBcc fst snd map].
    split; [reflexivity|]. split; [now rewrite app_nil_r|].
    split; [reflexivity | constructor].
  - cbn [mailer.sendBcc]. cbv zeta.
    fold (mailer.bccCall m msg from body to).
    destruct (sendMail (mailer.bccCall m msg from body to)) as [e|] eqn:Es.
    + exists [to], bcc. cbn [fst snd map]. split; [reflexivity|].
      split; [reflexivity|]. exists [], to. repeat split; auto.
    + destruct (IH (log ++ [mailer.bccCall m msg from body to]))
        as (tos & rest & Hb & Hlog & Herr).
      exists (to :: tos), rest. split; [now rewrite Hb|].
      split; [rewrite Hlog, <- app_assoc; reflexivity|].
      destruct (snd (mailer.sendBcc sendMail m msg from body bcc
                       (log ++ [mailer.bccCall m msg from body to])))
        as [e|].
      * destruct Herr as (pre & to' & -> & He & Hpre).
        exists (to :: pre), to'. repeat split; auto.
      * destruct Herr as [-> Hall]. split; [reflexivity|].
        constructor; assumption.
Qed.

(** When the sender is found and the body is read, and no call of
    [sendMail] fails, [Send] makes one call with all the recipients and
    the header without the field Bcc, then one call for each blind-copy
    recipient, in order, with that recipient alone, and returns nil. *)
Theorem Send_calls (m : mailer.Mailer Auth) (msg : mailer.Message)
        (from : string) (body : list byte) :
  mailer.getFrom ParseAddress msg = (from, None) ->
  mailer.Body msg = (body, None) ->
  Forall (fun c => sendMail c = None)
         (mailer.firstCall ParseAddress m msg from body
          :: map (mailer.bccCall m msg from body)
                 (snd (mailer.getRecipients ParseAddress msg))) ->
  mailer.Send ParseAddress sendMail m msg
  = (mailer.firstCall ParseAddress m msg from body
     :: map (mailer.bccCall m msg from body)
            (snd (mailer.getRecipients ParseAddress msg)), None).
Proof.
  intros Hfrom Hbody Hall. unfold mailer.Send. rewrite Hfrom, Hbody.
  unfold mailer.firstCall in *.
  destruct (mailer.getRecipients ParseAddress msg) as [rs bcc].
  cbn [fst snd] in *. cbv zeta.
  inversion Hall as [|? ? H1 Hrest]; subst. rewrite H1.
  clear Hall H1.
  set (c := mailer.mkSent (mailer.addr m) (mailer.auth m) from rs
              (mailer.flattenHeader msg "" ++ body)).
  change (c :: map (mailer.bccCall m msg from body) bcc)
    with ([c] ++ map (mailer.bccCall m msg from body) bcc).
  generalize [c] as log. clear c.
  induction bcc as [|to bcc IH]; intros log.
  - cbn [mailer.sendBcc map]. now rewrite app_nil_r.
  - inversion Hrest as [|? ? H1 H2]; subst.
    cbn [mailer.sendBcc]. cbv zeta.
    fold (mailer.bccCall m msg from body to). rewrite H1.
    rewrite (IH H2). cbn [map]. rewrite <- app_assoc. reflexivity.
Qed.

(** Whatever the calls of [sendMail] return, [Send] hands no address to
    it twice: the recipients of all the calls it makes are distinct. *)
Theorem Send_each_address_once (m : mailer.Mailer Auth)
        (msg : mailer.Message) :
  NoDup (concat (map (@mailer.s_to Auth)
                     (fst (mailer.Send ParseAddress sendMail m msg)))).
Proof.
  unfold mailer.Send.
  destruct (mailer.getFrom ParseAddress msg) as [from [e|]];
    [constructor|].
  destruct (getRecipients_fields msg) as (rs & bcc & -> & Hr & Hb & Hd & _).
  cbv zeta.
  destruct (mailer.Body msg) as [body [e|]]; [constructor|].
  match goal with
  | |- context [sendMail ?c] => set (c0 := c)
  end.
  destruct (sendMail c0) as [e|].
  { cbn [fst map concat mailer.s_to c0]. now rewrite app_nil_r. }
  destruct (sendBcc_spec m msg from body bcc [c0])
    as (tos & rest & Hbcc & -> & _).
  rewrite map_app, concat_app, map_map. cbn [map concat mailer.s_to c0].
  rewrite app_nil_r.
  assert (Hs : concat (map (fun x => mailer.s_to (mailer.bccCall m msg from
                                                     body x)) tos) = tos).
  { clear. induction tos as [|t tos IH]; [reflexivity|].
    cbn [map concat]. rewrite IH. reflexivity. }
  rewrite Hs. subst bcc.
  apply NoDup_app.
  - exact Hr.
  - apply NoDup_app_remove_r in Hb. exact Hb.
  - intros a Ha Hin. apply (Hd a Ha). apply in_or_app. now left.
Qed.

(** [Send] stops at the first error: when it returns an error it has made
    no call (the sender or the body failed) or the last call it made is
    the one that returned the error, and no call before it failed. *)
Theorem Send_stops_at_error (m : mailer.Mailer Auth) (msg : mailer.Message)
        (log : list (mailer.sent Auth)) (e : mailer.error) :
  mailer.Send ParseAddress sendMail m msg = (log, Some e) ->
  log = []
  \/ exists pre c,
       log = pre ++ [c] /\ sendMail c = Some e
       /\ Forall (fun c => sendMail c = None) pre.
Proof.
  unfold mailer.Send.
  destruct (mailer.getFrom ParseAddress msg) as [from [e0|]].
  { intros H. injection H as <- _. now left. }
  destruct (mailer.getRecipients ParseAddress msg) as [rs bcc]. cbv zeta.
  destruct (mailer.Body msg) as [body [e0|]].
  { intros H. injection H as <- _. now left. }
  match goal with
  | |- context [sendMail ?c] => set (c0 := c)
  end.
  destruct (sendMail c0) as [e0|] eqn:E0.
  { intros H. injection H as <- <-. right. exists [], c0.
    repeat split; auto. }
  intros H.
  destruct (sendBcc_spec m msg from body bcc [c0])
    as (tos & rest & _ & Hlog & Herr).
  rewrite H in Hlog, Herr. cbn [fst snd] in Hlog, Herr.
  destruct Herr as (pre & to & -> & He & Hpre).
  right. exists (c0 :: map (mailer.bccCall m msg from body) pre),
                (mailer.bccCall m msg from body to).
  split; [rewrite Hlog, map_app; reflexivity|]. split; [exact He|].
  constructor; [exact E0|]. now apply Forall_map.
Qed.

End MailerProperties.

Lemma Send_calls_witness :
  mailer.Send (fun s => inl s) (fun _ => None)
    (mailer.NewCustomMailer tt "smtp.example.com:25")
    (mailer.mkMessage
       [("From"%string, ["a@example.com"%string]);
        ("To"%string, ["b@example.com"; "c@example.com"]%string);
        ("Bcc"%string, ["d@example.com"; "b@example.com"]%string)]
       (bs "Hi", None))
  = (mailer.firstCall (fun s => inl s)
       (mailer.NewCustomMailer tt "smtp.example.com:25")
       (mailer.mkMessage
          [("From"%string, ["a@example.com"%string]);
           ("To"%string, ["b@example.com"; "c@example.com"]%string);
           ("Bcc"%string, ["d@example.com"; "b@example.com"]%string)]
          (bs "Hi", None))
       "a@example.com" (bs "Hi")
     :: map (mailer.bccCall
               (mailer.NewCustomMailer tt "smtp.example.com:25")
               (mailer.mkMessage
                  [("From"%string, ["a@example.com"%string]);
                   ("To"%string, ["b@example.com"; "c@example.com"]%string);
                   ("Bcc"%string, ["d@example.com"; "b@example.com"]%string)]
                  (bs "Hi", None))
               "a@example.com" (bs "Hi"))
            ["d@example.com"; "b@example.com"]%string,
     None).
Proof.
  apply (@Send_calls unit (fun s => inl s) (fun _ => None)).
  - reflexivity.
  - reflexivity.
  - repeat constructor.
Defined.

Lemma Send_stops_at_error_witness :
  mailer.Send (fun s => inl s)
    (fun c => match mailer.s_to c with
              | [_] => Some (mailer.ErrLibrary "550")
              | _ => None
              end)
    (mailer.NewCustomMailer tt "smtp.example.com:25")
    (mailer.mkMessage
       [("From"%string, ["a@example.com"%string]);
        ("To"%string, ["b@example.com"; "c@example.com"]%string);
        ("Bcc"%string, ["d@example.com"; "e@example.com"]%string)]
       (bs "Hi", None))
  = ([mailer.mkSent "smtp.example.com:25" tt "a@example.com"
        ["b@example.com"; "c@example.com"]%string
        (bs ("From: a@example.com" ++ crlf
             ++ "To: b@example.com, c@example.com" ++ crlf ++ crlf ++ "Hi"));
      mailer.mkSent "smtp.example.com:25" tt "a@example.com"
        ["d@example.com"%string]
        (bs ("From: a@example.com" ++ crlf
             ++ "To: b@example.com, c@example.com" ++ crlf
             ++ "Bcc: d@example.com" ++ crlf ++ crlf ++ "Hi"))],
     Some (mailer.ErrLibrary "550"))
  /\ exists pre c,
       [mailer.mkSent "smtp.example.com:25" tt "a@example.com"
          ["b@example.com"; "c@example.com"]%string
          (bs ("From: a@example.com" ++ crlf
               ++ "To: b@example.com, c@example.com" ++ crlf ++ crlf
               ++ "Hi"));
        mailer.mkSent "smtp.example.com:25" tt "a@example.com"
          ["d@example.com"%string]
          (bs ("From: a@example.com" ++ crlf
               ++ "To: b@example.com, c@example.com" ++ crlf
               ++ "Bcc: d@example.com" ++ crlf ++ crlf ++ "Hi"))]
       = pre ++ [c]
       /\ match mailer.s_to c with
          | [_] => Some (mailer.ErrLibrary "550")
          | _ => None
          end = Some (mailer.ErrLibrary "550")
       /\ Forall (fun c => match mailer.s_to c with
                           | [_] => Some (mailer.ErrLibrary "550")
                           | _ => None
                           end = None) pre.
Proof.
  split; [reflexivity|].
  destruct (@Send_stops_at_error unit (fun s => inl s)
              (fun c => match mailer.s_to c with
                        | [_] => Some (mailer.ErrLibrary "550")
                        | _ => None
                        end)
              (mailer.NewCustomMailer tt "smtp.example.com:25")
              (mailer.mkMessage
                 [("From"%string, ["a@example.com"%string]);
                  ("To"%string, ["b@example.com"; "c@example.com"]%string);
                  ("Bcc"%string, ["d@example.com"; "e@example.com"]%string)]
                 (bs "Hi", None))
              _ _ eq_refl) as [H|H]; [discriminate H | exact H].
Defined.

(** ** Sending a message *)

Section SendProperties.

Variable Auth : Type.
Variable ParseAddress : string -> string + mailer.error.
Variable sendMail : mailer.sent Auth -> option mailer.error.

(** [gomail.Mailer.Send] exports the message and hands the mail to
    [mailer.Send]; the sender and the recipients that [mailer.Send] finds
    in the exported header are those of the header of the message. *)
Theorem Mailer_Send_exported (E : world) (m : mailer.Mailer Auth)
        (message : Message) :
  exportable message ->
  NoDup (map fst (header message)) ->
  exists h out,
    Export E message = Done (Some (h, out), None)
    /\ Mailer_Send ParseAddress sendMail E m message
       = Done (mailer.Send ParseAddress sendMail m
                 (mailer.mkMessage h (out, None)))
    /\ mailer.getFrom ParseAddress (mailer.mkMessage h (out, None))
       = mailer.getFrom ParseAddress
           (mailer.mkMessage (header message) (out, None))
    /\ mailer.getRecipients ParseAddress (mailer.mkMessage h (out, None))
       = mailer.getRecipients ParseAddress
           (mailer.mkMessage (header message) (out, None)).
Proof.
  intros Hex Hnd.
  destruct (exportWriter_spec E Hex) as (w & Hw & _).
  pose proof (exportWriter_header _ _ Hw) as Hsame.
  assert (HE : Export E message
               = Done (Some (mw_header w, contents (buf w)), None))
    by (unfold Export; rewrite Hw; reflexivity).
  exists (mw_header w), (contents (buf w)).
  split; [exact HE|].
  split; [unfold Mailer_Send; rewrite HE; reflexivity|].
  assert (L : forall k,
    mimeField k = false -> String.eqb k "Mime-Version" = false ->
    String.eqb k "Date" = false ->
    lookup (mw_header w) k = lookup (header message) k).
  { intros k Hk Hm Hd.
    rewrite (Hsame k Hk), (@newMessageWriter_lookup E message k Hnd).
    now rewrite Hm, Hd. }
  split.
  - unfold mailer.getFrom, mailer.Get. cbn [mailer.Header].
    rewrite !L by reflexivity. reflexivity.
  - unfold mailer.getRecipients, mailer.destinationFields,
      mailer.addField.
    cbn [fold_left mailer.Header]. rewrite !L by reflexivity. reflexivity.
Qed.

End SendProperties.

Lemma Mailer_Send_exported_witness :
  exists h out,
    Export testWorld
      (gomail.mkMessage
         [("From"%string, ["a@example.com"%string]);
          ("To"%string, ["b@example.com"%string])]
         [mkPart "text/plain" (bs "Hi")] [] "UTF-8" QuotedPrintable None)
    = Done (Some (h, out), None)
    /\ Mailer_Send (fun s => inl s) (fun _ => None) testWorld
         (mailer.NewCustomMailer tt "smtp.example.com:25")
         (gomail.mkMessage
            [("From"%string, ["a@example.com"%string]);
             ("To"%string, ["b@example.com"%string])]
            [mkPart "text/plain" (bs "Hi")] [] "UTF-8" QuotedPrintable None)
       = Done (mailer.Send (fun s => inl s) (fun _ => None)
                 (mailer.NewCustomMailer tt "smtp.example.com:25")
                 (mailer.mkMessage h (out, None)))
    /\ mailer.getFrom (fun s => inl s) (mailer.mkMessage h (out, None))
       = mailer.getFrom (fun s => inl s)
           (mailer.mkMessage
              [("From"%string, ["a@example.com"%string]);
               ("To"%string, ["b@example.com"%string])] (out, None))
    /\ mailer.getRecipients (fun s => inl s)
         (mailer.mkMessage h (out, None))
       = mailer.getRecipients (fun s => inl s)
           (mailer.mkMessage
              [("From"%string, ["a@example.com"%string]);
               ("To"%string, ["b@example.com"%string])] (out, None)).
Proof.
  apply (@Mailer_Send_exported unit (fun s => inl s) (fun _ => None)
           testWorld (mailer.NewCustomMailer tt "smtp.example.com:25")
           (gomail.mkMessage
              [("From"%string, ["a@example.com"%string]);
               ("To"%string, ["b@example.com"%string])]
              [mkPart "text/plain" (bs "Hi")] [] "UTF-8" QuotedPrintable
              None)).
  - right. repeat constructor.
  - repeat constructor; simpl; intuition discriminate.
Defined.

Section SendCalls.

Variable Auth : Type.
Variable ParseAddress : string -> string + mailer.error.
Variable sendMail : mailer.sent Auth -> option mailer.error.

Lemma sendBcc_calls (m : mailer.Mailer Auth) (msg : mailer.Message)
      (from : string) (body : list byte) (P : mailer.sent Auth -> Prop) :
  (forall to, P (mailer.bccCall m msg from body to)) ->
  forall bcc log,
    Forall P log ->
    Forall P (fst (mailer.sendBcc sendMail m msg from body bcc log)).
Proof.
  intros HP. induction bcc as [|to bcc IH]; intros log Hlog; [exact Hlog|].
  cbn [mailer.sendBcc]. cbv zeta.
  fold (mailer.bccCall m msg from body to).
  assert (Hlog' : Forall P (log ++ [mailer.bccCall m msg from body to])).
  { apply Forall_app. split; [exact Hlog|]. constructor; [apply HP|].
    constructor. }
  destruct (sendMail (mailer.bccCall m msg from body to));
    [exact Hlog' | now apply IH].
Qed.

(** Every call of [sendMail] that [Send] makes goes to the server of the
    mailer with its authentication, has as sender the address that
    [getFrom] finds (the field Sender when it has a value, else From) and
    carries a mail that ends with the body; with no sender address, no call
    is made. *)
Theorem Send_sender (m : mailer.Mailer Auth) (msg : mailer.Message)
        (c : mailer.sent Auth) :
  In c (fst (mailer.Send ParseAddress sendMail m msg)) ->
  mailer.s_addr c = mailer.addr m
  /\ mailer.s_auth c = mailer.auth m
  /\ mailer.getFrom ParseAddress msg = (mailer.s_from c, None)
  /\ (mailer.getFrom ParseAddress msg
      = if String.eqb (mailer.Get (mailer.Header msg) "Sender") ""
        then if String.eqb (mailer.Get (mailer.Header msg) "From") ""
             then (EmptyString, Some mailer.ErrFromAbsent)
             else mailer.parseAddress ParseAddress
                    (mailer.Get (mailer.Header msg) "From")
        else mailer.parseAddress ParseAddress
               (mailer.Get (mailer.Header msg) "Sender"))
  /\ exists h, mailer.s_msg c = h ++ fst (mailer.Body msg).
Proof.
  intros Hin.
  assert (Hall : Forall (fun c =>
            mailer.s_addr c = mailer.addr m
            /\ mailer.s_auth c = mailer.auth m
            /\ mailer.getFrom ParseAddress msg = (mailer.s_from c, None)
            /\ exists h, mailer.s_msg c = h ++ fst (mailer.Body msg))
          (fst (mailer.Send ParseAddress sendMail m msg))).
  { unfold mailer.Send.
    destruct (mailer.getFrom ParseAddress msg) as [from [e|]];
      [constructor|].
    destruct (mailer.getRecipients ParseAddress msg) as [rs bcc]. cbv zeta.
    destruct (mailer.Body msg) as [body [e|]]; [constructor|].
    cbn [fst].
    match goal with
    | |- context [sendMail ?c] => set (c0 := c)
    end.
    assert (H0 : Forall (fun c =>
              mailer.s_addr c = mailer.addr m
              /\ mailer.s_auth c = mailer.auth m
              /\ (from, @None mailer.error) = (mailer.s_from c, None)
              /\ exists h, mailer.s_msg c = h ++ body) [c0]).
    { constructor; [|constructor]. repeat split. eexists. reflexivity. }
    destruct (sendMail c0); [exact H0|].
    apply sendBcc_calls; [|exact H0].
    intros to. repeat split. eexists. reflexivity. }
  rewrite Forall_forall in Hall.
  destruct (Hall c Hin) as (H1 & H2 & H3 & H4).
  repeat split; try assumption.
Qed.

End SendCalls.

Lemma Send_sender_witness :
  mailer.getFrom (fun s => inl s)
    (mailer.mkMessage
       [("From"%string, ["a@example.com"%string]);
        ("Sender"%string, ["s@example.com"%string]);
        ("To"%string, ["b@example.com"%string])]
       (bs "Hi", None))
  = ("s@example.com"%string, None).
Proof.
  destruct (@Send_sender unit (fun s => inl s) (fun _ => None)
              (mailer.NewCustomMailer tt "smtp.example.com:25")
              (mailer.mkMessage
                 [("From"%string, ["a@example.com"%string]);
                  ("Sender"%string, ["s@example.com"%string]);
                  ("To"%string, ["b@example.com"%string])]
                 (bs "Hi", None))
              (mailer.mkSent "smtp.example.com:25" tt "s@example.com"
                 ["b@example.com"%string]
                 (bs ("From: a@example.com" ++ crlf
                      ++ "Sender: s@example.com" ++ crlf
                      ++ "To: b@example.com" ++ crlf ++ crlf ++ "Hi"))))
    as (_ & _ & H & _).
  - left. reflexivity.
  - exact H.
Defined.
